(** * AboutCue (Qnote for EOS): the cue store, the refresh engine and the
    active/timing engine of [standalone-server.js], embedded in Rocq.

    The server is a single-threaded Node.js program whose state lives in
    module-level variables.  The embedding makes that state an explicit
    record [state]; every JavaScript function that mutates it becomes a
    function [state -> state].  Callbacks registered with [setTimeout] and
    [setImmediate] are kept in the state as pending timers and run by an
    explicit event ([EvTimer]); [Date.now()] is the time stamp of the event
    being handled.

    What is embedded, first part: [updateOrCreateCue], [requestAllCues],
    [handleCueCountResponse], [handleCueIndexResponse],
    [checkBulkRefreshComplete], [setActiveCueByListAndNumber],
    [parseCueText], the branches of [parseEOSCueMessage] that call them
    (get responses, active/pending text, per-list active/pending), and the
    HTTP handlers for notes, color, tags and for starting a recording.

    Second part (The rest of the server), each with a state of its own laid
    over the first:
    - the show folders: [encodeShowName], [decodeShowName], [getShowDir],
      [listShows], [createShow], [deleteShow], [showExists] and
      [migrateLegacyFolders], over strings of UTF-16 code units and a disk
      that holds the entries of the shows directory;
    - [switchShow], [loadShowData] (its effect on the disk), the endpoints
      that switch, create, load and delete shows, and the branch of
      [parseEOSCueMessage] for the show name of the console;
    - the page and image endpoints, and the tag list of [GET /api/tags];
    - [escapeHtml] and [formatNotesForExport] of the PDF export;
    - [sendOSC] and the interval of [handleCueCountResponse] that sends the
      index requests;
    - the stop, clear and countdown handlers of the show timer;
    - the 500 ms poller: [startActiveCuePolling], [processNextPollRequest],
      its time-out and [POST /api/disconnect], with the requests it sends.
    The notify and fader branches of [parseEOSCueMessage], the settings
    endpoints, the image upload, the contents of the files on disk and the
    layout of the PDF report are not part of it.

    Conventions.
    - JavaScript values are the inductive [jsval]; numbers are exact
      rationals ([Q], kept reduced) plus [NaN].  A number the modelled code
      computes is an integer or an integer divided by 100 or 1000, and the
      rational is the decimal value the double denotes; a sum or a
      difference of such times is exact here and rounded in the program,
      so what is stated about a computed time is where it is stored, its
      sign, or its value as that decimal.  Numerals are read as digits with
      an optional fraction: exponents, [Infinity] and the [0x] prefix are
      not read.
    - Arrays hold strings (the tags of a cue).
    - Strings are Rocq strings (8-bit code units), with the white space of
      JavaScript among them (code units 9 to 13, 32 and 160), except show
      names, which go through [encodeURIComponent] and are lists of 16-bit
      code units.
    - [console.log], [saveCues] and [saveShowTimings] write to the terminal
      and the disk; they do not touch the in-memory state and are left out.
      In the first part [sendOSC] is left out too, and the model is that of
      a connected TCP transport ([tcpPort] set), the default protocol of
      the program; the second part models [sendOSC] with its transports. *)

From Stdlib Require Import Ascii String QArith Qround Lqa.
From Stdlib Require OrderedTypeEx.
From stdpp Require Import gmap strings list pretty sorting.

Local Open Scope string_scope.

(** ** JavaScript values *)

Inductive num :=
| NaN
| Num (q : Q).

(** [VArr] is an array of strings: the only arrays the modelled code looks
    into are the tags of a cue, which the front end sends as strings. *)
Inductive jsval :=
| VUndef
| VNull
| VBool (b : bool)
| VNum (n : num)
| VStr (s : string)
| VArr (l : list string).

Definition estr : string := EmptyString.

Definition numZ (z : Z) : num := Num (inject_Z z).
Definition VInt (z : Z) : jsval := VNum (numZ z).

Module Js.

(** *** Characters and strings *)

Definition is_digit (c : ascii) : bool :=
  let n := nat_of_ascii c in (48 <=? n)%nat && (n <=? 57)%nat.

(** [\s] of a regular expression and the characters [trim] removes,
    restricted to 8-bit code units: tab, line feed, vertical tab, form
    feed, carriage return, space and no-break space. *)
Definition is_ws (c : ascii) : bool :=
  let n := nat_of_ascii c in
  ((9 <=? n)%nat && (n <=? 13)%nat) || (n =? 32)%nat || (n =? 160)%nat.

(** The characters [.] of a regular expression does not match. *)
Definition is_line_terminator (c : ascii) : bool :=
  let n := nat_of_ascii c in (n =? 10)%nat || (n =? 13)%nat.

Definition slash : ascii := "/"%char.

Definition chars (s : string) : list ascii := list_ascii_of_string s.
Definition str (l : list ascii) : string := string_of_list_ascii l.

Fixpoint span (p : ascii -> bool) (l : list ascii) : list ascii * list ascii :=
  match l with
  | [] => ([], [])
  | c :: l' =>
      if p c then let '(a, b) := span p l' in (c :: a, b) else ([], l)
  end.

Definition trimStart (l : list ascii) : list ascii := snd (span is_ws l).
Definition trimEnd (l : list ascii) : list ascii := rev (trimStart (rev l)).

(** [s.trim()] *)
Definition trim (s : string) : string := str (trimEnd (trimStart (chars s))).

(** [s.startsWith(p)] *)
Definition startsWith (p s : string) : bool := String.prefix p s.

(** [s.includes(p)] *)
Fixpoint includes (p s : string) : bool :=
  String.prefix p s ||
  match s with
  | EmptyString => false
  | String _ s' => includes p s'
  end.

(** [s.split('/')]: never empty, one more part than there are slashes. *)
Fixpoint split_go (l : list ascii) (cur : list ascii) : list string :=
  match l with
  | [] => [str (rev cur)]
  | c :: l' =>
      if Ascii.eqb c slash then str (rev cur) :: split_go l' []
      else split_go l' (c :: cur)
  end.

Definition split (s : string) : list string := split_go (chars s) [].

(** [parts.indexOf(x, from)] *)
Fixpoint indexOf_from (x : string) (parts : list string) (from i : nat) : option nat :=
  match parts with
  | [] => None
  | p :: parts' =>
      if (from <=? i)%nat && String.eqb p x then Some i
      else indexOf_from x parts' from (S i)
  end.

Definition indexOf (x : string) (parts : list string) (from : nat) : option nat :=
  indexOf_from x parts from 0.

(** [parts[i]], [undefined] out of range. *)
Definition part_at (parts : list string) (i : nat) : jsval :=
  match parts !! i with
  | Some s => VStr s
  | None => VUndef
  end.

(** *** Numbers *)

Definition qred (q : Q) : num := Num (Qred q).

Definition digit_val (c : ascii) : Z := Z.of_nat (nat_of_ascii c) - 48.

Definition digits_val (l : list ascii) : Z :=
  fold_left (fun acc c => 10 * acc + digit_val c)%Z l 0%Z.

Definition digit_char (d : Z) : ascii := ascii_of_nat (Z.to_nat d + 48).

Fixpoint frac_digits (fuel : nat) (r d : Z) : list ascii :=
  match fuel with
  | O => []
  | S fuel' =>
      if (r =? 0)%Z then []
      else digit_char (10 * r / d) :: frac_digits fuel' ((10 * r) mod d) d
  end.

(** [String(x)] of a finite number: the decimal expansion of the rational.
    Exact for the terminating decimals the program produces (at most 20
    fraction digits are printed); the exponent notation JavaScript switches
    to beyond 1e21 and below 1e-6 is not modelled. *)
Definition numToString (q : Q) : string :=
  let q := Qred q in
  let n := Z.abs (Qnum q) in
  let d := Zpos (Qden q) in
  let body :=
    pretty (n / d)%Z +:+
    (if (n mod d =? 0)%Z then estr
     else "." +:+ str (frac_digits 20 (n mod d) d)) in
  if (Qnum q <? 0)%Z then "-" +:+ body else body.

(** A sign, then decimal digits with an optional fraction: the prefix
    [parseFloat] reads.  Exponents and [Infinity] are not modelled. *)
Definition read_sign (l : list ascii) : bool * list ascii :=
  match l with
  | c :: l' =>
      if Ascii.eqb c "-"%char then (true, l')
      else if Ascii.eqb c "+"%char then (false, l')
      else (false, l)
  | [] => (false, l)
  end.

Definition apply_sign (neg : bool) (q : Q) : Q := if neg then Qopp q else q.

Definition pow10 (n : nat) : Z := Z.pow 10 (Z.of_nat n).

(** Reads [digits], [digits.digits], [digits.] or [.digits]; returns the
    value and the unread rest, or [None] when no digit is present. *)
Definition read_decimal (l : list ascii) : option (Q * list ascii) :=
  let '(ip, rest) := span is_digit l in
  match rest with
  | c :: rest' =>
      if Ascii.eqb c "."%char then
        let '(fp, rest'') := span is_digit rest' in
        match ip, fp with
        | [], [] => None
        | _, _ =>
            Some (Qred (inject_Z (digits_val ip) +
                        Qmake (digits_val fp) (Z.to_pos (pow10 (length fp)))),
                  rest'')
        end
      else
        match ip with
        | [] => None
        | _ => Some (inject_Z (digits_val ip), rest)
        end
  | [] =>
      match ip with
      | [] => None
      | _ => Some (inject_Z (digits_val ip), rest)
      end
  end.

(** [parseFloat(s)] *)
Definition parseFloat_str (s : string) : num :=
  let '(neg, l) := read_sign (trimStart (chars s)) in
  match read_decimal l with
  | Some (q, _) => qred (apply_sign neg q)
  | None => NaN
  end.

(** [parseInt(s)] in radix 10 (the [0x] prefix is not modelled). *)
Definition parseInt_str (s : string) : num :=
  let '(neg, l) := read_sign (trimStart (chars s)) in
  match span is_digit l with
  | ([], _) => NaN
  | (ds, _) => numZ (if neg then - digits_val ds else digits_val ds)
  end.

(** [Number(s)] for a string: empty after trimming is 0, a complete decimal
    literal is its value, anything else is [NaN]. *)
Definition stringToNumber (s : string) : num :=
  match trimEnd (trimStart (chars s)) with
  | [] => numZ 0
  | l =>
      let '(neg, l') := read_sign l in
      match read_decimal l' with
      | Some (q, []) => qred (apply_sign neg q)
      | _ => NaN
      end
  end.

Fixpoint join_comma (l : list string) : string :=
  match l with
  | [] => estr
  | [s] => s
  | s :: l' => s +:+ "," +:+ join_comma l'
  end.

(** [String(v)], also what a template literal does. *)
Definition toStr (v : jsval) : string :=
  match v with
  | VUndef => "undefined"
  | VNull => "null"
  | VBool true => "true"
  | VBool false => "false"
  | VNum NaN => "NaN"
  | VNum (Num q) => numToString q
  | VStr s => s
  | VArr l => join_comma l
  end.

(** [Number(v)] *)
Definition toNumber (v : jsval) : num :=
  match v with
  | VUndef => NaN
  | VNull => numZ 0
  | VBool true => numZ 1
  | VBool false => numZ 0
  | VNum n => n
  | VStr s => stringToNumber s
  | VArr l => stringToNumber (join_comma l)
  end.

Definition parseInt (v : jsval) : num := parseInt_str (toStr v).
Definition parseFloat (v : jsval) : num := parseFloat_str (toStr v).

(** Truthiness: what [if (v)], [!v] and [v || w] look at. *)
Definition truthy (v : jsval) : bool :=
  match v with
  | VUndef | VNull => false
  | VBool b => b
  | VNum NaN => false
  | VNum (Num q) => negb (Qeq_bool q 0)
  | VStr s => negb (String.eqb s estr)
  | VArr _ => true
  end.

(** [a || b] *)
Definition or (a b : jsval) : jsval := if truthy a then a else b.

Definition num_eqb (a b : num) : bool :=
  match a, b with
  | Num p, Num q => Qeq_bool p q
  | _, _ => false
  end.

(** [a === b].  Arrays are objects: two array values are never the same
    object in the modelled code, so they compare unequal. *)
Definition strict_eq (a b : jsval) : bool :=
  match a, b with
  | VUndef, VUndef => true
  | VNull, VNull => true
  | VBool x, VBool y => Bool.eqb x y
  | VNum x, VNum y => num_eqb x y
  | VStr x, VStr y => String.eqb x y
  | _, _ => false
  end.

(** Numeric comparisons; every comparison with [NaN] is false. *)
Definition num_ltb (a b : num) : bool :=
  match a, b with
  | Num p, Num q => match Qcompare p q with Lt => true | _ => false end
  | _, _ => false
  end.

Definition num_leb (a b : num) : bool :=
  match a, b with
  | Num p, Num q => match Qcompare p q with Gt => false | _ => true end
  | _, _ => false
  end.

(** [a > b], [a >= b], [a < b] when at least one side is a number (both
    sides are converted with [Number]). *)
Definition gt (a b : jsval) : bool := num_ltb (toNumber b) (toNumber a).
Definition ge (a b : jsval) : bool := num_leb (toNumber b) (toNumber a).
Definition lt (a b : jsval) : bool := num_ltb (toNumber a) (toNumber b).

Definition is_number (v : jsval) : bool :=
  match v with VNum _ => true | _ => false end.
Definition is_string (v : jsval) : bool :=
  match v with VStr _ => true | _ => false end.

Definition num_sub (a b : num) : num :=
  match a, b with
  | Num p, Num q => qred (p - q)
  | _, _ => NaN
  end.

Definition num_mul (a b : num) : num :=
  match a, b with
  | Num p, Num q => qred (p * q)
  | _, _ => NaN
  end.

(** [Math.max(a, b)] on numbers: [NaN] if either is. *)
Definition num_max (a b : num) : num :=
  match a, b with
  | Num p, Num q => if num_ltb a b then Num q else Num p
  | _, _ => NaN
  end.

(** [Math.round(q)]: the integer nearest to [q], ties towards +infinity. *)
Definition round (q : Q) : Z := Qfloor (q + (1 # 2)).

End Js.

(** ** The cue store and the module-level state *)

(** A cue is a JavaScript object: a finite map from property names to
    values.  A property that is absent reads as [undefined]. *)
Abbreviation cue := (gmap string jsval).

Definition fld (c : cue) (f : string) : jsval := default VUndef (c !! f).

(** An object literal passed as [updates]: its properties in source order. *)
Definition updates := list (string * jsval).

Fixpoint upd_get (u : updates) (f : string) : jsval :=
  match u with
  | [] => VUndef
  | (k, v) :: u' => if String.eqb k f then v else upd_get u' f
  end.

(** ['active'] and ['pending'], the two values of the [type] parameter. *)
Inductive seen := Active | Pending.

Definition seen_str (t : seen) : string :=
  match t with Active => "active" | Pending => "pending" end.

Definition seen_eqb (a b : seen) : bool :=
  match a, b with
  | Active, Active | Pending, Pending => true
  | _, _ => false
  end.

(** An entry of [showTimings.cueTimings]. *)
Record timing := Timing {
  t_cueNumber : jsval;
  t_cueList : jsval;
  t_label : jsval;
  t_timestamp : Q;
  t_timeFromPrevious : Q
}.

(** [showTimings]; [null] is [None]. *)
Record show_timings := ShowTimings {
  isRecording : bool;
  showStartTime : option Z;
  lastCueTime : option Q;
  lastCueNumber : option string;
  cueTimings : list timing
}.

(** The callbacks the refresh engine hands to [setTimeout] and
    [setImmediate].  The 50 ms batch interval of [handleCueCountResponse]
    and the poll timer only send requests and free the polling slot. *)
Inductive timer :=
| TCountFallback   (* requestAllCues, 5 s: no count yet, try the fallbacks *)
| TCountFinal      (* 5 s later: still nothing, the refresh failed *)
| TCompletion      (* setTimeout(() => checkBulkRefreshComplete(), timeout) *)
| TImmediate.      (* setImmediate(() => checkBulkRefreshComplete()) *)

(** The [bulkRefresh...] variables and [lastKnownCueCount]. *)
Record refresh_state := RefreshState {
  bulkRefreshInProgress : bool;
  bulkRefreshCueList : jsval;
  bulkRefreshExpectedCount : jsval;
  bulkRefreshReceivedIndices : list num;
  bulkRefreshReceivedCues : gset string;
  bulkRefreshCountReceived : bool;
  bulkRefreshQueue : list jsval;
  lastKnownCueCount : gmap string jsval
}.

Record state := State {
  cues : list cue;
  cuesChanged : bool;
  mainPlaybackList : string;
  showTimings : show_timings;
  currentShowElapsed : Q;
  lastCueFireTime : option Z;
  refresh : refresh_state;
  currentPollRequest : option (string * seen);
  activePollingInProgress : bool;
  tcpPort : bool;
  timers : list (Z * timer)
}.

Definition set_cues (v : list cue) (s : state) : state :=
  State v (cuesChanged s) (mainPlaybackList s) (showTimings s)
    (currentShowElapsed s) (lastCueFireTime s) (refresh s)
    (currentPollRequest s) (activePollingInProgress s) (tcpPort s) (timers s).

Definition set_cuesChanged (v : bool) (s : state) : state :=
  State (cues s) v (mainPlaybackList s) (showTimings s)
    (currentShowElapsed s) (lastCueFireTime s) (refresh s)
    (currentPollRequest s) (activePollingInProgress s) (tcpPort s) (timers s).

Definition set_showTimings (v : show_timings) (s : state) : state :=
  State (cues s) (cuesChanged s) (mainPlaybackList s) v
    (currentShowElapsed s) (lastCueFireTime s) (refresh s)
    (currentPollRequest s) (activePollingInProgress s) (tcpPort s) (timers s).

Definition set_playback (elapsed : Q) (fire : option Z) (s : state) : state :=
  State (cues s) (cuesChanged s) (mainPlaybackList s) (showTimings s)
    elapsed fire (refresh s)
    (currentPollRequest s) (activePollingInProgress s) (tcpPort s) (timers s).

Definition set_refresh (v : refresh_state) (s : state) : state :=
  State (cues s) (cuesChanged s) (mainPlaybackList s) (showTimings s)
    (currentShowElapsed s) (lastCueFireTime s) v
    (currentPollRequest s) (activePollingInProgress s) (tcpPort s) (timers s).

Definition set_poll (req : option (string * seen)) (busy : bool) (s : state) : state :=
  State (cues s) (cuesChanged s) (mainPlaybackList s) (showTimings s)
    (currentShowElapsed s) (lastCueFireTime s) (refresh s)
    req busy (tcpPort s) (timers s).

Definition set_timers (v : list (Z * timer)) (s : state) : state :=
  State (cues s) (cuesChanged s) (mainPlaybackList s) (showTimings s)
    (currentShowElapsed s) (lastCueFireTime s) (refresh s)
    (currentPollRequest s) (activePollingInProgress s) (tcpPort s) v.

Definition set_inProgress (v : bool) (r : refresh_state) : refresh_state :=
  RefreshState v (bulkRefreshCueList r) (bulkRefreshExpectedCount r)
    (bulkRefreshReceivedIndices r) (bulkRefreshReceivedCues r)
    (bulkRefreshCountReceived r) (bulkRefreshQueue r) (lastKnownCueCount r).

Definition set_cueList (v : jsval) (r : refresh_state) : refresh_state :=
  RefreshState (bulkRefreshInProgress r) v (bulkRefreshExpectedCount r)
    (bulkRefreshReceivedIndices r) (bulkRefreshReceivedCues r)
    (bulkRefreshCountReceived r) (bulkRefreshQueue r) (lastKnownCueCount r).

Definition set_expected (v : jsval) (r : refresh_state) : refresh_state :=
  RefreshState (bulkRefreshInProgress r) (bulkRefreshCueList r) v
    (bulkRefreshReceivedIndices r) (bulkRefreshReceivedCues r)
    (bulkRefreshCountReceived r) (bulkRefreshQueue r) (lastKnownCueCount r).

Definition set_indices (v : list num) (r : refresh_state) : refresh_state :=
  RefreshState (bulkRefreshInProgress r) (bulkRefreshCueList r)
    (bulkRefreshExpectedCount r) v (bulkRefreshReceivedCues r)
    (bulkRefreshCountReceived r) (bulkRefreshQueue r) (lastKnownCueCount r).

Definition set_received (v : gset string) (r : refresh_state) : refresh_state :=
  RefreshState (bulkRefreshInProgress r) (bulkRefreshCueList r)
    (bulkRefreshExpectedCount r) (bulkRefreshReceivedIndices r) v
    (bulkRefreshCountReceived r) (bulkRefreshQueue r) (lastKnownCueCount r).

Definition set_countReceived (v : bool) (r : refresh_state) : refresh_state :=
  RefreshState (bulkRefreshInProgress r) (bulkRefreshCueList r)
    (bulkRefreshExpectedCount r) (bulkRefreshReceivedIndices r)
    (bulkRefreshReceivedCues r) v (bulkRefreshQueue r) (lastKnownCueCount r).

Definition set_queue (v : list jsval) (r : refresh_state) : refresh_state :=
  RefreshState (bulkRefreshInProgress r) (bulkRefreshCueList r)
    (bulkRefreshExpectedCount r) (bulkRefreshReceivedIndices r)
    (bulkRefreshReceivedCues r) (bulkRefreshCountReceived r) v
    (lastKnownCueCount r).

Definition set_lastKnown (v : gmap string jsval) (r : refresh_state) : refresh_state :=
  RefreshState (bulkRefreshInProgress r) (bulkRefreshCueList r)
    (bulkRefreshExpectedCount r) (bulkRefreshReceivedIndices r)
    (bulkRefreshReceivedCues r) (bulkRefreshCountReceived r)
    (bulkRefreshQueue r) v.

(** [setTimeout(cb, delay)] at time [now]: Node replaces a delay that is not
    a number between 1 and 2^31-1 by 1 and drops the fraction. *)
Definition timerDelay (d : num) : Z :=
  match d with
  | NaN => 1
  | Num q =>
      let z := Qfloor q in
      if (z <? 1)%Z || (2147483647 <? z)%Z then 1%Z else z
  end.

Definition setTimeout (now : Z) (t : timer) (delay : num) (s : state) : state :=
  set_timers ((timers s ++ [((now + timerDelay delay)%Z, t)])%list) s.

(** [setImmediate(cb)]: runs once the current callback has returned. *)
Definition setImmediate (now : Z) (t : timer) (s : state) : state :=
  set_timers ((timers s ++ [(now, t)])%list) s.

(** ** updateOrCreateCue *)

Definition alwaysUpdateFields : list string :=
  ["last_seen"; "mark"; "block"; "assert"; "scene"; "part_count";
   "part_number"; "follow_hang"; "follow_time"; "hang_time"; "up_time";
   "down_time"; "focus_time"; "color_time"; "beam_time"; "up_delay";
   "down_delay"; "focus_delay"; "color_delay"; "beam_delay"; "duration"].

(** [arr.includes(k)] on an array of strings. *)
Definition str_in (k : string) (l : list string) : bool :=
  existsb (String.eqb k) l.

(** [v !== '' && v !== undefined && v !== null] *)
Definition hasData (v : jsval) : bool :=
  negb (Js.strict_eq v (VStr estr)) &&
  negb (Js.strict_eq v VUndef) &&
  negb (Js.strict_eq v VNull).

(** The body of the [Object.keys(updates).forEach] loop. *)
Definition applyUpdate (c : cue) (kv : string * jsval) : cue :=
  if str_in kv.1 alwaysUpdateFields then <[kv.1 := kv.2]> c
  else if hasData kv.2 then <[kv.1 := kv.2]> c
  else c.

Definition applyUpdates (c : cue) (u : updates) : cue :=
  foldl applyUpdate c u.

(** The key template: the part is included only when it is [> 0]. *)
Definition makeKey (cueList cueNumber partNumber : jsval) : string :=
  if Js.gt partNumber (VInt 0)
  then Js.toStr cueList +:+ "/" +:+ Js.toStr cueNumber +:+ "/" +:+ Js.toStr partNumber
  else Js.toStr cueList +:+ "/" +:+ Js.toStr cueNumber.

(** [c.cue_list || '1'] *)
Definition listOf (c : cue) : jsval := Js.or (fld c "cue_list") (VStr "1").

(** [c.part_number || 0] *)
Definition partOf (c : cue) : jsval := Js.or (fld c "part_number") (VInt 0).

(** [existingKey] of the [cues.find] callback. *)
Definition existingKey (c : cue) : string :=
  makeKey (listOf c) (fld c "cue_number") (partOf c).

(** [cues.find(pred)] together with the position of the object found, so
    that a write through the returned reference can be put back. *)
Fixpoint findIndex {A} (p : A -> bool) (l : list A) : option (nat * A) :=
  match l with
  | [] => None
  | x :: l' =>
      if p x then Some (O, x)
      else match findIndex p l' with
           | Some (i, y) => Some (S i, y)
           | None => None
           end
  end.

(** The object literal [newCue] without the spread of [updates]. *)
Definition newCueDefaults (cueNumber : string) (cueList : jsval) : updates :=
  [("cue_number", VStr cueNumber); ("cue_list", cueList);
   ("label", VStr estr); ("fade_time", VStr estr); ("notes", VStr estr);
   ("color", VStr "#ffffff"); ("image_path", VNull); ("tags", VArr []);
   ("mark", VStr estr); ("block", VStr estr); ("assert", VStr estr);
   ("follow_time", VNull); ("hang_time", VNull); ("follow_hang", VStr estr);
   ("scene", VStr estr); ("part_count", VInt 0); ("part_number", VInt 0);
   ("focus_time", VNull); ("color_time", VNull); ("beam_time", VNull);
   ("duration", VNull)].

(** An object literal: later properties win. *)
Definition objectOf (props : updates) : cue :=
  foldl (fun c kv => <[kv.1 := kv.2]> c) ∅ props.

Definition newCue (cueNumber : string) (cueList : jsval) (u : updates) : cue :=
  objectOf ((newCueDefaults cueNumber cueList ++ u)%list).

(** The comparator given to [cues.sort]. *)
Definition sortCompare (a b : cue) : num :=
  let listA := Js.parseInt (listOf a) in
  let listB := Js.parseInt (listOf b) in
  if negb (Js.num_eqb listA listB) then Js.num_sub listA listB
  else
    let numA := Js.parseFloat (fld a "cue_number") in
    let numB := Js.parseFloat (fld b "cue_number") in
    if negb (Js.num_eqb numA numB) then Js.num_sub numA numB
    else Js.num_sub (Js.toNumber (partOf a)) (Js.toNumber (partOf b)).

(** [Array.prototype.sort] is stable; it is modelled by insertion sort: an
    element goes before the first one the comparator puts it strictly
    before (a [NaN] result counts as 0).  For cues whose list, number and
    part are numbers the comparator is consistent and every stable sort
    gives this order; with a [NaN] among them the order an engine leaves is
    its own, and nothing is stated about it. *)
Fixpoint sortInsert (x : cue) (l : list cue) : list cue :=
  match l with
  | [] => [x]
  | y :: l' =>
      if Js.num_ltb (sortCompare x y) (numZ 0) then x :: y :: l'
      else y :: sortInsert x l'
  end.

Definition sortCues (l : list cue) : list cue :=
  foldl (fun acc x => sortInsert x acc) [] l.

(** [cueKey] *)
Definition cueKeyOf (cueNumber : string) (u : updates) : string :=
  makeKey (Js.or (upd_get u "cue_list") (VStr "1")) (VStr cueNumber)
    (Js.or (upd_get u "part_number") (VInt 0)).

Definition updateOrCreateCue (cueNumber : string) (u : updates) (s : state) : state :=
  let cueList := Js.or (upd_get u "cue_list") (VStr "1") in
  let cueKey := cueKeyOf cueNumber u in
  let r := refresh s in
  let s1 :=
    if bulkRefreshInProgress r &&
       String.eqb (Js.toStr (bulkRefreshCueList r)) (Js.toStr cueList)
    then set_refresh (set_received ({[cueNumber]} ∪ bulkRefreshReceivedCues r) r) s
    else s in
  match findIndex (fun c => String.eqb (existingKey c) cueKey) (cues s1) with
  | Some (i, existingCue) =>
      set_cues (<[i := applyUpdates existingCue u]> (cues s1)) s1
  | None =>
      set_cues (sortCues ((cues s1 ++ [newCue cueNumber cueList u])%list)) s1
  end.

(** ** The refresh engine *)

(** SameValueZero, the equality of [Array.prototype.includes] and of [Set]:
    [===] except that [NaN] equals itself. *)
Definition sameValueZero (a b : jsval) : bool :=
  match a, b with
  | VNum NaN, VNum NaN => true
  | _, _ => Js.strict_eq a b
  end.

Definition requestAllCues (now : Z) (cueList : jsval) (s : state) : state :=
  let r := refresh s in
  if negb (tcpPort s) then s
  else if bulkRefreshInProgress r then
    if negb (existsb (sameValueZero cueList) (bulkRefreshQueue r)) &&
       negb (Js.strict_eq (bulkRefreshCueList r) cueList)
    then set_refresh (set_queue ((bulkRefreshQueue r ++ [cueList])%list) r) s
    else s
  else
    let r1 :=
      set_received ∅
        (set_indices []
           (set_expected (VInt 0)
              (set_cueList cueList (set_inProgress true r)))) in
    setTimeout now TCountFallback (numZ 5000) (set_refresh r1 s).

(** [bulkRefreshReceivedCues.has(v)]: the set only ever holds the strings
    passed as [cueNumber]. *)
Definition receivedHas (received : gset string) (v : jsval) : bool :=
  match v with
  | VStr n => bool_decide (n ∈ received)
  | _ => false
  end.

(** The predicate of the [cues.filter] call of the cleanup. *)
Definition keepCue (listNum : jsval) (received : gset string) (c : cue) : bool :=
  let cueList := Js.toStr (listOf c) in
  if negb (String.eqb cueList (Js.toStr listNum)) then true
  else if receivedHas received (fld c "cue_number") then true
  else false.

Definition checkBulkRefreshComplete (now : Z) (s : state) : state :=
  let r := refresh s in
  if negb (bulkRefreshInProgress r) then s
  else
    let listNum := bulkRefreshCueList r in
    let kept := List.filter (keepCue listNum (bulkRefreshReceivedCues r)) (cues s) in
    let r1 :=
      set_received ∅
        (set_indices []
           (set_expected (VInt 0)
              (set_cueList VNull (set_inProgress false r)))) in
    let s1 := set_cuesChanged true (set_refresh r1 (set_cues kept s)) in
    match bulkRefreshQueue r1 with
    | [] => s1
    | nextList :: rest =>
        requestAllCues now nextList (set_refresh (set_queue rest r1) s1)
    end.

Definition handleCueCountResponse (now : Z) (cueList count : jsval) (s : state) : state :=
  let r := refresh s in
  if negb (bulkRefreshInProgress r) || negb (Js.strict_eq (bulkRefreshCueList r) cueList)
  then s
  else
    let r1 :=
      set_lastKnown (<[Js.toStr cueList := count]> (lastKnownCueCount r))
        (set_expected count r) in
    let s1 := set_refresh r1 s in
    if Js.strict_eq count (VInt 0) then checkBulkRefreshComplete now s1
    else
      setTimeout now TCompletion
        (Js.num_max (numZ 5000) (Js.num_mul (Js.toNumber count) (numZ 100))) s1.

(** [set.add(index)] on a [Set] of numbers. *)
Definition indicesAdd (index : num) (l : list num) : list num :=
  if existsb (fun n => sameValueZero (VNum n) (VNum index)) l then l
  else (l ++ [index])%list.

Definition handleCueIndexResponse (now : Z) (cueList index : jsval) (s : state) : state :=
  let r := refresh s in
  if negb (bulkRefreshInProgress r) || negb (Js.strict_eq (bulkRefreshCueList r) cueList)
  then s
  else if Js.strict_eq (bulkRefreshExpectedCount r) (VInt 0) then s
  else if Js.lt index (VInt 0) || Js.ge index (bulkRefreshExpectedCount r) then s
  else
    let r1 := set_indices (indicesAdd (Js.toNumber index) (bulkRefreshReceivedIndices r)) r in
    let s1 := set_refresh r1 s in
    if Js.ge (VInt (Z.of_nat (length (bulkRefreshReceivedIndices r1))))
             (bulkRefreshExpectedCount r1)
    then setImmediate now TImmediate s1
    else s1.

(** The bodies of the timer callbacks. *)
Definition runTimer (now : Z) (t : timer) (s : state) : state :=
  match t with
  | TCountFallback =>
      if bulkRefreshInProgress (refresh s) &&
         Js.strict_eq (bulkRefreshExpectedCount (refresh s)) (VInt 0)
      then setTimeout now TCountFinal (numZ 5000) s
      else s
  | TCountFinal =>
      if bulkRefreshInProgress (refresh s) &&
         Js.strict_eq (bulkRefreshExpectedCount (refresh s)) (VInt 0)
      then set_refresh (set_cueList VNull (set_inProgress false (refresh s))) s
      else s
  | TCompletion => checkBulkRefreshComplete now s
  | TImmediate => checkBulkRefreshComplete now s
  end.

(** The pending timer at position [i] fires: it leaves the pending list and
    its callback runs. *)
Definition fireTimer (now : Z) (i : nat) (s : state) : state :=
  match timers s !! i with
  | Some (_, t) => runTimer now t (set_timers (delete i (timers s)) s)
  | None => s
  end.

(** ** Decoding a cue response ([parseEOSCueMessage], the branch for
    [/eos/out/get/cue/...] and [/eos/out/get/cuelist/...]) *)

(** [args[i]] *)
Definition arg (args : list jsval) (i : nat) : jsval := default VUndef (args !! i).

(** [Math.round(x / 10) / 100] *)
Definition secondsOf (x : Q) : num :=
  Js.qred (inject_Z (Js.round (x / inject_Z 10)) / inject_Z 100).

Definition roundSeconds (v : jsval) : jsval :=
  match Js.toNumber v with
  | Num x => VNum (secondsOf x)
  | NaN => VNum NaN
  end.

(** [(typeof a === 'number' && a >= 0) ? Math.round(a / 10) / 100 : null],
    the conversion of the focus, color and beam durations. *)
Definition durationTime (a : jsval) : jsval :=
  if Js.is_number a && Js.ge a (VInt 0) then roundSeconds a else VNull.

(** [(typeof a === 'number' && a > 0) ? Math.round(a / 10) / 100 : null],
    the conversion of the five delays. *)
Definition delayTime (a : jsval) : jsval :=
  if Js.is_number a && Js.gt a (VInt 0) then roundSeconds a else VNull.

(** [upTimeMilliseconds] and [downTimeMilliseconds] *)
Definition timeMilliseconds (a : jsval) : jsval :=
  if Js.is_number a && Js.ge a (VInt 0) then a else VNull.

(** [ms !== null ? Math.round(ms / 10) / 100 : null] *)
Definition upDownTime (ms : jsval) : jsval :=
  if negb (Js.strict_eq ms VNull) then roundSeconds ms else VNull.

(** [followMs]/[hangMs] and their conversion. *)
Definition followHangTime (a : jsval) : jsval :=
  let ms := if Js.is_number a then a else VInt (-1) in
  if Js.ge ms (VInt 0) then roundSeconds ms else VNull.

(** [typeof a === 'string' ? a : ''] *)
Definition stringOrEmpty (a : jsval) : jsval :=
  if Js.is_string a then a else VStr estr.

(** [(typeof a === 'string' && a) ? a : ''] *)
Definition flagString (a : jsval) : jsval :=
  if Js.is_string a && Js.truthy a then a else VStr estr.

Definition durationSec (args : list jsval) : jsval :=
  let zero := VInt 0 in
  let duration :=
    Js.num_max (Js.toNumber (Js.or (timeMilliseconds (arg args 3)) zero))
      (Js.num_max (Js.toNumber (Js.or (timeMilliseconds (arg args 5)) zero))
         (Js.num_max (Js.toNumber (Js.or (arg args 7) zero))
            (Js.num_max (Js.toNumber (Js.or (arg args 9) zero))
               (Js.toNumber (Js.or (arg args 11) zero))))) in
  if Js.gt (VNum duration) zero then roundSeconds (VNum duration) else VNull.

Definition fadeTimeDisplay (upTime downTime : jsval) : string :=
  if negb (Js.strict_eq upTime VNull) && negb (Js.strict_eq downTime VNull) then
    if Js.strict_eq upTime downTime then Js.toStr upTime
    else "↑" +:+ Js.toStr upTime +:+ " ↓" +:+ Js.toStr downTime
  else if negb (Js.strict_eq upTime VNull) then Js.toStr upTime
  else if negb (Js.strict_eq downTime VNull) then Js.toStr downTime
  else estr.

Definition followHangDisplay (followTime hangTime : jsval) : string :=
  let d1 :=
    if negb (Js.strict_eq followTime VNull) then "F" +:+ Js.toStr followTime
    else estr in
  if negb (Js.strict_eq hangTime VNull) then
    (if Js.truthy (VStr d1) then d1 +:+ " " else d1) +:+ "H" +:+ Js.toStr hangTime
  else d1.

(** The object literal passed to [updateOrCreateCue] for a cue response. *)
Definition cueDataUpdates (listNum partNumber : jsval) (args : list jsval) : updates :=
  let upTime := upDownTime (timeMilliseconds (arg args 3)) in
  let downTime := upDownTime (timeMilliseconds (arg args 5)) in
  let followTime := followHangTime (arg args 20) in
  let hangTime := followHangTime (arg args 21) in
  [("label", stringOrEmpty (arg args 2));
   ("uid", arg args 1);
   ("cue_list", listNum);
   ("fade_time", VStr (fadeTimeDisplay upTime downTime));
   ("up_time", upTime);
   ("down_time", downTime);
   ("focus_time", durationTime (arg args 7));
   ("color_time", durationTime (arg args 9));
   ("beam_time", durationTime (arg args 11));
   ("up_delay", delayTime (arg args 4));
   ("down_delay", delayTime (arg args 6));
   ("focus_delay", delayTime (arg args 8));
   ("color_delay", delayTime (arg args 10));
   ("beam_delay", delayTime (arg args 12));
   ("mark", flagString (arg args 16));
   ("block", flagString (arg args 17));
   ("assert", flagString (arg args 18));
   ("follow_time", followTime);
   ("hang_time", hangTime);
   ("follow_hang", VStr (followHangDisplay followTime hangTime));
   ("part_count", if Js.is_number (arg args 26) then arg args 26 else VInt 0);
   ("scene", stringOrEmpty (arg args 28));
   ("scene_end",
    VBool (Js.strict_eq (arg args 29) (VBool true) ||
           Js.strict_eq (arg args 29) (VInt 1)));
   ("duration", durationSec args);
   ("part_number", Js.or (VNum (Js.parseInt partNumber)) (VInt 0))].

(** [pathParts.indexOf(x, from)] with JavaScript's -1 for absent; a
    negative [from] counts from the end.  [pathParts[i]] is [undefined]
    outside the array. *)
Definition indexOfZ (x : string) (parts : list string) (from : Z) : Z :=
  let start :=
    if (from <? 0)%Z then Z.max 0 (Z.of_nat (length parts) + from) else from in
  match Js.indexOf x parts (Z.to_nat start) with
  | Some i => Z.of_nat i
  | None => (-1)%Z
  end.

Definition partZ (parts : list string) (i : Z) : jsval :=
  if (i <? 0)%Z then VUndef else Js.part_at parts (Z.to_nat i).

(** [listNum], [cueNumber] and [partNumber] as read from the address. *)
Definition cueAddress (address : string) : jsval * jsval * jsval :=
  let pathParts := Js.split address in
  if Js.includes "/eos/out/get/cuelist/" address then
    let cuelistIdx := indexOfZ "cuelist" pathParts 0 in
    let cueIdx := indexOfZ "cue" pathParts cuelistIdx in
    (partZ pathParts (cuelistIdx + 1), partZ pathParts (cueIdx + 1),
     partZ pathParts (cueIdx + 2))
  else
    let cueIdx := indexOfZ "cue" pathParts 0 in
    (partZ pathParts (cueIdx + 1), partZ pathParts (cueIdx + 2),
     partZ pathParts (cueIdx + 3)).

(** [pathCount]: [null] when the address has no [list] part after its
    first one. *)
Definition pathCountOf (address : string) : jsval :=
  let pathParts := Js.split address in
  let listIdx := indexOfZ "list" pathParts 0 in
  if (0 <? listIdx)%Z then VNum (Js.parseInt (partZ pathParts (listIdx + 2)))
  else VNull.

(** [uid?.substring(0, 8)] inside the log line: a value that is neither
    nullish nor a string has no [substring] method, the call throws, and
    the [catch] of [parseEOSCueMessage] ends the handler. *)
Definition uidThrows (uid : jsval) : bool :=
  match uid with
  | VUndef | VNull | VStr _ => false
  | _ => true
  end.

(** ** Active and pending cues, and the timing recorder *)

(** The body of the [forEach] that clears [last_seen === type] in one list. *)
Definition clearSeen (t : seen) (list : string) (c : cue) : cue :=
  if Js.strict_eq (fld c "last_seen") (VStr (seen_str t)) &&
     String.eqb (Js.toStr (listOf c)) list
  then <["last_seen" := VNull]> c
  else c.

(** The same loop without the list test (the fallback of [parseCueText]). *)
Definition clearSeenAll (t : seen) (c : cue) : cue :=
  if Js.strict_eq (fld c "last_seen") (VStr (seen_str t))
  then <["last_seen" := VNull]> c
  else c.

Definition set_times (ts tfp : Q) (t : timing) : timing :=
  Timing (t_cueNumber t) (t_cueList t) (t_label t) ts tfp.

(** [(now - showTimings.showStartTime) / 1000] *)
Definition secondsSince (start now : Z) : Q := Qred (Qmake (now - start) 1000).

(** [timeFromPrevious]: [timestamp - lastCueTime] when [lastCueTime] is
    neither [null] nor [<= 0], otherwise 0.  The difference is exact here;
    the program stores the double nearest to it. *)
Definition sincePrevious (timestamp : Q) (last : option Q) : Q :=
  match last with
  | Some t => if Js.num_ltb (numZ 0) (Num t) then Qred (timestamp - t) else 0%Q
  | None => 0%Q
  end.

(** The recording block shared by [setActiveCueByListAndNumber] and
    [parseCueText]; [now] is the value of [Date.now()]. *)
Definition recordTiming (now : Z) (cueNum list : string) (label : jsval)
    (st : show_timings) : show_timings :=
  let start :=
    match showStartTime st with
    | Some z => if (z =? 0)%Z then now else z
    | None => now
    end in
  let timestamp := secondsSince start now in
  let timeFromPrevious := sincePrevious timestamp (lastCueTime st) in
  let differs :=
    match lastCueNumber st with
    | Some n => negb (String.eqb cueNum n)
    | None => true
    end in
  if differs then
    let timings' :=
      match findIndex (fun t => String.eqb (Js.toStr (t_cueNumber t)) cueNum)
                      (cueTimings st) with
      | Some (i, t) => <[i := set_times timestamp timeFromPrevious t]> (cueTimings st)
      | None =>
          (cueTimings st ++
           [Timing (VStr cueNum) (VStr list) label timestamp timeFromPrevious])%list
      end in
    ShowTimings (isRecording st) (Some start) (Some timestamp) (Some cueNum) timings'
  else
    ShowTimings (isRecording st) (Some start) (lastCueTime st) (lastCueNumber st)
      (cueTimings st).

(** The playback block: the elapsed show time jumps to the recorded time of
    the cue that fired.  [same] is the test of the [findIndex] callback. *)
Definition updateElapsed (now : Z) (same : timing -> bool) (s : state) : state :=
  match findIndex same (cueTimings (showTimings s)) with
  | Some (_, t) => set_playback (t_timestamp t) (Some now) s
  | None => s
  end.

Definition setActiveCueByListAndNumber (now : Z) (list cueNum : string) (type : seen)
    (s : state) : state :=
  let cleared := map (clearSeen type list) (cues s) in
  let target :=
    findIndex (fun c => String.eqb (Js.toStr (fld c "cue_number")) cueNum &&
                        String.eqb (Js.toStr (listOf c)) list) cleared in
  let s1 :=
    match target with
    | Some (i, targetCue) =>
        set_cues (<[i := <["last_seen" := VStr (seen_str type)]> targetCue]> cleared) s
    | None =>
        updateOrCreateCue cueNum
          [("cue_list", VStr list); ("last_seen", VStr (seen_str type))]
          (set_cues cleared s)
    end in
  let label :=
    match target with
    | Some (_, targetCue) => Js.or (fld targetCue "label") (VStr estr)
    | None => VStr estr
    end in
  let main := String.eqb list (mainPlaybackList s) in
  let s2 :=
    if seen_eqb type Active && isRecording (showTimings s1) && main
    then set_showTimings (recordTiming now cueNum list label (showTimings s1)) s1
    else s1 in
  if seen_eqb type Active && main && negb (isRecording (showTimings s2)) &&
     negb (length (cueTimings (showTimings s2)) =? 0)%nat
  then updateElapsed now
         (fun t => String.eqb (Js.toStr (t_cueNumber t)) cueNum) s2
  else s2.

(** [-?\d+] and [\d+] on a whole path part. *)
Definition isDigits (p : string) : bool :=
  match Js.chars p with
  | [] => false
  | l => forallb Js.is_digit l
  end.

Definition isSignedDigits (p : string) : bool :=
  match Js.chars p with
  | c :: l => if Ascii.eqb c "-"%char then isDigits (Js.str l) else isDigits p
  | [] => false
  end.

(** The address of a cue-list index response,
    [/eos/out/get/cuelist/<n>/list/<i>/<c>], which [parseEOSCueMessage]
    handles in a branch of its own that ends with [return]. *)
Definition isCuelistIndexAddress (address : string) : bool :=
  match Js.split address with
  | [e; p1; p2; p3; p4; n; p6; i; c] =>
      String.eqb e estr && String.eqb p1 "eos" && String.eqb p2 "out" &&
      String.eqb p3 "get" && String.eqb p4 "cuelist" && isSignedDigits n &&
      String.eqb p6 "list" && isDigits i && isDigits c
  | _ => false
  end.

(** The cue-response branch of [parseEOSCueMessage]. *)
Definition handleGetResponse (now : Z) (address : string) (args : list jsval)
    (s : state) : state :=
  if negb (Js.includes "/eos/out/get/cue/" address ||
           Js.includes "/eos/out/get/cuelist/" address) then s
  else if Js.includes "/fx/" address || Js.includes "/actions/" address ||
          Js.includes "/links/" address || Js.includes "/curves/" address then s
  else
    let '(listNum, cueNumber, partNumber) := cueAddress address in
    if str_in "count" (Js.split address) then
      handleCueCountResponse now (VNum (Js.parseInt listNum)) (arg args 0) s
    else
      let pathCount := pathCountOf address in
      let listIndex := arg args 0 in
      if uidThrows (arg args 1) then s
      else
        let r := refresh s in
        let s1 :=
          if bulkRefreshInProgress r && negb (Js.strict_eq pathCount VNull) &&
             Js.strict_eq (bulkRefreshExpectedCount r) (VInt 0)
          then
            setTimeout now TCompletion
              (Js.num_max (numZ 5000) (Js.num_mul (Js.toNumber pathCount) (numZ 50)))
              (set_refresh (set_countReceived true (set_expected pathCount r)) s)
          else s in
        let s2 :=
          if Js.is_number listIndex
          then handleCueIndexResponse now (VNum (Js.parseInt listNum)) listIndex s1
          else s1 in
        match cueNumber with
        | VStr n =>
            if Js.truthy cueNumber && negb (String.eqb n "0") &&
               Js.ge (VNum (Js.parseInt listNum)) (VInt 0)
            then
              let s3 := updateOrCreateCue n (cueDataUpdates listNum partNumber args) s2 in
              match currentPollRequest s3 with
              | Some (pollList, pollType) =>
                  if activePollingInProgress s3 &&
                     String.eqb (Js.toStr listNum) pollList
                  then
                    set_poll None false
                      (set_cuesChanged true
                         (setActiveCueByListAndNumber now (Js.toStr listNum) n pollType s3))
                  else s3
              | None => s3
              end
            else s2
        | _ => s2
        end.

(** ** parseCueText *)

Module Re.
Import Js.

(** [\d+(?:\.\d+)?] at the start of [l]: the text matched and the rest. *)
Definition cueNumber (l : list ascii) : option (list ascii * list ascii) :=
  let '(ip, r) := span is_digit l in
  match ip, r with
  | [], _ => None
  | _, c :: r' =>
      if Ascii.eqb c "."%char then
        let '(fp, r'') := span is_digit r' in
        match fp with
        | [] => Some (ip, r)
        | _ => Some ((ip ++ c :: fp)%list, r'')
        end
      else Some (ip, r)
  | _, [] => Some (ip, [])
  end.

(** The optional tail of both patterns: white space, then a group that
    takes any characters but line terminators up to the end of the input.
    [Some None] when the tail is absent, [Some (Some g)] with the text of
    the group. *)
Definition optTail (r : list ascii) : option (option (list ascii)) :=
  match r with
  | [] => Some None
  | c :: _ =>
      if is_ws c then
        let body := trimStart r in
        if existsb is_line_terminator body then None else Some (Some body)
      else None
  end.

(** [group ? group.trim() : ''] *)
Definition trimmedGroup (g : option (list ascii)) : list ascii :=
  match g with
  | Some body => trimEnd (trimStart body)
  | None => []
  end.

(** The pattern of [listCueMatch]: digits, a slash, a cue number and the
    optional tail; gives list, cue and remainder. *)
Definition listCue (text : list ascii) : option (string * string * list ascii) :=
  let '(l, r) := span is_digit text in
  match l, r with
  | _ :: _, c :: r1 =>
      if Ascii.eqb c slash then
        match cueNumber r1 with
        | Some (cu, r2) =>
            match optTail r2 with
            | Some g => Some (str l, str cu, trimmedGroup g)
            | None => None
            end
        | None => None
        end
      else None
  | _, _ => None
  end.

(** The pattern of [cueOnlyMatch]: a cue number and the optional tail. *)
Definition cueOnly (text : list ascii) : option (string * list ascii) :=
  match cueNumber text with
  | Some (cu, r2) =>
      match optTail r2 with
      | Some g => Some (str cu, trimmedGroup g)
      | None => None
      end
  | None => None
  end.

(** The class [[\d.:]] of [fadeTimePattern]. *)
Definition is_fade (c : ascii) : bool :=
  is_digit c || Ascii.eqb c "."%char || Ascii.eqb c ":"%char.

(** [([\d.:]+)\s+(\d+)%\s*$]: fade and completion digits. *)
Definition fadePct (l : list ascii) : option (list ascii * list ascii) :=
  let '(f, r) := span is_fade l in
  let '(w, r1) := span is_ws r in
  let '(d, r2) := span is_digit r1 in
  match f, w, d, r2 with
  | _ :: _, _ :: _, _ :: _, c :: r3 =>
      if Ascii.eqb c "%"%char && forallb is_ws r3 then Some (f, d) else None
  | _, _, _, _ => None
  end.

(** [([\d.:]+)\s*$] *)
Definition fadeOnly (l : list ascii) : option (list ascii) :=
  let '(f, r) := span is_fade l in
  match f with
  | _ :: _ => if forallb is_ws r then Some f else None
  | [] => None
  end.

(** [\s+] followed by [k]. *)
Definition afterWs {A} (k : list ascii -> option A) (l : list ascii) : option A :=
  let '(w, r) := span is_ws l in
  match w with
  | _ :: _ => k r
  | [] => None
  end.

(** [^(.+?)] followed by [k]: the shortest non-empty prefix without line
    terminator after which [k] matches. *)
Fixpoint lazyLabel {A} (k : list ascii -> option A) (pre : list ascii) (l : list ascii)
    : option (list ascii * A) :=
  match l with
  | [] => None
  | c :: l' =>
      if is_line_terminator c then None
      else match k l' with
           | Some x => Some (rev (c :: pre), x)
           | None => lazyLabel k (c :: pre) l'
           end
  end.

(** Step 2 of [parseCueText]: [(fadeTime, completion, label)]. *)
Definition remainderParts (remainder : list ascii) : string * string * string :=
  match fadePct remainder with
  | Some (f, d) => (str f, str d +:+ "%", estr)
  | None =>
      match lazyLabel (afterWs fadePct) [] remainder with
      | Some (lab, (f, d)) => (str f, str d +:+ "%", str (trimEnd (trimStart lab)))
      | None =>
          match fadeOnly remainder with
          | Some f => (str f, estr, estr)
          | None =>
              match lazyLabel (afterWs fadeOnly) [] remainder with
              | Some (lab, f) => (str f, estr, str (trimEnd (trimStart lab)))
              | None => (estr, estr, str remainder)
              end
          end
      end
  end.

End Re.

(** [if (contextList)]: a list is known and is not the empty string. *)
Definition knownList (contextList : option string) : option string :=
  match contextList with
  | Some l => if Js.truthy (VStr l) then Some l else None
  | None => None
  end.

(** The test for an empty or reset cue text. *)
Definition isResetText (text : string) : bool :=
  negb (Js.truthy (VStr text)) || String.eqb text "0.0 100%" ||
  Js.startsWith "0.0 " text || Js.startsWith "0/0" text || String.eqb text estr.

(** [list], [cue] and [remainder] of the text, or [None] where the function
    returns without a match. *)
Definition cueTextTarget (text : string) (contextList : option string)
    : option (string * string * list ascii) :=
  match Re.listCue (Js.chars text) with
  | Some x => Some x
  | None =>
      match knownList contextList with
      | Some l =>
          match Re.cueOnly (Js.chars text) with
          | Some (cu, rem) => Some (l, cu, rem)
          | None => None
          end
      | None => None
      end
  end.

(** The object [updates] built at the end of [parseCueText]: [fade_time]
    is part of it only for a pending cue or a completion of 0%. *)
Definition textUpdates (type : seen) (cueList : string) (remainder : list ascii) : updates :=
  let '(fadeTime, completion, label) := Re.remainderParts remainder in
  ([("cue_list", VStr cueList); ("label", VStr label);
    ("last_seen", VStr (seen_str type)); ("completion", VStr completion)] ++
   (if Js.truthy (VStr fadeTime) &&
       (String.eqb completion "0%" || seen_eqb type Pending)
    then [("fade_time", VStr fadeTime)] else []))%list.

Definition parseCueText (now : Z) (cueText : string) (type : seen)
    (contextList : option string) (s : state) : state :=
  let text := Js.trim cueText in
  if isResetText text then
    match knownList contextList with
    | Some l => set_cues (map (clearSeen type l) (cues s)) s
    | None => set_cues (map (clearSeenAll type) (cues s)) s
    end
  else
    match cueTextTarget text contextList with
    | None => s
    | Some (list, cue, remainder) =>
        let '(fadeTime, completion, label) := Re.remainderParts remainder in
        let main := String.eqb list (mainPlaybackList s) in
        let s1 :=
          if seen_eqb type Active && isRecording (showTimings s) && main
          then set_showTimings
                 (recordTiming now cue list (VStr label) (showTimings s)) s
          else s in
        let s2 :=
          if seen_eqb type Active && main && negb (isRecording (showTimings s1)) &&
             negb (length (cueTimings (showTimings s1)) =? 0)%nat
          then updateElapsed now
                 (fun t => Js.strict_eq (t_cueNumber t) (VStr cue)) s1
          else s1 in
        let s3 := set_cues (map (clearSeen type list) (cues s2)) s2 in
        updateOrCreateCue cue (textUpdates type list remainder) s3
    end.

(** ** The handlers of [parseEOSCueMessage] around the functions above *)

(** The address test of the branch for active ([type = Active]) or pending
    cue text gives [addrList]: the digits between [/cue/] and [/text] when
    the address has them.  The branch itself: *)
Definition contextListOf (type : seen) (addrList : option string) (s : state)
    : option string :=
  let pollList :=
    match currentPollRequest s with
    | Some (l, t) => if seen_eqb t type then Some l else None
    | None => None
    end in
  match knownList addrList with
  | Some l => Some l
  | None => pollList
  end.

Definition onCueText (now : Z) (type : seen) (args : list jsval)
    (addrList : option string) (s : state) : state :=
  let s1 :=
    match Js.or (arg args 0) (VStr estr) with
    | VStr cueText =>
        parseCueText now cueText type (contextListOf type addrList s) s
    | _ => s   (* [cueText.trim] is not a function: caught inside parseCueText *)
    end in
  let s2 :=
    match currentPollRequest s1 with
    | Some (_, t) =>
        if activePollingInProgress s1 && seen_eqb t type
        then set_poll None false s1 else s1
    | None => s1
    end in
  set_cuesChanged true s2.

(** The branch for [/eos/out/active/cue/<list>/<cue>] and its pending twin. *)
Definition onCuePerList (now : Z) (type : seen) (list cueNum : string) (s : state) : state :=
  set_cuesChanged true (setActiveCueByListAndNumber now list cueNum type s).

(** The branch for [/eos/out/get/cuelist/<n>/list/<i>/<c>], with
    [cuelistNumber = parseInt(pathParts[5])]; the bookkeeping of
    [knownCueLists] for the poller is left out. *)
Definition onCuelistIndex (now : Z) (cuelistNumber : num) (s : state) : state :=
  if Js.num_ltb cuelistNumber (numZ 0) then s
  else requestAllCues now (VNum cuelistNumber) s.

(** [parseEOSCueMessage] on a message of the [/eos/out/get/] family: the
    cue-list branch returns before the cue-response branch is reached. *)
Definition onGetMessage (now : Z) (address : string) (args : list jsval)
    (s : state) : state :=
  if isCuelistIndexAddress address
  then onCuelistIndex now (Js.parseInt (partZ (Js.split address) 5)) s
  else handleGetResponse now address args s.

(** ** The HTTP endpoints that annotate a cue or start a recording *)

(** [POST /api/cues/:cueNumber/notes] with body [{ notes }] *)
Definition apiNotes (cueNumber : string) (notes : jsval) (s : state) : state :=
  updateOrCreateCue cueNumber [("notes", notes)] s.

(** [POST /api/cues/:cueNumber/color] with body [{ color }] *)
Definition apiColor (cueNumber : string) (color : jsval) (s : state) : state :=
  updateOrCreateCue cueNumber [("color", color)] s.

(** [POST /api/cues/:cueNumber/tags] with body [{ tags }] *)
Definition tagArrayOf (tags : jsval) : jsval :=
  match tags with VArr _ => tags | _ => VArr [] end.

Definition apiTags (cueNumber : string) (tags : jsval) (s : state) : state :=
  updateOrCreateCue cueNumber [("tags", tagArrayOf tags)] s.

(** [POST /api/show-timings/start] *)
Definition apiTimingsStart (now : Z) (s : state) : state :=
  set_playback 0%Q None
    (set_showTimings (ShowTimings true (Some now) None None []) s).

(** ** Events and runs *)

Inductive event :=
| EvGet (address : string) (args : list jsval)
| EvCuePerList (type : seen) (list cueNum : string)
| EvCueText (type : seen) (args : list jsval) (addrList : option string)
| EvTimer (i : nat)
| EvRequestAllCues (cueList : Z)
| EvNotes (cueNumber : string) (notes : jsval)
| EvColor (cueNumber : string) (color : jsval)
| EvTags (cueNumber : string) (tags : jsval)
| EvTimingsStart.

(** One turn of the event loop at wall-clock time [now]. *)
Definition step (now : Z) (e : event) (s : state) : state :=
  match e with
  | EvGet address args => onGetMessage now address args s
  | EvCuePerList type list cueNum => onCuePerList now type list cueNum s
  | EvCueText type args addrList => onCueText now type args addrList s
  | EvTimer i => fireTimer now i s
  | EvRequestAllCues l => requestAllCues now (VInt l) s
  | EvNotes n v => apiNotes n v s
  | EvColor n v => apiColor n v s
  | EvTags n v => apiTags n v s
  | EvTimingsStart => apiTimingsStart now s
  end.

Definition run (evs : list (Z * event)) (s : state) : state :=
  foldl (fun s ne => step ne.1 ne.2 s) s evs.

(** The state of a freshly started server connected over TCP. *)
Definition initialState : state :=
  State [] false "1" (ShowTimings false None None None []) 0%Q None
    (RefreshState false VNull (VInt 0) [] ∅ false [] ∅)
    None false true [].

(** ** The notions the properties are stated with *)

(** A string without [/]: every part of a split address, every list and cue
    number a pattern of [parseCueText] or of the address tests extracts. *)
Fixpoint slashFree (s : string) : bool :=
  match s with
  | EmptyString => true
  | String c s' => negb (Ascii.eqb c Js.slash) && slashFree s'
  end.

(** The list a cue belongs to and its number, as the program compares
    them: [String(c.cue_list || '1')] and [String(c.cue_number)]. *)
Definition listStr (c : cue) : string := Js.toStr (listOf c).
Definition numberStr (c : cue) : string := Js.toStr (fld c "cue_number").

(** The fields the user owns. *)
Definition userFields : list string :=
  ["notes"; "color"; "tags"; "page"; "image_path"].

Definition sameUserFields (c c' : cue) : Prop :=
  ∀ f, f ∈ userFields → c' !! f = c !! f.

(** [cues.find(c => existingKey === k)] *)
Definition lookupKey (k : string) (cs : list cue) : option cue :=
  snd <$> findIndex (fun c => String.eqb (existingKey c) k) cs.

Definition hasKey (k : string) (cs : list cue) : bool :=
  existsb (fun c => String.eqb (existingKey c) k) cs.

(** A store as the console fills it: lists and cue numbers have no slash
    and no two cues share a key. *)
Definition wfCue (c : cue) : Prop :=
  slashFree (listStr c) = true ∧ slashFree (numberStr c) = true.

Definition wfStore (cs : list cue) : Prop :=
  Forall wfCue cs ∧ NoDup (map existingKey cs).

(** The events of the refresh engine: responses to get requests, timers,
    and refresh requests. *)
Definition refreshEvent (e : event) : bool :=
  match e with
  | EvGet _ _ | EvTimer _ | EvRequestAllCues _ => true
  | _ => false
  end.

(** The key [k] is in the store before and after every event of the run. *)
Fixpoint survives (k : string) (evs : list (Z * event)) (s : state) : bool :=
  hasKey k (cues s) &&
  match evs with
  | [] => true
  | ne :: evs' => survives k evs' (step ne.1 ne.2 s)
  end.

(** [c.last_seen === type] for a cue of list [l]. *)
Definition isSeen (t : seen) (l : string) (c : cue) : bool :=
  Js.strict_eq (fld c "last_seen") (VStr (seen_str t)) && String.eqb (listStr c) l.

Definition seenCount (t : seen) (l : string) (cs : list cue) : nat :=
  length (List.filter (isSeen t l) cs).

(** Invariant 2 of the data model. *)
Definition oneSeenPerList (cs : list cue) : Prop :=
  ∀ t l, (seenCount t l cs <= 1)%nat.

(** The events that track the active and the pending cue, with the lists
    and cue numbers the address patterns can yield. *)
Definition trackingEvent (e : event) : bool :=
  match e with
  | EvCuePerList _ list cueNum =>
      slashFree list && slashFree cueNum && negb (String.eqb list estr)
  | EvCueText _ _ addrList =>
      match addrList with Some l => slashFree l | None => true end
  | _ => false
  end.

(** The events that report an active or a pending cue. *)
Definition cueEvent (e : event) : bool :=
  match e with
  | EvCuePerList _ _ _ | EvCueText _ _ _ => true
  | _ => false
  end.

(** The list, the cue number and the label an active-cue event hands to the
    timing recorder: those of the address for a per-list event, those parsed
    from the text for a text event that is not a reset. *)
Definition firedCue (e : event) (s : state) : option (string * string * jsval) :=
  match e with
  | EvCuePerList Active list cueNum =>
      let cleared := map (clearSeen Active list) (cues s) in
      match findIndex (fun c => String.eqb (Js.toStr (fld c "cue_number")) cueNum &&
                                String.eqb (Js.toStr (listOf c)) list) cleared with
      | Some (_, targetCue) => Some (list, cueNum, Js.or (fld targetCue "label") (VStr estr))
      | None => Some (list, cueNum, VStr estr)
      end
  | EvCueText Active args addrList =>
      match Js.or (arg args 0) (VStr estr) with
      | VStr cueText =>
          let text := Js.trim cueText in
          if isResetText text then None
          else
            match cueTextTarget text (contextListOf Active addrList s) with
            | Some (list, cue, remainder) =>
                Some (list, cue, VStr (Re.remainderParts remainder).2)
            | None => None
            end
      | _ => None
      end
  | _ => None
  end.

(** The cue numbers of the timing entries, as [findIndex] compares them. *)
Definition timingKeys (st : show_timings) : list string :=
  map (fun t => Js.toStr (t_cueNumber t)) (cueTimings st).

(** ** Further notions used in the statements and their proofs *)

(** The argument positions of the five durations and of the five delays,
    with the field each one fills. *)
Definition durationArgs : list (nat * string) :=
  [(3, "up_time"); (5, "down_time"); (7, "focus_time"); (9, "color_time");
   (11, "beam_time")]%nat.

Definition delayArgs : list (nat * string) :=
  [(4, "up_delay"); (6, "down_delay"); (8, "focus_delay"); (10, "color_delay");
   (12, "beam_delay")]%nat.

Definition sampleArgs : list jsval :=
  [VInt 0; VStr "uid-1"; VStr "Blackout"; VInt 155; VInt 0; VInt 300; VInt (-1)].

(** What [updateOrCreateCue] is called with when the data comes from the
    console: a cue number and a list without slash, and an object literal
    that names no user field and not the cue number. *)
Definition consoleUpdate (n : string) (u : updates) : Prop :=
  slashFree n = true ∧
  slashFree (Js.toStr (Js.or (upd_get u "cue_list") (VStr "1"))) = true ∧
  NoDup (map fst u) ∧
  ("cue_number" ∉ map fst u) ∧
  (∀ f, f ∈ userFields → f ∉ map fst u).

(** Every cue of [cs] is still in [cs'], under the same key and with the
    same user fields. *)
Definition kept (cs cs' : list cue) : Prop :=
  ∀ c, c ∈ cs → ∃ c', c' ∈ cs' ∧ existingKey c' = existingKey c ∧ sameUserFields c c'.

(** A cue of [cs'] that has the key of a cue of [cs] has its user fields. *)
Definition userStable (cs cs' : list cue) : Prop :=
  ∀ c c', c ∈ cs → c' ∈ cs' → existingKey c' = existingKey c → sameUserFields c c'.

(** A path part is [undefined] or a string without slash. *)
Definition pathValue (v : jsval) : Prop :=
  v = VUndef ∨ ∃ p, v = VStr p ∧ slashFree p = true.

(** The property names of the object literal of a cue response. *)
Definition cueDataKeys : list string :=
  ["label"; "uid"; "cue_list"; "fade_time"; "up_time"; "down_time";
   "focus_time"; "color_time"; "beam_time"; "up_delay"; "down_delay";
   "focus_delay"; "color_delay"; "beam_delay"; "mark"; "block"; "assert";
   "follow_time"; "hang_time"; "follow_hang"; "part_count"; "scene";
   "scene_end"; "duration"; "part_number"].

(** An executable form of [wfStore]. *)
Definition wfStoreb (cs : list cue) : bool :=
  forallb (fun c => slashFree (listStr c) && slashFree (numberStr c)) cs &&
  bool_decide (NoDup (map existingKey cs)).

Definition c1_events : list (Z * event) :=
  [(10%Z, EvRequestAllCues 1);
   (20%Z, EvGet "/eos/out/get/cue/1/count" [VInt 2]);
   (30%Z, EvGet "/eos/out/get/cue/1/5/0/list/0/2" [VInt 0; VStr "uid-5"; VStr estr]);
   (40%Z, EvGet "/eos/out/get/cue/1/6/0/list/1/2" [VInt 1; VStr "uid-6"; VStr "Six"]);
   (41%Z, EvTimer 2)].

Definition c1_start : state := run [(0%Z, EvNotes "5" (VStr "hello"))] initialState.

(** The address is that of a cue response carrying cue data: it passes the
    guards of the branch and is not a count response. *)
Definition isCueDataAddress (a : string) : bool :=
  negb (isCuelistIndexAddress a) &&
  (Js.includes "/eos/out/get/cue/" a || Js.includes "/eos/out/get/cuelist/" a) &&
  negb (Js.includes "/fx/" a || Js.includes "/actions/" a ||
        Js.includes "/links/" a || Js.includes "/curves/" a) &&
  negb (str_in "count" (Js.split a)).

(** The expected count the response is measured against: the count of its
    own address when none is established yet. *)
Definition expectedAfter (a : string) (s : state) : jsval :=
  if bulkRefreshInProgress (refresh s) && negb (Js.strict_eq (pathCountOf a) VNull) &&
     Js.strict_eq (bulkRefreshExpectedCount (refresh s)) (VInt 0)
  then pathCountOf a
  else bulkRefreshExpectedCount (refresh s).

(** The index is not one the refresh waits for. *)
Definition staleIndex (index : jsval) (expected : jsval) : bool :=
  Js.strict_eq expected (VInt 0) || Js.lt index (VInt 0) || Js.ge index expected.

(** The timer at position [i] may fire at time [now]: it is due, and no
    other pending timer is due earlier. *)
Definition timerDue (now : Z) (i : nat) (s : state) : bool :=
  match timers s !! i with
  | Some (due, _) =>
      (due <=? now)%Z && forallb (fun dt => (due <=? dt.1)%Z) (timers s)
  | None => false
  end.

(** A run the event loop can produce: time does not go back, a timer fires
    only when it is due and first in line, and a message is handled only
    once every timer due before it has fired. *)
Fixpoint wellTimed (prev : Z) (evs : list (Z * event)) (s : state) : bool :=
  match evs with
  | [] => true
  | ne :: evs' =>
      (prev <=? ne.1)%Z &&
      match ne.2 with
      | EvTimer i => timerDue ne.1 i s
      | _ => forallb (fun dt => (ne.1 <=? dt.1)%Z) (timers s)
      end &&
      wellTimed ne.1 evs' (step ne.1 ne.2 s)
  end.

(** List 1 holds cue 5, list 2 holds cue 10 with a note. *)
Definition c8_start : state :=
  run [(0%Z, EvNotes "5" (VStr "hello"));
       (1%Z, EvCuePerList Pending "2" "10")] initialState.

(** A refresh of list 1 completes at once; list 2 is discovered and its
    refresh starts, but the console never answers the count request. *)
Definition c8_session1 : list (Z * event) :=
  [(100%Z, EvRequestAllCues 1);
   (200%Z, EvGet "/eos/out/get/cue/1/count" [VInt 1]);
   (300%Z, EvGet "/eos/out/get/cue/1/5/0/list/0/1" [VInt 0; VStr "uid-5"; VStr "Five"]);
   (300%Z, EvTimer 2);
   (400%Z, EvGet "/eos/out/get/cuelist/2/list/1/2" [VInt 1; VStr "uid-list-2"])].

(** The count-fallback timer and the completion timer of the refresh of
    list 1 are still pending; they fire 5 s after they were set. *)
Definition c8_stale_timers : list (Z * event) :=
  [(5100%Z, EvTimer 0);
   (5200%Z, EvTimer 0)].

(** A cue that carries the mark [ty] in list [L] and no other. *)
Definition markedOnly (ty : seen) (L : string) (c : cue) : Prop :=
  ∀ t l, isSeen t l c = true → t = ty ∧ l = L.

(** The cues outside list [l]. *)
Definition otherList (l : string) (c : cue) : bool := negb (String.eqb (listStr c) l).

(** The list of the outstanding poll has no slash. *)
Definition pollOK (s : state) : Prop :=
  match currentPollRequest s with
  | Some (l, _) => slashFree l = true
  | None => True
  end.

(** The type, list and cue number an event marks; [None] for a reset text
    and for a text that does not parse. *)
Definition cueTarget (e : event) (s : state) : option (seen * string * string) :=
  match e with
  | EvCuePerList type list cueNum => Some (type, list, cueNum)
  | EvCueText type args addrList =>
      match Js.or (arg args 0) (VStr estr) with
      | VStr cueText =>
          let text := Js.trim cueText in
          if isResetText text then None
          else
            match cueTextTarget text (contextListOf type addrList s) with
            | Some (list, cue, _) => Some (type, list, cue)
            | None => None
            end
      | _ => None
      end
  | _ => None
  end.

(** An object literal that marks a cue of list [L] with [ty] and names no
    part. *)
Definition markUpdate (ty : seen) (L : string) (u : updates) : Prop :=
  NoDup (map fst u) ∧
  upd_get u "cue_list" = VStr L ∧
  upd_get u "last_seen" = VStr (seen_str ty) ∧
  ("cue_list" ∈ map fst u) ∧ ("last_seen" ∈ map fst u) ∧
  ("part_number" ∉ map fst u).

(** * The rest of the server *)

(** ** Show names and show folders *)

(** A show name reaches the folder functions as a JavaScript string, and
    [encodeURIComponent] looks at its UTF-16 code units: in this part a
    string is the list of its code units. *)
Abbreviation ustring := (list Z).

(** The code units of a literal of the program text. *)
Definition units (s : string) : ustring :=
  map (fun c => Z.of_nat (nat_of_ascii c)) (Js.chars s).

Module Uri.
Local Open Scope Z_scope.

(** A code unit is a 16-bit number. *)
Definition isUnit (c : Z) : bool := (0 <=? c) && (c <? 65536).

Definition isHigh (c : Z) : bool := (55296 <=? c) && (c <=? 56319).
Definition isLow (c : Z) : bool := (56320 <=? c) && (c <=? 57343).

(** A string without an unpaired surrogate, the strings
    [encodeURIComponent] accepts. *)
Fixpoint wellFormed (s : ustring) : bool :=
  match s with
  | [] => true
  | c :: s' =>
      isUnit c &&
      if isHigh c then
        match s' with
        | d :: s'' => isLow d && wellFormed s''
        | [] => false
        end
      else negb (isLow c) && wellFormed s'
  end.

Definition isAlpha (c : Z) : bool :=
  ((65 <=? c) && (c <=? 90)) || ((97 <=? c) && (c <=? 122)).
Definition isDecimal (c : Z) : bool := (48 <=? c) && (c <=? 57).

(** The marks [- _ . ! ~ * ' ( )]. *)
Definition isMark (c : Z) : bool :=
  (c =? 45) || (c =? 95) || (c =? 46) || (c =? 33) || (c =? 126) ||
  (c =? 42) || (c =? 39) || (c =? 40) || (c =? 41).

(** The characters [encodeURIComponent] copies. *)
Definition unescaped (c : Z) : bool := isAlpha c || isDecimal c || isMark c.

(** An upper-case hexadecimal digit. *)
Definition hexDigit (d : Z) : Z := if d <? 10 then 48 + d else 55 + d.

(** [%XX] for one octet. *)
Definition percent (b : Z) : ustring := [37; hexDigit (b / 16); hexDigit (b mod 16)].

(** The UTF-8 octets of a code point. *)
Definition utf8 (cp : Z) : list Z :=
  if cp <? 128 then [cp]
  else if cp <? 2048 then [192 + cp / 64; 128 + cp mod 64]
  else if cp <? 65536 then
    [224 + cp / 4096; 128 + (cp / 64) mod 64; 128 + cp mod 64]
  else
    [240 + cp / 262144; 128 + (cp / 4096) mod 64; 128 + (cp / 64) mod 64;
     128 + cp mod 64].

(** The code point of a surrogate pair. *)
Definition pairPoint (hi lo : Z) : Z := (hi - 55296) * 1024 + (lo - 56320) + 65536.

Definition escape (cp : Z) : ustring := flat_map percent (utf8 cp).

(** [encodeURIComponent(s)]; [None] is the [URIError] of an unpaired
    surrogate. *)
Fixpoint encodeURIComponent (s : ustring) : option ustring :=
  match s with
  | [] => Some []
  | c :: s' =>
      if unescaped c then cons c <$> encodeURIComponent s'
      else if isHigh c then
        match s' with
        | d :: s'' =>
            if isLow d
            then app (escape (pairPoint c d)) <$> encodeURIComponent s''
            else None
        | [] => None
        end
      else if isLow c then None
      else app (escape c) <$> encodeURIComponent s'
  end.

(** The value of a hexadecimal digit of either case. *)
Definition hexVal (c : Z) : option Z :=
  if isDecimal c then Some (c - 48)
  else if (65 <=? c) && (c <=? 70) then Some (c - 55)
  else if (97 <=? c) && (c <=? 102) then Some (c - 87)
  else None.

(** An escape [%XX] at the head of [s]: its octet and the rest. *)
Definition octet (s : ustring) : option (Z * ustring) :=
  match s with
  | p :: h1 :: h2 :: rest =>
      if p =? 37 then
        match hexVal h1, hexVal h2 with
        | Some a, Some b => Some (16 * a + b, rest)
        | _, _ => None
        end
      else None
  | _ => None
  end.

(** [n] escapes in a row. *)
Fixpoint octets (n : nat) (s : ustring) : option (list Z * ustring) :=
  match n with
  | O => Some ([], s)
  | S n' =>
      match octet s with
      | Some (b, rest) =>
          match octets n' rest with
          | Some (bs, r) => Some (b :: bs, r)
          | None => None
          end
      | None => None
      end
  end.

Definition isCont (b : Z) : bool := (128 <=? b) && (b <=? 191).

(** The payload of a lead octet followed by continuation octets. *)
Definition payload (lead : Z) (cont : list Z) : Z :=
  fold_left (fun acc b => acc * 64 + (b - 128)) cont lead.

(** The code point of a UTF-8 sequence whose first octet is [b], with the
    number of octets that follow it; [None] for an octet that cannot start
    a sequence. *)
Definition leadOf (b : Z) : option (nat * Z) :=
  if b <? 192 then None
  else if b <? 224 then Some (1%nat, b - 192)
  else if b <? 240 then Some (2%nat, b - 224)
  else if b <? 248 then Some (3%nat, b - 240)
  else None.

(** A code point may be written with [n] continuation octets: shortest
    form, no surrogate, at most U+10FFFF. *)
Definition validPoint (n : nat) (cp : Z) : bool :=
  match n with
  | 1%nat => (128 <=? cp) && (cp <? 2048)
  | 2%nat => (2048 <=? cp) && (cp <? 65536) && negb ((55296 <=? cp) && (cp <=? 57343))
  | 3%nat => (65536 <=? cp) && (cp <=? 1114111)
  | _ => false
  end.

(** The code units of a code point. *)
Definition utf16 (cp : Z) : ustring :=
  if cp <? 65536 then [cp]
  else [55296 + (cp - 65536) / 1024; 56320 + (cp - 65536) mod 1024].

(** [decodeURIComponent(s)]; [None] is its [URIError].  Every round takes
    at least one code unit, so [length s] rounds are enough. *)
Fixpoint decode (fuel : nat) (s : ustring) : option ustring :=
  match s with
  | [] => Some []
  | c :: s' =>
      match fuel with
      | O => None
      | S fuel' =>
          if negb (c =? 37) then cons c <$> decode fuel' s'
          else
            match octet s with
            | None => None
            | Some (b, rest) =>
                if b <? 128 then cons b <$> decode fuel' rest
                else
                  match leadOf b with
                  | None => None
                  | Some (n, lead) =>
                      match octets n rest with
                      | None => None
                      | Some (cont, rest') =>
                          let cp := payload lead cont in
                          if forallb isCont cont && validPoint n cp
                          then app (utf16 cp) <$> decode fuel' rest'
                          else None
                      end
                  end
            end
      end
  end.

Definition decodeURIComponent (s : ustring) : option ustring :=
  decode (length s) s.

End Uri.

(** [n.toString(16)] for a code unit, in lower case. *)
Definition lowerHexDigit (d : Z) : Z := (if d <? 10 then 48 + d else 87 + d)%Z.

Fixpoint toString16 (fuel : nat) (n : Z) (acc : ustring) : ustring :=
  match fuel with
  | O => acc
  | S fuel' =>
      let acc' := lowerHexDigit (n mod 16) :: acc in
      if (n / 16 =? 0)%Z then acc' else toString16 fuel' (n / 16)%Z acc'
  end.

(** [s.toUpperCase()] on hexadecimal digits. *)
Definition toUpperCase (s : ustring) : ustring :=
  map (fun c => if (97 <=? c)%Z && (c <=? 122)%Z then (c - 32)%Z else c) s.

(** The class [[!'()*]] of the [replace] call. *)
Definition isQuoteMark (c : Z) : bool :=
  ((c =? 33) || (c =? 39) || (c =? 40) || (c =? 41) || (c =? 42))%Z.

(** The replacement function of [encodeShowName]. *)
Definition percentCode (c : Z) : ustring :=
  (37%Z :: toUpperCase (toString16 4 c []))%list.

(** The [replace] call of [encodeShowName]. *)
Definition quoteMarks (e : ustring) : ustring :=
  flat_map (fun c => if isQuoteMark c then percentCode c else [c]) e.

Definition encodeShowName (showName : ustring) : option ustring :=
  quoteMarks <$> Uri.encodeURIComponent showName.

(** [decodeShowName]: the name itself when decoding throws. *)
Definition decodeShowName (encodedName : ustring) : ustring :=
  default encodedName (Uri.decodeURIComponent encodedName).

(** Every element is a code unit: the list is a JavaScript string. *)
Definition isString (s : ustring) : bool := forallb Uri.isUnit s.

(** The characters [trim] removes: white space and line terminators. *)
Definition isWhiteSpace (c : Z) : bool :=
  (((9 <=? c) && (c <=? 13)) || (c =? 32) || (c =? 160) || (c =? 5760) ||
   ((8192 <=? c) && (c <=? 8202)) || (c =? 8232) || (c =? 8233) ||
   (c =? 8239) || (c =? 8287) || (c =? 12288) || (c =? 65279))%Z.

(** [!showName || !showName.trim()] *)
Definition blank (showName : ustring) : bool := forallb isWhiteSpace showName.

(** The places the folder functions reach: [DATA_DIR], [SHOWS_DIR], and an
    entry of [SHOWS_DIR]. *)
Inductive path :=
| DATA_DIR
| SHOWS_DIR
| InShows (name : ustring).

(** [path.join(SHOWS_DIR, segment)] for a segment without separator:
    [join] normalises, so [.] is the directory itself and [..] its parent,
    which is [DATA_DIR]. *)
Definition joinShows (segment : ustring) : path :=
  if decide (segment = units ".") then SHOWS_DIR
  else if decide (segment = units "..") then DATA_DIR
  else InShows segment.

(** [None] is the [URIError] of [encodeShowName]. *)
Definition getShowDir (showName : ustring) : option path :=
  let showName := if blank showName then units "Default" else showName in
  joinShows <$> encodeShowName showName.

(** The part of the disk the folder functions see: whether the two
    directories exist, and the entries of [SHOWS_DIR] with their kind. *)
Inductive kind := IsFile | IsDirectory.

Record disk := Disk {
  dataDir : bool;
  showsDir : bool;
  entries : gmap ustring kind
}.

(** [fs.existsSync(p)] *)
Definition existsSync (p : path) (d : disk) : bool :=
  match p with
  | DATA_DIR => dataDir d
  | SHOWS_DIR => showsDir d
  | InShows name => showsDir d && bool_decide (is_Some (entries d !! name))
  end.

(** [fs.mkdirSync(p, { recursive: true })] for a path that does not exist.
    The call succeeds here; on a file system it throws for a name it
    cannot hold (an encoded name of more than 255 bytes), and the caller
    then throws before it changes anything. *)
Definition mkdirSync (p : path) (d : disk) : disk :=
  match p with
  | DATA_DIR => Disk true (showsDir d) (entries d)
  | SHOWS_DIR => Disk true true (entries d)
  | InShows name => Disk true true (<[name := IsDirectory]> (entries d))
  end.

(** [fs.writeFileSync(path.join(dir, file), ...)]: only a file written into
    [SHOWS_DIR] itself is an entry of it. *)
Definition writeFileSync (dir : path) (file : string) (d : disk) : disk :=
  match dir with
  | SHOWS_DIR => Disk (dataDir d) (showsDir d) (<[units file := IsFile]> (entries d))
  | _ => d
  end.

(** [fs.rmSync(p, { recursive: true })] for a path that exists. *)
Definition rmSync (p : path) (d : disk) : disk :=
  match p with
  | DATA_DIR => Disk false false ∅
  | SHOWS_DIR => Disk (dataDir d) false ∅
  | InShows name => Disk (dataDir d) (showsDir d) (delete name (entries d))
  end.

(** [fs.renameSync] of one entry of [SHOWS_DIR] to a free name. *)
Definition renameSync (old new : ustring) (d : disk) : disk :=
  match entries d !! old with
  | Some k => Disk (dataDir d) (showsDir d) (<[new := k]> (delete old (entries d)))
  | None => d
  end.

(** [fs.readdirSync(SHOWS_DIR).filter(f => fs.statSync(...).isDirectory())],
    in the order the file system lists the entries. *)
Definition isDirectory (k : kind) : bool :=
  match k with IsDirectory => true | IsFile => false end.

Definition directories (d : disk) : list ustring :=
  (List.filter (fun e => isDirectory e.2) (map_to_list (entries d))).*1.

(** [listShows] *)
Definition listShows (d : disk) : list ustring :=
  if negb (existsSync SHOWS_DIR d) then [units "Default"]
  else
    let shows := map decodeShowName (directories d) in
    match shows with
    | [] => [units "Default"]
    | _ => shows
    end.

(** The three [writeFileSync] calls of [createShow]. *)
Definition writeShowFiles (showDir : path) (d : disk) : disk :=
  writeFileSync showDir "show_timings.json"
    (writeFileSync showDir "show_notes.json"
       (writeFileSync showDir "cues.json" d)).

(** [createShow], [deleteShow] and [showExists]: the value returned and the
    disk afterwards; [None] when [getShowDir] throws. *)
Definition createShow (showName : ustring) (d : disk) : option (bool * disk) :=
  match getShowDir showName with
  | None => None
  | Some showDir =>
      if negb (existsSync showDir d)
      then Some (true, writeShowFiles showDir (mkdirSync showDir d))
      else Some (false, d)
  end.

Definition deleteShow (showName : ustring) (d : disk) : option (bool * disk) :=
  if decide (showName = units "Default") then Some (false, d)
  else
    match getShowDir showName with
    | None => None
    | Some showDir =>
        if existsSync showDir d then Some (true, rmSync showDir d)
        else Some (false, d)
    end.

Definition showExists (showName : ustring) (d : disk) : option bool :=
  match getShowDir showName with
  | None => None
  | Some showDir => Some (existsSync showDir d)
  end.

(** The body of the loop of [migrateLegacyFolders] for one folder; [None]
    when [encodeShowName] throws. *)
Definition migrateFolder (folder : ustring) (d : disk) : option disk :=
  let decoded := decodeShowName folder in
  match encodeShowName decoded with
  | None => None
  | Some reEncoded =>
      if negb (bool_decide (folder = reEncoded)) &&
         negb (existsSync (joinShows reEncoded) d)
      then Some (renameSync folder reEncoded d)
      else Some d
  end.

(** The loop: the disk when it ends, and whether it ended by an exception
    (which leaves the renames already made). *)
Fixpoint migrateLoop (folders : list ustring) (d : disk) : disk * bool :=
  match folders with
  | [] => (d, false)
  | folder :: rest =>
      match migrateFolder folder d with
      | Some d' => migrateLoop rest d'
      | None => (d, true)
      end
  end.

Definition migrateLegacyFolders (d : disk) : disk * bool :=
  if negb (existsSync SHOWS_DIR d) then (d, false)
  else migrateLoop (directories d) d.

(** The characters of a folder name: letters, digits and [- _ . ~ %]. *)
Definition folderSafe (c : Z) : bool :=
  (Uri.isAlpha c || Uri.isDecimal c || (c =? 45) || (c =? 95) || (c =? 46) ||
   (c =? 126) || (c =? 37))%Z.

(** The name [getShowDir] works with. *)
Definition effectiveName (showName : ustring) : ustring :=
  if blank showName then units "Default" else showName.

(** A disk as the program finds it: [SHOWS_DIR] lies in [DATA_DIR], and the
    entry names are strings. *)
Definition diskOK (d : disk) : Prop :=
  (showsDir d = true → dataDir d = true) ∧
  ∀ f k, entries d !! f = Some k → isString f = true.

(** A code point that is not a surrogate. *)
Definition scalar (cp : Z) : Prop :=
  (0 <= cp <= 1114111 ∧ ¬ (55296 <= cp <= 57343))%Z.

(** A name with a space, quote marks, a letter outside ASCII and a
    character outside the basic plane. *)
Definition sampleShow : ustring :=
  (units "Ma Vie (2024)!" ++ [233; 55356; 57261])%list%Z.

Definition sampleDisk : disk :=
  Disk true true
    (<[units "Default" := IsDirectory]>
       (<[units "My%20Show" := IsDirectory]>
          (<[units "Old Show" := IsDirectory]>
          (<[units "Hamlet%20%281%29" := IsDirectory]> ∅)))).

(** ** The page and image endpoints *)

(** [(part_number && part_number > 0) ? `${cueNumber}/${part_number}` : cueNumber] *)
Definition storageKey (cueNumber : string) (part_number : jsval) : string :=
  if Js.truthy part_number && Js.gt part_number (VInt 0)
  then cueNumber +:+ "/" +:+ Js.toStr part_number
  else cueNumber.

(** [POST /api/cues/:cueNumber/page] with body [{ page, part_number }] *)
Definition apiPage (cueNumber : string) (page part_number : jsval) (s : state) : state :=
  updateOrCreateCue (storageKey cueNumber part_number) [("page", page)] s.

(** [POST /api/cues/:cueNumber/image] with an uploaded file. *)
Definition apiImage (cueNumber filename : string) (s : state) : state :=
  updateOrCreateCue cueNumber [("image_path", VStr filename)] s.

(** A store with cue 5 of list 1 annotated, and part 2 of cue 7. *)
Definition annotatedStore : state :=
  apiNotes "5" (VStr "house lights") 
    (updateOrCreateCue "7" [("cue_list", VStr "1"); ("part_number", VInt 2)] initialState).

(** ** The tag list ([GET /api/tags]) *)

(** The tags the loop body visits: those of [cue.tags] when it is an array.
    The tags are strings, as the front end sends them; the endpoint itself
    stores any JSON array, and an array that holds numbers, [null] or
    objects is not a value of [jsval]. *)
Definition tagsOf (c : cue) : list string :=
  match fld c "tags" with
  | VArr l => l
  | _ => []
  end.

(** [set.add(x)] on a [Set] of strings, in insertion order. *)
Definition setAdd (x : string) (l : list string) : list string :=
  if existsb (String.eqb x) l then l else (l ++ [x])%list.

Definition allTags (cs : list cue) : list string :=
  foldl (fun acc c => foldl (fun acc t => setAdd t acc) acc (tagsOf c)) [] cs.

(** [arr.sort()] without comparator orders strings by their code units; it
    is modelled by insertion sort.  (Values that are not strings would be
    compared by their string forms, which can coincide.) *)
Fixpoint insertString (x : string) (l : list string) : list string :=
  match l with
  | [] => [x]
  | y :: l' => if String.ltb x y then x :: y :: l' else y :: insertString x l'
  end.

Definition sortStrings (l : list string) : list string :=
  foldl (fun acc x => insertString x acc) [] l.

(** The [tags] member of the response. *)
Definition apiGetTags (s : state) : list string := sortStrings (allTags (cues s)).

(** The order of the sorted list. *)
Definition strLt (a b : string) : Prop := String.ltb a b = true.

(** ** The export: [escapeHtml] and [formatNotesForExport] *)

(** [s.replace(/c/g, r)] for a pattern that is one character. *)
Definition replaceAll (c : ascii) (r : string) (l : list ascii) : list ascii :=
  flat_map (fun x => if Ascii.eqb x c then Js.chars r else [x]) l.

(** The double quote. *)
Definition dquote : ascii := ascii_of_nat 34.

Definition escapeHtml (text : jsval) : string :=
  if negb (Js.truthy text) then estr
  else
    Js.str
      (replaceAll "'" "&#039;"
         (replaceAll dquote "&quot;"
            (replaceAll ">" "&gt;"
               (replaceAll "<" "&lt;"
                  (replaceAll "&" "&amp;" (Js.chars (Js.toStr text))))))).

(** What becomes of one character of the text. *)
Definition entity (c : ascii) : list ascii :=
  if Ascii.eqb c "&" then Js.chars "&amp;"
  else if Ascii.eqb c "<" then Js.chars "&lt;"
  else if Ascii.eqb c ">" then Js.chars "&gt;"
  else if Ascii.eqb c dquote then Js.chars "&quot;"
  else if Ascii.eqb c "'" then Js.chars "&#039;"
  else [c].

(** The text after a delimiter starts a match of the pattern
    [d([^d]+)d]: a non-empty run without [d], then [d]. *)
Definition closes (d : ascii) (l : list ascii) : bool :=
  match Js.span (fun x => negb (Ascii.eqb x d)) l with
  | (_ :: _, _ :: _) => true
  | _ => false
  end.

(** [s.replace(/d([^d]+)d/g, open + '$1' + close)], read from left to
    right.  Outside a match ([inside = false]) a delimiter that starts a
    match is replaced by [open]; the run that follows is copied; the
    delimiter that ends it is replaced by [close], and the search goes on
    behind it.  A delimiter that starts no match is copied. *)
Fixpoint replacePairs (d : ascii) (open close : string) (inside : bool)
    (l : list ascii) : list ascii :=
  match l with
  | [] => []
  | x :: l' =>
      if Ascii.eqb x d then
        if inside then (Js.chars close ++ replacePairs d open close false l')%list
        else if closes d l'
        then (Js.chars open ++ replacePairs d open close true l')%list
        else x :: replacePairs d open close false l'
      else x :: replacePairs d open close inside l'
  end.

(** The line feed. *)
Definition lf : ascii := ascii_of_nat 10.

Definition formatNotesForExport (notes : jsval) : string :=
  if negb (Js.truthy notes) then estr
  else
    Js.str
      (replaceAll lf "<br>"
         (replacePairs "~" "<s>" "</s>" false
            (replacePairs "_" "<em>" "</em>" false
               (replacePairs "*" "<strong>" "</strong>" false
                  (Js.chars (escapeHtml notes)))))).

(** The characters that end text or an attribute value in HTML. *)
Definition htmlSpecial : list ascii := ["<"; ">"; dquote; "'"]%char.

(** The tags [formatNotesForExport] writes. *)
Definition exportTags : list string :=
  ["<strong>"; "</strong>"; "<em>"; "</em>"; "<s>"; "</s>"; "<br>"].

(** Text in which [<], [>] and the quotes occur only inside those tags. *)
Inductive markup : list ascii -> Prop :=
| markup_nil : markup []
| markup_char c l : c ∉ htmlSpecial -> markup l -> markup (c :: l)
| markup_tag t l : t ∈ exportTags -> markup l -> markup (Js.chars t ++ l)%list.

(** ** Sending requests: [sendOSC] and the batched index requests *)

(** An argument as [sendOSC] types it: [{ type: 'i', value }] for a number,
    [{ type: 's', value: String(arg) }] for anything else. *)
Inductive osc_arg :=
| ArgI (value : num)
| ArgS (value : string).

Record osc_message := OscMessage {
  osc_address : string;
  osc_args : list osc_arg
}.

(** What [sendOSC] looks at: [settings.protocol], and whether [oscClient]
    and [tcpPort] are set. *)
Record transport := Transport {
  protocol : jsval;
  oscClient : bool;
  tcpOpen : bool
}.

Definition typedArg (a : jsval) : osc_arg :=
  match a with
  | VNum n => ArgI n
  | _ => ArgS (Js.toStr a)
  end.

(** [sendOSC(address, ...args)]: the messages handed to [tcpPort.send].  In
    its last branch the function calls itself with the same arguments;
    [fuel] bounds the depth of that recursion, and [None] is a call that
    has not returned within it. *)
Fixpoint sendOSC (fuel : nat) (t : transport) (address : string) (args : list jsval)
    : option (list osc_message) :=
  if negb (oscClient t) && negb (tcpOpen t) then Some []
  else if Js.strict_eq (protocol t) (VStr "tcp") && tcpOpen t
  then Some [OscMessage address (map typedArg args)]
  else if oscClient t then
    match fuel with
    | O => None
    | S fuel' => sendOSC fuel' t address args
    end
  else Some [].

(** The address of an index request. *)
Definition indexRequest (cueList : jsval) (i : Z) : string :=
  "/eos/get/cue/" +:+ Js.toStr cueList +:+ "/index/" +:+ Js.toStr (VInt i).

(** The [for] loop of the interval callback of [handleCueCountResponse]:
    [k] rounds are left; gives the addresses requested and the new [i]. *)
Fixpoint batchLoop (k : nat) (cueList count : jsval) (i : Z) : list string * Z :=
  match k with
  | O => ([], i)
  | S k' =>
      if Js.lt (VInt i) count then
        let '(sent, i') := batchLoop k' cueList count (i + 1) in
        (indexRequest cueList i :: sent, i')
      else ([], i)
  end.

(** One run of the callback: the requests, the new [i], and whether
    [clearInterval] was called. *)
Definition batchTick (cueList count : jsval) (i : Z) : list string * Z * bool :=
  let '(sent, i') := batchLoop 10 cueList count i in
  (sent, i', Js.ge (VInt i') count).

(** The interval from its first run to [clearInterval]: the requests of
    each run.  [None] when the interval is still running after [fuel]
    runs. *)
Fixpoint batchRun (fuel : nat) (cueList count : jsval) (i : Z)
    : option (list (list string)) :=
  match fuel with
  | O => None
  | S fuel' =>
      let '(sent, i', cleared) := batchTick cueList count i in
      if cleared then Some [sent]
      else cons sent <$> batchRun fuel' cueList count i'
  end.

(** The index requests [from], ..., [from + n - 1]. *)
Fixpoint indexRequests (cueList : jsval) (from : Z) (n : nat) : list string :=
  match n with
  | O => []
  | S n' => indexRequest cueList from :: indexRequests cueList (from + 1) n'
  end.

(** ** The queue of refresh requests *)

(** No two entries of the list are the same value for [includes]. *)
Fixpoint distinctValues (l : list jsval) : bool :=
  match l with
  | [] => true
  | x :: l' => negb (existsb (sameValueZero x) l') && distinctValues l'
  end.

Definition queueOf (s : state) : list jsval := bulkRefreshQueue (refresh s).

(** Lists 2 and 3 are discovered while list 1 is being refreshed; list 2 is
    reported twice. *)
Definition discoveryEvents : list (Z * event) :=
  [(10%Z, EvRequestAllCues 1);
   (20%Z, EvGet "/eos/out/get/cuelist/2/list/1/3" []);
   (30%Z, EvGet "/eos/out/get/cuelist/3/list/2/3" []);
   (40%Z, EvGet "/eos/out/get/cuelist/2/list/1/3" [])].

(** ** The show timer: stop, clear and the countdown *)

(** [POST /api/show-timings/stop] *)
Definition apiTimingsStop (s : state) : state :=
  let st := showTimings s in
  set_showTimings
    (ShowTimings false (showStartTime st) (lastCueTime st) (lastCueNumber st)
       (cueTimings st)) s.

(** [POST /api/show-timings/clear] *)
Definition apiTimingsClear (s : state) : state :=
  set_playback 0%Q None
    (set_showTimings (ShowTimings false None None None []) s).

(** An entry of [cueDurations]. *)
Record cue_duration := CueDuration {
  cd_duration : Q;
  cd_countdown : option Q;
  cd_isActive : bool
}.

(** The three shapes of the response of [GET /api/show-timings/countdown]. *)
Inductive countdown_response :=
| NoTimings
| NotPlaying (cueDurations : gmap string cue_duration) (totalShowTime : Q)
| Playing (showElapsed : Q) (timeToNext estimatedTimeRemaining : option Q)
    (totalShowTime : Q) (cueDurations : gmap string cue_duration).

(** [x > 0 ? x : null] *)
Definition positiveOrNull (x : Q) : option Q :=
  if Js.num_ltb (numZ 0) (Num x) then Some x else None.

(** [x > 0 ? x : 0] *)
Definition positiveOrZero (x : Q) : Q :=
  if Js.num_ltb (numZ 0) (Num x) then x else 0%Q.

(** The map the [forEach] over the timings builds: a later entry with the
    same cue number replaces an earlier one. *)
Definition durationMap (ts : list timing) : gmap string cue_duration :=
  foldl (fun m t =>
           <[Js.toStr (t_cueNumber t) := CueDuration (t_timeFromPrevious t) None false]> m)
        ∅ ts.

(** [showElapsed]: the elapsed time stored when the last cue fired plus the
    time gone by since; [lastCueFireTime] counts when it is neither [null]
    nor 0. *)
Definition showElapsedAt (now : Z) (s : state) : Q :=
  match lastCueFireTime s with
  | Some fired =>
      if (fired =? 0)%Z then currentShowElapsed s
      else Qred (currentShowElapsed s + Qmake (now - fired) 1000)
  | None => currentShowElapsed s
  end.

(** The handler of [GET /api/show-timings/countdown] at time [now].  The
    times are exact rationals here and doubles in the program, whose sums
    and differences are rounded: what is proved of this handler is which
    response it gives, which entries it marks and the sign of the times it
    clamps, none of which depend on that rounding being exact. *)
Definition apiCountdown (now : Z) (s : state) : countdown_response :=
  let ts := cueTimings (showTimings s) in
  match last ts with
  | None => NoTimings
  | Some lastTiming =>
      let cueDurations := durationMap ts in
      let totalShowTime := t_timestamp lastTiming in
      match findIndex (fun c => Js.strict_eq (fld c "last_seen") (VStr "active") &&
                                String.eqb (Js.toStr (listOf c)) (mainPlaybackList s))
                      (cues s) with
      | None => NotPlaying cueDurations totalShowTime
      | Some (_, activeCue) =>
          match findIndex (fun t => Js.strict_eq (t_cueNumber t) (fld activeCue "cue_number"))
                          ts with
          | None => NotPlaying cueDurations totalShowTime
          | Some (currentCueIndex, currentTiming) =>
              let showElapsed := showElapsedAt now s in
              let timeSinceCueFired := Qred (showElapsed - t_timestamp currentTiming) in
              let key := Js.toStr (fld activeCue "cue_number") in
              let next := ts !! S currentCueIndex in
              let countdown :=
                match next with
                | Some nextTiming =>
                    positiveOrZero (Qred (t_timeFromPrevious nextTiming - timeSinceCueFired))
                | None => 0%Q
                end in
              let timeToNext :=
                match next with
                | Some nextTiming =>
                    positiveOrNull (Qred (t_timeFromPrevious nextTiming - timeSinceCueFired))
                | None => None
                end in
              Playing showElapsed timeToNext
                (positiveOrNull (Qred (totalShowTime - showElapsed)))
                totalShowTime
                (<[key := CueDuration
                            (default 0%Q (cd_duration <$> cueDurations !! key))
                            (Some countdown) true]> cueDurations)
          end
      end
  end.

(** The event is not the start of a recording. *)
Definition notStart (e : event) : bool :=
  match e with
  | EvTimingsStart => false
  | _ => true
  end.

(** A show of two cues is recorded, with cue 2 fired five seconds after
    cue 1. *)
Definition recordedShow : state :=
  run [(1000%Z, EvTimingsStart); (3000%Z, EvCuePerList Active "1" "1");
       (8000%Z, EvCuePerList Active "1" "2")] initialState.

(** What the console sends after the recording was stopped. *)
Definition afterStop : list (Z * event) :=
  [(9000%Z, EvCuePerList Active "1" "3");
   (9500%Z, EvCueText Active [VStr "1/4 Finale 3.0 100%"] None);
   (9600%Z, EvGet "/eos/out/get/cue/1/5/0/list/0/1" [VInt 0; VStr "uid-5"; VStr "Five"])].

(** No entry of the map is marked active or carries a countdown. *)
Definition idleEntry (cd : cue_duration) : Prop :=
  cd_countdown cd = None ∧ cd_isActive cd = false.

(** The recorded show of two cues, with both cues in the store. *)
Definition playbackShow : state := apiTimingsStop recordedShow.

(** ** The poller of active and pending cues *)

(** A request object of the polling queue.  The time-out callback compares
    [currentPollRequest] with its own request by identity; [pr_object]
    numbers the objects in the order they are created. *)
Record poll_request := PollRequest {
  pr_object : nat;
  pr_list : string;
  pr_type : seen
}.

(** The state the poller adds to that of the store: [isConnected],
    [knownCueLists], whether the interval is set ([activeCuePoller]),
    [activePollingQueue], the object [currentPollRequest] refers to, the
    number of request objects created so far, and the pending time-out
    callbacks, each with its due time and its request. *)
Record poller := Poller {
  core : state;
  isConnected : bool;
  knownCueLists : list num;
  activeCuePoller : bool;
  activePollingQueue : list poll_request;
  currentPollObject : option nat;
  created : nat;
  pollTimeouts : list (Z * nat)
}.

Definition set_core (c : state) (p : poller) : poller :=
  Poller c (isConnected p) (knownCueLists p) (activeCuePoller p)
    (activePollingQueue p) (currentPollObject p) (created p) (pollTimeouts p).

(** The [forEach] that refills the queue: two new objects per list. *)
Fixpoint refill (lists : list num) (from : nat) : list poll_request :=
  match lists with
  | [] => []
  | listNum :: rest =>
      PollRequest from (Js.toStr (VNum listNum)) Active ::
      PollRequest (S from) (Js.toStr (VNum listNum)) Pending ::
      refill rest (S (S from))
  end.

(** [processNextPollRequest]: the poller afterwards and the address of the
    request sent, if any. *)
Definition processNextPollRequest (now : Z) (p : poller) : poller * option string :=
  if activePollingInProgress (core p) || negb (isConnected p) ||
     bulkRefreshInProgress (refresh (core p))
  then (p, None)
  else
    let '(queue, created') :=
      match activePollingQueue p with
      | [] => (refill (knownCueLists p) (created p),
               (created p + 2 * length (knownCueLists p))%nat)
      | q => (q, created p)
      end in
    match queue with
    | [] => (Poller (core p) (isConnected p) (knownCueLists p) (activeCuePoller p)
               [] (currentPollObject p) created' (pollTimeouts p), None)
    | request :: rest =>
        (Poller (set_poll (Some (pr_list request, pr_type request)) true (core p))
           (isConnected p) (knownCueLists p) (activeCuePoller p) rest
           (Some (pr_object request)) created'
           ((pollTimeouts p ++ [((now + 600)%Z, pr_object request)])%list),
         Some ("/eos/get/cue/" +:+ pr_list request +:+ "/" +:+ seen_str (pr_type request)))
    end.

(** The callback of the 500 ms interval. *)
Definition pollTick (now : Z) (p : poller) : poller * option string :=
  if negb (activeCuePoller p) then (p, None)
  else if negb (isConnected p) || bulkRefreshInProgress (refresh (core p)) ||
          activePollingInProgress (core p)
  then (p, None)
  else processNextPollRequest now p.

(** The pending time-out at position [i] fires: it frees the slot when the
    poll is still in progress and [currentPollRequest] is still its own
    request. *)
Definition pollTimeout (i : nat) (p : poller) : poller :=
  match pollTimeouts p !! i with
  | None => p
  | Some (_, request) =>
      let pending := delete i (pollTimeouts p) in
      if activePollingInProgress (core p) &&
         bool_decide (is_Some (currentPollRequest (core p))) &&
         bool_decide (currentPollObject p = Some request)
      then Poller (set_poll None false (core p)) (isConnected p) (knownCueLists p)
             (activeCuePoller p) (activePollingQueue p) None (created p) pending
      else Poller (core p) (isConnected p) (knownCueLists p) (activeCuePoller p)
             (activePollingQueue p) (currentPollObject p) (created p) pending
  end.

(** The bookkeeping of the branch for
    [/eos/out/get/cuelist/<n>/list/<i>/<c>]: a list not yet known is added
    and the interval is (re)started. *)
Definition discoverList (address : string) (p : poller) : poller :=
  if isCuelistIndexAddress address then
    let cuelistNumber := Js.parseInt (partZ (Js.split address) 5) in
    if Js.num_ltb cuelistNumber (numZ 0) then p
    else if existsb (sameValueZero (VNum cuelistNumber)) (map VNum (knownCueLists p))
    then p
    else Poller (core p) (isConnected p)
           ((knownCueLists p ++ [cuelistNumber])%list) true
           (activePollingQueue p) (currentPollObject p) (created p) (pollTimeouts p)
  else p.

(** The statements of [POST /api/disconnect] up to the test of
    [oscServer], a name that is declared nowhere in the scope of the
    handler: reading it throws, the handler answers 500, and [isConnected]
    and the transport stay as they are. *)
Definition apiDisconnect (p : poller) : poller :=
  Poller (set_poll None false (core p)) (isConnected p) [] false [] None
    (created p) (pollTimeouts p).

(** What the poller reacts to. *)
Inductive poller_event :=
| PvMessage (e : event)
| PvTick
| PvTimeout (i : nat)
| PvDisconnect.

Definition pollerStep (now : Z) (e : poller_event) (p : poller) : poller :=
  match e with
  | PvMessage ev =>
      let p1 :=
        match ev with
        | EvGet address _ => discoverList address p
        | _ => p
        end in
      set_core (step now ev (core p)) p1
  | PvTick => (pollTick now p).1
  | PvTimeout i => pollTimeout i p
  | PvDisconnect => apiDisconnect p
  end.

Definition pollerRun (evs : list (Z * poller_event)) (p : poller) : poller :=
  foldl (fun p ne => pollerStep ne.1 ne.2 p) p evs.

(** A poll in progress has its own time-out pending. *)
Definition pollGuarded (p : poller) : Prop :=
  activePollingInProgress (core p) = true →
  ∃ request, currentPollObject p = Some request ∧
             is_Some (currentPollRequest (core p)) ∧
             request ∈ (pollTimeouts p).*2.

(** A freshly connected server. *)
Definition initialPoller : poller :=
  Poller initialState true [] false [] None 0 [].

(** [currentPollRequest] and [activePollingInProgress] together. *)
Definition pollOf (s : state) : option (string * seen) * bool :=
  (currentPollRequest s, activePollingInProgress s).

(** Lists 1 and 2 are discovered, two polls are sent; the first one is
    answered, the second one is not. *)
Definition pollingEvents : list (Z * poller_event) :=
  [(100%Z, PvMessage (EvGet "/eos/out/get/cuelist/1/list/0/2" []));
   (110%Z, PvMessage (EvGet "/eos/out/get/cuelist/2/list/1/2" []));
   (200%Z, PvMessage (EvGet "/eos/out/get/cue/1/count" [VInt 0]));
   (210%Z, PvMessage (EvGet "/eos/out/get/cue/2/count" [VInt 0]));
   (600%Z, PvTick);
   (650%Z, PvMessage (EvCueText Active [VStr "1/5 Opening 3.0 100%"] None));
   (1100%Z, PvTick)].

(** ** The fields [parseCueText] reads from a cue text *)

(** [list], [cue], and [(fadeTime, completion, label)] as [parseCueText]
    computes them before it touches the store; [None] for a reset text and
    for a text that does not parse. *)
Definition cueTextFields (cueText : string) (contextList : option string)
    : option (string * string * (string * string * string)) :=
  let text := Js.trim cueText in
  if isResetText text then None
  else
    match cueTextTarget text contextList with
    | Some (list, cue, remainder) => Some (list, cue, Re.remainderParts remainder)
    | None => None
    end.

(** White space that the [.] of a regular expression matches: tab,
    vertical tab, form feed, space and no-break space. *)
Definition is_blank (c : ascii) : bool :=
  Js.is_ws c && negb (Js.is_line_terminator c).

(** A non-empty run of characters of one class. *)
Definition someOf (p : ascii → bool) (x : list ascii) : Prop :=
  x ≠ [] ∧ forallb p x = true.

(** A label as the console sends it: not empty, on one line, with no white
    space at either end. *)
Definition labelText (lab : list ascii) : Prop :=
  lab ≠ [] ∧ forallb (fun c => negb (Js.is_line_terminator c)) lab = true ∧
  (∀ c, head lab = Some c → Js.is_ws c = false) ∧
  (∀ c, last lab = Some c → Js.is_ws c = false).

(** A cue number: digits, or digits, a dot and digits. *)
Definition cueNumberText (n : list ascii) : Prop :=
  (n ≠ [] ∧ forallb Js.is_digit n = true) ∨
  ∃ a b, n = (a ++ "."%char :: b)%list ∧ a ≠ [] ∧ b ≠ [] ∧
         forallb Js.is_digit a = true ∧ forallb Js.is_digit b = true.

(** The text of an active cue:
    [<list>/<cue> <label> <fade> <completion>%]. *)
Definition activeText (l n w0 lab w1 f w2 d : list ascii) : string :=
  Js.str (l ++ Js.slash :: n ++ w0 ++ lab ++ w1 ++ f ++ w2 ++ d ++ ["%"%char])%list.

(** The no-break space, code unit 160. *)
Definition nbsp : ascii := ascii_of_nat 160.

(** ** Switching shows and the show endpoints *)

(** The variables the show endpoints share, and the disk.  The cues, notes
    and timings that [loadShowData] reads from the files of the folder are
    not part of this state: the disk of this part has no file contents. *)
Record show_state := ShowState {
  showDisk : disk;
  currentShowName : ustring;
  lastShowName : ustring;
  connectedEOSShowName : option ustring;
  showConnected : bool
}.

Definition set_showDisk (d : disk) (s : show_state) : show_state :=
  ShowState d (currentShowName s) (lastShowName s) (connectedEOSShowName s)
    (showConnected s).

(** What a call leaves behind: the state when it returned, or the state at
    the moment it threw. *)
Inductive outcome :=
| Returned (s : show_state)
| Threw (s : show_state).

Definition stateOf (o : outcome) : show_state :=
  match o with Returned s | Threw s => s end.

(** [saveGlobalSettings]: [writeFileSync] of a file of [DATA_DIR], which
    throws when the directory is missing. *)
Definition saveGlobalSettings (s : show_state) : outcome :=
  if existsSync DATA_DIR (showDisk s) then Returned s else Threw s.

(** [loadShowData]: the folder of the current show is created when it is
    missing; the reads are inside a [try] and leave the disk as it is. *)
Definition loadShowData (s : show_state) : outcome :=
  match getShowDir (currentShowName s) with
  | None => Threw s
  | Some showDir =>
      if negb (existsSync showDir (showDisk s)) then
        match createShow (currentShowName s) (showDisk s) with
        | Some (_, d) => Returned (set_showDisk d s)
        | None => Threw s
        end
      else Returned s
  end.

Definition switchShow (showName : ustring) (s : show_state) : outcome :=
  match getShowDir showName with
  | None => Threw s
  | Some showDir =>
      let created :=
        if negb (existsSync showDir (showDisk s))
        then createShow showName (showDisk s)
        else Some (false, showDisk s) in
      match created with
      | None => Threw s
      | Some (_, d) =>
          let s1 :=
            ShowState d showName showName (connectedEOSShowName s)
              (showConnected s) in
          match saveGlobalSettings s1 with
          | Returned s2 => loadShowData s2
          | Threw s2 => Threw s2
          end
      end
  end.

(** [s.trim()] on code units. *)
Fixpoint dropWhiteSpace (s : ustring) : ustring :=
  match s with
  | [] => []
  | c :: r => if isWhiteSpace c then dropWhiteSpace r else s
  end.

Definition trimUnits (s : ustring) : ustring :=
  rev (dropWhiteSpace (rev (dropWhiteSpace s))).

(** [!showName] for a property of the request body that is a string or is
    missing. *)
Definition missing (showName : option ustring) : bool :=
  match showName with
  | Some (_ :: _) => false
  | _ => true
  end.

(** The handlers: the status of the response and the state afterwards. *)
Definition apiShowsSwitch (showName : option ustring) (s : show_state)
    : Z * show_state :=
  match showName with
  | Some (c :: r) =>
      match switchShow (c :: r) s with
      | Returned s' => (200%Z, s')
      | Threw s' => (500%Z, s')
      end
  | _ => (400%Z, s)
  end.

Definition apiShowsCreate (showName : option ustring) (s : show_state)
    : Z * show_state :=
  match showName with
  | Some (c :: r) =>
      if blank (c :: r) then (400%Z, s)
      else
        match createShow (trimUnits (c :: r)) (showDisk s) with
        | Some (_, d) => (200%Z, set_showDisk d s)
        | None => (500%Z, s)
        end
  | _ => (400%Z, s)
  end.

Definition apiShowsLoadFromEos (s : show_state) : Z * show_state :=
  if negb (showConnected s) || missing (connectedEOSShowName s) then (400%Z, s)
  else
    let showName := default [] (connectedEOSShowName s) in
    match showExists showName (showDisk s) with
    | None => (500%Z, s)
    | Some found =>
        let created :=
          if negb found then createShow showName (showDisk s)
          else Some (false, showDisk s) in
        match created with
        | None => (500%Z, s)
        | Some (_, d) =>
            match switchShow showName (set_showDisk d s) with
            | Returned s' => (200%Z, s')
            | Threw s' => (500%Z, s')
            end
        end
    end.

Definition apiShowsDelete (showName : ustring) (s : show_state)
    : Z * show_state :=
  if decide (showName = units "Default") then (400%Z, s)
  else
    let switched :=
      if decide (showName = currentShowName s)
      then switchShow (units "Default") s
      else Returned s in
    match switched with
    | Threw s1 => (500%Z, s1)
    | Returned s1 =>
        match deleteShow showName (showDisk s1) with
        | None => (500%Z, s1)
        | Some (true, d) => (200%Z, set_showDisk d s1)
        | Some (false, _) => (404%Z, s1)
        end
    end.

(** The branch of [parseEOSCueMessage] for [/eos/out/show/name], with the
    first argument a string or missing; an exception of [switchShow] ends
    in the [catch] of the function. *)
Definition onShowName (eosShowName : option ustring) (s : show_state) : show_state :=
  let s1 :=
    ShowState (showDisk s) (currentShowName s) (lastShowName s) eosShowName
      (showConnected s) in
  match eosShowName with
  | Some (c :: r) =>
      if negb (bool_decide (c :: r = currentShowName s))
      then stateOf (switchShow (c :: r) s1)
      else s1
  | _ => s1
  end.

Inductive show_event :=
| ShSwitch (showName : option ustring)
| ShCreate (showName : option ustring)
| ShLoadFromEos
| ShDelete (showName : ustring)
| ShName (eosShowName : option ustring).

Definition showStep (ev : show_event) (s : show_state) : show_state :=
  match ev with
  | ShSwitch n => (apiShowsSwitch n s).2
  | ShCreate n => (apiShowsCreate n s).2
  | ShLoadFromEos => (apiShowsLoadFromEos s).2
  | ShDelete n => (apiShowsDelete n s).2
  | ShName n => onShowName n s
  end.

Definition showRun (evs : list show_event) (s : show_state) : show_state :=
  foldl (fun s ev => showStep ev s) s evs.

(** The names of a request are strings; the name of a delete request is
    moreover not blank and is neither [.] nor [..]. *)
Definition nameOK (n : option ustring) : Prop :=
  ∀ x, n = Some x → isString x = true.

Definition plainRequest (ev : show_event) : Prop :=
  match ev with
  | ShSwitch n | ShCreate n | ShName n => nameOK n
  | ShLoadFromEos => True
  | ShDelete n =>
      isString n = true ∧ blank n = false ∧ n ≠ units "." ∧ n ≠ units ".."
  end.

(** The current show has its folder, and the names kept are strings. *)
Definition showHome (s : show_state) : Prop :=
  isString (currentShowName s) = true ∧
  nameOK (connectedEOSShowName s) ∧
  showExists (currentShowName s) (showDisk s) = Some true.

(** The program after [loadData] on the sample disk. *)
Definition sampleShows : show_state :=
  ShowState sampleDisk (units "Default") (units "Default") None false.

(** ** The order of the store *)

(** The three numbers the comparator of [cues.sort] looks at, when none of
    them is [NaN]: [parseInt] of the list, [parseFloat] of the cue number
    and the part. *)
Definition sortKey (c : cue) : option (Q * Q * Q) :=
  match Js.parseInt (listOf c), Js.parseFloat (fld c "cue_number"),
        Js.toNumber (partOf c) with
  | Num a, Num b, Num p => Some (a, b, p)
  | _, _, _ => None
  end.

Definition numericCue (c : cue) : bool :=
  match sortKey c with Some _ => true | None => false end.

(** By list, then by cue number, then by part. *)
Definition keyLt (k k' : Q * Q * Q) : Prop :=
  let '(a, b, p) := k in
  let '(a', b', p') := k' in
  (a < a' ∨ (a == a' ∧ (b < b' ∨ (b == b' ∧ p < p'))))%Q.

Definition keyLe (k k' : Q * Q * Q) : Prop :=
  let '(a, b, p) := k in
  let '(a', b', p') := k' in
  (a < a' ∨ (a == a' ∧ (b < b' ∨ (b == b' ∧ p <= p'))))%Q.

Definition inOrder (c c' : cue) : Prop :=
  match sortKey c, sortKey c' with
  | Some k, Some k' => keyLe k k'
  | _, _ => False
  end.

(** The numbers of a cue as the console writes them, for which the
    rationals of this file are the values the program compares: the list
    is a string of digits, the cue number is digits with an optional
    fraction (no sign, no exponent, no other character), both of at most
    15 digits, so that different numerals are different doubles in the same
    order; the part is an integer below 2^53. *)
Definition digitString (s : string) : bool :=
  let l := Js.chars s in
  match l with
  | [] => false
  | _ => forallb Js.is_digit l && (length l <=? 15)%nat
  end.

Definition decimalString (s : string) : bool :=
  match Js.span Js.is_digit (Js.chars s) with
  | (_ :: _ as ip, []) => (length ip <=? 15)%nat
  | (_ :: _ as ip, c :: (_ :: _ as fp)) =>
      Ascii.eqb c "."%char && forallb Js.is_digit fp &&
      (length ip + length fp <=? 15)%nat
  | _ => false
  end.

Definition plainCue (c : cue) : bool :=
  match listOf c, fld c "cue_number", partOf c with
  | VStr l, VStr n, VNum (Num p) =>
      digitString l && decimalString n &&
      (Zpos (Qden p) =? 1)%Z && (Z.abs (Qnum p) <? 2 ^ 53)%Z
  | _, _, _ => false
  end.

(** Cues 1, 2 and 10 of list 1 and cue 1 of list 2, and a part of cue 2. *)
Definition orderedStore : state :=
  updateOrCreateCue "2" [("cue_list", VStr "1"); ("part_number", VInt 1)]
    (updateOrCreateCue "1" [("cue_list", VStr "2")]
       (updateOrCreateCue "10" [("cue_list", VStr "1")]
          (updateOrCreateCue "2" [("cue_list", VStr "1")]
             (updateOrCreateCue "1" [("cue_list", VStr "1")] initialState)))).

(** ** The round of the poller *)

(** The address a tick of the interval sends, if any. *)
Definition polled (now : Z) (e : poller_event) (p : poller) : option string :=
  match e with
  | PvTick => (pollTick now p).2
  | _ => None
  end.

(** The poll requests sent during a run, in the order they are sent. *)
Fixpoint pollerSent (evs : list (Z * poller_event)) (p : poller) : list string :=
  match evs with
  | [] => []
  | (now, e) :: rest =>
      (option_list (polled now e p) ++ pollerSent rest (pollerStep now e p))%list
  end.

(** One second of a console that does not answer: the interval fires at
    [t] and at [t + 500], the time-out of the request at [t + 600]. *)
Definition silentSecond (t : Z) : list (Z * poller_event) :=
  [(t, PvTick); ((t + 500)%Z, PvTick); ((t + 600)%Z, PvTimeout 0)].

Fixpoint silentSeconds (n : nat) (t : Z) : list (Z * poller_event) :=
  match n with
  | O => []
  | S n' => (silentSecond t ++ silentSeconds n' (t + 1000)%Z)%list
  end.

(** [/eos/get/cue/<list>/<type>] *)
Definition pollAddress (listNum : num) (type : seen) : string :=
  "/eos/get/cue/" +:+ Js.toStr (VNum listNum) +:+ "/" +:+ seen_str type.

(** The poller runs, is connected and free, no refresh is going on and no
    time-out is pending. *)
Definition pollReady (p : poller) : Prop :=
  activeCuePoller p = true ∧ isConnected p = true ∧
  bulkRefreshInProgress (refresh (core p)) = false ∧
  activePollingInProgress (core p) = false ∧
  pollTimeouts p = [].

(** Lists 1, 2 and 5 are known. *)
Definition threeLists : poller :=
  Poller initialState true [numZ 1; numZ 2; numZ 5] true [] None 0 [].

(** * Properties *)

(** ** Numbers *)

Lemma ge_int_0 (x : Z) : Js.ge (VInt x) (VInt 0) = (0 <=? x)%Z.
Proof.
  unfold Js.ge, Js.num_leb, VInt, numZ, Js.toNumber, Qcompare, Z.leb. simpl.
  by rewrite Z.mul_1_r.
Qed.

Lemma gt_int_0 (x : Z) : Js.gt (VInt x) (VInt 0) = (0 <? x)%Z.
Proof.
  unfold Js.gt, Js.num_ltb, VInt, numZ, Js.toNumber, Qcompare, Z.ltb. simpl.
  by rewrite Z.mul_1_r.
Qed.

(** [Math.round(x / 10)] of an integer is [(x + 5) / 10] rounded down. *)
Lemma round_tenth (x : Z) : Js.round (inject_Z x / inject_Z 10) = ((x + 5) / 10)%Z.
Proof.
  unfold Js.round, Qfloor, Qplus, Qdiv, Qmult, Qinv, inject_Z. simpl.
  change (Z.pos (1 * 10 * 2)) with (2 * 10)%Z.
  change (1 * Z.pos (1 * 10))%Z with 10%Z.
  replace (x * 1 * 2 + 10)%Z with (2 * (x + 5))%Z by lia.
  by rewrite Z.div_mul_cancel_l.
Qed.

Lemma secondsOf_int (x : Z) :
  secondsOf (inject_Z x) = Js.qred (Qmake ((x + 5) / 10) 100).
Proof.
  unfold secondsOf, Js.qred. f_equal. rewrite round_tenth.
  apply Qred_complete. unfold Qeq, Qdiv, Qmult, Qinv, inject_Z. simpl. lia.
Qed.

Lemma roundSeconds_int (x : Z) : roundSeconds (VInt x) = VNum (secondsOf (inject_Z x)).
Proof. reflexivity. Qed.

Lemma durationTime_int (x : Z) :
  durationTime (VInt x) =
  if (0 <=? x)%Z then VNum (secondsOf (inject_Z x)) else VNull.
Proof. unfold durationTime. rewrite ge_int_0. by destruct (0 <=? x)%Z. Qed.

Lemma upDownTime_int (x : Z) :
  upDownTime (timeMilliseconds (VInt x)) =
  if (0 <=? x)%Z then VNum (secondsOf (inject_Z x)) else VNull.
Proof.
  unfold upDownTime, timeMilliseconds. rewrite ge_int_0.
  by destruct (0 <=? x)%Z.
Qed.

Lemma delayTime_int (x : Z) :
  delayTime (VInt x) =
  if (0 <? x)%Z then VNum (secondsOf (inject_Z x)) else VNull.
Proof. unfold delayTime. rewrite gt_int_0. by destruct (0 <? x)%Z. Qed.

Local Ltac list_cases H :=
  repeat (apply elem_of_cons in H as [H | H]; [inversion H; subst; clear H |]);
  try (by apply elem_of_nil in H).

(** C9, as the program has it: a duration of [x] centiseconds becomes
    [round(x / 10) / 100] seconds when [x >= 0] and [null] when [x] is
    negative; a delay becomes [round(x / 10) / 100] only when [x > 0] and
    [null] when [x <= 0]. *)
Theorem C9_centiseconds_to_seconds
    (listNum partNumber : jsval) (args : list jsval) (i : nat) (f : string) (x : Z) :
  arg args i = VInt x →
  ((i, f) ∈ durationArgs →
     upd_get (cueDataUpdates listNum partNumber args) f =
     if (0 <=? x)%Z then VNum (secondsOf (inject_Z x)) else VNull) ∧
  ((i, f) ∈ delayArgs →
     upd_get (cueDataUpdates listNum partNumber args) f =
     if (0 <? x)%Z then VNum (secondsOf (inject_Z x)) else VNull) ∧
  secondsOf (inject_Z x) = Js.qred (Qmake ((x + 5) / 10) 100).
Proof.
  intros Hx. split; [| split].
  - intros Hin. unfold durationArgs in Hin. list_cases Hin.
    + change (upd_get _ _) with (upDownTime (timeMilliseconds (arg args 3))).
      rewrite Hx. apply upDownTime_int.
    + change (upd_get _ _) with (upDownTime (timeMilliseconds (arg args 5))).
      rewrite Hx. apply upDownTime_int.
    + change (upd_get _ _) with (durationTime (arg args 7)).
      rewrite Hx. apply durationTime_int.
    + change (upd_get _ _) with (durationTime (arg args 9)).
      rewrite Hx. apply durationTime_int.
    + change (upd_get _ _) with (durationTime (arg args 11)).
      rewrite Hx. apply durationTime_int.
  - intros Hin. unfold delayArgs in Hin. list_cases Hin.
    + change (upd_get _ _) with (delayTime (arg args 4)).
      rewrite Hx. apply delayTime_int.
    + change (upd_get _ _) with (delayTime (arg args 6)).
      rewrite Hx. apply delayTime_int.
    + change (upd_get _ _) with (delayTime (arg args 8)).
      rewrite Hx. apply delayTime_int.
    + change (upd_get _ _) with (delayTime (arg args 10)).
      rewrite Hx. apply delayTime_int.
    + change (upd_get _ _) with (delayTime (arg args 12)).
      rewrite Hx. apply delayTime_int.
  - apply secondsOf_int.
Qed.

Lemma C9_centiseconds_to_seconds_witness :
  arg sampleArgs 4 = VInt 0 ∧
  upd_get (cueDataUpdates (VStr "1") (VStr "0") sampleArgs) "up_delay" = VNull.
Proof.
  split; [reflexivity |].
  exact (proj1 (proj2 (C9_centiseconds_to_seconds (VStr "1") (VStr "0")
                         sampleArgs 4 "up_delay" 0 eq_refl))
           ltac:(unfold delayArgs; set_solver)).
Defined.

(** C9 as the specification words it fails for a delay of zero
    centiseconds: the specification wants 0 seconds, the program stores [null]. *)
Lemma C9_delay_zero_counterexample :
  ¬ (∀ (args : list jsval) (x : Z),
       arg args 4 = VInt x → (0 <= x)%Z →
       upd_get (cueDataUpdates (VStr "1") (VStr "0") args) "up_delay" =
       VNum (secondsOf (inject_Z x))).
Proof.
  intros H. specialize (H sampleArgs 0%Z eq_refl ltac:(lia)).
  vm_compute in H. discriminate H.
Qed.

(** ** Frame lemmas: what each function leaves alone *)

Lemma upsert_showTimings n u s :
  showTimings (updateOrCreateCue n u s) = showTimings s.
Proof. unfold updateOrCreateCue. by repeat case_match. Qed.

Lemma upsert_main n u s :
  mainPlaybackList (updateOrCreateCue n u s) = mainPlaybackList s.
Proof. unfold updateOrCreateCue. by repeat case_match. Qed.

Lemma upsert_poll n u s :
  currentPollRequest (updateOrCreateCue n u s) = currentPollRequest s ∧
  activePollingInProgress (updateOrCreateCue n u s) = activePollingInProgress s.
Proof. unfold updateOrCreateCue. by repeat case_match. Qed.

Lemma upsert_timers n u s : timers (updateOrCreateCue n u s) = timers s.
Proof. unfold updateOrCreateCue. by repeat case_match. Qed.

Lemma requestAllCues_cues now l s : cues (requestAllCues now l s) = cues s.
Proof. unfold requestAllCues. by repeat case_match. Qed.

Lemma requestAllCues_showTimings now l s :
  showTimings (requestAllCues now l s) = showTimings s.
Proof. unfold requestAllCues. by repeat case_match. Qed.

Lemma recordTiming_isRecording now n l lab st :
  isRecording (recordTiming now n l lab st) = isRecording st.
Proof. unfold recordTiming. by repeat case_match. Qed.

Lemma recordTiming_start_set now n l lab st t0 :
  showStartTime st = Some t0 → t0 ≠ 0%Z →
  showStartTime (recordTiming now n l lab st) = Some t0.
Proof.
  intros Hs Hne. unfold recordTiming. rewrite Hs.
  destruct (Z.eqb_spec t0 0) as [->|_]; [done |]. by repeat case_match.
Qed.

Lemma recordTiming_start_unset now n l lab st :
  showStartTime st = None ∨ showStartTime st = Some 0%Z →
  showStartTime (recordTiming now n l lab st) = Some now.
Proof.
  intros [Hs | Hs]; unfold recordTiming; rewrite Hs; simpl; by repeat case_match.
Qed.

Lemma updateElapsed_showTimings now p s :
  showTimings (updateElapsed now p s) = showTimings s.
Proof. unfold updateElapsed. by repeat case_match. Qed.

Lemma updateElapsed_cues now p s : cues (updateElapsed now p s) = cues s.
Proof. unfold updateElapsed. by repeat case_match. Qed.

(** ** The timing recorder *)

Lemma setActive_showTimings now l n ty s :
  showTimings (setActiveCueByListAndNumber now l n ty s) =
  match firedCue (EvCuePerList ty l n) s with
  | Some (l, n, lab) =>
      if isRecording (showTimings s) && String.eqb l (mainPlaybackList s)
      then recordTiming now n l lab (showTimings s) else showTimings s
  | None => showTimings s
  end.
Proof.
  unfold setActiveCueByListAndNumber, firedCue.
  set (cleared := map (clearSeen ty l) (cues s)).
  set (target := findIndex _ cleared).
  set (s1 := match target with Some (i, c) => _ | None => _ end).
  set (lab := match target with Some (_, c) => _ | None => _ end).
  assert (H1 : showTimings s1 = showTimings s).
  { unfold s1. destruct target as [[i c]|]; [done | by rewrite upsert_showTimings]. }
  rewrite H1.
  destruct ty; simpl.
  - fold cleared. fold target.
    replace (match target with
             | Some (_, targetCue) => Some (l, n, Js.or (fld targetCue "label") (VStr estr))
             | None => Some (l, n, VStr estr) end) with (Some (l, n, lab))
      by (unfold lab; by destruct target as [[? ?]|]).
    destruct (isRecording (showTimings s)) eqn:Hr; simpl.
    + destruct (l =? mainPlaybackList s) eqn:Hl; simpl.
      * rewrite recordTiming_isRecording, Hr. done.
      * done.
    + rewrite H1, Hr. simpl. rewrite andb_true_r.
      case_match; [by rewrite updateElapsed_showTimings | done].
  - done.
Qed.

Lemma parseCueText_showTimings now text ty ctx s :
  showTimings (parseCueText now text ty ctx s) =
  if seen_eqb ty Active && negb (isResetText (Js.trim text)) then
    match cueTextTarget (Js.trim text) ctx with
    | Some (l, n, rem) =>
      if isRecording (showTimings s) && String.eqb l (mainPlaybackList s)
      then recordTiming now n l (VStr (Re.remainderParts rem).2) (showTimings s)
      else showTimings s
    | None => showTimings s
    end
  else showTimings s.
Proof.
  unfold parseCueText.
  destruct (isResetText (Js.trim text)) eqn:Hreset.
  - rewrite andb_false_r. by repeat case_match.
  - rewrite andb_true_r. destruct (cueTextTarget _ _) as [[[l n] rem]|] eqn:Ht.
    + destruct (Re.remainderParts rem) as [[fadeTime completion] label] eqn:Hrem.
      rewrite upsert_showTimings. cbn [showTimings set_cues snd].
      destruct ty; simpl.
      * destruct (isRecording (showTimings s)) eqn:Hr; simpl.
        -- destruct (l =? mainPlaybackList s) eqn:Hl; simpl.
           ++ rewrite recordTiming_isRecording, Hr. done.
           ++ done.
        -- rewrite Hr. simpl. rewrite andb_true_r.
           case_match; [by rewrite updateElapsed_showTimings | done].
      * by repeat case_match.
    + by repeat case_match.
Qed.

Lemma cueEvent_showTimings now e s :
  cueEvent e = true →
  showTimings (step now e s) =
  match firedCue e s with
  | Some (l, n, lab) =>
      if isRecording (showTimings s) && String.eqb l (mainPlaybackList s)
      then recordTiming now n l lab (showTimings s) else showTimings s
  | None => showTimings s
  end.
Proof.
  destruct e; try done; intros _.
  - cbn [step]. unfold onCuePerList. cbn [showTimings set_cuesChanged].
    apply setActive_showTimings.
  - cbn [step]. unfold onCueText, firedCue.
    set (s1 := match Js.or _ _ with VStr t => _ | _ => s end).
    assert (Hs : showTimings (set_cuesChanged true
              match currentPollRequest s1 with
              | Some (_, t) => if activePollingInProgress s1 && seen_eqb t type
                               then set_poll None false s1 else s1
              | None => s1 end) = showTimings s1) by (by repeat case_match).
    rewrite Hs. unfold s1. destruct (Js.or _ _) eqn:Hor; try by destruct type.
    rewrite parseCueText_showTimings. destruct type; simpl; [| done].
    destruct (isResetText (Js.trim s0)); simpl; [done |].
    by destruct (cueTextTarget _ _) as [[[? ?] ?]|].
Qed.

Lemma recordTiming_first now now0 n l lab :
  now0 ≠ 0%Z →
  recordTiming now n l lab (ShowTimings true (Some now0) None None []) =
  ShowTimings true (Some now0) (Some (secondsSince now0 now)) (Some n)
    [Timing (VStr n) (VStr l) lab (secondsSince now0 now) 0%Q].
Proof.
  intros Hne. unfold recordTiming. cbn [showStartTime lastCueTime lastCueNumber
    cueTimings isRecording findIndex].
  by destruct (Z.eqb_spec now0 0).
Qed.

(** C7, as the program has it: the start request sets [showStartTime] to
    its own wall-clock time; the first active-cue event of the session
    leaves that value in place, and the first recorded cue's timestamp is
    the time elapsed since the start request, [(now - showStartTime) / 1000]. *)
Theorem C7_show_start_is_recording_start
    (now0 now : Z) (s0 : state) (e : event) (l n : string) (lab : jsval) :
  now0 ≠ 0%Z →
  cueEvent e = true →
  firedCue e (apiTimingsStart now0 s0) = Some (l, n, lab) →
  l = mainPlaybackList s0 →
  showStartTime (showTimings (apiTimingsStart now0 s0)) = Some now0 ∧
  showStartTime (showTimings (step now e (apiTimingsStart now0 s0))) = Some now0 ∧
  cueTimings (showTimings (step now e (apiTimingsStart now0 s0))) =
    [Timing (VStr n) (VStr l) lab (secondsSince now0 now) 0%Q].
Proof.
  intros Hne He Hf Hl. split; [done |].
  rewrite (cueEvent_showTimings now e _ He), Hf.
  cbn [apiTimingsStart showTimings set_playback set_showTimings isRecording
       mainPlaybackList andb].
  rewrite Hl, String.eqb_refl, recordTiming_first by done. done.
Qed.

Lemma C7_show_start_is_recording_start_witness :
  showStartTime (showTimings (apiTimingsStart 1000 initialState)) = Some 1000%Z ∧
  showStartTime (showTimings (step 6000 (EvCuePerList Active "1" "7")
                                (apiTimingsStart 1000 initialState))) = Some 1000%Z ∧
  cueTimings (showTimings (step 6000 (EvCuePerList Active "1" "7")
                             (apiTimingsStart 1000 initialState))) =
    [Timing (VStr "7") (VStr "1") (VStr estr) (secondsSince 1000 6000) 0%Q].
Proof.
  apply (C7_show_start_is_recording_start 1000 6000 initialState
           (EvCuePerList Active "1" "7") "1" "7" (VStr estr));
    [lia | reflexivity | reflexivity | reflexivity].
Defined.

(** C7 as the specification words it fails: recording starts at time 1000,
    the first active cue fires at time 6000; [showStartTime] is not the
    time of that event and the first timestamp is 5 seconds, not zero. *)
Lemma C7_first_event_counterexample :
  let s := run [(1000%Z, EvTimingsStart); (6000%Z, EvCuePerList Active "1" "7")]
               initialState in
  showStartTime (showTimings s) = Some 1000%Z ∧
  showStartTime (showTimings s) ≠ Some 6000%Z ∧
  map t_timestamp (cueTimings (showTimings s)) = [5%Q] ∧
  map t_timestamp (cueTimings (showTimings s)) ≠ [0%Q].
Proof. vm_compute. repeat split; discriminate. Qed.

(** ** [findIndex] *)

Lemma findIndex_Some {A} (p : A → bool) l i x :
  findIndex p l = Some (i, x) →
  l !! i = Some x ∧ p x = true ∧ ∀ j y, (j < i)%nat → l !! j = Some y → p y = false.
Proof.
  revert i. induction l as [|a l IH]; intros i H; [done |].
  simpl in H. destruct (p a) eqn:Hp.
  - inversion H; subst. repeat split; [done | intros; lia].
  - destruct (findIndex p l) as [[k y]|]; [| done]. inversion H; subst.
    destruct (IH k eq_refl) as (Hl & Hx & Hlt). repeat split; [done.. |].
    intros [|j] z Hj Hz; simpl in Hz; [by inversion Hz; subst |].
    apply (Hlt j); [lia | done].
Qed.

Lemma findIndex_None {A} (p : A → bool) l :
  findIndex p l = None → ∀ x, x ∈ l → p x = false.
Proof.
  induction l as [|a l IH]; intros H x Hx; [by apply elem_of_nil in Hx |].
  simpl in H. destruct (p a) eqn:Hp; [done |].
  destruct (findIndex p l) as [[k y]|]; [done |].
  apply elem_of_cons in Hx as [-> | Hx]; [done | by apply IH].
Qed.

Lemma findIndex_is_Some {A} (p : A → bool) l x :
  x ∈ l → p x = true → ∃ i y, findIndex p l = Some (i, y).
Proof.
  intros Hx Hp. destruct (findIndex p l) as [[i y]|] eqn:H; [eauto |].
  by rewrite (findIndex_None _ _ H x Hx) in Hp.
Qed.

(** With keys that are pairwise distinct, [findIndex] on a key finds the one
    element that has it. *)
Lemma findIndex_unique {A} (f : A → string) (l : list A) i x :
  NoDup (map f l) → l !! i = Some x →
  findIndex (fun y => String.eqb (f y) (f x)) l = Some (i, x).
Proof.
  intros Hnd Hi.
  destruct (findIndex_is_Some (fun y => String.eqb (f y) (f x)) l x) as (j & y & Hj).
  { by eapply list_elem_of_lookup_2. }
  { apply String.eqb_refl. }
  rewrite Hj. destruct (findIndex_Some _ _ _ _ Hj) as (Hlj & Hfy & _).
  apply String.eqb_eq in Hfy.
  assert (j = i).
  { eapply NoDup_lookup; [exact Hnd | |].
    - rewrite list_lookup_fmap, Hlj. simpl. by rewrite Hfy.
    - by rewrite list_lookup_fmap, Hi. }
  subst. rewrite Hi in Hlj. by inversion Hlj.
Qed.

Lemma recordTiming_NoDup now n l lab st :
  NoDup (timingKeys st) → NoDup (timingKeys (recordTiming now n l lab st)).
Proof.
  intros Hnd. unfold recordTiming.
  destruct (match lastCueNumber st with Some n0 => negb (n =? n0) | None => true end);
    [| done].
  unfold timingKeys. cbn [cueTimings].
  destruct (findIndex _ _) as [[i t]|] eqn:Hf.
  - destruct (findIndex_Some _ _ _ _ Hf) as (Hi & _ & _).
    rewrite list_fmap_insert. cbn [set_times t_cueNumber].
    rewrite list_insert_id; [done |]. by rewrite list_lookup_fmap, Hi.
  - rewrite fmap_app. simpl. apply NoDup_app. split; [done |]. split.
    + intros k Hk Hk'. apply list_elem_of_singleton in Hk'. subst.
      apply list_elem_of_fmap in Hk as (t & Ht & Hin).
      pose proof (findIndex_None _ _ Hf t Hin) as Hne. simpl in Hne.
      rewrite <- Ht in Hne. by rewrite String.eqb_refl in Hne.
    + apply NoDup_singleton.
Qed.

Lemma cueEvent_NoDup now e s :
  cueEvent e = true → NoDup (timingKeys (showTimings s)) →
  NoDup (timingKeys (showTimings (step now e s))).
Proof.
  intros He Hnd. rewrite (cueEvent_showTimings now e s He).
  destruct (firedCue e s) as [[[l n] lab]|]; [| done].
  case_match; [by apply recordTiming_NoDup | done].
Qed.

Lemma run_cons ne evs s : run (ne :: evs) s = run evs (step ne.1 ne.2 s).
Proof. reflexivity. Qed.

Lemma recordTiming_refire now n l lab st i t t0 :
  NoDup (timingKeys st) →
  showStartTime st = Some t0 → t0 ≠ 0%Z →
  lastCueNumber st ≠ Some n →
  cueTimings st !! i = Some t → Js.toStr (t_cueNumber t) = n →
  cueTimings (recordTiming now n l lab st) =
    <[i := Timing (t_cueNumber t) (t_cueList t) (t_label t) (secondsSince t0 now)
             (sincePrevious (secondsSince t0 now) (lastCueTime st))]> (cueTimings st).
Proof.
  intros Hnd Hs Hne Hlast Hi Hn. unfold recordTiming. rewrite Hs.
  destruct (Z.eqb_spec t0 0) as [? | _]; [done |].
  assert (Hd : match lastCueNumber st with
               | Some n0 => negb (n =? n0) | None => true end = true).
  { destruct (lastCueNumber st) as [n0|]; [| done].
    apply negb_true_iff, String.eqb_neq. congruence. }
  rewrite Hd. cbn [cueTimings]. subst n.
  by rewrite (findIndex_unique (fun t => Js.toStr (t_cueNumber t)) _ i t Hnd Hi).
Qed.

(** C6: while cue events are processed, [cueTimings] never holds two
    entries for one cue number; when a cue number that already has an entry
    fires again on the main list (another cue having fired in between, so it
    differs from [lastCueNumber]), the entry at its position gets the new
    timestamp and time from previous, and the list keeps its length. *)
Theorem C6_one_timing_entry_per_cue (evs : list (Z * event)) (s : state) :
  Forall (fun ne => cueEvent ne.2 = true) evs →
  NoDup (timingKeys (showTimings s)) →
  NoDup (timingKeys (showTimings (run evs s))) ∧
  ∀ (now : Z) (e : event) (l n : string) (lab : jsval) (i : nat) (t : timing) (t0 : Z),
    cueEvent e = true →
    firedCue e (run evs s) = Some (l, n, lab) →
    isRecording (showTimings (run evs s)) = true →
    l = mainPlaybackList (run evs s) →
    showStartTime (showTimings (run evs s)) = Some t0 → t0 ≠ 0%Z →
    lastCueNumber (showTimings (run evs s)) ≠ Some n →
    cueTimings (showTimings (run evs s)) !! i = Some t →
    Js.toStr (t_cueNumber t) = n →
    cueTimings (showTimings (step now e (run evs s))) =
      <[i := Timing (t_cueNumber t) (t_cueList t) (t_label t) (secondsSince t0 now)
               (sincePrevious (secondsSince t0 now)
                  (lastCueTime (showTimings (run evs s))))]>
        (cueTimings (showTimings (run evs s))) ∧
    length (cueTimings (showTimings (step now e (run evs s)))) =
    length (cueTimings (showTimings (run evs s))).
Proof.
  intros Hev Hnd.
  assert (Hnd' : NoDup (timingKeys (showTimings (run evs s)))).
  { revert s Hnd. induction Hev as [|[now e] evs He _ IH]; intros s Hnd; [done |].
    rewrite run_cons. apply IH. by apply cueEvent_NoDup. }
  split; [done |].
  intros now e l n lab i t t0 He Hf Hr Hl Hs Hne Hlast Hi Hn.
  rewrite (cueEvent_showTimings now e _ He), Hf, Hr, Hl, String.eqb_refl.
  cbn [andb]. rewrite <- Hl.
  rewrite (recordTiming_refire now n l lab _ i t t0) by done.
  split; [done | by rewrite length_insert].
Qed.

Lemma C6_one_timing_entry_per_cue_witness :
  NoDup (timingKeys (showTimings
    (run [(2000%Z, EvCuePerList Active "1" "5"); (3000%Z, EvCuePerList Active "1" "6")]
         (apiTimingsStart 1000 initialState)))) ∧
  cueTimings (showTimings
    (step 4500 (EvCuePerList Active "1" "5")
       (run [(2000%Z, EvCuePerList Active "1" "5"); (3000%Z, EvCuePerList Active "1" "6")]
            (apiTimingsStart 1000 initialState)))) =
  [Timing (VStr "5") (VStr "1") (VStr estr) (7 # 2) (3 # 2);
   Timing (VStr "6") (VStr "1") (VStr estr) 2 1].
Proof.
  destruct (C6_one_timing_entry_per_cue
              [(2000%Z, EvCuePerList Active "1" "5"); (3000%Z, EvCuePerList Active "1" "6")]
              (apiTimingsStart 1000 initialState)) as [Hnd Hre].
  - repeat constructor.
  - vm_compute. constructor.
  - split; [exact Hnd |].
    destruct (Hre 4500%Z (EvCuePerList Active "1" "5") "1" "5" (VStr estr) 0%nat
                (Timing (VStr "5") (VStr "1") (VStr estr) 1 0) 1000%Z) as [Heq _];
      [reflexivity | reflexivity | reflexivity | reflexivity | reflexivity | lia
      | vm_compute; discriminate | reflexivity | reflexivity |].
    etrans; [exact Heq | vm_compute; reflexivity].
Defined.

(** ** The cleanup of a refresh *)

Lemma checkBulkRefreshComplete_cues now s :
  bulkRefreshInProgress (refresh s) = true →
  cues (checkBulkRefreshComplete now s) =
  List.filter (keepCue (bulkRefreshCueList (refresh s))
                 (bulkRefreshReceivedCues (refresh s))) (cues s).
Proof.
  intros Hp. unfold checkBulkRefreshComplete. rewrite Hp. cbn [negb].
  cbv zeta. case_match; [done |]. by rewrite requestAllCues_cues.
Qed.

Lemma elem_of_bfilter {A} (p : A → bool) (l : list A) x :
  x ∈ List.filter p l ↔ x ∈ l ∧ p x = true.
Proof. rewrite !list_elem_of_In. apply filter_In. Qed.

Lemma bfilter_bfilter_implied {A} (p q : A → bool) (l : list A) :
  (∀ x, p x = true → q x = true) →
  List.filter p (List.filter q l) = List.filter p l.
Proof.
  intros Hpq. induction l as [|a l IH]; [done |]. simpl.
  destruct (q a) eqn:Hq; simpl.
  - by rewrite IH.
  - destruct (p a) eqn:Hp; [| done]. by rewrite (Hpq a Hp) in Hq.
Qed.

Lemma keepCue_other_list L K c :
  listStr c ≠ Js.toStr L → keepCue L K c = true.
Proof.
  intros Hne. unfold keepCue. fold (listStr c).
  apply String.eqb_neq in Hne. by rewrite Hne.
Qed.

Lemma keepCue_same_list L K c :
  listStr c = Js.toStr L → keepCue L K c = receivedHas K (fld c "cue_number").
Proof.
  intros He. unfold keepCue. fold (listStr c).
  rewrite He, String.eqb_refl. simpl. by destruct (receivedHas _ _).
Qed.

(** C2: the cleanup removes from the refreshed list exactly the cues whose
    number was not received, and leaves every other list as it was. *)
Theorem C2_cleanup_evicts_unreceived (now : Z) (s : state) :
  bulkRefreshInProgress (refresh s) = true →
  let L := Js.toStr (bulkRefreshCueList (refresh s)) in
  let K := bulkRefreshReceivedCues (refresh s) in
  let s' := checkBulkRefreshComplete now s in
  (∀ c, c ∈ cues s' → listStr c = L → receivedHas K (fld c "cue_number") = true) ∧
  (∀ c, c ∈ cues s → listStr c = L → receivedHas K (fld c "cue_number") = true →
        c ∈ cues s') ∧
  (∀ c, c ∈ cues s → listStr c ≠ L → c ∈ cues s') ∧
  (∀ c, c ∈ cues s' → c ∈ cues s) ∧
  List.filter (fun c => negb (String.eqb (listStr c) L)) (cues s') =
  List.filter (fun c => negb (String.eqb (listStr c) L)) (cues s).
Proof.
  intros Hp L K s'. unfold s'. rewrite (checkBulkRefreshComplete_cues now s Hp).
  fold K. repeat split.
  - intros c Hc Hl. apply elem_of_bfilter in Hc as [_ Hk].
    by rewrite keepCue_same_list in Hk.
  - intros c Hc Hl Hr. apply elem_of_bfilter. split; [done |].
    by rewrite keepCue_same_list.
  - intros c Hc Hl. apply elem_of_bfilter. split; [done |].
    by apply keepCue_other_list.
  - intros c Hc. by apply elem_of_bfilter in Hc as [? _].
  - apply bfilter_bfilter_implied. intros c Hc.
    apply keepCue_other_list. apply negb_true_iff in Hc.
    by apply String.eqb_neq.
Qed.

Lemma C2_cleanup_evicts_unreceived_witness :
  let s := run [(0%Z, EvNotes "5" (VStr "hello")); (1%Z, EvNotes "6" (VStr "bye"));
                (2%Z, EvCuePerList Pending "2" "10"); (3%Z, EvRequestAllCues 1);
                (4%Z, EvGet "/eos/out/get/cue/1/count" [VInt 1]);
                (5%Z, EvGet "/eos/out/get/cue/1/5/0/list/0/1" sampleArgs)]
               initialState in
  bulkRefreshInProgress (refresh s) = true ∧
  map (fun c => (listStr c, numberStr c)) (cues s) = [("1", "5"); ("1", "6"); ("2", "10")] ∧
  map (fun c => (listStr c, numberStr c)) (cues (checkBulkRefreshComplete 6 s)) =
    [("1", "5"); ("2", "10")] ∧
  (∀ c, c ∈ cues (checkBulkRefreshComplete 6 s) → listStr c = "1" →
        receivedHas (bulkRefreshReceivedCues (refresh s)) (fld c "cue_number") = true).
Proof.
  intros s. split; [reflexivity |]. split; [reflexivity |]. split; [reflexivity |].
  exact (proj1 (C2_cleanup_evicts_unreceived 6 s eq_refl)).
Defined.

(** ** Fields of a cue after a write *)

Lemma fld_insert_eq (c : cue) k v : fld (<[k := v]> c) k = v.
Proof. unfold fld. by rewrite lookup_insert_eq. Qed.

Lemma fld_insert_ne (c : cue) k k' v : k ≠ k' → fld (<[k := v]> c) k' = fld c k'.
Proof. intros. unfold fld. by rewrite lookup_insert_ne. Qed.

Lemma clearSeen_listStr t l c : listStr (clearSeen t l c) = listStr c.
Proof.
  unfold clearSeen. case_match; [| done].
  unfold listStr, listOf. by rewrite fld_insert_ne.
Qed.

Lemma clearSeen_other_list t l c : listStr c ≠ l → clearSeen t l c = c.
Proof.
  intros Hne. unfold clearSeen. fold (listStr c).
  apply String.eqb_neq in Hne. by rewrite Hne, andb_false_r.
Qed.

Lemma clearSeen_not_seen t l c :
  Js.strict_eq (fld c "last_seen") (VStr (seen_str t)) = false → clearSeen t l c = c.
Proof. intros H. unfold clearSeen. by rewrite H. Qed.

Lemma clearSeen_cleared t l c :
  listStr c = l →
  Js.strict_eq (fld (clearSeen t l c) "last_seen") (VStr (seen_str t)) = false.
Proof.
  intros Hl. unfold clearSeen. fold (listStr c). rewrite Hl, String.eqb_refl, andb_true_r.
  destruct (Js.strict_eq (fld c "last_seen") _) eqn:H; [by rewrite fld_insert_eq | done].
Qed.

Lemma clearSeenAll_not_seen t c :
  Js.strict_eq (fld c "last_seen") (VStr (seen_str t)) = false → clearSeenAll t c = c.
Proof. intros H. unfold clearSeenAll. by rewrite H. Qed.

Lemma clearSeenAll_cleared t c :
  Js.strict_eq (fld (clearSeenAll t c) "last_seen") (VStr (seen_str t)) = false.
Proof.
  unfold clearSeenAll.
  destruct (Js.strict_eq (fld c "last_seen") _) eqn:H; [by rewrite fld_insert_eq | done].
Qed.

(** The test of [parseCueText] for an empty or reset text, in words: the
    text is empty or begins with [0.0 ] or [0/0]. *)
Lemma isResetText_spec (t : string) :
  isResetText t = true ↔
  t = estr ∨ Js.startsWith "0.0 " t = true ∨ Js.startsWith "0/0" t = true.
Proof.
  unfold isResetText, Js.truthy. split.
  - intros H. destruct (String.eqb t estr) eqn:E0.
    { apply String.eqb_eq in E0. by left. }
    cbn [negb orb] in H. right.
    destruct (String.eqb t "0.0 100%") eqn:E.
    { apply String.eqb_eq in E. subst t. by left. }
    cbn [orb] in H. apply orb_prop in H as [H | H]; [| done].
    apply orb_prop in H as [H | H]; [by left | by right].
  - intros [H | [H | H]].
    + subst t. done.
    + rewrite H. by rewrite ?orb_true_r.
    + rewrite H. by rewrite ?orb_true_r.
Qed.

(** C4, as the program has it.  The text is trimmed first, so the reset
    texts are those that are empty or begin with [0.0 ] or [0/0] once
    trimmed.  Such a text clears [last_seen] of its type in the contextual
    list only when that list is known; when it is not, the fallback clears
    it in every list.  Cues whose [last_seen] is not of that type are never
    touched. *)
Theorem C4_reset_text_clears (now : Z) (cueText : string) (type : seen)
    (contextList : option string) (s : state) :
  Js.trim cueText = estr ∨ Js.startsWith "0.0 " (Js.trim cueText) = true ∨
    Js.startsWith "0/0" (Js.trim cueText) = true →
  let s' := parseCueText now cueText type contextList s in
  (∀ l, knownList contextList = Some l →
     (∀ i c, cues s !! i = Some c → listStr c ≠ l → cues s' !! i = Some c) ∧
     (∀ c', c' ∈ cues s' → listStr c' = l →
        Js.strict_eq (fld c' "last_seen") (VStr (seen_str type)) = false)) ∧
  (knownList contextList = None →
     ∀ c', c' ∈ cues s' →
       Js.strict_eq (fld c' "last_seen") (VStr (seen_str type)) = false) ∧
  (∀ i c, cues s !! i = Some c →
     Js.strict_eq (fld c "last_seen") (VStr (seen_str type)) = false →
     cues s' !! i = Some c).
Proof.
  intros Hreset s'. apply isResetText_spec in Hreset.
  unfold s', parseCueText. rewrite Hreset.
  split; [intros l Hk; rewrite Hk; split | split].
  - intros i c Hi Hne. cbn [cues set_cues].
    rewrite list_lookup_fmap, Hi. simpl. by rewrite clearSeen_other_list.
  - intros c' Hc' Hl. cbn [cues set_cues] in Hc'.
    apply list_elem_of_fmap in Hc' as (c & -> & _).
    rewrite clearSeen_listStr in Hl. by apply clearSeen_cleared.
  - intros Hk c' Hc'. rewrite Hk in Hc'. cbn [cues set_cues] in Hc'.
    apply list_elem_of_fmap in Hc' as (c & -> & _). apply clearSeenAll_cleared.
  - intros i c Hi Hns. destruct (knownList contextList); cbn [cues set_cues];
      rewrite list_lookup_fmap, Hi; simpl.
    + by rewrite clearSeen_not_seen.
    + by rewrite clearSeenAll_not_seen.
Qed.

Lemma C4_reset_text_clears_witness :
  let s := run [(0%Z, EvCuePerList Active "1" "5"); (1%Z, EvCuePerList Active "2" "9")]
               initialState in
  Js.startsWith "0/0" (Js.trim "  0/0 Go 3.0 100%") = true ∧
  (∀ i c, cues s !! i = Some c → listStr c ≠ "1" →
          cues (parseCueText 2 "  0/0 Go 3.0 100%" Active (Some "1") s) !! i = Some c) ∧
  map (fun c => (listStr c, fld c "last_seen"))
      (cues (parseCueText 2 "  0/0 Go 3.0 100%" Active (Some "1") s)) =
    [("1", VNull); ("2", VStr "active")].
Proof.
  intros s. split; [reflexivity |]. split; [| reflexivity].
  exact (proj1 (proj1 (C4_reset_text_clears 2 "  0/0 Go 3.0 100%" Active (Some "1") s
                         (or_intror (or_intror eq_refl)))
                  "1" eq_refl)).
Defined.

(** The trim decides: [0.0] followed by white space only begins with
    [0.0 ] as it arrives but is [0.0] once trimmed, which is no reset; with
    list 1 as context it is read as cue 0.0 of that list, which becomes the
    active cue. *)
Example C4_trailing_space_is_no_reset :
  let s := run [(0%Z, EvCuePerList Active "1" "5")] initialState in
  Js.startsWith "0.0 " "0.0 " = true ∧
  isResetText (Js.trim "0.0 ") = false ∧
  map (fun c => (numberStr c, fld c "last_seen"))
      (cues (parseCueText 2 "0.0 " Active (Some "1") s)) =
    [("0.0", VStr "active"); ("5", VNull)].
Proof. vm_compute. repeat split; reflexivity. Qed.

(** C4 as the specification words it fails when no contextual list is known:
    lists 1 and 2 each have an active cue, an empty active text arrives on
    the address without a list while no poll is outstanding, and the active
    mark of both lists is gone. *)
Lemma C4_global_wipe_counterexample :
  let s := run [(0%Z, EvCuePerList Active "1" "5"); (1%Z, EvCuePerList Active "2" "9")]
               initialState in
  let s' := step 2 (EvCueText Active [VStr estr] None) s in
  map (fun c => (listStr c, fld c "last_seen")) (cues s) =
    [("1", VStr "active"); ("2", VStr "active")] ∧
  map (fun c => (listStr c, fld c "last_seen")) (cues s') =
    [("1", VNull); ("2", VNull)].
Proof. vm_compute. split; reflexivity. Qed.

(** ** Keys *)

Lemma slash_inside (b p b' : string) :
  slashFree b' = true → b +:+ "/" +:+ p ≠ b'.
Proof.
  revert b'. induction b as [|c b IH]; intros b' Hb' Heq; subst b'.
  - by vm_compute in Hb'.
  - simpl in Hb'. apply andb_prop in Hb' as [_ Hb']. by apply (IH _ Hb').
Qed.

Lemma key_split (a x a' b' : string) :
  slashFree a' = true → slashFree b' = true →
  a +:+ "/" +:+ x = a' +:+ "/" +:+ b' → a = a' ∧ x = b'.
Proof.
  revert a. induction a' as [|c a' IH]; intros a Ha' Hb' Heq.
  - destruct a as [|c0 a]; simpl in Heq.
    + by inversion Heq.
    + inversion Heq as [[Hc0 Hrest]]. by destruct (slash_inside a x b' Hb').
  - simpl in Ha'. apply andb_prop in Ha' as [Hc Ha'].
    destruct a as [|c0 a]; simpl in Heq.
    + inversion Heq; subst. by vm_compute in Hc.
    + inversion Heq as [[Hc0 Hrest]]. by destruct (IH a Ha' Hb' Hrest) as [-> ->].
Qed.

(** A key built from a list and a number without slash, and no part, is the
    key of exactly the cues of that list with that number and no part. *)
Lemma existingKey_plain (c : cue) (l n : string) :
  slashFree l = true → slashFree n = true →
  existingKey c = l +:+ "/" +:+ n →
  listStr c = l ∧ numberStr c = n ∧ Js.gt (partOf c) (VInt 0) = false.
Proof.
  intros Hl Hn. unfold existingKey, makeKey. fold (listStr c) (numberStr c).
  destruct (Js.gt (partOf c) (VInt 0)); intros Heq.
  - apply key_split in Heq as [_ Heq]; [| done..].
    by destruct (slash_inside _ _ _ Hn Heq).
  - by apply key_split in Heq as [-> ->].
Qed.

(** ** Sorting permutes *)

Lemma sortInsert_perm x l : sortInsert x l ≡ₚ x :: l.
Proof.
  induction l as [|y l IH]; [done |]. simpl. case_match; [done |].
  rewrite IH. apply Permutation_swap.
Qed.

Lemma foldl_sortInsert_perm l acc :
  foldl (fun acc x => sortInsert x acc) acc l ≡ₚ acc ++ l.
Proof.
  revert acc. induction l as [|x l IH]; intros acc; simpl.
  - by rewrite app_nil_r.
  - rewrite IH, sortInsert_perm. simpl. apply Permutation_middle.
Qed.

Lemma sortCues_perm l : sortCues l ≡ₚ l.
Proof. unfold sortCues. by rewrite foldl_sortInsert_perm. Qed.

(** ** What [updateOrCreateCue] does to the store *)

Lemma upsert_cues n u s :
  cues (updateOrCreateCue n u s) =
  match findIndex (fun c => String.eqb (existingKey c) (cueKeyOf n u)) (cues s) with
  | Some (i, e) => <[i := applyUpdates e u]> (cues s)
  | None =>
      sortCues (cues s ++ [newCue n (Js.or (upd_get u "cue_list") (VStr "1")) u])
  end.
Proof.
  unfold updateOrCreateCue, cueKeyOf.
  set (s1 := if _ && _ then _ else s).
  assert (Hs1 : cues s1 = cues s) by (unfold s1; by case_match).
  rewrite Hs1. by destruct (findIndex _ _) as [[i e]|].
Qed.

(** ** The annotation endpoints *)

Lemma upsert_creates n u s :
  slashFree n = true →
  cueKeyOf n u = "1" +:+ "/" +:+ n →
  (∀ c, c ∈ cues s → numberStr c = n → listStr c ≠ "1") →
  cues (updateOrCreateCue n u s) =
  sortCues (cues s ++ [newCue n (Js.or (upd_get u "cue_list") (VStr "1")) u]).
Proof.
  intros Hn Hk Hno. rewrite upsert_cues, Hk.
  destruct (findIndex _ _) as [[i e]|] eqn:Hf; [| done].
  destruct (findIndex_Some _ _ _ _ Hf) as (Hi & He & _).
  apply String.eqb_eq in He.
  apply existingKey_plain in He as (Hl & Hnum & _); [| done..].
  destruct (Hno e); [by eapply list_elem_of_lookup_2 | done..].
Qed.

(** C10: the notes, color and tags endpoints pass no [cue_list], so the key
    they look up is that of list ['1'], part 0; when every cue with that
    number belongs to another list, none is annotated and a new record with
    the default fields is created in list ['1']. *)
Theorem C10_annotation_targets_list_1
    (n : string) (notes color tags : jsval) (s : state) :
  slashFree n = true →
  (∀ c, c ∈ cues s → numberStr c = n → listStr c ≠ "1") →
  cueKeyOf n [("notes", notes)] = "1" +:+ "/" +:+ n ∧
  cueKeyOf n [("color", color)] = "1" +:+ "/" +:+ n ∧
  cueKeyOf n [("tags", tagArrayOf tags)] = "1" +:+ "/" +:+ n ∧
  cues (apiNotes n notes s) =
    sortCues (cues s ++ [<["notes" := notes]> (objectOf (newCueDefaults n (VStr "1")))]) ∧
  cues (apiColor n color s) =
    sortCues (cues s ++ [<["color" := color]> (objectOf (newCueDefaults n (VStr "1")))]) ∧
  cues (apiTags n tags s) =
    sortCues (cues s ++ [<["tags" := tagArrayOf tags]> (objectOf (newCueDefaults n (VStr "1")))]) ∧
  listStr (<["notes" := notes]> (objectOf (newCueDefaults n (VStr "1")))) = "1" ∧
  listStr (<["color" := color]> (objectOf (newCueDefaults n (VStr "1")))) = "1" ∧
  listStr (<["tags" := tagArrayOf tags]> (objectOf (newCueDefaults n (VStr "1")))) = "1" ∧
  (∀ c, c ∈ cues s →
     c ∈ cues (apiNotes n notes s) ∧ c ∈ cues (apiColor n color s) ∧
     c ∈ cues (apiTags n tags s)).
Proof.
  intros Hn Hno.
  assert (H1 : cues (apiNotes n notes s) =
    sortCues (cues s ++ [<["notes" := notes]> (objectOf (newCueDefaults n (VStr "1")))])).
  { unfold apiNotes. by rewrite upsert_creates. }
  assert (H2 : cues (apiColor n color s) =
    sortCues (cues s ++ [<["color" := color]> (objectOf (newCueDefaults n (VStr "1")))])).
  { unfold apiColor. by rewrite upsert_creates. }
  assert (H3 : cues (apiTags n tags s) =
    sortCues (cues s ++ [<["tags" := tagArrayOf tags]> (objectOf (newCueDefaults n (VStr "1")))])).
  { unfold apiTags. by rewrite upsert_creates. }
  repeat split; try done.
  - rewrite H1, sortCues_perm. apply elem_of_app. by left.
  - rewrite H2, sortCues_perm. apply elem_of_app. by left.
  - rewrite H3, sortCues_perm. apply elem_of_app. by left.
Qed.

Lemma C10_annotation_targets_list_1_witness :
  let s := run [(0%Z, EvCuePerList Pending "2" "5")] initialState in
  cues (apiNotes "5" (VStr "hello") s) =
    sortCues (cues s ++ [<["notes" := VStr "hello"]> (objectOf (newCueDefaults "5" (VStr "1")))]) ∧
  map (fun c => (listStr c, numberStr c, fld c "notes")) (cues (apiNotes "5" (VStr "hello") s)) =
    [("1", "5", VStr "hello"); ("2", "5", VStr estr)].
Proof.
  intros s. split; [| reflexivity].
  refine (proj1 (proj2 (proj2 (proj2
            (C10_annotation_targets_list_1 "5" (VStr "hello") VNull VNull s eq_refl _))))).
  assert (HF : forallb (fun c => String.eqb (listStr c) "2") (cues s) = true)
    by (vm_compute; reflexivity).
  intros c Hc _ H1. apply list_elem_of_In in Hc.
  pose proof (proj1 (forallb_forall _ _) HF c Hc) as H2.
  apply String.eqb_eq in H2. rewrite H2 in H1. discriminate H1.
Defined.

Arguments str_in : simpl never.
Arguments hasData : simpl never.
Arguments Js.toStr : simpl never.
Arguments Js.gt : simpl never.
Arguments Js.or : simpl never.

(** A string literal is not in a list of other literals. *)
Local Ltac str_notin :=
  let Hx := fresh in
  intros Hx;
  repeat (apply elem_of_cons in Hx as [Hx | Hx]; [discriminate Hx |]);
  by apply elem_of_nil in Hx.

Local Ltac user_cases Hf :=
  unfold userFields in Hf;
  repeat (apply elem_of_cons in Hf as [-> | Hf]);
  try (by apply elem_of_nil in Hf).

(** ** The update loop and the object literal *)

Lemma str_in_elem_of k l : str_in k l = true ↔ k ∈ l.
Proof.
  unfold str_in. rewrite existsb_exists. split.
  - intros (x & Hx & He). apply String.eqb_eq in He. subst.
    by apply list_elem_of_In.
  - intros Hk. exists k. split; [by apply list_elem_of_In | apply String.eqb_refl].
Qed.

Lemma upd_get_notin u k : k ∉ map fst u → upd_get u k = VUndef.
Proof.
  induction u as [|[k0 v0] u IH]; intros Hk; [done |]. simpl in *.
  apply not_elem_of_cons in Hk as [Hne Hk].
  destruct (String.eqb_spec k0 k); [congruence | by apply IH].
Qed.

Lemma applyUpdate_lookup_ne c kv k : kv.1 ≠ k → applyUpdate c kv !! k = c !! k.
Proof.
  intros Hne. unfold applyUpdate. repeat case_match; by rewrite ?lookup_insert_ne.
Qed.

Lemma applyUpdates_lookup_notin c u k :
  k ∉ map fst u → applyUpdates c u !! k = c !! k.
Proof.
  revert c. induction u as [|[k0 v0] u IH]; intros c Hk; [done |]. simpl in *.
  apply not_elem_of_cons in Hk as [Hne Hk].
  unfold applyUpdates in *. simpl. rewrite IH by done.
  by apply applyUpdate_lookup_ne.
Qed.

Lemma applyUpdates_fld_notin c u k :
  k ∉ map fst u → fld (applyUpdates c u) k = fld c k.
Proof. intros Hk. unfold fld. by rewrite applyUpdates_lookup_notin. Qed.

(** A property present in [updates] is written when it is one of the
    always-updated fields or carries data, and left alone otherwise. *)
Lemma applyUpdates_fld_in c u k :
  NoDup (map fst u) → k ∈ map fst u →
  fld (applyUpdates c u) k =
  if str_in k alwaysUpdateFields || hasData (upd_get u k) then upd_get u k
  else fld c k.
Proof.
  revert c. induction u as [|[k0 v0] u IH]; intros c Hnd Hk.
  { by apply elem_of_nil in Hk. }
  simpl in Hnd, Hk. apply NoDup_cons in Hnd as [Hk0 Hnd].
  unfold applyUpdates in *. simpl.
  destruct (String.eqb_spec k0 k) as [-> | Hne].
  - fold (applyUpdates (applyUpdate c (k, v0)) u).
    rewrite applyUpdates_fld_notin by done.
    unfold applyUpdate. simpl.
    destruct (str_in k alwaysUpdateFields); simpl; [apply fld_insert_eq |].
    destruct (hasData v0); [apply fld_insert_eq | done].
  - apply elem_of_cons in Hk as [? | Hk]; [congruence |].
    rewrite IH by done.
    replace (fld (applyUpdate c (k0, v0)) k) with (fld c k); [done |].
    unfold fld. by rewrite applyUpdate_lookup_ne.
Qed.

Lemma objectOf_app (d u : updates) : objectOf (d ++ u)%list = foldl (fun c kv => <[kv.1 := kv.2]> c) (objectOf d) u.
Proof. unfold objectOf. apply foldl_app. Qed.

Lemma foldl_insert_lookup_notin (c : cue) u k :
  k ∉ map fst u → foldl (fun c kv => <[kv.1 := kv.2]> c) c u !! k = c !! k.
Proof.
  revert c. induction u as [|[k0 v0] u IH]; intros c Hk; [done |]. simpl in *.
  apply not_elem_of_cons in Hk as [Hne Hk].
  rewrite IH by done. by rewrite lookup_insert_ne.
Qed.

Lemma foldl_insert_fld_in (c : cue) u k :
  NoDup (map fst u) → k ∈ map fst u →
  fld (foldl (fun c kv => <[kv.1 := kv.2]> c) c u) k = upd_get u k.
Proof.
  revert c. induction u as [|[k0 v0] u IH]; intros c Hnd Hk.
  { by apply elem_of_nil in Hk. }
  simpl in Hnd, Hk. apply NoDup_cons in Hnd as [Hk0 Hnd]. simpl.
  destruct (String.eqb_spec k0 k) as [-> | Hne].
  - unfold fld. rewrite foldl_insert_lookup_notin by done.
    by rewrite lookup_insert_eq.
  - apply elem_of_cons in Hk as [? | Hk]; [congruence |]. by apply IH.
Qed.

(** The fields of a new cue: those of [updates] where it has them, the
    defaults elsewhere. *)
Lemma newCue_fld_in n cl u k :
  NoDup (map fst u) → k ∈ map fst u → fld (newCue n cl u) k = upd_get u k.
Proof. intros. unfold newCue. rewrite objectOf_app. by apply foldl_insert_fld_in. Qed.

Lemma newCue_lookup_notin n cl u k :
  k ∉ map fst u → newCue n cl u !! k = objectOf (newCueDefaults n cl) !! k.
Proof. intros. unfold newCue. rewrite objectOf_app. by apply foldl_insert_lookup_notin. Qed.

Lemma newCue_fld_notin n cl u k :
  k ∉ map fst u → fld (newCue n cl u) k = fld (objectOf (newCueDefaults n cl)) k.
Proof. intros. unfold fld. by rewrite newCue_lookup_notin. Qed.

Lemma makeKey_ext a b p a' b' p' :
  Js.toStr a = Js.toStr a' → Js.toStr b = Js.toStr b' →
  Js.gt p (VInt 0) = Js.gt p' (VInt 0) →
  (Js.gt p (VInt 0) = true → Js.toStr p = Js.toStr p') →
  makeKey a b p = makeKey a' b' p'.
Proof.
  intros Ha Hb Hg Hp. unfold makeKey. rewrite <- Hg, Ha, Hb.
  destruct (Js.gt p (VInt 0)); [by rewrite Hp | done].
Qed.

Lemma key_head (a x a' x' : string) :
  slashFree a = true → slashFree a' = true →
  a +:+ "/" +:+ x = a' +:+ "/" +:+ x' → a = a' ∧ x = x'.
Proof.
  revert a'. induction a as [|c a IH]; intros [|c' a'] Ha Ha' Heq; simpl in Heq.
  - by inversion Heq.
  - inversion Heq as [[Hc Hrest]]. subst c'. by vm_compute in Ha'.
  - inversion Heq as [[Hc Hrest]]. subst c. by vm_compute in Ha.
  - inversion Heq as [[Hc Hrest]]. subst c'.
    simpl in Ha, Ha'. apply andb_prop in Ha as [_ Ha]. apply andb_prop in Ha' as [_ Ha'].
    by destruct (IH a' Ha Ha' Hrest) as [-> ->].
Qed.

Lemma makeKey_inv a b p a' b' p' :
  slashFree (Js.toStr a) = true → slashFree (Js.toStr b) = true →
  slashFree (Js.toStr a') = true → slashFree (Js.toStr b') = true →
  makeKey a b p = makeKey a' b' p' →
  Js.toStr a = Js.toStr a' ∧ Js.toStr b = Js.toStr b' ∧
  Js.gt p (VInt 0) = Js.gt p' (VInt 0) ∧
  (Js.gt p (VInt 0) = true → Js.toStr p = Js.toStr p').
Proof.
  intros Ha Hb Ha' Hb'. unfold makeKey.
  destruct (Js.gt p (VInt 0)), (Js.gt p' (VInt 0)); intros Heq.
  - apply key_head in Heq as [Ha1 Heq]; [| done..].
    by apply key_head in Heq as [Hb1 Hp1].
  - apply key_head in Heq as [Ha1 Heq]; [| done..].
    by destruct (slash_inside _ _ _ Hb' Heq).
  - apply key_head in Heq as [Ha1 Heq]; [| done..].
    symmetry in Heq. by destruct (slash_inside _ _ _ Hb Heq).
  - by apply key_head in Heq as [Ha1 Hb1].
Qed.

(** ** Upserts keep every cue, its key and its user fields *)

Lemma sameUserFields_refl c : sameUserFields c c.
Proof. by intros f _. Qed.

Lemma sameUserFields_trans c1 c2 c3 :
  sameUserFields c1 c2 → sameUserFields c2 c3 → sameUserFields c1 c3.
Proof. intros H1 H2 f Hf. by rewrite (H2 f Hf), (H1 f Hf). Qed.

Lemma kept_refl cs : kept cs cs.
Proof. intros c Hc. exists c. split; [done |]. split; [done | apply sameUserFields_refl]. Qed.

Lemma kept_trans cs1 cs2 cs3 : kept cs1 cs2 → kept cs2 cs3 → kept cs1 cs3.
Proof.
  intros H1 H2 c Hc. destruct (H1 c Hc) as (c2 & Hc2 & Hk2 & Hu2).
  destruct (H2 c2 Hc2) as (c3 & Hc3 & Hk3 & Hu3). exists c3.
  split; [done |]. split; [congruence | by eapply sameUserFields_trans].
Qed.

Lemma NoDup_key_eq (cs : list cue) c c' :
  NoDup (map existingKey cs) → c ∈ cs → c' ∈ cs →
  existingKey c = existingKey c' → c = c'.
Proof.
  intros Hnd Hc Hc' Hk.
  apply list_elem_of_lookup in Hc as [i Hi]. apply list_elem_of_lookup in Hc' as [j Hj].
  assert (i = j).
  { eapply NoDup_lookup; [exact Hnd | |].
    - by rewrite list_lookup_fmap, Hi.
    - rewrite list_lookup_fmap, Hj. simpl. by rewrite Hk. }
  subst. congruence.
Qed.

Lemma kept_userStable cs cs' :
  NoDup (map existingKey cs') → kept cs cs' → userStable cs cs'.
Proof.
  intros Hnd Hk c c' Hc Hc' Hkey. destruct (Hk c Hc) as (c0 & Hc0 & Hk0 & Hu).
  by rewrite (NoDup_key_eq cs' c' c0 Hnd Hc' Hc0) by congruence.
Qed.

Lemma NoDup_map_bfilter {A B} (f : A → B) (p : A → bool) (l : list A) :
  NoDup (map f l) → NoDup (map f (List.filter p l)).
Proof.
  induction l as [|a l IH]; [done |]. simpl. intros Hnd.
  apply NoDup_cons in Hnd as [Ha Hnd]. destruct (p a); [| by apply IH].
  simpl. apply NoDup_cons. split; [| by apply IH].
  intros Hin. apply Ha. apply list_elem_of_fmap in Hin as (x & -> & Hx).
  apply list_elem_of_fmap. exists x. split; [done |].
  by apply elem_of_bfilter in Hx as [? _].
Qed.

Lemma bfilter_wfStore p cs : wfStore cs → wfStore (List.filter p cs).
Proof.
  intros [Hwf Hnd]. split; [| by apply NoDup_map_bfilter].
  rewrite Forall_forall in *. intros c Hc. apply Hwf.
  by apply elem_of_bfilter in Hc as [? _].
Qed.

Lemma bfilter_userStable p cs : wfStore cs → userStable cs (List.filter p cs).
Proof.
  intros [_ Hnd] c c' Hc Hc' Hk. apply elem_of_bfilter in Hc' as [Hc' _].
  rewrite (NoDup_key_eq cs c c' Hnd Hc Hc') by done. apply sameUserFields_refl.
Qed.

Lemma wfStore_perm cs cs' : cs ≡ₚ cs' → wfStore cs → wfStore cs'.
Proof.
  intros Hp [Hwf Hnd]. split; [by rewrite <- Hp |].
  by rewrite <- Hp.
Qed.

(** Replacing a cue by one with the same key and user fields. *)
Lemma insert_kept cs i e e' :
  cs !! i = Some e → existingKey e' = existingKey e → sameUserFields e e' →
  wfCue e' → wfStore cs → wfStore (<[i := e']> cs) ∧ kept cs (<[i := e']> cs).
Proof.
  intros Hi Hk Hu Hwf' [Hwf Hnd]. split; [split |].
  - by apply Forall_insert.
  - rewrite list_fmap_insert, Hk. rewrite list_insert_id; [done |].
    by rewrite list_lookup_fmap, Hi.
  - intros c Hc. apply list_elem_of_lookup in Hc as [j Hj].
    destruct (decide (j = i)) as [-> | Hne].
    + exists e'. rewrite Hi in Hj. inversion Hj; subst. split; [| done].
      apply list_elem_of_lookup. exists i. apply list_lookup_insert_eq.
      by eapply lookup_lt_Some.
    + exists c. split; [| split; [done | apply sameUserFields_refl]].
      apply list_elem_of_lookup. exists j. by rewrite list_lookup_insert_ne.
Qed.

(** Mapping a function that keeps key, user fields and well-formedness. *)
Lemma map_kept (f : cue → cue) cs :
  (∀ c, existingKey (f c) = existingKey c) → (∀ c, sameUserFields c (f c)) →
  (∀ c, wfCue c → wfCue (f c)) →
  wfStore cs → wfStore (map f cs) ∧ kept cs (map f cs).
Proof.
  intros Hk Hu Hw [Hwf Hnd]. split; [split |].
  - apply Forall_fmap. eapply Forall_impl; [exact Hwf | done].
  - rewrite <- list_fmap_compose.
    rewrite (list_fmap_ext (existingKey ∘ f) existingKey cs); [done |].
    intros i x _. apply Hk.
  - intros c Hc. exists (f c). split; [by apply list_elem_of_fmap_2 | done].
Qed.

Lemma hasData_or v d : hasData v = false → Js.or v d = d.
Proof. by destruct v as [| |[]|[]|[]|]. Qed.

(** The list of a cue after the update loop. *)
Lemma applyUpdates_listOf e u :
  NoDup (map fst u) →
  listOf (applyUpdates e u) =
  if hasData (upd_get u "cue_list") then Js.or (upd_get u "cue_list") (VStr "1")
  else listOf e.
Proof.
  intros Hnd. unfold listOf.
  destruct (decide ("cue_list" ∈ map fst u)) as [Hin | Hnin].
  - rewrite applyUpdates_fld_in by done.
    change (str_in "cue_list" alwaysUpdateFields) with false. cbn [orb].
    by destruct (hasData _).
  - rewrite applyUpdates_fld_notin, (upd_get_notin u _ Hnin) by done. done.
Qed.

Lemma applyUpdates_partOf e u :
  NoDup (map fst u) →
  partOf (applyUpdates e u) =
  if decide ("part_number" ∈ map fst u)
  then Js.or (upd_get u "part_number") (VInt 0) else partOf e.
Proof.
  intros Hnd. unfold partOf. case_decide as Hin.
  - rewrite applyUpdates_fld_in by done.
    by change (str_in "part_number" alwaysUpdateFields) with true.
  - by rewrite applyUpdates_fld_notin.
Qed.

Lemma applyUpdates_kept n u e :
  consoleUpdate n u → wfCue e → existingKey e = cueKeyOf n u →
  existingKey (applyUpdates e u) = cueKeyOf n u ∧
  wfCue (applyUpdates e u) ∧ sameUserFields e (applyUpdates e u).
Proof.
  intros (Hn & Hcl & Hnd & Hnum & Huser) [Hwl Hwn] Hkey.
  unfold existingKey, cueKeyOf in Hkey.
  apply makeKey_inv in Hkey as (Hl & Hnb & Hg & Hp); [| done..].
  assert (Hnum' : fld (applyUpdates e u) "cue_number" = fld e "cue_number")
    by (by apply applyUpdates_fld_notin).
  assert (Hl' : Js.toStr (listOf (applyUpdates e u)) =
                Js.toStr (Js.or (upd_get u "cue_list") (VStr "1"))).
  { rewrite applyUpdates_listOf by done. by destruct (hasData _). }
  split; [| split].
  - unfold existingKey, cueKeyOf. rewrite Hnum'. apply makeKey_ext; [done.. | |].
    + rewrite applyUpdates_partOf by done. by case_decide.
    + rewrite applyUpdates_partOf by done. case_decide; [done |].
      intros Hgt. by apply Hp.
  - split.
    + unfold listStr. by rewrite Hl'.
    + unfold numberStr. by rewrite Hnum'.
  - intros f Hf. apply applyUpdates_lookup_notin. by apply Huser.
Qed.

Lemma newCue_kept n u :
  consoleUpdate n u →
  existingKey (newCue n (Js.or (upd_get u "cue_list") (VStr "1")) u) = cueKeyOf n u ∧
  wfCue (newCue n (Js.or (upd_get u "cue_list") (VStr "1")) u).
Proof.
  intros (Hn & Hcl & Hnd & Hnum & Huser).
  set (cl := Js.or (upd_get u "cue_list") (VStr "1")).
  assert (Hnb : fld (newCue n cl u) "cue_number" = VStr n).
  { by rewrite newCue_fld_notin. }
  assert (Hl : listOf (newCue n cl u) = cl).
  { unfold listOf. destruct (decide ("cue_list" ∈ map fst u)) as [Hin | Hnin].
    - by rewrite newCue_fld_in.
    - rewrite newCue_fld_notin by done. unfold cl.
      rewrite (upd_get_notin u _ Hnin). done. }
  assert (Hp : partOf (newCue n cl u) = Js.or (upd_get u "part_number") (VInt 0)).
  { unfold partOf. destruct (decide ("part_number" ∈ map fst u)) as [Hin | Hnin].
    - by rewrite newCue_fld_in.
    - rewrite newCue_fld_notin by done. rewrite (upd_get_notin u _ Hnin). done. }
  split.
  - unfold existingKey, cueKeyOf. by rewrite Hnb, Hl, Hp.
  - split; [unfold listStr; by rewrite Hl | unfold numberStr; by rewrite Hnb].
Qed.

(** [updateOrCreateCue] with console data keeps every cue under its key
    with its user fields. *)
Lemma upsert_kept n u s :
  consoleUpdate n u → wfStore (cues s) →
  wfStore (cues (updateOrCreateCue n u s)) ∧
  kept (cues s) (cues (updateOrCreateCue n u s)).
Proof.
  intros Hu Hwf. rewrite upsert_cues.
  destruct (findIndex _ _) as [[i e]|] eqn:Hf.
  - destruct (findIndex_Some _ _ _ _ Hf) as (Hi & He & _).
    apply String.eqb_eq in He.
    assert (Hwe : wfCue e).
    { destruct Hwf as [Hwf _]. rewrite Forall_forall in Hwf. apply Hwf.
      by eapply list_elem_of_lookup_2. }
    destruct (applyUpdates_kept n u e Hu Hwe He) as (Hk & Hw & Hus).
    apply (insert_kept _ i e); [done | congruence | done..].
  - destruct (newCue_kept n u Hu) as [Hk Hw].
    assert (Hperm : sortCues (cues s ++ [newCue n (Js.or (upd_get u "cue_list") (VStr "1")) u])
                    ≡ₚ cues s ++ [newCue n (Js.or (upd_get u "cue_list") (VStr "1")) u])
      by apply sortCues_perm.
    split.
    + eapply wfStore_perm; [symmetry; exact Hperm |]. destruct Hwf as [Hwf Hnd].
      split; [apply Forall_app; split; [done | by apply Forall_singleton] |].
      rewrite fmap_app. apply NoDup_app. split; [done |]. split; [| apply NoDup_singleton].
      intros k Hk1 Hk2. apply list_elem_of_singleton in Hk2. subst k.
      apply list_elem_of_fmap in Hk1 as (c & Hkc & Hc).
      pose proof (findIndex_None _ _ Hf c Hc) as Hne. simpl in Hne.
      rewrite <- Hkc, Hk, String.eqb_refl in Hne. done.
    + intros c Hc. exists c. split; [| split; [done | apply sameUserFields_refl]].
      rewrite Hperm. apply elem_of_app. by left.
Qed.

(** ** Setting and clearing [last_seen] *)

Lemma set_seen_key (c : cue) v : existingKey (<["last_seen" := v]> c) = existingKey c.
Proof. unfold existingKey, listOf, partOf. by rewrite !fld_insert_ne. Qed.

Lemma set_seen_user (c : cue) v : sameUserFields c (<["last_seen" := v]> c).
Proof.
  intros f Hf. apply lookup_insert_ne. intros <-. revert Hf.
  unfold userFields. str_notin.
Qed.

Lemma set_seen_wf (c : cue) v : wfCue c → wfCue (<["last_seen" := v]> c).
Proof.
  intros [Hl Hn]. split.
  - unfold listStr, listOf in *. by rewrite fld_insert_ne.
  - unfold numberStr in *. by rewrite fld_insert_ne.
Qed.

Lemma clearSeen_key t l c : existingKey (clearSeen t l c) = existingKey c.
Proof. unfold clearSeen. case_match; [apply set_seen_key | done]. Qed.

Lemma clearSeen_user t l c : sameUserFields c (clearSeen t l c).
Proof. unfold clearSeen. case_match; [apply set_seen_user | apply sameUserFields_refl]. Qed.

Lemma clearSeen_wf t l c : wfCue c → wfCue (clearSeen t l c).
Proof. unfold clearSeen. case_match; [apply set_seen_wf | done]. Qed.

Lemma clearSeen_kept t l cs :
  wfStore cs → wfStore (map (clearSeen t l) cs) ∧ kept cs (map (clearSeen t l) cs).
Proof.
  apply map_kept; [apply clearSeen_key | apply clearSeen_user | apply clearSeen_wf].
Qed.

Lemma seenUpdate_console list n t :
  slashFree list = true → slashFree n = true →
  consoleUpdate n [("cue_list", VStr list); ("last_seen", VStr (seen_str t))].
Proof.
  intros Hl Hn. split; [done |]. split; [| split; [| split]].
  - change (upd_get _ "cue_list") with (VStr list).
    destruct list; [done | exact Hl].
  - cbn [map fst]. apply NoDup_cons. split; [str_notin | apply NoDup_singleton].
  - cbn [map fst]. str_notin.
  - intros f Hf. cbn [map fst]. user_cases Hf; str_notin.
Qed.

Lemma setActive_cues now list n t s :
  cues (setActiveCueByListAndNumber now list n t s) =
  let cleared := map (clearSeen t list) (cues s) in
  match findIndex (fun c => String.eqb (Js.toStr (fld c "cue_number")) n &&
                            String.eqb (Js.toStr (listOf c)) list) cleared with
  | Some (i, targetCue) => <[i := <["last_seen" := VStr (seen_str t)]> targetCue]> cleared
  | None =>
      cues (updateOrCreateCue n
              [("cue_list", VStr list); ("last_seen", VStr (seen_str t))]
              (set_cues cleared s))
  end.
Proof.
  unfold setActiveCueByListAndNumber. cbv zeta.
  set (cleared := map (clearSeen t list) (cues s)).
  set (target := findIndex _ cleared).
  set (s1 := match target with Some (i, c) => _ | None => _ end).
  assert (Hc : cues s1 = match target with
                         | Some (i, targetCue) =>
                             <[i := <["last_seen" := VStr (seen_str t)]> targetCue]> cleared
                         | None => cues (updateOrCreateCue n
                             [("cue_list", VStr list); ("last_seen", VStr (seen_str t))]
                             (set_cues cleared s)) end).
  { unfold s1. by destruct target as [[? ?]|]. }
  rewrite <- Hc. repeat case_match; by rewrite ?updateElapsed_cues.
Qed.

Lemma setActive_kept now list n t s :
  slashFree list = true → slashFree n = true → wfStore (cues s) →
  wfStore (cues (setActiveCueByListAndNumber now list n t s)) ∧
  kept (cues s) (cues (setActiveCueByListAndNumber now list n t s)).
Proof.
  intros Hl Hn Hwf. rewrite setActive_cues. cbv zeta.
  destruct (clearSeen_kept t list (cues s) Hwf) as [Hwf1 Hk1].
  destruct (findIndex _ _) as [[i e]|] eqn:Hf.
  - destruct (findIndex_Some _ _ _ _ Hf) as (Hi & _ & _).
    destruct (insert_kept _ i e (<["last_seen" := VStr (seen_str t)]> e) Hi) as [Hwf2 Hk2];
      [apply set_seen_key | apply set_seen_user | | done |].
    + apply set_seen_wf. destruct Hwf1 as [Hwf1 _]. rewrite Forall_forall in Hwf1.
      apply Hwf1. by eapply list_elem_of_lookup_2.
    + split; [done | by eapply kept_trans].
  - destruct (upsert_kept n [("cue_list", VStr list); ("last_seen", VStr (seen_str t))]
                (set_cues (map (clearSeen t list) (cues s)) s)) as [Hwf2 Hk2];
      [by apply seenUpdate_console | done |].
    split; [done | by eapply kept_trans].
Qed.

(** ** Addresses *)

Lemma slashFree_str l :
  forallb (fun c => negb (Ascii.eqb c Js.slash)) l = true → slashFree (Js.str l) = true.
Proof.
  induction l as [|c l IH]; [done |]. simpl. intros H.
  apply andb_prop in H as [Hc Hl]. by rewrite Hc, IH.
Qed.

Lemma split_go_slashFree l cur :
  forallb (fun c => negb (Ascii.eqb c Js.slash)) cur = true →
  Forall (fun p => slashFree p = true) (Js.split_go l cur).
Proof.
  revert cur. induction l as [|c l IH]; intros cur Hcur; simpl.
  - apply Forall_singleton. apply slashFree_str.
    rewrite forallb_forall in *. intros x Hx. apply Hcur. by apply in_rev.
  - destruct (Ascii.eqb c Js.slash) eqn:Hc.
    + apply Forall_cons. split; [| by apply IH].
      apply slashFree_str. rewrite forallb_forall in *. intros x Hx.
      apply Hcur. by apply in_rev.
    + apply IH. simpl. by rewrite Hc.
Qed.

Lemma split_slashFree a : Forall (fun p => slashFree p = true) (Js.split a).
Proof. by apply split_go_slashFree. Qed.

Lemma partZ_pathValue a i : pathValue (partZ (Js.split a) i).
Proof.
  unfold partZ, Js.part_at. destruct (i <? 0)%Z; [by left |].
  destruct (Js.split a !! Z.to_nat i) as [p|] eqn:Hp; [right | by left].
  exists p. split; [done |].
  pose proof (split_slashFree a) as H. rewrite Forall_forall in H.
  apply H. by eapply list_elem_of_lookup_2.
Qed.

Lemma cueAddress_pathValue a l c p :
  cueAddress a = (l, c, p) → pathValue l ∧ pathValue c ∧ pathValue p.
Proof.
  unfold cueAddress. cbv zeta.
  destruct (Js.includes _ a); intros Heq; inversion Heq; subst;
    repeat split; apply partZ_pathValue.
Qed.

(** ** A cue response keeps every cue *)

Lemma cueDataUpdates_keys l p args : map fst (cueDataUpdates l p args) = cueDataKeys.
Proof. reflexivity. Qed.

Lemma pathValue_list_slashFree l :
  pathValue l → slashFree (Js.toStr (Js.or l (VStr "1"))) = true.
Proof. intros [-> | (p & -> & Hp)]; [done |]. by destruct p. Qed.

Lemma cueData_console n l p args :
  slashFree n = true → pathValue l → consoleUpdate n (cueDataUpdates l p args).
Proof.
  intros Hn Hl. split; [done |]. split; [| split; [| split]].
  - change (upd_get _ "cue_list") with l. by apply pathValue_list_slashFree.
  - rewrite cueDataUpdates_keys. unfold cueDataKeys.
    repeat (apply NoDup_cons; split; [str_notin |]). apply NoDup_nil_2.
  - rewrite cueDataUpdates_keys. unfold cueDataKeys. str_notin.
  - intros f Hf. rewrite cueDataUpdates_keys. unfold cueDataKeys.
    user_cases Hf; str_notin.
Qed.

Lemma userStable_refl cs : NoDup (map existingKey cs) → userStable cs cs.
Proof. intros Hnd. apply kept_userStable; [done | apply kept_refl]. Qed.

Lemma setTimeout_cues now t d s : cues (setTimeout now t d s) = cues s.
Proof. done. Qed.

Lemma handleCueIndexResponse_cues now l i s :
  cues (handleCueIndexResponse now l i s) = cues s.
Proof. unfold handleCueIndexResponse. by repeat case_match. Qed.

Lemma check_stable now s :
  wfStore (cues s) →
  wfStore (cues (checkBulkRefreshComplete now s)) ∧
  userStable (cues s) (cues (checkBulkRefreshComplete now s)).
Proof.
  intros Hwf. destruct (bulkRefreshInProgress (refresh s)) eqn:Hp.
  - rewrite checkBulkRefreshComplete_cues by done.
    split; [by apply bfilter_wfStore | by apply bfilter_userStable].
  - unfold checkBulkRefreshComplete. rewrite Hp. simpl.
    split; [done | apply userStable_refl, Hwf].
Qed.

Lemma handleCueCountResponse_stable now l count s :
  wfStore (cues s) →
  wfStore (cues (handleCueCountResponse now l count s)) ∧
  userStable (cues s) (cues (handleCueCountResponse now l count s)).
Proof.
  intros Hwf. unfold handleCueCountResponse. cbv zeta.
  case_match; [split; [done | apply userStable_refl, Hwf] |].
  case_match; [| split; [done | apply userStable_refl, Hwf]].
  by apply (check_stable now (set_refresh _ s)).
Qed.

Lemma runTimer_stable now t s :
  wfStore (cues s) →
  wfStore (cues (runTimer now t s)) ∧ userStable (cues s) (cues (runTimer now t s)).
Proof.
  intros Hwf. destruct t; simpl; try by apply check_stable.
  - case_match; (split; [done | apply userStable_refl, Hwf]).
  - case_match; (split; [done | apply userStable_refl, Hwf]).
Qed.

Lemma fireTimer_stable now i s :
  wfStore (cues s) →
  wfStore (cues (fireTimer now i s)) ∧ userStable (cues s) (cues (fireTimer now i s)).
Proof.
  intros Hwf. unfold fireTimer. destruct (timers s !! i) as [[d t]|].
  - by apply (runTimer_stable now t (set_timers _ s)).
  - split; [done | apply userStable_refl, Hwf].
Qed.

(** The store after a cue response that passes the guards. *)
Lemma handleGet_kept now a args s :
  wfStore (cues s) →
  wfStore (cues (handleGetResponse now a args s)) ∧
  (kept (cues s) (cues (handleGetResponse now a args s)) ∨
   userStable (cues s) (cues (handleGetResponse now a args s))).
Proof.
  intros Hwf. unfold handleGetResponse.
  assert (Hsame : wfStore (cues s) ∧ (kept (cues s) (cues s) ∨ userStable (cues s) (cues s))).
  { split; [done | left; apply kept_refl]. }
  case_match; [done |]. case_match; [done |].
  destruct (cueAddress a) as [[l c] p] eqn:Ha.
  destruct (cueAddress_pathValue a l c p Ha) as (Hl & Hc & Hp).
  case_match.
  { destruct (handleCueCountResponse_stable now (VNum (Js.parseInt l)) (arg args 0) s Hwf).
    split; [done | by right]. }
  case_match; [done |].
  set (s1 := if _ && _ && _ then _ else s).
  assert (Hs1 : cues s1 = cues s) by (unfold s1; by case_match).
  set (s2 := if Js.is_number _ then _ else s1).
  assert (Hs2 : cues s2 = cues s).
  { unfold s2. case_match; [by rewrite handleCueIndexResponse_cues | done]. }
  assert (Hsame2 : wfStore (cues s2) ∧ (kept (cues s) (cues s2) ∨ userStable (cues s) (cues s2))).
  { by rewrite Hs2. }
  destruct c as [| | | | n |]; try done.
  case_match; [| done].
  assert (Hn : slashFree n = true).
  { destruct Hc as [? | (q & Hq & Hsf)]; [done |]. by inversion Hq; subst. }
  destruct (upsert_kept n (cueDataUpdates l p args) s2) as [Hwf3 Hk3];
    [by apply cueData_console | by rewrite Hs2 |].
  rewrite Hs2 in Hk3.
  set (s3 := updateOrCreateCue n (cueDataUpdates l p args) s2) in *.
  destruct (currentPollRequest s3) as [[pl pt]|]; [| split; [done | by left]].
  case_match; [| split; [done | by left]].
  cbn [cues set_poll set_cuesChanged].
  assert (Hls : slashFree (Js.toStr l) = true).
  { destruct Hl as [-> | (q & -> & Hq)]; [done | done]. }
  destruct (setActive_kept now (Js.toStr l) n pt s3 Hls Hn Hwf3) as [Hwf4 Hk4].
  split; [done |]. left. by eapply kept_trans.
Qed.

Lemma handleGet_stable now a args s :
  wfStore (cues s) →
  wfStore (cues (handleGetResponse now a args s)) ∧
  userStable (cues s) (cues (handleGetResponse now a args s)).
Proof.
  intros Hwf. destruct (handleGet_kept now a args s Hwf) as [Hwf' [Hk | Hu]].
  - split; [done |]. apply kept_userStable; [apply Hwf' | done].
  - done.
Qed.

(** Every event of the refresh engine keeps the store well formed and the
    user fields of the keys it keeps. *)
Lemma refreshEvent_stable now e s :
  refreshEvent e = true → wfStore (cues s) →
  wfStore (cues (step now e s)) ∧ userStable (cues s) (cues (step now e s)).
Proof.
  intros He Hwf. destruct e; try done; cbn [step].
  - unfold onGetMessage. case_match; [| by apply handleGet_stable].
    unfold onCuelistIndex. case_match; rewrite ?requestAllCues_cues;
      (split; [done | apply userStable_refl, Hwf]).
  - by apply fireTimer_stable.
  - rewrite requestAllCues_cues. split; [done | apply userStable_refl, Hwf].
Qed.

(** ** User fields across a refresh *)

Lemma lookupKey_Some k cs c :
  lookupKey k cs = Some c → c ∈ cs ∧ existingKey c = k.
Proof.
  unfold lookupKey. destruct (findIndex _ cs) as [[i x]|] eqn:Hf; [| done].
  intros H. inversion H; subst. destruct (findIndex_Some _ _ _ _ Hf) as (Hi & Hk & _).
  split; [by eapply list_elem_of_lookup_2 | by apply String.eqb_eq].
Qed.

Lemma hasKey_lookupKey k cs : hasKey k cs = true → ∃ c, lookupKey k cs = Some c.
Proof.
  unfold hasKey, lookupKey. intros H. apply existsb_exists in H as (x & Hx & Hk).
  destruct (findIndex_is_Some (fun c => String.eqb (existingKey c) k) cs x) as (i & y & Hf);
    [by apply list_elem_of_In | done |].
  exists y. by rewrite Hf.
Qed.

Lemma survives_hasKey k evs s : survives k evs s = true → hasKey k (cues s) = true.
Proof. destruct evs; simpl; intros H; by apply andb_prop in H as [? _]. Qed.

Lemma wfStoreb_spec cs : wfStoreb cs = true → wfStore cs.
Proof.
  unfold wfStoreb. intros H. apply andb_prop in H as [Hf Hn]. split.
  - apply Forall_forall. intros c Hc. apply list_elem_of_In in Hc.
    pose proof (proj1 (forallb_forall _ _) Hf c Hc) as H. by apply andb_prop in H.
  - by apply bool_decide_eq_true in Hn.
Qed.

Lemma applyUpdates_lookup_nodata c u k :
  str_in k alwaysUpdateFields = false → hasData (upd_get u k) = false →
  NoDup (map fst u) → applyUpdates c u !! k = c !! k.
Proof.
  intros Hk. revert c. induction u as [|[k0 v0] u IH]; intros c Hd Hnd; [done |].
  simpl in Hnd. apply NoDup_cons in Hnd as [Hk0 Hnd].
  unfold applyUpdates in *. simpl in *.
  destruct (String.eqb_spec k0 k) as [-> | Hne].
  - fold (applyUpdates (applyUpdate c (k, v0)) u).
    rewrite applyUpdates_lookup_notin by done.
    unfold applyUpdate. simpl. by rewrite Hk, Hd.
  - rewrite IH by done. by apply applyUpdate_lookup_ne.
Qed.

Lemma refresh_run_userStable evs s k c c' :
  Forall (fun ne => refreshEvent ne.2 = true) evs →
  wfStore (cues s) →
  survives k evs s = true →
  lookupKey k (cues s) = Some c →
  lookupKey k (cues (run evs s)) = Some c' →
  sameUserFields c c'.
Proof.
  intros Hev. revert s c. induction Hev as [|[now e] evs He _ IH]; intros s c Hwf Hs Hc Hc'.
  - simpl in Hc'. rewrite Hc in Hc'. inversion Hc'. apply sameUserFields_refl.
  - rewrite run_cons in Hc'. cbn [fst snd] in *.
    simpl in Hs. apply andb_prop in Hs as [_ Hs].
    destruct (refreshEvent_stable now e s He Hwf) as [Hwf1 Hst].
    destruct (hasKey_lookupKey k _ (survives_hasKey _ _ _ Hs)) as [c1 Hc1].
    apply (sameUserFields_trans c c1 c').
    + destruct (lookupKey_Some _ _ _ Hc) as [Hin Hk].
      destruct (lookupKey_Some _ _ _ Hc1) as [Hin1 Hk1].
      apply (Hst c c1 Hin Hin1). congruence.
    + by apply (IH (step now e s) c1).
Qed.

(** C1: the update loop leaves a field outside the always-overwrite set
    alone when the incoming value is empty, null or undefined; and across
    any run of refresh events (cue responses, count responses, timers,
    cleanups), a cue whose key is in the store at every moment of the run
    ends with the user fields it started with. *)
Theorem C1_refresh_preserves_user_fields
    (evs : list (Z * event)) (s : state) (k : string) (c c' : cue) :
  Forall (fun ne => refreshEvent ne.2 = true) evs →
  wfStore (cues s) →
  survives k evs s = true →
  lookupKey k (cues s) = Some c →
  lookupKey k (cues (run evs s)) = Some c' →
  sameUserFields c c' ∧
  (∀ (e : cue) (u : updates) (f : string),
     NoDup (map fst u) →
     str_in f alwaysUpdateFields = false →
     hasData (upd_get u f) = false →
     applyUpdates e u !! f = e !! f) ∧
  (∀ (l p : jsval) (args : list jsval) (f : string),
     f ∈ userFields → f ∉ map fst (cueDataUpdates l p args)).
Proof.
  intros Hev Hwf Hs Hc Hc'. split; [by eapply refresh_run_userStable |]. split.
  - intros e u f Hnd Hf Hd. by apply applyUpdates_lookup_nodata.
  - intros l p args f Hf.
    destruct (cueData_console "1" VUndef p args eq_refl (or_introl eq_refl))
      as (_ & _ & _ & _ & Hu).
    rewrite cueDataUpdates_keys in *. by apply Hu.
Qed.

Lemma lookupKey_default k cs :
  hasKey k cs = true → lookupKey k cs = Some (default ∅ (lookupKey k cs)).
Proof. intros H. by destruct (hasKey_lookupKey k cs H) as [c ->]. Qed.

Lemma C1_refresh_preserves_user_fields_witness :
  sameUserFields (default ∅ (lookupKey "1/5" (cues c1_start)))
                 (default ∅ (lookupKey "1/5" (cues (run c1_events c1_start)))) ∧
  map (fun c => (existingKey c, fld c "notes")) (cues (run c1_events c1_start)) =
    [("1/5", VStr "hello"); ("1/6", VStr estr)].
Proof.
  split; [| vm_compute; reflexivity].
  refine (proj1 (C1_refresh_preserves_user_fields c1_events c1_start "1/5" _ _ _ _ _ _ _)).
  - repeat constructor.
  - apply wfStoreb_spec. vm_compute. reflexivity.
  - vm_compute. reflexivity.
  - apply lookupKey_default. vm_compute. reflexivity.
  - apply lookupKey_default. vm_compute. reflexivity.
Defined.

(** ** Stale cue responses *)

Lemma upsert_indices n u s :
  bulkRefreshReceivedIndices (refresh (updateOrCreateCue n u s)) =
  bulkRefreshReceivedIndices (refresh s).
Proof. unfold updateOrCreateCue. by repeat case_match. Qed.

Lemma upsert_cues_ext n u s s' :
  cues s = cues s' → cues (updateOrCreateCue n u s) = cues (updateOrCreateCue n u s').
Proof. intros H. by rewrite !upsert_cues, H. Qed.

Lemma upsert_hasKey n u s :
  consoleUpdate n u → wfStore (cues s) →
  hasKey (cueKeyOf n u) (cues (updateOrCreateCue n u s)) = true.
Proof.
  intros Hu Hwf. unfold hasKey. apply existsb_exists. rewrite upsert_cues.
  destruct (findIndex _ _) as [[i e]|] eqn:Hf.
  - destruct (findIndex_Some _ _ _ _ Hf) as (Hi & He & _). apply String.eqb_eq in He.
    assert (Hwe : wfCue e).
    { destruct Hwf as [Hwf _]. rewrite Forall_forall in Hwf. apply Hwf.
      by eapply list_elem_of_lookup_2. }
    destruct (applyUpdates_kept n u e Hu Hwe He) as (Hk & _ & _).
    exists (applyUpdates e u). split; [| by apply String.eqb_eq].
    apply list_elem_of_In, list_elem_of_lookup. exists i.
    apply list_lookup_insert_eq. by eapply lookup_lt_Some.
  - destruct (newCue_kept n u Hu) as [Hk _].
    exists (newCue n (Js.or (upd_get u "cue_list") (VStr "1")) u).
    split; [| by apply String.eqb_eq].
    apply list_elem_of_In. rewrite sortCues_perm. apply elem_of_app. right.
    by apply list_elem_of_singleton.
Qed.

Lemma upsert_counting n u s :
  bulkRefreshExpectedCount (refresh (updateOrCreateCue n u s)) =
    bulkRefreshExpectedCount (refresh s) ∧
  bulkRefreshReceivedIndices (refresh (updateOrCreateCue n u s)) =
    bulkRefreshReceivedIndices (refresh s).
Proof. unfold updateOrCreateCue. by repeat case_match. Qed.

Lemma setActive_counting now list n t s :
  bulkRefreshExpectedCount (refresh (setActiveCueByListAndNumber now list n t s)) =
    bulkRefreshExpectedCount (refresh s) ∧
  bulkRefreshReceivedIndices (refresh (setActiveCueByListAndNumber now list n t s)) =
    bulkRefreshReceivedIndices (refresh s).
Proof.
  unfold setActiveCueByListAndNumber. cbv zeta.
  set (s1 := match findIndex _ _ with Some (i, c) => _ | None => _ end).
  assert (H1 : bulkRefreshExpectedCount (refresh s1) = bulkRefreshExpectedCount (refresh s) ∧
               bulkRefreshReceivedIndices (refresh s1) =
                 bulkRefreshReceivedIndices (refresh s)).
  { unfold s1. destruct (findIndex _ _) as [[i c]|]; [done |].
    match goal with
    | |- context [updateOrCreateCue ?a ?b ?c] =>
        by destruct (upsert_counting a b c) as [-> ->]
    end. }
  destruct H1 as [<- <-]. unfold updateElapsed. by repeat case_match.
Qed.

Lemma kept_hasKey cs cs' k : kept cs cs' → hasKey k cs = true → hasKey k cs' = true.
Proof.
  unfold hasKey. intros Hk H. apply existsb_exists in H as (c & Hc & Hkey).
  apply list_elem_of_In in Hc. destruct (Hk c Hc) as (c' & Hc' & He & _).
  apply existsb_exists. exists c'. split; [by apply list_elem_of_In | by rewrite He].
Qed.

Lemma pathValue_toStr_slashFree v : pathValue v → slashFree (Js.toStr v) = true.
Proof. intros [-> | (p & -> & Hp)]; [reflexivity | done]. Qed.

(** C5, as the program has it.  A cue response that arrives during the
    refresh of its list is measured against the expected count, which is
    the count of its own address when none is established yet (the response
    sets it).  Its index is credited to [receivedIndices] exactly when it
    is a number this count waits for; in every case the response is
    upserted into the store like any other cue response.  A uid that is
    neither a string nor missing makes the handler throw at its log line,
    before both steps. *)
Theorem C5_stale_response_still_upserted
    (now : Z) (a : string) (args : list jsval) (s : state)
    (listNum partNumber : jsval) (n : string) :
  isCueDataAddress a = true →
  cueAddress a = (listNum, VStr n, partNumber) →
  Js.truthy (VStr n) && negb (String.eqb n "0") &&
    Js.ge (VNum (Js.parseInt listNum)) (VInt 0) = true →
  uidThrows (arg args 1) = false →
  bulkRefreshInProgress (refresh s) = true →
  Js.strict_eq (bulkRefreshCueList (refresh s)) (VNum (Js.parseInt listNum)) = true →
  let s' := handleGetResponse now a args s in
  let u := cueDataUpdates listNum partNumber args in
  let credited :=
    Js.is_number (arg args 0) &&
    negb (staleIndex (arg args 0) (expectedAfter a s)) in
  bulkRefreshExpectedCount (refresh s') = expectedAfter a s ∧
  bulkRefreshReceivedIndices (refresh s') =
    (if credited
     then indicesAdd (Js.toNumber (arg args 0)) (bulkRefreshReceivedIndices (refresh s))
     else bulkRefreshReceivedIndices (refresh s)) ∧
  (currentPollRequest s = None → cues s' = cues (updateOrCreateCue n u s)) ∧
  (wfStore (cues s) → hasKey (cueKeyOf n u) (cues s') = true).
Proof.
  intros Ha Hadr Hok Huid Hp Hl s' u credited.
  unfold isCueDataAddress in Ha.
  apply andb_prop in Ha as [Ha Hcount]. apply andb_prop in Ha as [Ha Hsub].
  apply andb_prop in Ha as [Hidx Hinc].
  apply negb_true_iff in Hidx, Hsub, Hcount.
  unfold s', handleGetResponse. rewrite Hinc, Hsub, Hadr, Hcount, Huid.
  cbn [negb]. fold u.
  set (s1 := if _ && _ && _ then _ else s).
  assert (Hs1 : cues s1 = cues s ∧ currentPollRequest s1 = currentPollRequest s ∧
                bulkRefreshReceivedIndices (refresh s1) =
                  bulkRefreshReceivedIndices (refresh s) ∧
                bulkRefreshInProgress (refresh s1) = true ∧
                bulkRefreshCueList (refresh s1) = bulkRefreshCueList (refresh s) ∧
                bulkRefreshExpectedCount (refresh s1) = expectedAfter a s).
  { unfold s1, expectedAfter. by case_match. }
  destruct Hs1 as (Hc1 & Hp1 & Hi1 & Hr1 & Hl1 & He1).
  set (s2 := if Js.is_number (arg args 0) then _ else s1).
  assert (Hs2 : cues s2 = cues s ∧ currentPollRequest s2 = currentPollRequest s ∧
                bulkRefreshExpectedCount (refresh s2) = expectedAfter a s ∧
                bulkRefreshReceivedIndices (refresh s2) =
                  (if credited
                   then indicesAdd (Js.toNumber (arg args 0))
                          (bulkRefreshReceivedIndices (refresh s))
                   else bulkRefreshReceivedIndices (refresh s))).
  { unfold s2, credited. destruct (Js.is_number (arg args 0)); cbn [andb]; [| done].
    unfold handleCueIndexResponse. rewrite Hr1, Hl1, Hl, He1. cbn [negb orb].
    unfold staleIndex.
    destruct (Js.strict_eq (expectedAfter a s) (VInt 0)); cbn [orb negb]; [done |].
    destruct (Js.lt (arg args 0) (VInt 0) || Js.ge (arg args 0) (expectedAfter a s));
      cbn [negb]; [done |].
    rewrite <- Hi1. case_match; by repeat split. }
  destruct Hs2 as (Hc2 & Hp2 & He2 & Hi2).
  rewrite Hok.
  set (s3 := updateOrCreateCue n u s2).
  assert (Hc3 : cues s3 = cues (updateOrCreateCue n u s)) by by apply upsert_cues_ext.
  destruct (upsert_poll n u s2) as [Hp3 _]. fold s3 in Hp3.
  destruct (upsert_counting n u s2) as [He3 Hi3]. fold s3 in He3, Hi3.
  assert (Hkey : wfStore (cues s) → wfStore (cues s3) ∧ hasKey (cueKeyOf n u) (cues s3) = true).
  { intros Hwf.
    assert (consoleUpdate n u) as Hu.
    { apply cueData_console.
      - destruct (cueAddress_pathValue a _ _ _ Hadr) as (_ & [? | (q & Hq & Hsf)] & _); [done |].
        by inversion Hq; subst.
      - by destruct (cueAddress_pathValue a _ _ _ Hadr) as (? & _ & _). }
    rewrite Hc3. split; [by apply upsert_kept | by apply upsert_hasKey]. }
  assert (Hp4 : currentPollRequest s3 = currentPollRequest s) by congruence.
  clear Hp3.
  destruct (currentPollRequest s3) as [[pollList pollType] |].
  2: { rewrite He3, He2, Hi3, Hi2.
       split; [done | split; [done | split; [by intros _ | by intros Hwf; apply Hkey]]]. }
  destruct (activePollingInProgress s3 && String.eqb (Js.toStr listNum) pollList).
  2: { rewrite He3, He2, Hi3, Hi2.
       split; [done | split; [done | split; [| by intros Hwf; apply Hkey]]].
       intros Hnone. by rewrite Hnone in Hp4. }
  cbn [refresh set_poll set_cuesChanged cues].
  destruct (setActive_counting now (Js.toStr listNum) n pollType s3) as [-> ->].
  rewrite He3, He2, Hi3, Hi2.
  split; [done | split; [done | split]].
  - intros Hnone. by rewrite Hnone in Hp4.
  - intros Hwf. destruct (Hkey Hwf) as [Hwf3 Hk3].
    apply (kept_hasKey (cues s3)); [| done].
    apply setActive_kept; [| | done].
    + apply pathValue_toStr_slashFree.
      by destruct (cueAddress_pathValue a _ _ _ Hadr) as (? & _ & _).
    + destruct (cueAddress_pathValue a _ _ _ Hadr) as (_ & [? | (q & Hq & Hsf)] & _); [done |].
      by inversion Hq; subst.
Qed.

Lemma C5_stale_response_still_upserted_witness :
  let s := run [(0%Z, EvRequestAllCues 1);
                (10%Z, EvGet "/eos/out/get/cue/1/count" [VInt 2])] initialState in
  let s' := handleGetResponse 20 "/eos/out/get/cue/1/7/0/list/5/2"
              [VInt 5; VStr "uid-7"; VStr "Seven"] s in
  bulkRefreshExpectedCount (refresh s') = VInt 2 ∧
  bulkRefreshReceivedIndices (refresh s') = bulkRefreshReceivedIndices (refresh s) ∧
  hasKey "1/7" (cues s') = true.
Proof.
  intros s s'.
  destruct (C5_stale_response_still_upserted 20 "/eos/out/get/cue/1/7/0/list/5/2"
              [VInt 5; VStr "uid-7"; VStr "Seven"] s (VStr "1") (VStr "0") "7")
    as (He & Hi & _ & Hk);
    [reflexivity | reflexivity | reflexivity | reflexivity | reflexivity | reflexivity |].
  split; [exact He |]. split; [exact Hi |].
  apply Hk. apply wfStoreb_spec. vm_compute. reflexivity.
Defined.

(** C5 as the specification words it fails twice.  With 2 cues expected, a
    response with index 5 is not credited but its cue 7 enters the store and
    the set of received cue numbers.  With no count received yet, a response
    whose address carries the count 3 sets the expected count, is credited,
    and is upserted. *)
Lemma C5_stale_upsert_counterexample :
  let s := run [(0%Z, EvRequestAllCues 1);
                (10%Z, EvGet "/eos/out/get/cue/1/count" [VInt 2])] initialState in
  let s' := step 20 (EvGet "/eos/out/get/cue/1/7/0/list/5/2"
                       [VInt 5; VStr "uid-7"; VStr "Seven"]) s in
  let t := run [(0%Z, EvRequestAllCues 1)] initialState in
  let t' := step 20 (EvGet "/eos/out/get/cue/1/7/0/list/0/3"
                       [VInt 0; VStr "uid-7"; VStr "Seven"]) t in
  (map existingKey (cues s) = [] ∧
   bulkRefreshReceivedIndices (refresh s') = [] ∧
   map existingKey (cues s') = ["1/7"] ∧
   elements (bulkRefreshReceivedCues (refresh s')) = ["7"]) ∧
  (bulkRefreshExpectedCount (refresh t) = VInt 0 ∧
   bulkRefreshExpectedCount (refresh t') = VInt 3 ∧
   bulkRefreshReceivedIndices (refresh t') = [numZ 0] ∧
   map existingKey (cues t') = ["1/7"]).
Proof. vm_compute. repeat split; reflexivity. Qed.

(** ** A refresh that fails to get its count *)

(** The two timers that watch for a missing count never touch the store. *)
Lemma count_timers_keep_cues now s :
  cues (runTimer now TCountFallback s) = cues s ∧
  cues (runTimer now TCountFinal s) = cues s.
Proof. split; simpl; by case_match. Qed.

(** C8 fails on this run: the refresh of list 2 never gets a count (the
    expected count is 0 up to the end), yet the completion timer left over
    from the refresh of list 1 runs the cleanup against it, removes cue 10
    of list 2 and ends the refresh. *)
Theorem C8_stale_completion_timer_evicts :
  let s1 := run c8_session1 c8_start in
  let s2 := run c8_stale_timers s1 in
  wellTimed 0 (c8_session1 ++ c8_stale_timers) c8_start = true ∧
  map existingKey (cues c8_start) = ["1/5"; "2/10"] ∧
  (bulkRefreshInProgress (refresh s1) = true ∧
   bulkRefreshCueList (refresh s1) = VInt 2 ∧
   bulkRefreshExpectedCount (refresh s1) = VInt 0 ∧
   map existingKey (cues s1) = ["1/5"; "2/10"]) ∧
  (bulkRefreshExpectedCount (refresh (run [(5100%Z, EvTimer 0)] s1)) = VInt 0 ∧
   map snd (timers (run [(5100%Z, EvTimer 0)] s1)) = [TCompletion; TCountFallback; TCountFinal]) ∧
  (bulkRefreshInProgress (refresh s2) = false ∧
   map existingKey (cues s2) = ["1/5"]).
Proof. vm_compute. repeat split; reflexivity. Qed.

(** ** Counting the cues marked active or pending *)

Lemma seen_str_inj t t' : seen_str t = seen_str t' → t = t'.
Proof. by destruct t, t'. Qed.

Lemma seenCount_cons t l c cs :
  seenCount t l (c :: cs) = ((if isSeen t l c then 1 else 0) + seenCount t l cs)%nat.
Proof. unfold seenCount. simpl. by destruct (isSeen t l c). Qed.

Lemma seenCount_app t l cs cs' :
  seenCount t l (cs ++ cs') = (seenCount t l cs + seenCount t l cs')%nat.
Proof. unfold seenCount. by rewrite List.filter_app, length_app. Qed.

Lemma seenCount_perm t l cs cs' : cs ≡ₚ cs' → seenCount t l cs = seenCount t l cs'.
Proof.
  induction 1 as [| x cs cs' _ IH | x y cs | cs1 cs2 cs3 _ IH1 _ IH2].
  - done.
  - by rewrite !seenCount_cons, IH.
  - rewrite !seenCount_cons. lia.
  - congruence.
Qed.

Lemma isSeen_clearSeen t l ty L c :
  isSeen t l (clearSeen ty L c) = isSeen t l c && negb (isSeen ty L c).
Proof.
  unfold clearSeen. fold (listStr c). fold (isSeen ty L c).
  destruct (isSeen ty L c) eqn:Hs.
  - rewrite andb_false_r. unfold isSeen. by rewrite fld_insert_eq.
  - by rewrite andb_true_r.
Qed.

Lemma seenCount_clear_le t l ty L cs :
  (seenCount t l (map (clearSeen ty L) cs) <= seenCount t l cs)%nat.
Proof.
  induction cs as [|c cs IH]; [done |]. simpl map.
  rewrite !seenCount_cons, isSeen_clearSeen.
  destruct (isSeen t l c), (isSeen ty L c); simpl; lia.
Qed.

Lemma seenCount_clear_0 ty L cs : seenCount ty L (map (clearSeen ty L) cs) = 0%nat.
Proof.
  induction cs as [|c cs IH]; [done |]. simpl map.
  rewrite seenCount_cons, isSeen_clearSeen, IH. by destruct (isSeen ty L c).
Qed.

Lemma seenCount_insert_le t l cs i e' :
  (seenCount t l (<[i := e']> cs) <=
   seenCount t l cs + (if isSeen t l e' then 1 else 0))%nat.
Proof.
  revert i. induction cs as [|c cs IH]; intros i;
    [destruct i; unfold seenCount; simpl; lia |].
  destruct i as [|i]; simpl.
  - rewrite !seenCount_cons. destruct (isSeen t l c), (isSeen t l e'); lia.
  - rewrite !seenCount_cons. specialize (IH i). lia.
Qed.

Lemma markedOnly_intro ty L c :
  fld c "last_seen" = VStr (seen_str ty) → listStr c = L → markedOnly ty L c.
Proof.
  intros Hs Hl t l H. unfold isSeen in H. rewrite Hs, Hl in H.
  apply andb_prop in H as [H1 H2]. simpl in H1.
  apply String.eqb_eq in H1, H2. split; [by apply seen_str_inj | done].
Qed.

(** Clearing a mark in a list and then marking one cue of that list keeps
    the invariant. *)
Lemma mark_insert_invariant ty L cs i e' :
  markedOnly ty L e' → oneSeenPerList cs →
  oneSeenPerList (<[i := e']> (map (clearSeen ty L) cs)).
Proof.
  intros Hm Hinv t l.
  pose proof (seenCount_insert_le t l (map (clearSeen ty L) cs) i e') as Hle.
  pose proof (seenCount_clear_le t l ty L cs) as Hcl. specialize (Hinv t l).
  destruct (isSeen t l e') eqn:Hs; [| lia].
  destruct (Hm t l Hs) as [-> ->]. rewrite seenCount_clear_0 in Hle. lia.
Qed.

Lemma mark_append_invariant ty L cs cs' new :
  markedOnly ty L new → oneSeenPerList cs →
  cs' ≡ₚ map (clearSeen ty L) cs ++ [new] → oneSeenPerList cs'.
Proof.
  intros Hm Hinv Hp t l. rewrite (seenCount_perm t l _ _ Hp), seenCount_app.
  pose proof (seenCount_clear_le t l ty L cs) as Hcl. specialize (Hinv t l).
  unfold seenCount at 2. simpl.
  destruct (isSeen t l new) eqn:Hs; simpl; [| lia].
  destruct (Hm t l Hs) as [-> ->]. rewrite seenCount_clear_0. lia.
Qed.

Lemma clear_invariant ty L cs :
  oneSeenPerList cs → oneSeenPerList (map (clearSeen ty L) cs).
Proof.
  intros Hinv t l. pose proof (seenCount_clear_le t l ty L cs). specialize (Hinv t l). lia.
Qed.

Lemma isSeen_clearSeenAll t l ty c :
  isSeen t l (clearSeenAll ty c) = true → isSeen t l c = true.
Proof.
  unfold clearSeenAll. case_match; [| done]. unfold isSeen.
  by rewrite fld_insert_eq.
Qed.

Lemma clearAll_invariant ty cs :
  oneSeenPerList cs → oneSeenPerList (map (clearSeenAll ty) cs).
Proof.
  intros Hinv t l. specialize (Hinv t l).
  assert (seenCount t l (map (clearSeenAll ty) cs) <= seenCount t l cs)%nat; [| lia].
  clear Hinv. induction cs as [|c cs IH]; [done |]. simpl map.
  rewrite !seenCount_cons.
  destruct (isSeen t l (clearSeenAll ty c)) eqn:H1.
  - rewrite (isSeen_clearSeenAll _ _ _ _ H1). lia.
  - destruct (isSeen t l c); lia.
Qed.

(** ** What the patterns of [parseCueText] extract *)

Lemma span_forallb p l a b : Js.span p l = (a, b) → forallb p a = true.
Proof.
  revert a b. induction l as [|c l IH]; intros a b H; simpl in H.
  - by inversion H.
  - destruct (p c) eqn:Hp; [| by inversion H].
    destruct (Js.span p l) as [a' b'] eqn:Hs. inversion H; subst. simpl.
    by rewrite Hp, (IH a' b).
Qed.

Lemma digit_not_slash c : Js.is_digit c = true → negb (Ascii.eqb c Js.slash) = true.
Proof. intros H. destruct (Ascii.eqb_spec c Js.slash) as [-> | _]; [done | done]. Qed.

Lemma forallb_impl {A} (p q : A → bool) l :
  (∀ x, p x = true → q x = true) → forallb p l = true → forallb q l = true.
Proof.
  intros Hpq. induction l as [|x l IH]; [done |]. simpl. intros H.
  apply andb_prop in H as [Hx Hl]. by rewrite (Hpq x Hx), IH.
Qed.

Lemma digits_slashFree l : forallb Js.is_digit l = true → slashFree (Js.str l) = true.
Proof.
  intros H. apply slashFree_str. revert H. apply forallb_impl, digit_not_slash.
Qed.

Lemma str_nonempty c l : Js.str (c :: l) ≠ estr.
Proof. done. Qed.

Lemma cueNumber_slashFree l cu r :
  Re.cueNumber l = Some (cu, r) → slashFree (Js.str cu) = true.
Proof.
  unfold Re.cueNumber. destruct (Js.span Js.is_digit l) as [ip r0] eqn:Hs.
  pose proof (span_forallb _ _ _ _ Hs) as Hip.
  destruct ip as [|d ip]; [done |]. destruct r0 as [|c r'].
  - intros H. inversion H; subst. by apply (digits_slashFree (d :: ip)).
  - destruct (Ascii.eqb_spec c ".") as [-> | Hne].
    + destruct (Js.span Js.is_digit r') as [fp r''] eqn:Hs'.
      pose proof (span_forallb _ _ _ _ Hs') as Hfp.
      destruct fp as [|f fp]; intros H; inversion H; subst.
      * by apply (digits_slashFree (d :: ip)).
      * apply (slashFree_str ((d :: ip) ++ "."%char :: f :: fp)).
        assert (Hall : forallb (fun c => negb (Ascii.eqb c Js.slash))
                         ((d :: ip) ++ "."%char :: f :: fp) = true); [| exact Hall].
        rewrite forallb_app. apply andb_true_intro. split.
        -- revert Hip. apply forallb_impl, digit_not_slash.
        -- change (forallb _ ("."%char :: f :: fp)) with
             (forallb (fun c => negb (Ascii.eqb c Js.slash)) (f :: fp)).
           revert Hfp. apply forallb_impl, digit_not_slash.
    + intros H. inversion H; subst. by apply (digits_slashFree (d :: ip)).
Qed.

Lemma listCue_spec text l n rem :
  Re.listCue text = Some (l, n, rem) →
  l ≠ estr ∧ slashFree l = true ∧ slashFree n = true.
Proof.
  unfold Re.listCue. destruct (Js.span Js.is_digit text) as [ld r] eqn:Hs.
  pose proof (span_forallb _ _ _ _ Hs) as Hld.
  destruct ld as [|d ld]; [done |]. destruct r as [|c r1]; [done |].
  destruct (Ascii.eqb c Js.slash); [| done].
  destruct (Re.cueNumber r1) as [[cu r2]|] eqn:Hc; [| done].
  destruct (Re.optTail r2); [| done]. intros H. inversion H; subst.
  split; [apply (str_nonempty d ld) |].
  split; [by apply (digits_slashFree (d :: ld)) |].
  by eapply cueNumber_slashFree.
Qed.

Lemma cueOnly_spec text n rem : Re.cueOnly text = Some (n, rem) → slashFree n = true.
Proof.
  unfold Re.cueOnly. destruct (Re.cueNumber text) as [[cu r2]|] eqn:Hc; [| done].
  destruct (Re.optTail r2); [| done]. intros H. inversion H; subst.
  by eapply cueNumber_slashFree.
Qed.

Lemma knownList_spec ctx l : knownList ctx = Some l → ctx = Some l ∧ l ≠ estr.
Proof.
  unfold knownList. destruct ctx as [l0|]; [| done].
  destruct (Js.truthy (VStr l0)) eqn:Ht; [| done]. intros H. inversion H; subst.
  split; [done |]. intros ->. done.
Qed.

(** The list a text event names is never empty, and neither the list nor
    the cue number has a slash as long as the contextual list has none. *)
Lemma cueTextTarget_spec text ctx l n rem :
  match ctx with Some c => slashFree c = true | None => True end →
  cueTextTarget text ctx = Some (l, n, rem) →
  l ≠ estr ∧ slashFree l = true ∧ slashFree n = true.
Proof.
  intros Hctx. unfold cueTextTarget.
  destruct (Re.listCue (Js.chars text)) as [[[l0 n0] rem0]|] eqn:Hlc.
  - intros H. inversion H; subst. by eapply listCue_spec.
  - destruct (knownList ctx) as [l0|] eqn:Hk; [| done].
    apply knownList_spec in Hk as [-> Hne].
    destruct (Re.cueOnly (Js.chars text)) as [[cu rem0]|] eqn:Hco; [| done].
    intros H. inversion H; subst. split; [done |]. split; [done |].
    by eapply cueOnly_spec.
Qed.

(** ** Marking the active or pending cue of a list *)

Lemma or_nonempty L d : L ≠ estr → Js.or (VStr L) d = VStr L.
Proof. intros H. unfold Js.or. simpl. by destruct (String.eqb_spec L estr). Qed.

Lemma hasData_nonempty L : L ≠ estr → hasData (VStr L) = true.
Proof. intros H. unfold hasData. simpl. by destruct (String.eqb_spec L estr). Qed.

Lemma markUpdate_key ty L u n :
  markUpdate ty L u → L ≠ estr → cueKeyOf n u = L +:+ "/" +:+ n.
Proof.
  intros (_ & Hl & _ & _ & _ & Hp) HL. unfold cueKeyOf.
  by rewrite Hl, (upd_get_notin u _ Hp), or_nonempty.
Qed.

Lemma markUpdate_applied ty L u e :
  markUpdate ty L u → L ≠ estr → markedOnly ty L (applyUpdates e u).
Proof.
  intros (Hnd & Hl & Hs & Hil & His & _) HL. apply markedOnly_intro.
  - rewrite applyUpdates_fld_in by done.
    change (str_in "last_seen" alwaysUpdateFields) with true. by rewrite Hs.
  - unfold listStr. rewrite applyUpdates_listOf by done.
    by rewrite Hl, hasData_nonempty, or_nonempty.
Qed.

Lemma markUpdate_new ty L u n cl :
  markUpdate ty L u → L ≠ estr → markedOnly ty L (newCue n cl u).
Proof.
  intros (Hnd & Hl & Hs & Hil & His & _) HL. apply markedOnly_intro.
  - by rewrite newCue_fld_in.
  - unfold listStr, listOf. by rewrite newCue_fld_in, Hl, or_nonempty.
Qed.

Lemma upsert_mark n u ty L cs0 s :
  markUpdate ty L u → L ≠ estr → cues s = map (clearSeen ty L) cs0 →
  oneSeenPerList cs0 → oneSeenPerList (cues (updateOrCreateCue n u s)).
Proof.
  intros Hu HL Hs Hinv. rewrite upsert_cues, Hs.
  destruct (findIndex _ _) as [[i e]|].
  - apply mark_insert_invariant; [by apply markUpdate_applied | done].
  - eapply mark_append_invariant; [| done | apply sortCues_perm].
    by apply markUpdate_new.
Qed.

Lemma bfilter_perm {A} (p : A → bool) l l' : l ≡ₚ l' → List.filter p l ≡ₚ List.filter p l'.
Proof.
  induction 1 as [| x l l' _ IH | x y l | l1 l2 l3 _ IH1 _ IH2]; simpl.
  - done.
  - destruct (p x); [by apply Permutation_skip | exact IH].
  - destruct (p x), (p y); try reflexivity. apply Permutation_swap.
  - by etrans.
Qed.

Lemma bfilter_insert_same {A} (p : A → bool) (l : list A) i x y :
  l !! i = Some x → p x = false → p y = false →
  List.filter p (<[i := y]> l) = List.filter p l.
Proof.
  revert i. induction l as [|a l IH]; intros i Hi Hx Hy; [done |].
  destruct i as [|i]; simpl in *.
  - inversion Hi; subst. by rewrite Hx, Hy.
  - by rewrite (IH i).
Qed.

Lemma bfilter_clear_other ty L cs :
  List.filter (otherList L) (map (clearSeen ty L) cs) = List.filter (otherList L) cs.
Proof.
  induction cs as [|c cs IH]; [done |]. simpl.
  assert (Ho : otherList L (clearSeen ty L c) = otherList L c)
    by (unfold otherList; by rewrite clearSeen_listStr).
  rewrite Ho, IH. destruct (otherList L c) eqn:Hoc; [| done].
  rewrite clearSeen_other_list; [done |].
  unfold otherList in Hoc. apply negb_true_iff in Hoc. by apply String.eqb_neq.
Qed.

Lemma sameList_not_other L c : listStr c = L → otherList L c = false.
Proof. intros <-. unfold otherList. by rewrite String.eqb_refl. Qed.

Lemma upsert_mark_frame n u ty L s :
  markUpdate ty L u → L ≠ estr → slashFree L = true → slashFree n = true →
  List.filter (otherList L) (cues (updateOrCreateCue n u s)) ≡ₚ
  List.filter (otherList L) (cues s).
Proof.
  intros Hu HL HsL Hsn. pose proof Hu as (Hnd & Hl & Hs & Hil & His & _).
  rewrite upsert_cues, (markUpdate_key ty L u n Hu HL).
  destruct (findIndex _ _) as [[i e]|] eqn:Hf.
  - destruct (findIndex_Some _ _ _ _ Hf) as (Hi & He & _). apply String.eqb_eq in He.
    apply existingKey_plain in He as (Hel & _ & _); [| done..].
    rewrite (bfilter_insert_same _ _ i e); [done.. | by apply sameList_not_other |].
    apply sameList_not_other. unfold listStr. rewrite applyUpdates_listOf by done.
    by rewrite Hl, hasData_nonempty, or_nonempty.
  - rewrite (bfilter_perm _ _ _ (sortCues_perm _)), List.filter_app. simpl.
    rewrite sameList_not_other, app_nil_r; [done |].
    unfold listStr, listOf. by rewrite newCue_fld_in, Hl, !or_nonempty.
Qed.

Local Ltac str_in_list :=
  repeat (first [by apply list_elem_of_here | apply list_elem_of_further]).

Lemma seenUpdate_mark ty L :
  markUpdate ty L [("cue_list", VStr L); ("last_seen", VStr (seen_str ty))].
Proof.
  split; [| split; [done | split; [done | split; [| split]]]].
  - cbn [map fst]. apply NoDup_cons. split; [str_notin | apply NoDup_singleton].
  - cbn [map fst]. str_in_list.
  - cbn [map fst]. str_in_list.
  - cbn [map fst]. str_notin.
Qed.

Lemma textUpdates_mark ty L rem : markUpdate ty L (textUpdates ty L rem).
Proof.
  unfold textUpdates. destruct (Re.remainderParts rem) as [[f c] l].
  destruct (Js.truthy (VStr f) && _);
    (split; [| split; [done | split; [done | split; [| split]]]]); cbn [map fst app].
  - repeat (apply NoDup_cons; split; [str_notin |]). apply NoDup_nil_2.
  - str_in_list.
  - str_in_list.
  - str_notin.
  - repeat (apply NoDup_cons; split; [str_notin |]). apply NoDup_nil_2.
  - str_in_list.
  - str_in_list.
  - str_notin.
Qed.

Lemma setActive_target_list t list n cs i e :
  findIndex (fun c => String.eqb (Js.toStr (fld c "cue_number")) n &&
                      String.eqb (Js.toStr (listOf c)) list) cs = Some (i, e) →
  cs !! i = Some e ∧ listStr e = list ∧
  listStr (<["last_seen" := VStr (seen_str t)]> e) = list ∧
  markedOnly t list (<["last_seen" := VStr (seen_str t)]> e).
Proof.
  intros Hf. destruct (findIndex_Some _ _ _ _ Hf) as (Hi & Hp & _).
  apply andb_prop in Hp as [_ Hl]. apply String.eqb_eq in Hl.
  assert (Hl' : listStr (<["last_seen" := VStr (seen_str t)]> e) = list).
  { unfold listStr, listOf. by rewrite fld_insert_ne. }
  split; [done |]. split; [exact Hl |]. split; [exact Hl' |].
  apply markedOnly_intro; [apply fld_insert_eq | exact Hl'].
Qed.

Lemma setActive_invariant now list n t s :
  list ≠ estr → oneSeenPerList (cues s) →
  oneSeenPerList (cues (setActiveCueByListAndNumber now list n t s)).
Proof.
  intros HL Hinv. rewrite setActive_cues. cbv zeta.
  destruct (findIndex _ _) as [[i e]|] eqn:Hf.
  - destruct (setActive_target_list t _ _ _ _ _ Hf) as (_ & _ & _ & Hm).
    by apply mark_insert_invariant.
  - by apply (upsert_mark n _ t list (cues s)); [apply seenUpdate_mark | ..].
Qed.

Lemma setActive_frame now list n t s :
  list ≠ estr → slashFree list = true → slashFree n = true →
  List.filter (otherList list) (cues (setActiveCueByListAndNumber now list n t s)) ≡ₚ
  List.filter (otherList list) (cues s).
Proof.
  intros HL Hsl Hsn. rewrite setActive_cues. cbv zeta.
  destruct (findIndex _ _) as [[i e]|] eqn:Hf.
  - destruct (setActive_target_list t _ _ _ _ _ Hf) as (Hi & Hl & Hl' & _).
    rewrite (bfilter_insert_same _ _ i e); [| done | by apply sameList_not_other..].
    by rewrite bfilter_clear_other.
  - rewrite (upsert_mark_frame n _ t list); [| apply seenUpdate_mark | done..].
    cbn [cues set_cues]. by rewrite bfilter_clear_other.
Qed.

Lemma parseCueText_cues now cueText type contextList s :
  cues (parseCueText now cueText type contextList s) =
  if isResetText (Js.trim cueText) then
    match knownList contextList with
    | Some l => map (clearSeen type l) (cues s)
    | None => map (clearSeenAll type) (cues s)
    end
  else
    match cueTextTarget (Js.trim cueText) contextList with
    | None => cues s
    | Some (list, cue, remainder) =>
        cues (updateOrCreateCue cue (textUpdates type list remainder)
                (set_cues (map (clearSeen type list) (cues s)) s))
    end.
Proof.
  unfold parseCueText. destruct (isResetText _); [by destruct (knownList _) |].
  destruct (cueTextTarget _ _) as [[[list cue] rem]|]; [| done].
  unfold textUpdates. destruct (Re.remainderParts rem) as [[f c] l].
  apply upsert_cues_ext. cbn [cues set_cues].
  repeat case_match; by rewrite ?updateElapsed_cues.
Qed.

Lemma cueTextTarget_nonempty text ctx l n rem :
  cueTextTarget text ctx = Some (l, n, rem) → l ≠ estr.
Proof.
  unfold cueTextTarget.
  destruct (Re.listCue (Js.chars text)) as [[[l0 n0] rem0]|] eqn:Hlc.
  - intros H. inversion H; subst. by destruct (listCue_spec _ _ _ _ Hlc).
  - destruct (knownList ctx) as [l0|] eqn:Hk; [| done].
    apply knownList_spec in Hk as [-> Hne].
    destruct (Re.cueOnly (Js.chars text)) as [[cu rem0]|]; [| done].
    intros H. by inversion H; subst.
Qed.

Lemma parseCueText_invariant now cueText type contextList s :
  oneSeenPerList (cues s) →
  oneSeenPerList (cues (parseCueText now cueText type contextList s)).
Proof.
  intros Hinv. rewrite parseCueText_cues. destruct (isResetText _).
  - destruct (knownList _); [by apply clear_invariant | by apply clearAll_invariant].
  - destruct (cueTextTarget _ _) as [[[list cue] rem]|] eqn:Ht; [| done].
    apply (upsert_mark cue _ type list (cues s));
      [apply textUpdates_mark | by eapply cueTextTarget_nonempty | done..].
Qed.

Lemma onCueText_cues now type args addrList s :
  cues (onCueText now type args addrList s) =
  match Js.or (arg args 0) (VStr estr) with
  | VStr cueText => cues (parseCueText now cueText type (contextListOf type addrList s) s)
  | _ => cues s
  end.
Proof.
  unfold onCueText. cbv zeta.
  set (s1 := match Js.or _ _ with VStr t => _ | _ => s end).
  assert (H : cues (set_cuesChanged true
            match currentPollRequest s1 with
            | Some (_, t) => if activePollingInProgress s1 && seen_eqb t type
                             then set_poll None false s1 else s1
            | None => s1 end) = cues s1) by (by repeat case_match).
  rewrite H. unfold s1. by destruct (Js.or _ _).
Qed.

Lemma tracking_invariant now e s :
  trackingEvent e = true → oneSeenPerList (cues s) → oneSeenPerList (cues (step now e s)).
Proof.
  destruct e; try done; intros He Hinv; cbn [step].
  - simpl in He. apply andb_prop in He as [_ He]. apply negb_true_iff, String.eqb_neq in He.
    unfold onCuePerList. cbn [cues set_cuesChanged]. by apply setActive_invariant.
  - rewrite onCueText_cues. destruct (Js.or _ _); try done.
    by apply parseCueText_invariant.
Qed.

Lemma contextList_ok type addrList s :
  match addrList with Some l => slashFree l = true | None => True end →
  pollOK s →
  match contextListOf type addrList s with
  | Some c => slashFree c = true
  | None => True
  end.
Proof.
  intros Ha Hp. unfold contextListOf, pollOK in *.
  destruct (knownList addrList) as [l|] eqn:Hk.
  - by apply knownList_spec in Hk as [-> _].
  - destruct (currentPollRequest s) as [[l t]|]; [| done]. by destruct (seen_eqb t type).
Qed.

Lemma parseCueText_frame now cueText type contextList s l n rem :
  match contextList with Some c => slashFree c = true | None => True end →
  isResetText (Js.trim cueText) = false →
  cueTextTarget (Js.trim cueText) contextList = Some (l, n, rem) →
  List.filter (otherList l) (cues (parseCueText now cueText type contextList s)) ≡ₚ
  List.filter (otherList l) (cues s).
Proof.
  intros Hctx Hr Ht. rewrite parseCueText_cues, Hr, Ht.
  destruct (cueTextTarget_spec _ _ _ _ _ Hctx Ht) as (HL & Hsl & Hsn).
  rewrite (upsert_mark_frame n _ type l); [| apply textUpdates_mark | done..].
  cbn [cues set_cues]. by rewrite bfilter_clear_other.
Qed.

Lemma tracking_frame now e s ty l n :
  trackingEvent e = true → pollOK s → cueTarget e s = Some (ty, l, n) →
  List.filter (otherList l) (cues (step now e s)) ≡ₚ List.filter (otherList l) (cues s).
Proof.
  destruct e; try done; intros He Hp Ht; cbn [step]; cbn [trackingEvent cueTarget] in He, Ht.
  - inversion Ht; subst. apply andb_prop in He as [He HL].
    apply andb_prop in He as [Hsl Hsn]. apply negb_true_iff, String.eqb_neq in HL.
    unfold onCuePerList. cbn [cues set_cuesChanged]. by apply setActive_frame.
  - rewrite onCueText_cues. destruct (Js.or _ _) as [| | | | cueText |]; try done.
    destruct (isResetText (Js.trim cueText)) eqn:Hr; [discriminate Ht |].
    destruct (cueTextTarget _ _) as [[[l0 n0] rem]|] eqn:Htg; [| discriminate Ht].
    inversion Ht; subst.
    eapply parseCueText_frame; [| done..].
    apply contextList_ok; [by destruct addrList | done].
Qed.

Lemma setActive_poll now list n t s :
  currentPollRequest (setActiveCueByListAndNumber now list n t s) = currentPollRequest s.
Proof.
  unfold setActiveCueByListAndNumber. cbv zeta.
  set (s1 := match findIndex _ _ with Some (i, c) => _ | None => _ end).
  assert (H1 : currentPollRequest s1 = currentPollRequest s).
  { unfold s1. destruct (findIndex _ _) as [[i c]|]; [done |].
    by destruct (upsert_poll n [("cue_list", VStr list); ("last_seen", VStr (seen_str t))]
                   (set_cues (map (clearSeen t list) (cues s)) s)) as [-> _]. }
  rewrite <- H1. unfold updateElapsed. by repeat case_match.
Qed.

Lemma parseCueText_poll now cueText type contextList s :
  currentPollRequest (parseCueText now cueText type contextList s) = currentPollRequest s.
Proof.
  unfold parseCueText. destruct (isResetText _); [by destruct (knownList _) |].
  destruct (cueTextTarget _ _) as [[[l n] rem]|]; [| done].
  destruct (Re.remainderParts rem) as [[f c] lab].
  match goal with |- currentPollRequest (updateOrCreateCue ?n ?u ?s0) = _ =>
    destruct (upsert_poll n u s0) as [-> _] end.
  unfold updateElapsed. by repeat case_match.
Qed.

Lemma tracking_pollOK now e s :
  trackingEvent e = true → pollOK s → pollOK (step now e s).
Proof.
  destruct e; try done; intros _ Hp; cbn [step]; unfold pollOK in *.
  - unfold onCuePerList. cbn [currentPollRequest set_cuesChanged].
    by rewrite setActive_poll.
  - unfold onCueText. cbv zeta.
    set (s1 := match Js.or _ _ with VStr t => _ | _ => s end).
    assert (H1 : currentPollRequest s1 = currentPollRequest s).
    { unfold s1. destruct (Js.or _ _); try done. apply parseCueText_poll. }
    cbn [currentPollRequest set_cuesChanged]. rewrite <- H1 in Hp.
    destruct (currentPollRequest s1) as [[l t]|] eqn:Hq.
    + destruct (activePollingInProgress s1 && seen_eqb t type); [done |].
      by rewrite Hq.
    + by rewrite Hq.
Qed.

(** C3: tracking events keep at most one active and at most one pending
    cue per list, and an event that marks a cue of one list leaves the cues
    of every other list exactly as they were. *)
Theorem C3_one_active_one_pending_per_list (evs : list (Z * event)) (s : state) :
  Forall (fun ne => trackingEvent ne.2 = true) evs →
  pollOK s →
  oneSeenPerList (cues s) →
  oneSeenPerList (cues (run evs s)) ∧
  ∀ (now : Z) (e : event) (ty : seen) (l n : string),
    trackingEvent e = true →
    cueTarget e (run evs s) = Some (ty, l, n) →
    List.filter (otherList l) (cues (step now e (run evs s))) ≡ₚ
    List.filter (otherList l) (cues (run evs s)).
Proof.
  intros Hev Hp Hinv.
  assert (H : oneSeenPerList (cues (run evs s)) ∧ pollOK (run evs s)).
  { revert s Hp Hinv. induction Hev as [|[now e] evs He _ IH]; intros s Hp Hinv; [done |].
    rewrite run_cons. apply IH; [by apply tracking_pollOK | by apply tracking_invariant]. }
  destruct H as [Hinv' Hp']. split; [done |].
  intros now e ty l n He Ht. by eapply tracking_frame.
Qed.

Lemma C3_one_active_one_pending_per_list_witness :
  let evs := [(0%Z, EvCuePerList Active "1" "5"); (1%Z, EvCuePerList Active "2" "9");
              (2%Z, EvCueText Pending [VStr "1/6 Next 2.5"] None);
              (3%Z, EvCuePerList Active "1" "6")] in
  oneSeenPerList (cues (run evs initialState)) ∧
  List.filter (otherList "1")
    (cues (step 4 (EvCueText Active [VStr "1/7 Go 3 0%"] None) (run evs initialState))) ≡ₚ
  List.filter (otherList "1") (cues (run evs initialState)).
Proof.
  intros evs.
  destruct (C3_one_active_one_pending_per_list evs initialState) as [Hinv Hfr].
  - repeat constructor.
  - exact I.
  - intros t l. unfold seenCount. simpl. lia.
  - split; [exact Hinv |].
    apply (Hfr 4%Z (EvCueText Active [VStr "1/7 Go 3 0%"] None) Active "1" "7");
      reflexivity.
Defined.

(** ** Scenario: no timing entry for a secondary list *)

(** With list 1 as the main playback list and recording on, an active cue
    on list 2 followed by one on list 1 records the cue of list 1 only. *)
Example ghost_timing_suppressed :
  map (fun t => (t_cueList t, t_cueNumber t))
      (cueTimings (showTimings
         (run [(1000%Z, EvTimingsStart); (2000%Z, EvCuePerList Active "2" "3");
               (3000%Z, EvCuePerList Active "1" "7")] initialState))) =
  [(VStr "1", VStr "7")].
Proof. reflexivity. Qed.

(** * Properties of the rest of the server *)

Section ShowFolders.
Import Uri.
Local Open Scope Z_scope.
Local Open Scope list_scope.

Lemma hexVal_hexDigit d : 0 <= d < 16 → hexVal (hexDigit d) = Some d.
Proof.
  intros Hd. unfold hexVal, hexDigit, isDecimal.
  destruct (d <? 10) eqn:E.
  - apply Z.ltb_lt in E.
    replace ((48 <=? 48 + d) && (48 + d <=? 57)) with true by (symmetry; apply andb_true_iff; split; lia).
    f_equal. lia.
  - apply Z.ltb_ge in E.
    replace ((48 <=? 55 + d) && (55 + d <=? 57)) with false by (symmetry; apply andb_false_iff; right; lia).
    replace ((65 <=? 55 + d) && (55 + d <=? 70)) with true by (symmetry; apply andb_true_iff; split; lia).
    f_equal. lia.
Qed.

Lemma octet_percent b rest :
  0 <= b < 256 → octet (percent b ++ rest) = Some (b, rest).
Proof.
  intros Hb. unfold percent. cbn [app octet]. 
  rewrite Z.eqb_refl.
  rewrite !hexVal_hexDigit by (Z.div_mod_to_equations; lia).
  do 2 f_equal. Z.div_mod_to_equations; lia.
Qed.

Local Ltac zb :=
  repeat match goal with
  | |- context [?a <? ?b] => destruct (Z.ltb_spec a b); try lia
  | |- context [?a <=? ?b] => destruct (Z.leb_spec a b); try lia
  | |- context [?a =? ?b] => destruct (Z.eqb_spec a b); try lia
  end.

Lemma decode_copy f c e :
  c ≠ 37 → decode (S f) (c :: e) = cons c <$> decode f e.
Proof. intros Hc. cbn [decode]. by destruct (Z.eqb_spec c 37). Qed.

Lemma decode_percent_head f b e :
  decode (S f) (percent b ++ e) =
  match octet (percent b ++ e) with
  | None => None
  | Some (b, rest) =>
      if b <? 128 then cons b <$> decode f rest
      else
        match leadOf b with
        | None => None
        | Some (n, lead) =>
            match octets n rest with
            | None => None
            | Some (cont, rest') =>
                let cp := payload lead cont in
                if forallb isCont cont && validPoint n cp
                then app (utf16 cp) <$> decode f rest'
                else None
            end
        end
  end.
Proof. reflexivity. Qed.

Lemma decode_ascii f b e :
  0 <= b < 128 → decode (S f) (percent b ++ e) = cons b <$> decode f e.
Proof.
  intros Hb. rewrite decode_percent_head, octet_percent by lia.
  by destruct (Z.ltb_spec b 128); [| lia].
Qed.

Lemma octets_1 b e : 0 <= b < 256 → octets 1 (percent b ++ e) = Some ([b], e).
Proof. intros. cbn [octets]. by rewrite octet_percent. Qed.

Lemma octets_2 b c e :
  0 <= b < 256 → 0 <= c < 256 →
  octets 2 (percent b ++ percent c ++ e) = Some ([b; c], e).
Proof.
  intros. change (octets 2 ?s) with
    (match octet s with
     | Some (b, rest) =>
         match octets 1 rest with Some (bs, r) => Some (b :: bs, r) | None => None end
     | None => None end).
  by rewrite octet_percent, octets_1.
Qed.

Lemma octets_3 b c d e :
  0 <= b < 256 → 0 <= c < 256 → 0 <= d < 256 →
  octets 3 (percent b ++ percent c ++ percent d ++ e) = Some ([b; c; d], e).
Proof.
  intros. change (octets 3 ?s) with
    (match octet s with
     | Some (b, rest) =>
         match octets 2 rest with Some (bs, r) => Some (b :: bs, r) | None => None end
     | None => None end).
  by rewrite octet_percent, octets_2.
Qed.


Lemma decode_escape f cp e :
  scalar cp → decode (S f) (escape cp ++ e) = app (utf16 cp) <$> decode f e.
Proof.
  intros [Hr Hs]. unfold escape, utf8.
  destruct (Z.ltb_spec cp 128).
  { cbn [flat_map]. rewrite app_nil_r, decode_ascii by lia.
    unfold utf16. by destruct (Z.ltb_spec cp 65536); [| lia]. }
  destruct (Z.ltb_spec cp 2048).
  { cbn [flat_map]. rewrite app_nil_r, <- app_assoc.
    pose proof (Z.div_mod cp 64 ltac:(lia)) as Hdm.
    pose proof (Z.mod_pos_bound cp 64 ltac:(lia)) as Hm.
    assert (2 <= cp / 64 < 32) by (split; [apply Z.div_le_lower_bound | apply Z.div_lt_upper_bound]; lia).
    rewrite decode_percent_head, octet_percent by lia.
    destruct (Z.ltb_spec (192 + cp / 64) 128); [lia |].
    unfold leadOf. 
    destruct (Z.ltb_spec (192 + cp / 64) 192); [lia |].
    destruct (Z.ltb_spec (192 + cp / 64) 224); [| lia].
    rewrite octets_1 by lia. cbn [payload fold_left forallb validPoint].
    replace ((192 + cp / 64 - 192) * 64 + (128 + cp mod 64 - 128)) with cp by lia.
    unfold isCont.
    replace ((128 <=? 128 + cp mod 64) && (128 + cp mod 64 <=? 191)) with true
      by (symmetry; apply andb_true_iff; split; lia).
    replace ((128 <=? cp) && (cp <? 2048)) with true
      by (symmetry; apply andb_true_iff; split; lia).
    reflexivity. }
  destruct (Z.ltb_spec cp 65536).
  { cbn [flat_map]. rewrite app_nil_r, <- !app_assoc.
    pose proof (Z.div_mod cp 64 ltac:(lia)) as Hdm.
    pose proof (Z.mod_pos_bound cp 64 ltac:(lia)) as Hm.
    pose proof (Z.div_mod (cp / 64) 64 ltac:(lia)) as Hdm2.
    pose proof (Z.mod_pos_bound (cp / 64) 64 ltac:(lia)) as Hm2.
    assert (cp / 4096 = cp / 64 / 64) as Hq by (rewrite Z.div_div by lia; reflexivity).
    assert (0 <= cp / 4096 < 16) by (split; [apply Z.div_pos | apply Z.div_lt_upper_bound]; lia).
    rewrite decode_percent_head, octet_percent by lia.
    destruct (Z.ltb_spec (224 + cp / 4096) 128); [lia |].
    unfold leadOf.
    destruct (Z.ltb_spec (224 + cp / 4096) 192); [lia |].
    destruct (Z.ltb_spec (224 + cp / 4096) 224); [lia |].
    destruct (Z.ltb_spec (224 + cp / 4096) 240); [| lia].
    rewrite octets_2 by lia. cbn [payload fold_left forallb validPoint].
    replace (((224 + cp / 4096 - 224) * 64 + (128 + (cp / 64) mod 64 - 128)) * 64 +
             (128 + cp mod 64 - 128)) with cp by lia.
    unfold isCont.
    replace ((128 <=? 128 + (cp / 64) mod 64) && (128 + (cp / 64) mod 64 <=? 191)) with true
      by (symmetry; apply andb_true_iff; split; lia).
    replace ((128 <=? 128 + cp mod 64) && (128 + cp mod 64 <=? 191)) with true
      by (symmetry; apply andb_true_iff; split; lia).
    replace ((2048 <=? cp) && (cp <? 65536)) with true
      by (symmetry; apply andb_true_iff; split; lia).
    replace ((55296 <=? cp) && (cp <=? 57343)) with false
      by (symmetry; apply andb_false_iff; lia).
    reflexivity. }
  cbn [flat_map]. rewrite app_nil_r, <- !app_assoc.
  pose proof (Z.div_mod cp 64 ltac:(lia)) as Hdm.
  pose proof (Z.mod_pos_bound cp 64 ltac:(lia)) as Hm.
  pose proof (Z.div_mod (cp / 64) 64 ltac:(lia)) as Hdm2.
  pose proof (Z.mod_pos_bound (cp / 64) 64 ltac:(lia)) as Hm2.
  pose proof (Z.div_mod (cp / 4096) 64 ltac:(lia)) as Hdm3.
  pose proof (Z.mod_pos_bound (cp / 4096) 64 ltac:(lia)) as Hm3.
  assert (cp / 4096 = cp / 64 / 64) as Hq by (rewrite Z.div_div by lia; reflexivity).
  assert (cp / 262144 = cp / 4096 / 64) as Hq2 by (rewrite Z.div_div by lia; reflexivity).
  assert (0 <= cp / 262144 < 5) by (split; [apply Z.div_pos | apply Z.div_lt_upper_bound]; lia).
  rewrite decode_percent_head, octet_percent by lia.
  destruct (Z.ltb_spec (240 + cp / 262144) 128); [lia |].
  unfold leadOf.
  destruct (Z.ltb_spec (240 + cp / 262144) 192); [lia |].
  destruct (Z.ltb_spec (240 + cp / 262144) 224); [lia |].
  destruct (Z.ltb_spec (240 + cp / 262144) 240); [lia |].
  destruct (Z.ltb_spec (240 + cp / 262144) 248); [| lia].
  rewrite octets_3 by lia. cbn [payload fold_left forallb validPoint].
  replace ((((240 + cp / 262144 - 240) * 64 + (128 + (cp / 4096) mod 64 - 128)) * 64 +
            (128 + (cp / 64) mod 64 - 128)) * 64 + (128 + cp mod 64 - 128)) with cp by lia.
  unfold isCont.
  replace ((128 <=? 128 + (cp / 4096) mod 64) && (128 + (cp / 4096) mod 64 <=? 191)) with true
    by (symmetry; apply andb_true_iff; split; lia).
  replace ((128 <=? 128 + (cp / 64) mod 64) && (128 + (cp / 64) mod 64 <=? 191)) with true
    by (symmetry; apply andb_true_iff; split; lia).
  replace ((128 <=? 128 + cp mod 64) && (128 + cp mod 64 <=? 191)) with true
    by (symmetry; apply andb_true_iff; split; lia).
  replace ((65536 <=? cp) && (cp <=? 1114111)) with true
    by (symmetry; apply andb_true_iff; split; lia).
  reflexivity.
Qed.


Lemma encodeShowName_unfold s :
  encodeShowName s = quoteMarks <$> encodeURIComponent s.
Proof. reflexivity. Qed.

Lemma hexDigit_plain d : 0 <= d < 16 → isQuoteMark (hexDigit d) = false.
Proof. intros. unfold isQuoteMark, hexDigit. zb; reflexivity. Qed.

Lemma quoteMarks_app a b : quoteMarks (a ++ b) = quoteMarks a ++ quoteMarks b.
Proof. apply flat_map_app. Qed.

Lemma quoteMarks_percent b : 0 <= b < 256 → quoteMarks (percent b) = percent b.
Proof.
  intros. unfold quoteMarks, percent. cbn [flat_map].
  rewrite !hexDigit_plain by (Z.div_mod_to_equations; lia). reflexivity.
Qed.

Lemma utf8_octets cp : scalar cp → Forall (fun b => 0 <= b < 256) (utf8 cp).
Proof.
  intros [Hr Hs]. unfold utf8.
  repeat (case_match; try (repeat constructor; Z.div_mod_to_equations; lia)).
Qed.

Lemma quoteMarks_escape cp : scalar cp → quoteMarks (escape cp) = escape cp.
Proof.
  intros H. unfold escape. pose proof (utf8_octets cp H) as Hb.
  induction Hb as [| b l Hb _ IH]; [reflexivity |].
  cbn [flat_map]. by rewrite quoteMarks_app, quoteMarks_percent, IH.
Qed.

Lemma percentCode_percent c : isQuoteMark c = true → percentCode c = percent c.
Proof.
  unfold isQuoteMark. intros H.
  repeat (apply orb_true_iff in H; destruct H as [H | H]);
    apply Z.eqb_eq in H; subst c; reflexivity.
Qed.

Lemma isQuoteMark_range c : isQuoteMark c = true → 0 <= c < 128.
Proof.
  unfold isQuoteMark. intros H.
  repeat (apply orb_true_iff in H; destruct H as [H | H]);
    apply Z.eqb_eq in H; subst c; lia.
Qed.

Lemma unescaped_not_percent c : unescaped c = true → c ≠ 37.
Proof. intros H ->. discriminate H. Qed.

Lemma utf16_pair c d :
  isHigh c = true → isLow d = true → utf16 (pairPoint c d) = [c; d].
Proof.
  unfold isHigh, isLow, utf16, pairPoint. intros Hc Hd.
  apply andb_true_iff in Hc as [?%Z.leb_le ?%Z.leb_le].
  apply andb_true_iff in Hd as [?%Z.leb_le ?%Z.leb_le].
  destruct (Z.ltb_spec ((c - 55296) * 1024 + (d - 56320) + 65536) 65536); [lia |].
  f_equal; [| f_equal]; Z.div_mod_to_equations; lia.
Qed.

Lemma pair_scalar c d : isHigh c = true → isLow d = true → scalar (pairPoint c d).
Proof.
  unfold isHigh, isLow, scalar, pairPoint. intros Hc Hd.
  apply andb_true_iff in Hc as [?%Z.leb_le ?%Z.leb_le].
  apply andb_true_iff in Hd as [?%Z.leb_le ?%Z.leb_le]. lia.
Qed.

Lemma unit_scalar c :
  isUnit c = true → isHigh c = false → isLow c = false → scalar c ∧ utf16 c = [c].
Proof.
  unfold isUnit, isHigh, isLow, scalar, utf16. intros Hu Hh Hl.
  apply andb_true_iff in Hu as [?%Z.leb_le ?%Z.ltb_lt].
  apply andb_false_iff in Hh. apply andb_false_iff in Hl.
  rewrite !Z.leb_gt in Hh, Hl.
  split; [lia |]. by destruct (Z.ltb_spec c 65536); [| lia].
Qed.

(** Encoding succeeds on a well-formed name and decoding gives it back,
    with any fuel that covers the encoded name. *)
Lemma showName_roundtrip s :
  wellFormed s = true →
  ∃ e, encodeShowName s = Some e ∧ ∀ f, (length e <= f)%nat → decode f e = Some s.
Proof.
  remember (length s) as n eqn:Hn. revert s Hn.
  induction n as [n IH] using lt_wf_ind. intros s Hn Hwf.
  destruct s as [| c s]; [by exists []; split; [| intros []] |].
  cbn [wellFormed] in Hwf. apply andb_true_iff in Hwf as [Hu Hwf].
  rewrite encodeShowName_unfold. cbn [encodeURIComponent].
  destruct (unescaped c) eqn:Hun.
  { assert (wellFormed s = true) as Hs.
    { destruct (isHigh c) eqn:Hh.
      - unfold unescaped, isAlpha, isDecimal, isMark, isHigh in *.
        exfalso. revert Hun Hh. zb; discriminate.
      - by apply andb_true_iff in Hwf as [_ ?]. }
    destruct (IH (length s) ltac:(subst n; simpl; lia) s eq_refl Hs) as (e & He & Hd).
    rewrite encodeShowName_unfold in He.
    destruct (encodeURIComponent s) as [e0 |]; [| discriminate].
    injection He as <-. cbn [fmap option_fmap option_map].
    change (quoteMarks (c :: e0)) with
      ((if isQuoteMark c then percentCode c else [c]) ++ quoteMarks e0).
    eexists; split; [reflexivity |]. intros f Hf.
    destruct (isQuoteMark c) eqn:Hq.
    - rewrite percentCode_percent in * by done.
      destruct f as [| f]; [simpl in Hf; lia |].
      rewrite decode_ascii by by apply isQuoteMark_range.
      rewrite Hd; [done |]. unfold percent in Hf. simpl in Hf. lia.
    - destruct f as [| f]; [simpl in Hf; lia |].
      cbn [app]. rewrite decode_copy by by apply unescaped_not_percent.
      rewrite Hd; [done |]. simpl in Hf. lia. }
  destruct (isHigh c) eqn:Hh.
  { destruct s as [| d s]; [discriminate |].
    apply andb_true_iff in Hwf as [Hl Hs]. rewrite Hl.
    destruct (IH (length s) ltac:(subst n; simpl; lia) s eq_refl Hs) as (e & He & Hd).
    rewrite encodeShowName_unfold in He.
    destruct (encodeURIComponent s) as [e0 |]; [| discriminate].
    injection He as <-. cbn [fmap option_fmap option_map].
    rewrite quoteMarks_app, quoteMarks_escape by by apply pair_scalar.
    eexists; split; [reflexivity |]. intros f Hf.
    destruct f as [| f].
    { rewrite length_app in Hf. unfold escape, utf8 in Hf.
      repeat case_match; simpl in Hf; lia. }
    rewrite decode_escape by by apply pair_scalar.
    rewrite utf16_pair by done. rewrite Hd; [done |].
    rewrite length_app in Hf. unfold escape, utf8 in Hf.
    repeat case_match; simpl in Hf; lia. }
  apply andb_true_iff in Hwf as [Hl Hs]. apply negb_true_iff in Hl. rewrite Hl.
  destruct (unit_scalar c Hu Hh Hl) as [Hsc H16].
  destruct (IH (length s) ltac:(subst n; simpl; lia) s eq_refl Hs) as (e & He & Hd).
  rewrite encodeShowName_unfold in He.
  destruct (encodeURIComponent s) as [e0 |]; [| discriminate].
  injection He as <-. cbn [fmap option_fmap option_map].
  rewrite quoteMarks_app, quoteMarks_escape by done.
  eexists; split; [reflexivity |]. intros f Hf.
  destruct f as [| f].
  { rewrite length_app in Hf. unfold escape, utf8 in Hf.
    repeat case_match; simpl in Hf; lia. }
  rewrite decode_escape by done. rewrite H16, Hd; [done |].
  rewrite length_app in Hf. unfold escape, utf8 in Hf.
  repeat case_match; simpl in Hf; lia.
Qed.

Lemma encode_Some_wellFormed s e :
  isString s = true → encodeURIComponent s = Some e → wellFormed s = true.
Proof.
  remember (length s) as n eqn:Hn. revert s e Hn.
  induction n as [n IH] using lt_wf_ind. intros s e Hn Hs He.
  destruct s as [| c s]; [done |].
  cbn [isString forallb] in Hs. apply andb_true_iff in Hs as [Hc Hs].
  cbn [encodeURIComponent] in He. cbn [wellFormed]. rewrite Hc. cbn [andb].
  destruct (unescaped c) eqn:Hun.
  { assert (isHigh c = false) as ->.
    { unfold unescaped, isAlpha, isDecimal, isMark, isHigh in *.
      revert Hun. repeat match goal with
       | |- context [?a <=? ?b] => destruct (Z.leb_spec a b); try lia
       | |- context [?a =? ?b] => destruct (Z.eqb_spec a b); try lia
       end; try discriminate; reflexivity. }
    assert (isLow c = false) as ->.
    { unfold unescaped, isAlpha, isDecimal, isMark, isLow in *.
      revert Hun. repeat match goal with
       | |- context [?a <=? ?b] => destruct (Z.leb_spec a b); try lia
       | |- context [?a =? ?b] => destruct (Z.eqb_spec a b); try lia
       end; try discriminate; reflexivity. }
    destruct (encodeURIComponent s) as [e0 |] eqn:E; [| discriminate].
    cbn [negb andb]. eapply (IH (length s)); [subst n; simpl; lia | done | done | done]. }
  destruct (isHigh c).
  { destruct s as [| d s]; [discriminate |].
    destruct (isLow d); [| discriminate].
    cbn [isString forallb] in Hs. apply andb_true_iff in Hs as [_ Hs].
    destruct (encodeURIComponent s) as [e0 |] eqn:E; [| discriminate].
    cbn [andb]. eapply (IH (length s)); [subst n; simpl; lia | done | done | done]. }
  destruct (isLow c); [discriminate |].
  destruct (encodeURIComponent s) as [e0 |] eqn:E; [| discriminate].
  cbn [negb andb]. eapply (IH (length s)); [subst n; simpl; lia | done | done | done].
Qed.

Lemma encodeShowName_wellFormed s e :
  isString s = true → encodeShowName s = Some e → wellFormed s = true.
Proof.
  intros Hs He. unfold encodeShowName in He.
  destruct (encodeURIComponent s) as [e0 |] eqn:E; [| discriminate].
  by eapply encode_Some_wellFormed.
Qed.

Lemma wellFormed_isString s : wellFormed s = true → isString s = true.
Proof.
  remember (length s) as n eqn:Hn. revert s Hn.
  induction n as [n IH] using lt_wf_ind. intros s Hn Hs.
  destruct s as [| c s]; [done |].
  cbn [wellFormed] in Hs. apply andb_true_iff in Hs as [Hc Hs].
  cbn [isString forallb]. rewrite Hc. cbn [andb].
  destruct (isHigh c).
  - destruct s as [| d s]; [discriminate |].
    apply andb_true_iff in Hs as [Hd Hs].
    cbn [forallb]. apply andb_true_iff. split.
    + unfold isLow in Hd. unfold isUnit.
      apply andb_true_iff in Hd as [?%Z.leb_le ?%Z.leb_le].
      apply andb_true_iff; split; [apply Z.leb_le | apply Z.ltb_lt]; lia.
    + apply (IH (length s)); [subst n; simpl; lia | done | done].
  - apply andb_true_iff in Hs as [_ Hs].
    apply (IH (length s)); [subst n; simpl; lia | done | done].
Qed.

Lemma decodeShowName_encode s e :
  wellFormed s = true → encodeShowName s = Some e → decodeShowName e = s.
Proof.
  intros Hwf He. destruct (showName_roundtrip s Hwf) as (e' & He' & Hd).
  rewrite He in He'. injection He' as <-.
  unfold decodeShowName, decodeURIComponent. by rewrite Hd.
Qed.

Lemma encodeShowName_inj s s' e :
  wellFormed s = true → wellFormed s' = true →
  encodeShowName s = Some e → encodeShowName s' = Some e → s = s'.
Proof.
  intros Hs Hs' He He'.
  by rewrite <- (decodeShowName_encode s e), <- (decodeShowName_encode s' e).
Qed.

Lemma hexDigit_safe d : 0 <= d < 16 → folderSafe (hexDigit d) = true.
Proof. intros. unfold folderSafe, hexDigit, isAlpha, isDecimal. zb; reflexivity. Qed.

Lemma percent_safe b : 0 <= b < 256 → forallb folderSafe (percent b) = true.
Proof.
  intros. unfold percent. cbn [forallb].
  rewrite !hexDigit_safe by (Z.div_mod_to_equations; lia). reflexivity.
Qed.

Lemma escape_safe cp : scalar cp → forallb folderSafe (escape cp) = true.
Proof.
  intros H. unfold escape. pose proof (utf8_octets cp H) as Hb.
  induction Hb as [| b l Hb _ IH]; [reflexivity |].
  cbn [flat_map]. rewrite forallb_app, percent_safe, IH by done. reflexivity.
Qed.

Lemma unescaped_safe c :
  unescaped c = true →
  forallb folderSafe (if isQuoteMark c then percentCode c else [c]) = true.
Proof.
  intros Hun. destruct (isQuoteMark c) eqn:Hq.
  - rewrite percentCode_percent by done. apply percent_safe.
    apply isQuoteMark_range in Hq. lia.
  - cbn [forallb]. rewrite andb_true_r.
    unfold unescaped, isMark in Hun. unfold isQuoteMark in Hq. unfold folderSafe.
    destruct (isAlpha c); [done |]. destruct (isDecimal c); [done |].
    revert Hun Hq. cbn [orb]. zb; cbn; congruence.
Qed.

Lemma encodeShowName_safe s e :
  isString s = true → encodeShowName s = Some e →
  forallb folderSafe e = true ∧ (s ≠ [] → e ≠ []).
Proof.
  remember (length s) as n eqn:Hn. revert s e Hn.
  induction n as [n IH] using lt_wf_ind. intros s e Hn Hs He.
  destruct s as [| c s].
  { injection He as <-. done. }
  cbn [isString forallb] in Hs. apply andb_true_iff in Hs as [Hc Hs].
  rewrite encodeShowName_unfold in He. cbn [encodeURIComponent] in He.
  destruct (unescaped c) eqn:Hun.
  { destruct (encodeURIComponent s) as [e0 |] eqn:E; [| discriminate].
    injection He as <-.
    change (quoteMarks (c :: e0)) with
      ((if isQuoteMark c then percentCode c else [c]) ++ quoteMarks e0).
    destruct (IH (length s) ltac:(subst n; simpl; lia) s (quoteMarks e0) eq_refl Hs)
      as [Hsafe _]; [by rewrite encodeShowName_unfold, E |].
    split.
    - by rewrite forallb_app, unescaped_safe, Hsafe.
    - intros _. destruct (isQuoteMark c); discriminate. }
  destruct (isHigh c) eqn:Hh.
  { destruct s as [| d s]; [discriminate |].
    destruct (isLow d) eqn:Hl; [| discriminate].
    cbn [isString forallb] in Hs. apply andb_true_iff in Hs as [_ Hs].
    destruct (encodeURIComponent s) as [e0 |] eqn:E; [| discriminate].
    injection He as <-.
    rewrite quoteMarks_app, quoteMarks_escape by by apply pair_scalar.
    destruct (IH (length s) ltac:(subst n; simpl; lia) s (quoteMarks e0) eq_refl Hs)
      as [Hsafe _]; [by rewrite encodeShowName_unfold, E |].
    split.
    - rewrite forallb_app, escape_safe, Hsafe; [done | by apply pair_scalar].
    - intros _ Hnil. apply app_eq_nil in Hnil as [Hnil _].
      unfold escape, utf8 in Hnil. repeat case_match; discriminate. }
  destruct (isLow c) eqn:Hl; [discriminate |].
  destruct (unit_scalar c Hc Hh Hl) as [Hsc _].
  destruct (encodeURIComponent s) as [e0 |] eqn:E; [| discriminate].
  injection He as <-.
  rewrite quoteMarks_app, quoteMarks_escape by done.
  destruct (IH (length s) ltac:(subst n; simpl; lia) s (quoteMarks e0) eq_refl Hs)
    as [Hsafe _]; [by rewrite encodeShowName_unfold, E |].
  split.
  - by rewrite forallb_app, escape_safe, Hsafe.
  - intros _ Hnil. apply app_eq_nil in Hnil as [Hnil _].
    unfold escape, utf8 in Hnil. repeat case_match; discriminate.
Qed.

Lemma directories_spec d f :
  f ∈ directories d ↔ entries d !! f = Some IsDirectory.
Proof.
  unfold directories. rewrite list_elem_of_fmap. split.
  - intros ([f' k] & -> & Hin). apply elem_of_bfilter in Hin as [Hin Hk].
    apply elem_of_map_to_list in Hin. simpl in *. by destruct k.
  - intros H. exists (f, IsDirectory). split; [done |].
    apply elem_of_bfilter. split; [| done]. by apply elem_of_map_to_list.
Qed.

Lemma effectiveName_wellFormed name :
  wellFormed name = true → wellFormed (effectiveName name) = true.
Proof. unfold effectiveName. by destruct (blank name). Qed.

Lemma getShowDir_unfold name :
  getShowDir name = joinShows <$> encodeShowName (effectiveName name).
Proof. reflexivity. Qed.

Lemma joinShows_plain name e :
  wellFormed name = true → name ≠ units "." → name ≠ units ".." →
  encodeShowName name = Some e → joinShows e = InShows e.
Proof.
  intros Hwf H1 H2 He. unfold joinShows.
  destruct (decide (e = units ".")) as [-> |].
  { destruct H1. by apply (encodeShowName_inj _ _ (units ".")). }
  destruct (decide (e = units "..")) as [-> |]; [| done].
  destruct H2. by apply (encodeShowName_inj _ _ (units "..")).
Qed.

Lemma getShowDir_plain name :
  wellFormed name = true → blank name = false →
  name ≠ units "." → name ≠ units ".." →
  ∃ e, encodeShowName name = Some e ∧ getShowDir name = Some (InShows e).
Proof.
  intros Hwf Hb H1 H2. destruct (showName_roundtrip name Hwf) as (e & He & _).
  exists e. split; [done |]. rewrite getShowDir_unfold. unfold effectiveName.
  rewrite Hb, He. cbn. f_equal. by eapply joinShows_plain.
Qed.

Lemma writeShowFiles_InShows e d : writeShowFiles (InShows e) d = d.
Proof. reflexivity. Qed.

(** X4: once [createShow] has run, the show exists;
    when it returned [true] the show is among those [listShows] reports,
    when it returned [false] the disk is untouched; a second call returns
    [false] and changes nothing. *)
Theorem createShow_then_listed (showName : ustring) (d d' : disk) (created : bool) :
  wellFormed showName = true → blank showName = false →
  showName ≠ units "." → showName ≠ units ".." →
  createShow showName d = Some (created, d') →
  showExists showName d' = Some true ∧
  (created = true → showName ∈ listShows d') ∧
  (created = false → d' = d) ∧
  createShow showName d' = Some (false, d').
Proof.
  intros Hwf Hb H1 H2 Hc. rename showName into name, created into b.
  destruct (getShowDir_plain name Hwf Hb H1 H2) as (e & He & Hdir).
  unfold createShow in Hc. rewrite Hdir in Hc.
  destruct (existsSync (InShows e) d) eqn:Hex; cbn [negb] in Hc;
    injection Hc as <- <-.
  - unfold showExists, createShow. rewrite Hdir, Hex. cbn [negb]. done.
  - set (d1 := Disk true true (<[e:=IsDirectory]> (entries d))).
    assert (existsSync (InShows e) d1 = true) as Hex'.
    { cbn. rewrite bool_decide_eq_true. rewrite lookup_insert_eq. by eexists. }
    unfold showExists, createShow. rewrite Hdir, Hex'. cbn [negb].
    split; [done |]. split; [| done]. intros _.
    unfold listShows.
    assert (existsSync SHOWS_DIR d1 = true) as -> by reflexivity. cbn [negb].
    assert (name ∈ map decodeShowName (directories d1)) as Hin.
    { apply list_elem_of_fmap. exists e. split.
      - symmetry. by apply decodeShowName_encode.
      - apply directories_spec. cbn. by rewrite lookup_insert_eq. }
    destruct (map decodeShowName _); [by apply elem_of_nil in Hin | done].
Qed.

Lemma blank_isString_effective name :
  isString name = true → isString (effectiveName name) = true.
Proof. unfold effectiveName. by destruct (blank name). Qed.

Lemma rmSync_other e p d :
  p ≠ InShows e → existsSync p (rmSync (InShows e) d) = existsSync p d.
Proof.
  intros Hp. destruct p as [| | e']; [done | done |].
  cbn. f_equal. apply bool_decide_ext.
  rewrite lookup_delete_ne; [done | congruence].
Qed.

Lemma joinShows_InShows_inv e e' : joinShows e' = InShows e → e' = e.
Proof. unfold joinShows. repeat case_decide; congruence. Qed.

(** X5: [deleteShow] returns whether the
    show existed, the show does not exist afterwards, and every other show
    is where it was. *)
Theorem deleteShow_removes_only_that_show (showName : ustring) (d d' : disk)
    (deleted : bool) :
  wellFormed showName = true → blank showName = false →
  showName ≠ units "." → showName ≠ units ".." → showName ≠ units "Default" →
  deleteShow showName d = Some (deleted, d') →
  deleted = default false (showExists showName d) ∧
  showExists showName d' = Some false ∧
  ∀ other, isString other = true → effectiveName other ≠ showName →
           showExists other d' = showExists other d.
Proof.
  intros Hwf Hb H1 H2 H3 Hdel. rename showName into name, deleted into b.
  destruct (getShowDir_plain name Hwf Hb H1 H2) as (e & He & Hdir).
  unfold deleteShow in Hdel. rewrite decide_False in Hdel by done.
  rewrite Hdir in Hdel.
  assert (∀ d0, existsSync (InShows e) (rmSync (InShows e) d0) = false) as Hgone.
  { intros d0. cbn. rewrite lookup_delete_eq.
    rewrite bool_decide_eq_false_2; [by rewrite andb_false_r |]. by intros [? ?]. }
  destruct (existsSync (InShows e) d) eqn:Hex.
  - assert (b = true ∧ d' = rmSync (InShows e) d) as [-> ->] by (by injection Hdel).
    unfold showExists. rewrite Hdir, Hex, Hgone. split; [done |]. split; [done |].
    intros other Hother Hne. rewrite getShowDir_unfold.
    destruct (encodeShowName (effectiveName other)) as [e' |] eqn:He'; [| done].
    cbn [fmap option_fmap option_map]. f_equal. apply rmSync_other.
    intros Heq. apply joinShows_InShows_inv in Heq as ->.
    apply Hne. eapply encodeShowName_inj; [| done | done | done].
    eapply encodeShowName_wellFormed; [| done]. by apply blank_isString_effective.
  - assert (b = false ∧ d' = d) as [-> ->] by (by injection Hdel).
    unfold showExists. by rewrite Hdir, Hex.
Qed.

Lemma blank_not_Default name : blank name = true → name ≠ units "Default".
Proof. intros Hb ->. discriminate Hb. Qed.

Lemma deleteShow_blank name d :
  blank name = true →
  showExists (units "Default") d = Some true →
  ∃ d', deleteShow name d = Some (true, d') ∧
        showExists (units "Default") d' = Some false.
Proof.
  intros Hb Hex. unfold deleteShow.
  rewrite decide_False by by apply blank_not_Default.
  assert (getShowDir name = Some (InShows (units "Default"))) as Hdir.
  { rewrite getShowDir_unfold. unfold effectiveName. rewrite Hb. reflexivity. }
  assert (getShowDir (units "Default") = Some (InShows (units "Default"))) as Hdir'
    by reflexivity.
  unfold showExists in *. rewrite Hdir' in *. rewrite Hdir.
  assert (existsSync (InShows (units "Default")) d = true) as -> by congruence.
  eexists. split; [reflexivity |].
  cbn. rewrite lookup_delete_eq.
  rewrite bool_decide_eq_false_2; [by rewrite andb_false_r |]. by intros [? ?].
Qed.

Lemma octet_isString s b rest :
  octet s = Some (b, rest) → isString s = true → isString rest = true.
Proof.
  destruct s as [| p [| h1 [| h2 r]]]; try discriminate. cbn [octet].
  repeat case_match; try discriminate. intros [= _ <-].
  unfold isString. cbn [forallb]. rewrite !andb_true_iff. tauto.
Qed.

Lemma octets_isString n s bs rest :
  octets n s = Some (bs, rest) → isString s = true → isString rest = true.
Proof.
  revert s bs rest. induction n as [| n IH]; intros s bs rest; cbn [octets].
  - by intros [= _ <-].
  - destruct (octet s) as [[b r] |] eqn:Ho; [| discriminate].
    destruct (octets n r) as [[bs' r'] |] eqn:Hos; [| discriminate].
    intros [= _ <-] Hs. eapply IH; [done |]. by eapply octet_isString.
Qed.

Lemma hexVal_range c v : hexVal c = Some v → 0 <= v < 16.
Proof.
  unfold hexVal, isDecimal. repeat case_match; try discriminate; intros [= <-];
    repeat match goal with
    | H : _ && _ = true |- _ => apply andb_true_iff in H as [?%Z.leb_le ?%Z.leb_le]
    end; lia.
Qed.

Lemma octet_range s b rest : octet s = Some (b, rest) → 0 <= b < 256.
Proof.
  destruct s as [| p [| h1 [| h2 r]]]; try discriminate. cbn [octet].
  destruct (p =? 37); [| discriminate].
  destruct (hexVal h1) as [a |] eqn:Ha; [| discriminate].
  destruct (hexVal h2) as [c |] eqn:Hc; [| discriminate].
  intros [= <- _]. apply hexVal_range in Ha, Hc. lia.
Qed.

Lemma utf16_isString n cp : validPoint n cp = true → isString (utf16 cp) = true.
Proof.
  unfold validPoint, utf16, isString, isUnit. intros Hv.
  destruct n as [| [| [| [| n]]]]; try discriminate;
    repeat match goal with
    | H : _ && _ = true |- _ => apply andb_true_iff in H as [? ?]
    | H : (_ <=? _) = true |- _ => apply Z.leb_le in H
    | H : (_ <? _) = true |- _ => apply Z.ltb_lt in H
    end.
  - destruct (Z.ltb_spec cp 65536); [| lia]. cbn [forallb].
    rewrite andb_true_r. apply andb_true_iff; split; [apply Z.leb_le | apply Z.ltb_lt]; lia.
  - destruct (Z.ltb_spec cp 65536); [| lia]. cbn [forallb].
    rewrite andb_true_r. apply andb_true_iff; split; [apply Z.leb_le | apply Z.ltb_lt]; lia.
  - destruct (Z.ltb_spec cp 65536); [lia |]. cbn [forallb].
    rewrite andb_true_r.
    repeat (apply andb_true_iff; split); try apply Z.leb_le; try apply Z.ltb_lt;
      Z.div_mod_to_equations; lia.
Qed.

Lemma isString_app a b : isString (a ++ b) = isString a && isString b.
Proof. apply forallb_app. Qed.

Lemma decode_isString f s r :
  isString s = true → decode f s = Some r → isString r = true.
Proof.
  revert s r. induction f as [| f IH]; intros s r Hs Hd.
  { destruct s; [by injection Hd as <- | discriminate]. }
  destruct s as [| c s']; [by injection Hd as <- |].
  cbn [decode] in Hd.
  destruct (negb (c =? 37)).
  { destruct (decode f s') as [r' |] eqn:Hr; [| discriminate].
    injection Hd as <-. cbn [isString forallb] in *.
    apply andb_true_iff in Hs as [Hc Hs']. rewrite Hc. cbn [andb].
    by eapply IH. }
  destruct (octet (c :: s')) as [[b rest] |] eqn:Ho; [| discriminate].
  pose proof (octet_isString _ _ _ Ho Hs) as Hrest.
  pose proof (octet_range _ _ _ Ho) as Hb.
  destruct (Z.ltb_spec b 128).
  { destruct (decode f rest) as [r' |] eqn:Hr; [| discriminate].
    injection Hd as <-. cbn [isString forallb].
    apply andb_true_iff. split; [| by eapply IH].
    unfold isUnit. apply andb_true_iff; split; [apply Z.leb_le | apply Z.ltb_lt]; lia. }
  destruct (leadOf b) as [[n lead] |]; [| discriminate].
  destruct (octets n rest) as [[cont rest'] |] eqn:Hos; [| discriminate].
  cbn zeta in Hd.
  destruct (forallb isCont cont && validPoint n (payload lead cont)) eqn:Hv;
    [| discriminate].
  apply andb_true_iff in Hv as [_ Hv].
  destruct (decode f rest') as [r' |] eqn:Hr; [| discriminate].
  injection Hd as <-. rewrite isString_app.
  apply andb_true_iff. split; [by eapply utf16_isString |].
  eapply IH; [| done]. by eapply octets_isString.
Qed.

Lemma decodeShowName_isString s : isString s = true → isString (decodeShowName s) = true.
Proof.
  intros Hs. unfold decodeShowName, decodeURIComponent.
  destruct (decode (length s) s) as [r |] eqn:Hd; [| done].
  by eapply decode_isString.
Qed.

Lemma folderSafe_isUnit c : folderSafe c = true → isUnit c = true.
Proof.
  unfold folderSafe, isAlpha, isDecimal, isUnit.
  repeat match goal with
  | |- context [?a <? ?b] => destruct (Z.ltb_spec a b); try lia
  | |- context [?a <=? ?b] => destruct (Z.leb_spec a b); try lia
  | |- context [?a =? ?b] => destruct (Z.eqb_spec a b); try lia
  end; done.
Qed.

Lemma encodeShowName_isString s e :
  isString s = true → encodeShowName s = Some e → isString e = true.
Proof.
  intros Hs He. destruct (encodeShowName_safe s e Hs He) as [Hsafe _].
  unfold isString. apply forallb_forall. intros c Hc.
  apply folderSafe_isUnit. by eapply forallb_forall in Hsafe.
Qed.

Lemma directories_cons (m : gmap ustring kind) f k dd sd :
  m !! f = None →
  directories (Disk dd sd (<[f := k]> m)) ≡ₚ
  (if isDirectory k then [f] else []) ++ directories (Disk dd sd m).
Proof.
  intros Hf. unfold directories. cbn [entries].
  rewrite (bfilter_perm _ _ _ (map_to_list_insert m f k Hf)).
  cbn [List.filter]. cbn [snd]. by destruct (isDirectory k).
Qed.

Lemma renameSync_shows folder re d :
  entries d !! re = None →
  decodeShowName re = decodeShowName folder →
  map decodeShowName (directories (renameSync folder re d)) ≡ₚ
  map decodeShowName (directories d).
Proof.
  intros Hre Hdec. unfold renameSync.
  destruct (entries d !! folder) as [k |] eqn:Hf; [| done].
  assert (delete folder (entries d) !! re = None) as Hre'.
  { destruct (decide (folder = re)) as [-> |];
      [apply lookup_delete_eq | by rewrite lookup_delete_ne]. }
  rewrite (directories_cons _ _ _ _ _ Hre').
  assert (directories d ≡ₚ
          (if isDirectory k then [folder] else []) ++
          directories (Disk (dataDir d) (showsDir d) (delete folder (entries d)))) as ->.
  { rewrite <- (directories_cons _ folder k) by apply lookup_delete_eq.
    rewrite insert_delete_id by done. by destruct d. }
  rewrite !map_app. f_equiv. destruct (isDirectory k); [| done].
  cbn. by rewrite Hdec.
Qed.

Lemma migrateFolder_spec folder d d' :
  showsDir d = true → dataDir d = true → isString folder = true →
  migrateFolder folder d = Some d' →
  showsDir d' = true ∧ dataDir d' = true ∧
  map decodeShowName (directories d') ≡ₚ map decodeShowName (directories d) ∧
  (∀ name f k, wellFormed name = true → encodeShowName name = Some f →
               entries d !! f = Some k → entries d' !! f = Some k).
Proof.
  intros Hsd Hdd Hs Hm. unfold migrateFolder in Hm.
  destruct (encodeShowName (decodeShowName folder)) as [re |] eqn:Hre; [| discriminate].
  destruct (negb (bool_decide (folder = re)) &&
            negb (existsSync (joinShows re) d)) eqn:Hc.
  2: { injection Hm as <-. done. }
  assert (d' = renameSync folder re d) as -> by (by injection Hm). clear Hm.
  apply andb_true_iff in Hc as [Hne Hex].
  apply negb_true_iff, bool_decide_eq_false in Hne.
  apply negb_true_iff in Hex.
  assert (entries d !! re = None) as Hfree.
  { unfold joinShows in Hex. repeat case_decide; cbn in Hex; try congruence.
    rewrite Hsd in Hex. cbn in Hex. apply bool_decide_eq_false in Hex.
    by apply eq_None_not_Some. }
  pose proof (decodeShowName_isString folder Hs) as Hds.
  pose proof (encodeShowName_wellFormed _ _ Hds Hre) as Hwf.
  pose proof (decodeShowName_encode _ _ Hwf Hre) as Hdec.
  split; [| split; [| split]].
  - unfold renameSync. by destruct (entries d !! folder).
  - unfold renameSync. by destruct (entries d !! folder).
  - by apply renameSync_shows.
  - intros name f k0 Hn Hf Hk0. unfold renameSync.
    destruct (entries d !! folder) as [k |] eqn:Hk; [| done]. cbn [entries].
    assert (f ≠ folder) as Hff.
    { intros ->. apply Hne.
      rewrite (decodeShowName_encode _ _ Hn Hf) in Hre. congruence. }
    assert (f ≠ re) as Hfr by congruence.
    by rewrite lookup_insert_ne, lookup_delete_ne.
Qed.

Lemma migrateLoop_spec folders d :
  showsDir d = true → dataDir d = true →
  Forall (fun f => isString f = true) folders →
  map decodeShowName (directories (migrateLoop folders d).1) ≡ₚ
    map decodeShowName (directories d) ∧
  (∀ name f k, wellFormed name = true → encodeShowName name = Some f →
               entries d !! f = Some k →
               entries (migrateLoop folders d).1 !! f = Some k).
Proof.
  intros Hsd Hdd Hfs. revert d Hsd Hdd.
  induction Hfs as [| folder folders Hf _ IH]; intros d Hsd Hdd; [done |].
  cbn [migrateLoop].
  destruct (migrateFolder folder d) as [d' |] eqn:Hm; [| done].
  destruct (migrateFolder_spec _ _ _ Hsd Hdd Hf Hm) as (Hsd' & Hdd' & Hperm & Hkeep).
  destruct (IH d' Hsd' Hdd') as [IHp IHk]. split.
  - by rewrite IHp.
  - intros name f k Hn He Hk. eapply IHk; [done | done |]. by eapply Hkeep.
Qed.

Lemma directories_isString d :
  diskOK d → Forall (fun f => isString f = true) (directories d).
Proof.
  intros [_ Hok]. apply Forall_forall. intros f Hf.
  apply directories_spec in Hf. by eapply Hok.
Qed.

Lemma listShows_perm d d' :
  showsDir d' = showsDir d →
  map decodeShowName (directories d') ≡ₚ map decodeShowName (directories d) →
  listShows d' ≡ₚ listShows d.
Proof.
  intros Hsd Hp. unfold listShows. cbn [existsSync]. rewrite Hsd.
  destruct (negb (showsDir d)); [done |].
  destruct (map decodeShowName (directories d)) as [| x l] eqn:E.
  - apply Permutation_nil_r in Hp. by rewrite Hp.
  - destruct (map decodeShowName (directories d')) as [| x' l'] eqn:E'; [| done].
    symmetry in Hp. by apply Permutation_nil_r in Hp.
Qed.

Lemma migrateLoop_showsDir folders d :
  showsDir (migrateLoop folders d).1 = showsDir d.
Proof.
  revert d. induction folders as [| f fs IH]; intros d; [done |].
  cbn [migrateLoop]. destruct (migrateFolder f d) as [d' |] eqn:Hm; [| done].
  rewrite IH. unfold migrateFolder in Hm. repeat case_match; try discriminate;
    injection Hm as <-; try done.
  unfold renameSync. by case_match.
Qed.


(** X1: [encodeShowName] succeeds
    exactly on the names without unpaired surrogate, and [decodeShowName]
    gives back the name from the folder name. *)
Theorem decodeShowName_inverts_encodeShowName (showName : ustring) :
  isString showName = true →
  (is_Some (encodeShowName showName) ↔ wellFormed showName = true) ∧
  ∀ folder, encodeShowName showName = Some folder → decodeShowName folder = showName.
Proof.
  intros Hs. split.
  - split.
    + intros [e He]. by eapply encodeShowName_wellFormed.
    + intros Hwf. destruct (showName_roundtrip _ Hwf) as (e & He & _). by exists e.
  - intros folder He. apply decodeShowName_encode; [| done].
    by eapply encodeShowName_wellFormed.
Qed.

Lemma decodeShowName_inverts_encodeShowName_witness :
  isString sampleShow = true ∧
  encodeShowName sampleShow =
    Some (units "Ma%20Vie%20%282024%29%21%C3%A9%F0%9F%8E%AD") ∧
  decodeShowName (units "Ma%20Vie%20%282024%29%21%C3%A9%F0%9F%8E%AD") = sampleShow.
Proof.
  split; [reflexivity |]. split; [reflexivity |].
  exact (proj2 (decodeShowName_inverts_encodeShowName sampleShow eq_refl) _ eq_refl).
Defined.

(** X2: a folder name consists of ASCII
    letters, digits and [- _ . ~ %] only, so it has no path separator; it
    is empty only for the empty name. *)
Theorem encodeShowName_is_folder_safe (showName folder : ustring) :
  isString showName = true → encodeShowName showName = Some folder →
  forallb folderSafe folder = true ∧ (showName ≠ [] → folder ≠ []).
Proof. apply encodeShowName_safe. Qed.

Lemma encodeShowName_is_folder_safe_witness :
  forallb folderSafe (units "..%2F..%2Fetc%2Fpasswd") = true.
Proof.
  exact (proj1 (encodeShowName_is_folder_safe (units "../../etc/passwd")
                  (units "..%2F..%2Fetc%2Fpasswd") eq_refl eq_refl)).
Defined.

(** X3: two show names with the same folder name
    are the same name. *)
Theorem encodeShowName_injective (a b folder : ustring) :
  isString a = true → isString b = true →
  encodeShowName a = Some folder → encodeShowName b = Some folder → a = b.
Proof.
  intros Ha Hb Hea Heb.
  eapply encodeShowName_inj; [| | done | done]; by eapply encodeShowName_wellFormed.
Qed.

Lemma encodeShowName_injective_witness :
  encodeShowName (units "A/B") = Some (units "A%2FB") ∧ units "A/B" = [65; 47; 66].
Proof.
  split; [reflexivity |].
  exact (encodeShowName_injective (units "A/B") [65; 47; 66] (units "A%2FB")
           eq_refl eq_refl eq_refl eq_refl).
Defined.

Lemma createShow_then_listed_witness :
  ∃ d', createShow sampleShow sampleDisk = Some (true, d') ∧
        showExists sampleShow d' = Some true ∧
        sampleShow ∈ listShows d'.
Proof.
  eexists. split; [reflexivity |].
  destruct (createShow_then_listed sampleShow sampleDisk _ true
              eq_refl eq_refl ltac:(discriminate) ltac:(discriminate) eq_refl)
    as (H1 & H2 & _).
  split; [exact H1 | exact (H2 eq_refl)].
Defined.

Lemma deleteShow_removes_only_that_show_witness :
  ∃ d', deleteShow (units "My Show") sampleDisk = Some (true, d') ∧
        showExists (units "My Show") d' = Some false ∧
        showExists (units "Hamlet (1)") d' = Some true.
Proof.
  exists (rmSync (InShows (units "My%20Show")) sampleDisk). split; [reflexivity |].
  destruct (deleteShow_removes_only_that_show (units "My Show") sampleDisk _ true
              eq_refl eq_refl ltac:(discriminate) ltac:(discriminate)
              ltac:(discriminate) eq_refl)
    as (_ & H1 & H2).
  split; [exact H1 |].
  exact (eq_trans (H2 (units "Hamlet (1)") eq_refl ltac:(discriminate)) eq_refl).
Defined.

(** X6: the Default show is protected
    under its literal name only; a blank name resolves to the Default
    folder, which [deleteShow] then removes. *)
Theorem deleteShow_blank_name_removes_Default (showName : ustring) (d : disk) :
  blank showName = true →
  showExists (units "Default") d = Some true →
  deleteShow (units "Default") d = Some (false, d) ∧
  ∃ d', deleteShow showName d = Some (true, d') ∧
        showExists (units "Default") d' = Some false.
Proof. intros Hb Hex. split; [reflexivity | by apply deleteShow_blank]. Qed.

Lemma deleteShow_blank_name_removes_Default_witness :
  ∃ d', deleteShow (units " ") sampleDisk = Some (true, d') ∧
        showExists (units "Default") d' = Some false.
Proof.
  exact (proj2 (deleteShow_blank_name_removes_Default (units " ") sampleDisk
                  eq_refl eq_refl)).
Defined.

(** X7: the migration keeps the shows that
    [listShows] reports, whether its loop ends normally or by an exception,
    and leaves every folder named by [encodeShowName] in place. *)
Theorem migrateLegacyFolders_keeps_shows (d : disk) :
  diskOK d →
  listShows (migrateLegacyFolders d).1 ≡ₚ listShows d ∧
  ∀ showName folder k,
    wellFormed showName = true → encodeShowName showName = Some folder →
    entries d !! folder = Some k →
    entries (migrateLegacyFolders d).1 !! folder = Some k.
Proof.
  intros Hok. unfold migrateLegacyFolders. cbn [existsSync].
  destruct (showsDir d) eqn:Hsd; cbn [negb]; [| done].
  destruct (migrateLoop_spec (directories d) d Hsd (proj1 Hok Hsd)
              (directories_isString d Hok)) as [Hp Hk].
  split; [| exact Hk].
  apply listShows_perm; [| done]. by rewrite migrateLoop_showsDir.
Qed.

Lemma sampleDisk_ok : diskOK sampleDisk.
Proof.
  split; [done |]. intros f k Hf. unfold sampleDisk in Hf. cbn [entries] in Hf.
  repeat (apply lookup_insert_Some in Hf as [[<- _] | [_ Hf]]; [reflexivity |]).
  by rewrite lookup_empty in Hf.
Qed.

Lemma migrateLegacyFolders_keeps_shows_witness :
  listShows (migrateLegacyFolders sampleDisk).1 ≡ₚ listShows sampleDisk ∧
  entries (migrateLegacyFolders sampleDisk).1 !! units "Old%20Show" = Some IsDirectory ∧
  entries (migrateLegacyFolders sampleDisk).1 !! units "Hamlet%20%281%29" = Some IsDirectory.
Proof.
  destruct (migrateLegacyFolders_keeps_shows sampleDisk sampleDisk_ok) as [H1 H2].
  split; [exact H1 |]. split; [vm_compute; reflexivity |].
  exact (H2 (units "Hamlet (1)") _ IsDirectory eq_refl eq_refl eq_refl).
Defined.

End ShowFolders.

(** ** The annotation endpoints: what they cannot do, and parts *)

Lemma hasKey_findIndex k cs :
  hasKey k cs = true →
  ∃ i c, findIndex (fun c => String.eqb (existingKey c) k) cs = Some (i, c).
Proof.
  unfold hasKey. intros H. apply existsb_exists in H as (c & Hc & Hk).
  eapply findIndex_is_Some; [| exact Hk]. by apply list_elem_of_In.
Qed.

Lemma upsert_nodata n f v s :
  str_in f alwaysUpdateFields = false → hasData v = false →
  hasKey (cueKeyOf n [(f, v)]) (cues s) = true →
  cues (updateOrCreateCue n [(f, v)] s) = cues s.
Proof.
  intros Hf Hv Hk. rewrite upsert_cues.
  destruct (hasKey_findIndex _ _ Hk) as (i & c & Hfi). rewrite Hfi.
  destruct (findIndex_Some _ _ _ _ Hfi) as (Hi & _ & _).
  unfold applyUpdates. cbn [foldl]. unfold applyUpdate. cbn [fst snd].
  rewrite Hf, Hv. by apply list_insert_id.
Qed.

Lemma cueKeyOf_plain n f v :
  f ≠ "cue_list" → f ≠ "part_number" → cueKeyOf n [(f, v)] = "1" +:+ "/" +:+ n.
Proof.
  intros H1 H2. unfold cueKeyOf. cbn [upd_get].
  rewrite (proj2 (String.eqb_neq _ _) H1), (proj2 (String.eqb_neq _ _) H2).
  reflexivity.
Qed.

(** X8: the notes, color and page
    endpoints can set a value but not remove one: with a value that is
    [''], [null] or [undefined], the cue they address, when it exists, and
    the whole store stay as they are. *)
Theorem annotation_endpoints_cannot_clear (cueNumber : string) (v part : jsval)
    (s : state) :
  hasData v = false →
  (hasKey ("1" +:+ "/" +:+ cueNumber) (cues s) = true →
     cues (apiNotes cueNumber v s) = cues s ∧
     cues (apiColor cueNumber v s) = cues s) ∧
  (hasKey ("1" +:+ "/" +:+ storageKey cueNumber part) (cues s) = true →
     cues (apiPage cueNumber v part s) = cues s).
Proof.
  intros Hv. split.
  - intros Hk. split.
    + apply upsert_nodata; [done | done |]. by rewrite cueKeyOf_plain.
    + apply upsert_nodata; [done | done |]. by rewrite cueKeyOf_plain.
  - intros Hk. apply upsert_nodata; [done | done |]. by rewrite cueKeyOf_plain.
Qed.

Lemma annotation_endpoints_cannot_clear_witness :
  hasData (VStr estr) = false ∧
  (fun c => fld c "notes") <$>
    lookupKey "1/5" (cues (apiNotes "5" (VStr estr) annotatedStore)) =
  Some (VStr "house lights").
Proof.
  split; [reflexivity |].
  rewrite (proj1 (proj1 (annotation_endpoints_cannot_clear "5" (VStr estr) VUndef
                           annotatedStore eq_refl) eq_refl)).
  vm_compute. reflexivity.
Defined.

Lemma truthy_int (p : Z) : p ≠ 0%Z → Js.truthy (VInt p) = true.
Proof.
  intros Hp. unfold Js.truthy, VInt, numZ. apply negb_true_iff.
  destruct (Qeq_bool (inject_Z p) 0) eqn:E; [| done].
  apply Qeq_bool_iff in E. unfold Qeq, inject_Z in E. simpl in E. lia.
Qed.

Lemma storageKey_part n (p : Z) :
  (0 < p)%Z → storageKey n (VInt p) = n +:+ "/" +:+ Js.toStr (VInt p).
Proof.
  intros Hp. unfold storageKey.
  rewrite truthy_int by lia. rewrite gt_int_0.
  by destruct (Z.ltb_spec 0 p); [| lia].
Qed.

Lemma existingKey_part c (p : Z) :
  partOf c = VInt p → (0 < p)%Z →
  existingKey c = listStr c +:+ "/" +:+ numberStr c +:+ "/" +:+ Js.toStr (VInt p).
Proof.
  intros Hc Hp. unfold existingKey, makeKey. rewrite Hc, gt_int_0.
  by destruct (Z.ltb_spec 0 p); [| lia].
Qed.

(** X9: with a part number above 0 the page
    endpoint addresses [<cue>/<part>], whose key in list 1 is the key of
    that part of the cue: the page is written to the part, and to nothing
    else; when the store has no such part, a new cue is created whose
    number is the text [<cue>/<part>] and whose part number is 0. *)
Theorem page_endpoint_reaches_part (n : string) (p : Z) (page : jsval) (s : state) :
  (0 < p)%Z → hasData page = true →
  (∀ i c, NoDup (map existingKey (cues s)) → cues s !! i = Some c →
          listStr c = "1" → numberStr c = n → partOf c = VInt p →
          cues (apiPage n page (VInt p) s) = <[i := <["page" := page]> c]> (cues s)) ∧
  (hasKey ("1" +:+ "/" +:+ n +:+ "/" +:+ Js.toStr (VInt p)) (cues s) = false →
   ∃ c, c ∈ cues (apiPage n page (VInt p) s) ∧
        fld c "cue_number" = VStr (n +:+ "/" +:+ Js.toStr (VInt p)) ∧
        fld c "part_number" = VInt 0 ∧ fld c "page" = page).
Proof.
  intros Hp Hpage. split.
  - intros i c Hnd Hi Hl Hn Hpart.
    unfold apiPage. rewrite upsert_cues, storageKey_part by done.
    rewrite cueKeyOf_plain by done.
    assert (existingKey c = "1" +:+ "/" +:+ n +:+ "/" +:+ Js.toStr (VInt p)) as Hk.
    { rewrite (existingKey_part c p) by done. by rewrite Hl, Hn. }
    rewrite <- Hk. rewrite (findIndex_unique existingKey (cues s) i c Hnd Hi).
    unfold applyUpdates. cbn [foldl]. unfold applyUpdate. cbn [fst snd].
    by rewrite Hpage.
  - intros Hk. unfold apiPage. rewrite upsert_cues, storageKey_part by done.
    rewrite cueKeyOf_plain by done.
    destruct (findIndex _ _) as [[i e] |] eqn:Hf.
    { destruct (findIndex_Some _ _ _ _ Hf) as (Hi & He & _).
      assert (hasKey ("1" +:+ "/" +:+ n +:+ "/" +:+ Js.toStr (VInt p)) (cues s) = true)
        as Hk'; [| congruence].
      unfold hasKey. apply existsb_exists. exists e. split; [| done].
      apply list_elem_of_In. by eapply list_elem_of_lookup_2. }
    eexists. split.
    { rewrite sortCues_perm. apply elem_of_app. right. by apply list_elem_of_singleton. }
    split; [| split].
    + by rewrite newCue_fld_notin by (cbn; by intros ?%list_elem_of_singleton).
    + by rewrite newCue_fld_notin by (cbn; by intros ?%list_elem_of_singleton).
    + rewrite newCue_fld_in; [done | | cbn; by apply list_elem_of_singleton].
      cbn. apply NoDup_singleton.
Qed.

Lemma lookup_default_lt {A} (l : list A) (i : nat) (d : A) :
  (i <? length l)%nat = true → l !! i = Some (default d (l !! i)).
Proof.
  intros H. apply Nat.ltb_lt in H.
  by destruct (lookup_lt_is_Some_2 l i H) as [x ->].
Qed.

Lemma page_endpoint_reaches_part_witness :
  (0 < 2)%Z ∧
  (fun c => (fld c "cue_number", fld c "part_number", fld c "page")) <$>
    lookupKey "1/7/2" (cues (apiPage "7" (VStr "12") (VInt 2) annotatedStore)) =
  Some (VStr "7", VInt 2, VStr "12").
Proof.
  split; [reflexivity |].
  rewrite (proj1 (page_endpoint_reaches_part "7" 2 (VStr "12") annotatedStore
                    eq_refl eq_refl)
             1%nat (default ∅ (cues annotatedStore !! 1%nat))).
  - vm_compute. reflexivity.
  - apply (bool_decide_unpack _). vm_compute. exact I.
  - apply lookup_default_lt. vm_compute. reflexivity.
  - vm_compute. reflexivity.
  - vm_compute. reflexivity.
  - vm_compute. reflexivity.
Defined.

(** ** The tag list *)

Lemma strLt_trans a b c : strLt a b → strLt b c → strLt a c.
Proof.
  unfold strLt, String.ltb. intros Hab Hbc.
  destruct (String.compare a b) eqn:E1; try discriminate.
  destruct (String.compare b c) eqn:E2; try discriminate.
  apply OrderedTypeEx.String_as_OT.cmp_lt in E1, E2.
  pose proof (OrderedTypeEx.String_as_OT.lt_trans _ _ _ E1 E2) as H.
  apply OrderedTypeEx.String_as_OT.cmp_lt in H.
  unfold OrderedTypeEx.String_as_OT.cmp in H. by rewrite H.
Qed.

Lemma strLt_total a b : a ≠ b → String.ltb a b = false → strLt b a.
Proof.
  unfold strLt, String.ltb. intros Hne Hab.
  rewrite String.compare_antisym.
  destruct (String.compare a b) eqn:E; try discriminate.
  - by apply String.compare_eq_iff in E.
  - reflexivity.
Qed.

Lemma insertString_elem x l t : t ∈ insertString x l ↔ t = x ∨ t ∈ l.
Proof.
  induction l as [| y l IH]; cbn [insertString].
  - rewrite list_elem_of_singleton, elem_of_nil. tauto.
  - destruct (String.ltb x y).
    + rewrite !elem_of_cons. tauto.
    + rewrite !elem_of_cons, IH. tauto.
Qed.

Lemma insertString_sorted x l :
  x ∉ l → StronglySorted strLt l → StronglySorted strLt (insertString x l).
Proof.
  intros Hx Hs. induction Hs as [| y l Hs IH Hy]; cbn [insertString].
  - repeat constructor.
  - apply not_elem_of_cons in Hx as [Hxy Hx].
    destruct (String.ltb x y) eqn:E.
    + constructor; [by constructor |].
      constructor; [done |]. eapply Forall_impl; [exact Hy |].
      intros z Hz. by eapply strLt_trans.
    + constructor; [by apply IH |].
      apply Forall_forall. intros z Hz.
      apply insertString_elem in Hz as [-> | Hz].
      * by apply strLt_total.
      * rewrite Forall_forall in Hy. by apply Hy.
Qed.

Lemma sortStrings_fold l acc :
  NoDup l → (∀ t, t ∈ l → t ∉ acc) → StronglySorted strLt acc →
  StronglySorted strLt (foldl (fun acc x => insertString x acc) acc l) ∧
  ∀ t, t ∈ foldl (fun acc x => insertString x acc) acc l ↔ t ∈ acc ∨ t ∈ l.
Proof.
  revert acc. induction l as [| x l IH]; intros acc Hnd Hdis Hs; cbn [foldl].
  - split; [done |]. intros t. rewrite elem_of_nil. tauto.
  - apply NoDup_cons in Hnd as [Hxl Hl].
    destruct (IH (insertString x acc)) as [IH1 IH2]; [done | |  |].
    + intros t Ht Hin. apply insertString_elem in Hin as [-> | Hin]; [done |].
      apply (Hdis t); [by apply elem_of_cons; right | done].
    + apply insertString_sorted; [| done]. apply Hdis. by apply elem_of_cons; left.
    + split; [done |]. intros t. rewrite IH2, insertString_elem, elem_of_cons. tauto.
Qed.

Lemma setAdd_elem x l t : t ∈ setAdd x l ↔ t = x ∨ t ∈ l.
Proof.
  unfold setAdd. destruct (existsb (String.eqb x) l) eqn:E.
  - apply existsb_exists in E as (y & Hy & ->%String.eqb_eq).
    apply list_elem_of_In in Hy. split; [tauto |]. by intros [-> | ?].
  - rewrite elem_of_app, list_elem_of_singleton. tauto.
Qed.

Lemma setAdd_NoDup x l : NoDup l → NoDup (setAdd x l).
Proof.
  intros Hl. unfold setAdd. destruct (existsb (String.eqb x) l) eqn:E; [done |].
  apply NoDup_app. split; [done |]. split; [| apply NoDup_singleton].
  intros t Ht Hx. apply list_elem_of_singleton in Hx. subst t.
  assert (existsb (String.eqb x) l = true) as E'; [| congruence].
  apply existsb_exists. exists x. split; [by apply list_elem_of_In | apply String.eqb_refl].
Qed.

Lemma addTags_spec ts acc :
  NoDup acc →
  NoDup (foldl (fun acc t => setAdd t acc) acc ts) ∧
  ∀ t, t ∈ foldl (fun acc t => setAdd t acc) acc ts ↔ t ∈ acc ∨ t ∈ ts.
Proof.
  revert acc. induction ts as [| x ts IH]; intros acc Hacc; cbn [foldl].
  - split; [done |]. intros t. rewrite elem_of_nil. tauto.
  - destruct (IH (setAdd x acc) (setAdd_NoDup _ _ Hacc)) as [IH1 IH2].
    split; [done |]. intros t. rewrite IH2, setAdd_elem, elem_of_cons. tauto.
Qed.

Lemma allTags_fold cs acc :
  NoDup acc →
  NoDup (foldl (fun acc c => foldl (fun acc t => setAdd t acc) acc (tagsOf c)) acc cs) ∧
  ∀ t, t ∈ foldl (fun acc c => foldl (fun acc t => setAdd t acc) acc (tagsOf c)) acc cs ↔
       t ∈ acc ∨ ∃ c, c ∈ cs ∧ t ∈ tagsOf c.
Proof.
  revert acc. induction cs as [| c cs IH]; intros acc Hacc; cbn [foldl].
  - split; [done |]. intros t. split; [tauto |].
    intros [? | (c & Hc & _)]; [done | by apply elem_of_nil in Hc].
  - destruct (addTags_spec (tagsOf c) acc Hacc) as [H1 H2].
    destruct (IH _ H1) as [IH1 IH2]. split; [done |].
    intros t. rewrite IH2, H2. split.
    + intros [[? | ?] | (c' & Hc' & Ht)]; [tauto | right | right].
      * exists c. split; [apply elem_of_cons; by left | done].
      * exists c'. split; [apply elem_of_cons; by right | done].
    + intros [? | (c' & Hc' & Ht)]; [tauto |].
      apply elem_of_cons in Hc' as [-> | Hc']; [tauto |]. right. by exists c'.
Qed.

(** X10: when every tag in the store is a
    string, the tag list of [GET /api/tags] is in strictly increasing
    order, so it has no duplicates, and it holds exactly the tags that
    occur in the [tags] array of some cue.  (The proviso is that of
    [tagsOf]: an array with other values in it is outside this file.) *)
Theorem tag_list_sorted_and_complete (s : state) :
  StronglySorted (fun a b => String.ltb a b = true) (apiGetTags s) ∧
  ∀ t, t ∈ apiGetTags s ↔ ∃ c, c ∈ cues s ∧ t ∈ tagsOf c.
Proof.
  unfold apiGetTags, sortStrings, allTags.
  destruct (allTags_fold (cues s) [] (NoDup_nil_2)) as [Hnd Hel].
  destruct (sortStrings_fold _ [] Hnd) as [Hs Hin].
  { intros t _. apply not_elem_of_nil. }
  { constructor. }
  split; [exact Hs |]. intros t. rewrite Hin, Hel, elem_of_nil. tauto.
Qed.

(** Two cues that share a tag: it is listed once, and the list is ordered. *)
Example tag_list_sample :
  apiGetTags (apiTags "2" (VArr ["scene"; "blackout"])
               (apiTags "1" (VArr ["scene"; "Act 1"]) initialState)) =
  ["Act 1"; "blackout"; "scene"].
Proof. vm_compute. reflexivity. Qed.

(** ** The export *)

Lemma chars_str l : Js.chars (Js.str l) = l.
Proof. apply list_ascii_of_string_of_list_ascii. Qed.

Lemma replaceAll_removes c r l :
  c ∉ Js.chars r → c ∉ replaceAll c r l.
Proof.
  intros Hr. induction l as [| x l IH]; cbn [replaceAll flat_map].
  - apply not_elem_of_nil.
  - fold (replaceAll c r l). destruct (Ascii.eqb_spec x c) as [-> | Hx].
    + rewrite elem_of_app. tauto.
    + rewrite elem_of_app, list_elem_of_singleton. intros [-> | ?]; tauto.
Qed.

Lemma replaceAll_keeps x c r l :
  x ∉ l → x ∉ Js.chars r → x ∉ replaceAll c r l.
Proof.
  intros Hl Hr. induction l as [| y l IH]; cbn [replaceAll flat_map].
  - apply not_elem_of_nil.
  - fold (replaceAll c r l). apply not_elem_of_cons in Hl as [Hxy Hl].
    destruct (Ascii.eqb y c).
    + rewrite elem_of_app. tauto.
    + rewrite elem_of_app, list_elem_of_singleton. tauto.
Qed.

Lemma replaceAll_app c r a b :
  replaceAll c r (a ++ b) = (replaceAll c r a ++ replaceAll c r b)%list.
Proof. apply flat_map_app. Qed.

Local Ltac not_in_chars :=
  unfold htmlSpecial, dquote, lf; cbn; rewrite ?elem_of_cons, elem_of_nil; intros H;
  repeat (destruct H as [H | H]; [discriminate H |]); exact H.

Lemma escapeHtml_free (text : jsval) (c : ascii) :
  c ∈ htmlSpecial → c ∉ Js.chars (escapeHtml text).
Proof.
  intros Hc. unfold escapeHtml.
  destruct (negb (Js.truthy text)); [apply not_elem_of_nil |].
  rewrite chars_str. set (l := Js.chars (Js.toStr text)).
  unfold htmlSpecial in Hc. rewrite !elem_of_cons, elem_of_nil in Hc.
  destruct Hc as [-> | [-> | [-> | [-> | []]]]].
  - apply replaceAll_keeps; [| not_in_chars].
    apply replaceAll_keeps; [| not_in_chars].
    apply replaceAll_keeps; [| not_in_chars].
    apply replaceAll_removes. not_in_chars.
  - apply replaceAll_keeps; [| not_in_chars].
    apply replaceAll_keeps; [| not_in_chars].
    apply replaceAll_removes. not_in_chars.
  - apply replaceAll_keeps; [| not_in_chars].
    apply replaceAll_removes. not_in_chars.
  - apply replaceAll_removes. not_in_chars.
Qed.

Lemma replaceAll_one c r x :
  replaceAll c r [x] = if Ascii.eqb x c then Js.chars r else [x].
Proof. cbn. by rewrite app_nil_r. Qed.

Lemma escape_one x :
  replaceAll "'" "&#039;"
    (replaceAll dquote "&quot;"
       (replaceAll ">" "&gt;"
          (replaceAll "<" "&lt;" (replaceAll "&" "&amp;" [x])))) = entity x.
Proof.
  unfold entity. rewrite replaceAll_one.
  destruct (Ascii.eqb x "&"); [reflexivity |]. rewrite replaceAll_one.
  destruct (Ascii.eqb x "<"); [reflexivity |]. rewrite replaceAll_one.
  destruct (Ascii.eqb x ">"); [reflexivity |]. rewrite replaceAll_one.
  destruct (Ascii.eqb x dquote); [reflexivity |]. by rewrite replaceAll_one.
Qed.

Lemma escape_chars l :
  replaceAll "'" "&#039;"
    (replaceAll dquote "&quot;"
       (replaceAll ">" "&gt;"
          (replaceAll "<" "&lt;" (replaceAll "&" "&amp;" l)))) = flat_map entity l.
Proof.
  induction l as [| x l IH]; [done |].
  change (x :: l) with ([x] ++ l)%list.
  by rewrite !replaceAll_app, IH, escape_one.
Qed.

(** X11: the five replacements of
    [escapeHtml] amount to one pass that turns each of [&], [<], [>] and
    the two quotes into its entity and copies every other character (no
    ampersand of an entity is escaped again), and the text returned holds
    no angle bracket and no quote. *)
Theorem escapeHtml_escapes_each_character (text : jsval) :
  Js.chars (escapeHtml text) =
    (if Js.truthy text then flat_map entity (Js.chars (Js.toStr text)) else []) ∧
  Forall (fun c => c ∉ htmlSpecial) (Js.chars (escapeHtml text)).
Proof.
  split.
  - unfold escapeHtml. destruct (Js.truthy text); cbn [negb]; [| done].
    by rewrite chars_str, escape_chars.
  - apply Forall_forall. intros c Hc Hs. by apply (escapeHtml_free text c).
Qed.

Lemma markup_plain l : (∀ c, c ∈ htmlSpecial → c ∉ l) → markup l.
Proof.
  induction l as [| x l IH]; intros H; [constructor |].
  constructor.
  - intros Hx. apply (H x Hx). by left.
  - apply IH. intros c Hc Hin. apply (H c Hc). by right.
Qed.

Lemma replacePairs_prefix d o c inside p l :
  d ∉ p →
  replacePairs d o c inside (p ++ l) = (p ++ replacePairs d o c inside l)%list.
Proof.
  intros Hp. induction p as [| x p IH]; [done |].
  apply not_elem_of_cons in Hp as [Hx Hp]. cbn [app replacePairs].
  destruct (Ascii.eqb_spec x d) as [-> | _]; [done |]. by rewrite IH.
Qed.

Lemma replacePairs_markup d o c l :
  d ∉ htmlSpecial → (∀ t, t ∈ exportTags → d ∉ Js.chars t) →
  o ∈ exportTags → c ∈ exportTags →
  markup l → ∀ inside, markup (replacePairs d o c inside l).
Proof.
  intros Hd Htags Ho Hc Hl. induction Hl as [| x l Hx _ IH | t l Ht _ IH]; intros inside.
  - constructor.
  - cbn [replacePairs]. destruct (Ascii.eqb x d).
    + destruct inside; [by apply markup_tag |].
      destruct (closes d l); [by apply markup_tag | by apply markup_char].
    + by apply markup_char.
  - rewrite replacePairs_prefix by by apply Htags. by apply markup_tag.
Qed.

Lemma replaceAll_absent c r l : c ∉ l → replaceAll c r l = l.
Proof.
  induction l as [| x l IH]; [done |]. intros [Hx Hl]%not_elem_of_cons.
  cbn [replaceAll flat_map]. fold (replaceAll c r l).
  destruct (Ascii.eqb_spec x c) as [-> | _]; [done |]. by rewrite IH.
Qed.

Lemma replaceAll_markup c r l :
  (∀ t, t ∈ exportTags → c ∉ Js.chars t) → r ∈ exportTags →
  markup l → markup (replaceAll c r l).
Proof.
  intros Htags Hr Hl. induction Hl as [| x l Hx _ IH | t l Ht _ IH].
  - constructor.
  - cbn [replaceAll flat_map]. fold (replaceAll c r l).
    destruct (Ascii.eqb x c); [by apply markup_tag | by apply markup_char].
  - rewrite replaceAll_app, replaceAll_absent by by apply Htags.
    by apply markup_tag.
Qed.

Local Ltac tag_cases :=
  intros t Ht; unfold exportTags in Ht;
  rewrite !elem_of_cons, elem_of_nil in Ht;
  repeat (destruct Ht as [-> | Ht]; [not_in_chars |]); destruct Ht.

Local Ltac in_list := unfold exportTags; rewrite !elem_of_cons; tauto.

(** X12: in the HTML that
    [formatNotesForExport] returns, angle brackets and quotes occur only
    as part of the seven tags the function writes itself. *)
Theorem formatNotesForExport_is_markup (notes : jsval) :
  markup (Js.chars (formatNotesForExport notes)).
Proof.
  unfold formatNotesForExport.
  destruct (negb (Js.truthy notes)); [constructor |].
  rewrite chars_str.
  apply replaceAll_markup; [tag_cases | in_list |].
  apply replacePairs_markup; [not_in_chars | tag_cases | in_list | in_list |].
  apply replacePairs_markup; [not_in_chars | tag_cases | in_list | in_list |].
  apply replacePairs_markup; [not_in_chars | tag_cases | in_list | in_list |].
  apply markup_plain. intros c Hc. by apply escapeHtml_free.
Qed.

(** A note with markup, a tag of its own and a line break. *)
Example formatNotesForExport_sample :
  formatNotesForExport (VStr ("*Go* on <b>cue</b> _now_" +:+ String lf "~old~ 2*3")) =
  "<strong>Go</strong> on &lt;b&gt;cue&lt;/b&gt; <em>now</em><br><s>old</s> 2*3".
Proof. vm_compute. reflexivity. Qed.

(** ** Sending requests *)

(** X13: [sendOSC] hands a message to the
    socket exactly when [settings.protocol] is the string ['tcp'] and the
    TCP port is open; then it sends the address with number arguments typed
    ['i'] and all others typed ['s'].  In every other configuration nothing
    is sent: without any transport the call returns, and with a UDP client
    it does not return, whatever the depth allowed. *)
Theorem sendOSC_transmits_only_over_tcp (t : transport) (address : string)
    (args : list jsval) (fuel : nat) :
  if Js.strict_eq (protocol t) (VStr "tcp") && tcpOpen t
  then sendOSC fuel t address args = Some [OscMessage address (map typedArg args)]
  else if oscClient t then sendOSC fuel t address args = None
  else sendOSC fuel t address args = Some [].
Proof.
  destruct (Js.strict_eq (protocol t) (VStr "tcp") && tcpOpen t) eqn:Htcp.
  - apply andb_true_iff in Htcp as [Hp Ht].
    destruct fuel; cbn [sendOSC]; by rewrite Hp, Ht, andb_false_r.
  - destruct (oscClient t) eqn:Hc.
    + induction fuel as [| fuel IH]; cbn [sendOSC]; by rewrite Hc, Htcp.
    + destruct fuel; cbn [sendOSC]; rewrite Hc, Htcp; by destruct (tcpOpen t).
Qed.

Lemma lt_int (i n : Z) : Js.lt (VInt i) (VInt n) = (i <? n)%Z.
Proof.
  unfold Js.lt, Js.num_ltb, VInt, numZ, Js.toNumber, Qcompare, Z.ltb. simpl.
  by rewrite !Z.mul_1_r.
Qed.

Lemma ge_int (i n : Z) : Js.ge (VInt i) (VInt n) = (n <=? i)%Z.
Proof.
  unfold Js.ge, Js.num_leb, VInt, numZ, Js.toNumber, Qcompare, Z.leb. simpl.
  by rewrite !Z.mul_1_r.
Qed.

(** The loop sends the next [min k (n - i)] index requests. *)
Lemma batchLoop_int k cueList (n i : Z) :
  batchLoop k cueList (VInt n) i =
  let m := Z.to_nat (Z.min (Z.of_nat k) (n - i)) in
  (indexRequests cueList i m, (i + Z.of_nat m)%Z).
Proof.
  revert i. induction k as [| k IH]; intros i.
  - cbn zeta. replace (Z.to_nat (Z.min (Z.of_nat 0) (n - i))) with O by lia.
    cbn. f_equal. lia.
  - cbn [batchLoop]. rewrite lt_int. destruct (Z.ltb_spec i n).
    + rewrite IH. cbn zeta.
      replace (Z.to_nat (Z.min (Z.of_nat (S k)) (n - i)))
        with (S (Z.to_nat (Z.min (Z.of_nat k) (n - (i + 1))))) by lia.
      cbn [indexRequests]. f_equal. lia.
    + cbn zeta. replace (Z.to_nat (Z.min (Z.of_nat (S k)) (n - i))) with O by lia.
      cbn. f_equal. lia.
Qed.

Lemma indexRequests_app cueList i a b :
  indexRequests cueList i (a + b) =
  (indexRequests cueList i a ++ indexRequests cueList (i + Z.of_nat a) b)%list.
Proof.
  revert i. induction a as [| a IH]; intros i.
  - cbn. f_equal. lia.
  - cbn [Nat.add indexRequests app]. rewrite IH. do 3 f_equal. lia.
Qed.

Lemma batchRun_int fuel cueList (n i : Z) :
  (0 <= i < n)%Z → (n - i <= 10 * Z.of_nat fuel)%Z →
  ∃ ticks,
    batchRun fuel cueList (VInt n) i = Some ticks ∧
    concat ticks = indexRequests cueList i (Z.to_nat (n - i)) ∧
    Forall (fun t => (0 < length t <= 10)%nat) ticks ∧
    Z.of_nat (length ticks) = ((n - i + 9) / 10)%Z.
Proof.
  revert i. induction fuel as [| fuel IH]; intros i Hi Hf; [lia |].
  cbn [batchRun]. unfold batchTick. rewrite batchLoop_int. cbn zeta.
  set (m := Z.to_nat (Z.min (Z.of_nat 10) (n - i))).
  assert (length (indexRequests cueList i m) = m) as Hlen.
  { generalize i. induction m as [| m IHm]; intros j; [done |]. cbn. by rewrite IHm. }
  cbn beta iota. rewrite ge_int. destruct (Z.leb_spec n (i + Z.of_nat m)).
  - exists [indexRequests cueList i m]. split; [done |].
    assert (m = Z.to_nat (n - i)) as Hm by lia.
    split; [cbn; by rewrite app_nil_r, Hm |]. split.
    + constructor; [| constructor]. rewrite Hlen. lia.
    + cbn [length]. assert (0 < n - i <= 10)%Z by lia.
      assert ((n - i + 9) / 10 = 1)%Z; [| lia].
      symmetry. apply Z.div_unique with (r := (n - i - 1)%Z); lia.
  - assert (m = 10%nat) as Hm by lia.
    destruct (IH (i + Z.of_nat m)%Z) as (ticks & Hrun & Hcat & Hall & Hcount); [lia | lia |].
    rewrite Hrun. eexists. split; [reflexivity |]. split; [| split].
    + cbn [concat]. rewrite Hcat, <- indexRequests_app. f_equal. lia.
    + constructor; [rewrite Hlen; lia | done].
    + cbn [length]. rewrite Nat2Z.inj_succ, Hcount, Hm.
      replace (n - i + 9)%Z with ((n - (i + Z.of_nat 10) + 9) + 1 * 10)%Z by lia.
      rewrite Z.div_add by lia. lia.
Qed.

(** X14: after a count of [n > 0] the
    interval of [handleCueCountResponse] requests the indices 0 to [n - 1],
    each once and in order, at most ten per run, and calls [clearInterval]
    in its run number [ceil(n / 10)]. *)
Theorem index_requests_cover_the_count (cueList : jsval) (n : Z) (fuel : nat) :
  (0 < n)%Z → (n <= 10 * Z.of_nat fuel)%Z →
  ∃ ticks,
    batchRun fuel cueList (VInt n) 0 = Some ticks ∧
    concat ticks = indexRequests cueList 0 (Z.to_nat n) ∧
    Forall (fun t => (0 < length t <= 10)%nat) ticks ∧
    Z.of_nat (length ticks) = ((n + 9) / 10)%Z.
Proof.
  intros Hn Hf.
  destruct (batchRun_int fuel cueList n 0) as (ticks & H1 & H2 & H3 & H4); [lia | lia |].
  exists ticks. rewrite Z.sub_0_r in *. done.
Qed.

Lemma index_requests_cover_the_count_witness :
  ∃ ticks,
    batchRun 3 (VInt 1) (VInt 12) 0 = Some ticks ∧
    concat ticks = indexRequests (VInt 1) 0 12 ∧
    Forall (fun t => (0 < length t <= 10)%nat) ticks ∧
    Z.of_nat (length ticks) = 2%Z.
Proof.
  exact (index_requests_cover_the_count (VInt 1) 12 3 ltac:(lia) ltac:(lia)).
Defined.

(** Twelve cues: ten requests in the first run, two in the second. *)
Example index_requests_sample :
  batchRun 3 (VInt 1) (VInt 12) 0 =
  Some [map (fun i => "/eos/get/cue/1/index/" +:+ i)
          ["0"; "1"; "2"; "3"; "4"; "5"; "6"; "7"; "8"; "9"];
        ["/eos/get/cue/1/index/10"; "/eos/get/cue/1/index/11"]].
Proof. vm_compute. reflexivity. Qed.

(** ** The queue of refresh requests *)

Lemma num_eqb_sym a b : Js.num_eqb a b = Js.num_eqb b a.
Proof.
  destruct a as [| p], b as [| q]; try done. cbn.
  destruct (Qeq_bool p q) eqn:E1, (Qeq_bool q p) eqn:E2; try done.
  - apply Qeq_bool_iff in E1. symmetry in E1. apply Qeq_bool_iff in E1. congruence.
  - apply Qeq_bool_iff in E2. symmetry in E2. apply Qeq_bool_iff in E2. congruence.
Qed.

Lemma sameValueZero_sym a b : sameValueZero a b = sameValueZero b a.
Proof.
  destruct a as [| | x | x | x | x], b as [| | y | y | y | y]; try done;
    first [ by destruct x | by destruct y | by destruct x, y
          | destruct x as [| p], y as [| q]; try done; apply (num_eqb_sym (Num p) (Num q))
          | cbn; apply String.eqb_sym ].
Qed.

Lemma distinctValues_snoc l x :
  distinctValues l = true → existsb (sameValueZero x) l = false →
  distinctValues (l ++ [x]) = true.
Proof.
  induction l as [| y l IH]; [done |]. cbn [distinctValues existsb app].
  intros [Hy Hl]%andb_true_iff [Hxy Hx]%orb_false_iff.
  apply andb_true_iff. split; [| by apply IH].
  apply negb_true_iff. rewrite existsb_app. apply orb_false_iff.
  split; [by apply negb_true_iff |]. cbn. by rewrite sameValueZero_sym, Hxy.
Qed.

Lemma distinctValues_tail x l : distinctValues (x :: l) = true → distinctValues l = true.
Proof. cbn. by intros [_ ?]%andb_true_iff. Qed.

Lemma requestAllCues_queue now l s :
  distinctValues (queueOf s) = true →
  distinctValues (queueOf (requestAllCues now l s)) = true.
Proof.
  intros H. unfold requestAllCues. cbv zeta.
  destruct (negb (tcpPort s)); [done |].
  destruct (bulkRefreshInProgress (refresh s)); [| done].
  destruct (negb (existsb (sameValueZero l) _) && _) eqn:E; [| done].
  apply andb_true_iff in E as [E _]. apply negb_true_iff in E.
  by apply distinctValues_snoc.
Qed.

Lemma checkBulkRefreshComplete_queue now s :
  distinctValues (queueOf s) = true →
  distinctValues (queueOf (checkBulkRefreshComplete now s)) = true.
Proof.
  intros H. unfold checkBulkRefreshComplete. cbv zeta.
  destruct (negb (bulkRefreshInProgress (refresh s))); [done |].
  cbn [bulkRefreshQueue set_received set_indices set_expected set_cueList set_inProgress].
  unfold queueOf in H.
  destruct (bulkRefreshQueue (refresh s)) as [| next rest] eqn:E; [by rewrite <- E in H |].
  apply requestAllCues_queue. unfold queueOf. cbn. by eapply distinctValues_tail.
Qed.

Lemma upsert_queue n u s : queueOf (updateOrCreateCue n u s) = queueOf s.
Proof. unfold updateOrCreateCue, queueOf. by repeat case_match. Qed.

Lemma setActive_queue now list n t s :
  queueOf (setActiveCueByListAndNumber now list n t s) = queueOf s.
Proof.
  unfold setActiveCueByListAndNumber. cbv zeta.
  set (s1 := match findIndex _ _ with Some (i, c) => _ | None => _ end).
  assert (H1 : queueOf s1 = queueOf s).
  { unfold s1. destruct (findIndex _ _) as [[i c]|]; [done |]. by rewrite upsert_queue. }
  rewrite <- H1. unfold updateElapsed. by repeat case_match.
Qed.

Lemma parseCueText_queue now cueText type contextList s :
  queueOf (parseCueText now cueText type contextList s) = queueOf s.
Proof.
  unfold parseCueText. destruct (isResetText _); [by destruct (knownList _) |].
  destruct (cueTextTarget _ _) as [[[l n] rem]|]; [| done].
  destruct (Re.remainderParts rem) as [[f c] lab].
  rewrite upsert_queue. unfold updateElapsed. by repeat case_match.
Qed.

Lemma handleCueIndexResponse_queue now l i s :
  queueOf (handleCueIndexResponse now l i s) = queueOf s.
Proof. unfold handleCueIndexResponse. by repeat case_match. Qed.

Lemma handleCueCountResponse_queue now l c s :
  distinctValues (queueOf s) = true →
  distinctValues (queueOf (handleCueCountResponse now l c s)) = true.
Proof.
  intros H. unfold handleCueCountResponse. cbv zeta.
  destruct (_ || _); [done |].
  destruct (Js.strict_eq c (VInt 0)); [| done].
  by apply checkBulkRefreshComplete_queue.
Qed.

Lemma handleGetResponse_queue now a args s :
  distinctValues (queueOf s) = true →
  distinctValues (queueOf (handleGetResponse now a args s)) = true.
Proof.
  intros H. unfold handleGetResponse.
  destruct (negb _); [done |]. destruct (_ || _ || _ || _); [done |].
  destruct (cueAddress a) as [[listNum cueNumber] partNumber].
  destruct (str_in "count" (Js.split a)); [by apply handleCueCountResponse_queue |].
  cbv zeta. destruct (uidThrows _); [done |].
  set (s1 := if _ && _ && _ then _ else s).
  assert (queueOf s1 = queueOf s) as H1 by (unfold s1; by case_match).
  set (s2 := if Js.is_number _ then _ else s1).
  assert (queueOf s2 = queueOf s) as H2.
  { unfold s2. case_match; [| done]. by rewrite handleCueIndexResponse_queue. }
  clearbody s2. clear H1. clearbody s1.
  destruct cueNumber; try (by rewrite H2).
  destruct (_ && _ && _); [| by rewrite H2].
  set (s3 := updateOrCreateCue _ _ s2).
  assert (queueOf s3 = queueOf s) as H3 by (unfold s3; by rewrite upsert_queue).
  clearbody s3.
  destruct (currentPollRequest s3) as [[pl pt] |]; [| by rewrite H3].
  destruct (_ && _); [| by rewrite H3].
  unfold queueOf in *. cbn [refresh set_poll set_cuesChanged].
  fold (queueOf (setActiveCueByListAndNumber now (Js.toStr listNum) s0 pt s3)).
  rewrite setActive_queue. unfold queueOf. by rewrite H3.
Qed.

Lemma step_queue now e s :
  distinctValues (queueOf s) = true → distinctValues (queueOf (step now e s)) = true.
Proof.
  intros H. destruct e; cbn [step].
  - unfold onGetMessage. destruct (isCuelistIndexAddress _).
    + unfold onCuelistIndex. destruct (Js.num_ltb _ _); [done |].
      by apply requestAllCues_queue.
    + by apply handleGetResponse_queue.
  - unfold onCuePerList, queueOf. cbn [refresh set_cuesChanged].
    fold (queueOf (setActiveCueByListAndNumber now list cueNum type s)).
    by rewrite setActive_queue.
  - unfold onCueText. cbv zeta.
    set (s1 := match Js.or _ _ with VStr t => _ | _ => s end).
    assert (H1 : queueOf s1 = queueOf s).
    { unfold s1. destruct (Js.or _ _); try done. apply parseCueText_queue. }
    rewrite <- H1 in H. unfold queueOf in *. by repeat case_match.
  - unfold fireTimer. destruct (timers s !! i) as [[due t] |]; [| done].
    destruct t; cbn [runTimer].
    + unfold queueOf in *. by repeat case_match.
    + unfold queueOf in *. by repeat case_match.
    + by apply checkBulkRefreshComplete_queue.
    + by apply checkBulkRefreshComplete_queue.
  - by apply requestAllCues_queue.
  - unfold apiNotes. by rewrite upsert_queue.
  - unfold apiColor. by rewrite upsert_queue.
  - unfold apiTags. by rewrite upsert_queue.
  - done.
Qed.

(** X15: whatever messages, timers and
    requests follow one another, the queue of cue lists waiting for a
    refresh never holds the same list twice. *)
Theorem refresh_queue_has_no_duplicates (evs : list (Z * event)) (s : state) :
  distinctValues (queueOf s) = true → distinctValues (queueOf (run evs s)) = true.
Proof.
  revert s. induction evs as [| [now e] evs IH]; intros s H; [done |].
  rewrite run_cons. apply IH. by apply step_queue.
Qed.

Lemma refresh_queue_has_no_duplicates_witness :
  queueOf (run discoveryEvents initialState) = [VInt 2; VInt 3] ∧
  distinctValues (queueOf (run discoveryEvents initialState)) = true.
Proof.
  split; [vm_compute; reflexivity |].
  exact (refresh_queue_has_no_duplicates discoveryEvents initialState eq_refl).
Defined.

(** ** The show timer *)

Lemma checkBulkRefreshComplete_showTimings now s :
  showTimings (checkBulkRefreshComplete now s) = showTimings s.
Proof.
  unfold checkBulkRefreshComplete. cbv zeta.
  destruct (negb _); [done |].
  cbn [bulkRefreshQueue set_received set_indices set_expected set_cueList set_inProgress].
  destruct (bulkRefreshQueue (refresh s)); [done |].
  by rewrite requestAllCues_showTimings.
Qed.

Lemma handleCueCountResponse_showTimings now l c s :
  showTimings (handleCueCountResponse now l c s) = showTimings s.
Proof.
  unfold handleCueCountResponse. cbv zeta. destruct (_ || _); [done |].
  destruct (Js.strict_eq c (VInt 0)); [| done].
  by rewrite checkBulkRefreshComplete_showTimings.
Qed.

Lemma handleCueIndexResponse_showTimings now l i s :
  showTimings (handleCueIndexResponse now l i s) = showTimings s.
Proof. unfold handleCueIndexResponse. by repeat case_match. Qed.

Lemma fireTimer_showTimings now i s : showTimings (fireTimer now i s) = showTimings s.
Proof.
  unfold fireTimer. destruct (timers s !! i) as [[due t] |]; [| done].
  destruct t; cbn [runTimer]; rewrite ?checkBulkRefreshComplete_showTimings;
    by repeat case_match.
Qed.

Lemma setActive_showTimings_off now l n ty s :
  isRecording (showTimings s) = false →
  showTimings (setActiveCueByListAndNumber now l n ty s) = showTimings s.
Proof.
  intros Hr. rewrite setActive_showTimings, Hr. by repeat case_match.
Qed.

Lemma handleGetResponse_showTimings_off now a args s :
  isRecording (showTimings s) = false →
  showTimings (handleGetResponse now a args s) = showTimings s.
Proof.
  intros Hr. unfold handleGetResponse.
  destruct (negb _); [done |]. destruct (_ || _ || _ || _); [done |].
  destruct (cueAddress a) as [[listNum cueNumber] partNumber].
  destruct (str_in "count" (Js.split a)); [by apply handleCueCountResponse_showTimings |].
  cbv zeta. destruct (uidThrows _); [done |].
  set (s1 := if _ && _ && _ then _ else s).
  assert (showTimings s1 = showTimings s) as H1 by (unfold s1; by case_match).
  set (s2 := if Js.is_number _ then _ else s1).
  assert (showTimings s2 = showTimings s) as H2.
  { unfold s2. case_match; [| done]. by rewrite handleCueIndexResponse_showTimings. }
  clearbody s2. clear H1. clearbody s1.
  destruct cueNumber; try done.
  destruct (_ && _ && _); [| done].
  set (s3 := updateOrCreateCue _ _ s2).
  assert (showTimings s3 = showTimings s) as H3 by (unfold s3; by rewrite upsert_showTimings).
  clearbody s3.
  destruct (currentPollRequest s3) as [[pl pt] |]; [| done].
  destruct (_ && _); [| done].
  cbn [showTimings set_poll set_cuesChanged].
  rewrite setActive_showTimings_off; congruence.
Qed.

Lemma step_showTimings_off now e s :
  notStart e = true → isRecording (showTimings s) = false →
  showTimings (step now e s) = showTimings s.
Proof.
  intros He Hr. destruct e; try discriminate He.
  - cbn [step]. unfold onGetMessage. destruct (isCuelistIndexAddress _).
    + unfold onCuelistIndex. destruct (Js.num_ltb _ _); [done |].
      apply requestAllCues_showTimings.
    + by apply handleGetResponse_showTimings_off.
  - rewrite (cueEvent_showTimings now (EvCuePerList type list cueNum) s eq_refl), Hr.
    by repeat case_match.
  - rewrite (cueEvent_showTimings now (EvCueText type args addrList) s eq_refl), Hr.
    by repeat case_match.
  - apply fireTimer_showTimings.
  - apply requestAllCues_showTimings.
  - apply upsert_showTimings.
  - apply upsert_showTimings.
  - apply upsert_showTimings.
Qed.

(** X16: once the recording is stopped, the
    recorded timings, the start time and the last cue stay exactly as the
    stop left them, whatever the console sends and whichever timers fire,
    until a recording is started again. *)
Theorem stopped_recording_is_frozen (evs : list (Z * event)) (s : state) :
  forallb (fun ne => notStart ne.2) evs = true →
  showTimings (run evs (apiTimingsStop s)) = showTimings (apiTimingsStop s) ∧
  cueTimings (showTimings (run evs (apiTimingsStop s))) = cueTimings (showTimings s) ∧
  isRecording (showTimings (run evs (apiTimingsStop s))) = false.
Proof.
  intros Hevs.
  assert (∀ s0, isRecording (showTimings s0) = false →
                showTimings (run evs s0) = showTimings s0) as Hrun.
  { induction evs as [| [now e] evs IH]; intros s0 Hr; [done |].
    cbn [forallb] in Hevs. apply andb_true_iff in Hevs as [He Hevs].
    rewrite run_cons. cbn [fst snd] in *.
    rewrite IH; [by apply step_showTimings_off | done |].
    by rewrite step_showTimings_off. }
  rewrite Hrun by done. done.
Qed.

Lemma stopped_recording_is_frozen_witness :
  map (fun t => (t_cueNumber t, t_timestamp t, t_timeFromPrevious t))
      (cueTimings (showTimings (run afterStop (apiTimingsStop recordedShow)))) =
  [(VStr "1", 2%Q, 0%Q); (VStr "2", 7%Q, 5%Q)].
Proof.
  rewrite (proj1 (proj2 (stopped_recording_is_frozen afterStop recordedShow eq_refl))).
  vm_compute. reflexivity.
Defined.

Lemma durationMap_idle ts (m : gmap string cue_duration) :
  (∀ k cd, m !! k = Some cd → idleEntry cd) →
  ∀ k cd,
    foldl (fun m t =>
             <[Js.toStr (t_cueNumber t) := CueDuration (t_timeFromPrevious t) None false]> m)
          m ts !! k = Some cd → idleEntry cd.
Proof.
  revert m. induction ts as [| t ts IH]; intros m Hm; [done |].
  cbn [foldl]. apply IH. intros k cd Hk.
  apply lookup_insert_Some in Hk as [[_ <-] | [_ Hk]]; [done | by eapply Hm].
Qed.

Lemma positiveOrNull_pos x y : positiveOrNull x = Some y → (0 < y)%Q.
Proof.
  unfold positiveOrNull, Js.num_ltb, numZ.
  destruct (Qcompare (inject_Z 0) x) eqn:E; try discriminate.
  intros [= <-]. by apply Qlt_alt.
Qed.

Lemma positiveOrZero_nonneg x : (0 <= positiveOrZero x)%Q.
Proof.
  unfold positiveOrZero, Js.num_ltb, numZ.
  destruct (Qcompare (inject_Z 0) x) eqn:E; try apply Qle_refl.
  apply Qlt_le_weak. by apply Qlt_alt.
Qed.

(** X17: in the countdown response
    the time to the next cue and the estimated time remaining are positive
    or [null], never zero or negative.  When it says the show is playing,
    there is an active cue, the first cue of the store with [last_seen]
    ['active'] on the main playback list; the entry of [cueDurations] under
    its cue number is marked active with a countdown of at least 0, and
    every other entry is not active and has no countdown.  When it says the
    show is not playing no entry is active.  It says there are no timings
    exactly when none are recorded.  (The durations, the elapsed time and
    the total show time are passed on as they are stored.) *)
Theorem countdown_clamps_and_marks_active_cue (now : Z) (s : state) :
  match apiCountdown now s with
  | NoTimings => cueTimings (showTimings s) = []
  | NotPlaying cds _ =>
      cueTimings (showTimings s) ≠ [] ∧ ∀ k cd, cds !! k = Some cd → idleEntry cd
  | Playing _ timeToNext estimatedTimeRemaining _ cds =>
      cueTimings (showTimings s) ≠ [] ∧
      (∀ x, timeToNext = Some x → (0 < x)%Q) ∧
      (∀ x, estimatedTimeRemaining = Some x → (0 < x)%Q) ∧
      ∃ i activeCue,
        cues s !! i = Some activeCue ∧
        Js.strict_eq (fld activeCue "last_seen") (VStr "active") = true ∧
        Js.toStr (listOf activeCue) = mainPlaybackList s ∧
        (∀ j c, (j < i)%nat → cues s !! j = Some c →
           Js.strict_eq (fld c "last_seen") (VStr "active") &&
           String.eqb (Js.toStr (listOf c)) (mainPlaybackList s) = false) ∧
        (∃ d c, cds !! Js.toStr (fld activeCue "cue_number") =
                  Some (CueDuration d (Some c) true) ∧ (0 <= c)%Q) ∧
        ∀ k cd, k ≠ Js.toStr (fld activeCue "cue_number") →
                cds !! k = Some cd → idleEntry cd
  end.
Proof.
  unfold apiCountdown. cbv zeta.
  destruct (last (cueTimings (showTimings s))) as [lastTiming |] eqn:Hlast.
  2: { by apply last_None. }
  assert (cueTimings (showTimings s) ≠ []) as Hne.
  { intros E. by rewrite E in Hlast. }
  assert (∀ k cd, durationMap (cueTimings (showTimings s)) !! k = Some cd → idleEntry cd)
    as Hidle.
  { apply durationMap_idle. intros k cd Hk. by rewrite lookup_empty in Hk. }
  destruct (findIndex _ (cues s)) as [[i activeCue] |] eqn:Hactive; [| done].
  destruct (findIndex _ (cueTimings (showTimings s))) as [[idx currentTiming] |]; [| done].
  destruct (findIndex_Some _ _ _ _ Hactive) as (Hi & Hp & Hfirst).
  apply andb_prop in Hp as [Hseen Hmain]. apply String.eqb_eq in Hmain.
  split; [done |]. split; [| split].
  - intros x Hx. destruct (_ !! S idx); [| done]. by eapply positiveOrNull_pos.
  - intros x Hx. by eapply positiveOrNull_pos.
  - exists i, activeCue. split; [done |]. split; [done |]. split; [done |].
    split; [exact Hfirst |]. split.
    + eexists _, _. rewrite lookup_insert_eq. split; [reflexivity |].
      destruct (_ !! S idx); [apply positiveOrZero_nonneg | apply Qle_refl].
    + intros k cd Hk Hcd. rewrite lookup_insert_ne in Hcd by done. by eapply Hidle.
Qed.

(** ** Playback: the countdown follows the cue that fired *)

Lemma findIndex_first {A} (p : A → bool) l i x :
  l !! i = Some x → p x = true →
  (∀ j y, (j < i)%nat → l !! j = Some y → p y = false) →
  findIndex p l = Some (i, x).
Proof.
  revert i. induction l as [| a l IH]; intros i Hi Hx Hlt; [done |].
  destruct i as [| i]; cbn in Hi.
  - injection Hi as ->. cbn. by rewrite Hx.
  - cbn. rewrite (Hlt 0%nat a) by (lia || done).
    rewrite (IH i Hi Hx); [done |].
    intros j y Hj Hy. apply (Hlt (S j)); [lia | done].
Qed.

Lemma isSeen_cleared t l c : isSeen t l (clearSeen t l c) = false.
Proof. rewrite isSeen_clearSeen. by destruct (isSeen t l c). Qed.

Lemma clearSeen_number t l c :
  fld (clearSeen t l c) "cue_number" = fld c "cue_number".
Proof. unfold clearSeen. case_match; [| done]. by rewrite fld_insert_ne. Qed.

Lemma clearSeen_listOf t l c : listOf (clearSeen t l c) = listOf c.
Proof.
  unfold clearSeen. case_match; [| done]. unfold listOf. by rewrite fld_insert_ne.
Qed.

(** After a cue of the list was marked, it is the first cue of the list
    that [find] sees as active. *)
Lemma find_marked main n cs i target :
  findIndex (fun c => String.eqb (Js.toStr (fld c "cue_number")) n &&
                      String.eqb (Js.toStr (listOf c)) main)
            (map (clearSeen Active main) cs) = Some (i, target) →
  findIndex (fun c => Js.strict_eq (fld c "last_seen") (VStr "active") &&
                      String.eqb (Js.toStr (listOf c)) main)
            (<[i := <["last_seen" := VStr "active"]> target]>
               (map (clearSeen Active main) cs)) =
  Some (i, <["last_seen" := VStr "active"]> target).
Proof.
  intros Hf. destruct (findIndex_Some _ _ _ _ Hf) as (Hi & Hp & _).
  apply andb_prop in Hp as [_ Hl].
  apply findIndex_first.
  - apply list_lookup_insert_eq. by eapply lookup_lt_Some.
  - rewrite fld_insert_eq. cbn [Js.strict_eq]. rewrite String.eqb_refl.
    unfold listOf. by rewrite fld_insert_ne.
  - intros j y Hj Hy. rewrite list_lookup_insert_ne in Hy by lia.
    rewrite list_lookup_fmap in Hy.
    destruct (cs !! j) as [c |]; [| done]. injection Hy as <-.
    apply (isSeen_cleared Active main c).
Qed.

Lemma setActive_main now l n t s :
  mainPlaybackList (setActiveCueByListAndNumber now l n t s) = mainPlaybackList s.
Proof.
  unfold setActiveCueByListAndNumber. cbv zeta.
  set (s1 := match findIndex _ _ with Some (i, c) => _ | None => _ end).
  assert (H1 : mainPlaybackList s1 = mainPlaybackList s).
  { unfold s1. destruct (findIndex _ _) as [[i c]|]; [done | by rewrite upsert_main]. }
  rewrite <- H1. unfold updateElapsed. by repeat case_match.
Qed.

Lemma timingKeys_first st k t n :
  NoDup (timingKeys st) → cueTimings st !! k = Some t → t_cueNumber t = VStr n →
  findIndex (fun t => String.eqb (Js.toStr (t_cueNumber t)) n) (cueTimings st) = Some (k, t) ∧
  findIndex (fun t => Js.strict_eq (t_cueNumber t) (VStr n)) (cueTimings st) = Some (k, t).
Proof.
  intros Hnd Hk Hn.
  assert (∀ j y, (j < k)%nat → cueTimings st !! j = Some y →
                 Js.toStr (t_cueNumber y) ≠ n) as Hlt.
  { intros j y Hj Hy Heq.
    assert (j = k); [| lia].
    eapply NoDup_lookup; [exact Hnd | |]; unfold timingKeys; rewrite list_lookup_fmap.
    - rewrite Hy. cbn. by rewrite Heq.
    - rewrite Hk. cbn. by rewrite Hn. }
  split; apply findIndex_first; try done.
  - rewrite Hn. apply String.eqb_refl.
  - intros j y Hj Hy. apply String.eqb_neq. by eapply Hlt.
  - rewrite Hn. cbn. apply String.eqb_refl.
  - intros j y Hj Hy. destruct (Js.strict_eq (t_cueNumber y) (VStr n)) eqn:E; [| done].
    destruct (Hlt j y Hj Hy). destruct (t_cueNumber y); try discriminate E.
    cbn in E. by apply String.eqb_eq in E as ->.
Qed.

(** X18: in playback (timings recorded with one
    entry per cue, recording off, cue numbers stored as strings), when a
    cue of the main playback list that has a timing entry fires, the
    countdown asked afterwards says the show is playing and marks the
    entry of that cue, and no other, active; when the cue is the last
    entry it reports no time to the next cue. *)
Theorem countdown_follows_fired_cue (now now' : Z) (n : string) (s : state)
    (k : nat) (t : timing) :
  isRecording (showTimings s) = false →
  NoDup (timingKeys (showTimings s)) →
  cueTimings (showTimings s) !! k = Some t → t_cueNumber t = VStr n →
  (∃ c, c ∈ cues s ∧ numberStr c = n ∧ listStr c = mainPlaybackList s) →
  Forall (fun c => Js.is_string (fld c "cue_number") = true) (cues s) →
  ∃ el ttn etr total cds,
    apiCountdown now' (onCuePerList now Active (mainPlaybackList s) n s) =
      Playing el ttn etr total cds ∧
    (∃ d c, cds !! n = Some (CueDuration d (Some c) true)) ∧
    (∀ k' cd, k' ≠ n → cds !! k' = Some cd → idleEntry cd) ∧
    (cueTimings (showTimings s) !! S k = None → ttn = None).
Proof.
  intros Hr Hnd Hk Hn (c0 & Hc0 & Hc0n & Hc0l) Hstr.
  set (main := mainPlaybackList s).
  destruct (timingKeys_first _ _ _ _ Hnd Hk Hn) as [Hf1 Hf2].
  set (s1 := setActiveCueByListAndNumber now main n Active s).
  assert (showTimings s1 = showTimings s) as Hst by by apply setActive_showTimings_off.
  assert (mainPlaybackList s1 = main) as Hmain by apply setActive_main.
  (* the cue that is marked *)
  set (cleared := map (clearSeen Active main) (cues s)).
  assert (∃ i target, findIndex
            (fun c => String.eqb (Js.toStr (fld c "cue_number")) n &&
                      String.eqb (Js.toStr (listOf c)) main) cleared = Some (i, target))
    as (i & target & Htarget).
  { apply (findIndex_is_Some _ cleared (clearSeen Active main c0)).
    - unfold cleared. apply list_elem_of_fmap. by exists c0.
    - rewrite clearSeen_number, clearSeen_listOf.
      fold (numberStr c0) (listStr c0). rewrite Hc0n, Hc0l. by rewrite !String.eqb_refl. }
  assert (cues s1 = <[i := <["last_seen" := VStr "active"]> target]> cleared) as Hcues.
  { unfold s1. rewrite setActive_cues. cbv zeta. fold cleared. by rewrite Htarget. }
  assert (fld target "cue_number" = VStr n) as Hnum.
  { destruct (findIndex_Some _ _ _ _ Htarget) as (Hi & Hp & _).
    apply andb_prop in Hp as [Hp _]. apply String.eqb_eq in Hp.
    unfold cleared in Hi. rewrite list_lookup_fmap in Hi.
    destruct (cues s !! i) as [c |] eqn:Hci; [| done]. injection Hi as <-.
    rewrite clearSeen_number in Hp |- *.
    rewrite Forall_forall in Hstr.
    specialize (Hstr c (list_elem_of_lookup_2 _ _ _ Hci)).
    destruct (fld c "cue_number"); try discriminate Hstr. by rewrite <- Hp. }
  pose proof (find_marked main n (cues s) i target Htarget) as Hfind.
  fold cleared in Hfind. rewrite <- Hcues in Hfind.
  (* the response *)
  unfold onCuePerList, apiCountdown. cbv zeta.
  cbn [showTimings cues mainPlaybackList set_cuesChanged].
  fold s1. rewrite Hst, Hmain.
  destruct (last (cueTimings (showTimings s))) as [lastT |] eqn:Hlast.
  2: { apply last_None in Hlast. by rewrite Hlast in Hk. }
  rewrite Hfind. rewrite fld_insert_ne by done. rewrite Hnum, Hf2.
  change (Js.toStr (VStr n)) with n.
  eexists _, _, _, _, _. split; [reflexivity |]. split; [| split].
  - eexists _, _. by rewrite lookup_insert_eq.
  - intros k' cd Hk' Hcd. rewrite lookup_insert_ne in Hcd by done.
    refine (durationMap_idle (cueTimings (showTimings s)) ∅ _ k' cd Hcd).
    intros k0 cd0 H0. by rewrite lookup_empty in H0.
  - intros Hnext. by rewrite Hnext.
Qed.

Lemma countdown_follows_fired_cue_witness :
  ∃ el ttn etr total cds,
    apiCountdown 21500 (onCuePerList 20000 Active "1" "2" playbackShow) =
      Playing el ttn etr total cds ∧
    (∃ d c, cds !! "2" = Some (CueDuration d (Some c) true)) ∧
    (∀ k' cd, k' ≠ "2" → cds !! k' = Some cd → idleEntry cd) ∧
    ttn = None.
Proof.
  destruct (countdown_follows_fired_cue 20000 21500 "2" playbackShow 1
              (Timing (VStr "2") (VStr "1") (VStr estr) 7 5)
              eq_refl ltac:(apply (bool_decide_unpack _); vm_compute; exact I)
              eq_refl eq_refl
              ltac:(eexists; split;
                    [apply list_elem_of_further, list_elem_of_here | split; reflexivity])
              ltac:(repeat constructor))
    as (el & ttn & etr & total & cds & H1 & H2 & H3 & H4).
  exists el, ttn, etr, total, cds.
  split; [exact H1 |]. split; [exact H2 |]. split; [exact H3 |].
  by apply H4.
Defined.

(** ** The poller *)

Lemma upsert_pollOf n u s : pollOf (updateOrCreateCue n u s) = pollOf s.
Proof. unfold updateOrCreateCue, pollOf. by repeat case_match. Qed.

Lemma requestAllCues_pollOf now l s : pollOf (requestAllCues now l s) = pollOf s.
Proof. unfold requestAllCues, pollOf. by repeat case_match. Qed.

Lemma checkBulkRefreshComplete_pollOf now s :
  pollOf (checkBulkRefreshComplete now s) = pollOf s.
Proof.
  unfold checkBulkRefreshComplete. cbv zeta. destruct (negb _); [done |].
  cbn [bulkRefreshQueue set_received set_indices set_expected set_cueList set_inProgress].
  destruct (bulkRefreshQueue (refresh s)); [done |].
  by rewrite requestAllCues_pollOf.
Qed.

Lemma handleCueCountResponse_pollOf now l c s :
  pollOf (handleCueCountResponse now l c s) = pollOf s.
Proof.
  unfold handleCueCountResponse. cbv zeta. destruct (_ || _); [done |].
  destruct (Js.strict_eq c (VInt 0)); [| done].
  by rewrite checkBulkRefreshComplete_pollOf.
Qed.

Lemma handleCueIndexResponse_pollOf now l i s :
  pollOf (handleCueIndexResponse now l i s) = pollOf s.
Proof. unfold handleCueIndexResponse, pollOf. by repeat case_match. Qed.

Lemma fireTimer_pollOf now i s : pollOf (fireTimer now i s) = pollOf s.
Proof.
  unfold fireTimer. destruct (timers s !! i) as [[due t] |]; [| done].
  destruct t; cbn [runTimer]; rewrite ?checkBulkRefreshComplete_pollOf;
    unfold pollOf; by repeat case_match.
Qed.

Lemma setActive_pollOf now list n t s :
  pollOf (setActiveCueByListAndNumber now list n t s) = pollOf s.
Proof.
  unfold setActiveCueByListAndNumber. cbv zeta.
  set (s1 := match findIndex _ _ with Some (i, c) => _ | None => _ end).
  assert (H1 : pollOf s1 = pollOf s).
  { unfold s1. destruct (findIndex _ _) as [[i c]|]; [done | by rewrite upsert_pollOf]. }
  rewrite <- H1. unfold updateElapsed, pollOf. by repeat case_match.
Qed.

Lemma parseCueText_pollOf now cueText type contextList s :
  pollOf (parseCueText now cueText type contextList s) = pollOf s.
Proof.
  unfold parseCueText. destruct (isResetText _); [by destruct (knownList _) |].
  destruct (cueTextTarget _ _) as [[[l n] rem]|]; [| done].
  destruct (Re.remainderParts rem) as [[f c] lab].
  rewrite upsert_pollOf. unfold updateElapsed, pollOf. by repeat case_match.
Qed.

Lemma handleGetResponse_pollOf now a args s :
  pollOf (handleGetResponse now a args s) = pollOf s ∨
  pollOf (handleGetResponse now a args s) = (None, false).
Proof.
  unfold handleGetResponse.
  destruct (negb _); [by left |]. destruct (_ || _ || _ || _); [by left |].
  destruct (cueAddress a) as [[listNum cueNumber] partNumber].
  destruct (str_in "count" (Js.split a)); [left; apply handleCueCountResponse_pollOf |].
  cbv zeta. destruct (uidThrows _); [by left |].
  set (s1 := if _ && _ && _ then _ else s).
  assert (pollOf s1 = pollOf s) as H1 by (unfold s1; by case_match).
  set (s2 := if Js.is_number _ then _ else s1).
  assert (pollOf s2 = pollOf s) as H2.
  { unfold s2. case_match; [| done]. by rewrite handleCueIndexResponse_pollOf. }
  clearbody s2. clear H1. clearbody s1.
  destruct cueNumber; try (by left).
  destruct (_ && _ && _); [| by left].
  set (s3 := updateOrCreateCue _ _ s2).
  assert (pollOf s3 = pollOf s) as H3 by (unfold s3; by rewrite upsert_pollOf).
  clearbody s3.
  destruct (currentPollRequest s3) as [[pl pt] |]; [| by left].
  destruct (_ && _); [by right | by left].
Qed.

Lemma step_pollOf now e s :
  pollOf (step now e s) = pollOf s ∨ pollOf (step now e s) = (None, false).
Proof.
  destruct e; cbn [step].
  - unfold onGetMessage. destruct (isCuelistIndexAddress _).
    + left. unfold onCuelistIndex. destruct (Js.num_ltb _ _); [done |].
      apply requestAllCues_pollOf.
    + apply handleGetResponse_pollOf.
  - left. unfold onCuePerList.
    change (pollOf (set_cuesChanged true ?x)) with (pollOf x).
    apply setActive_pollOf.
  - unfold onCueText. cbv zeta.
    set (s1 := match Js.or _ _ with VStr t => _ | _ => s end).
    assert (H1 : pollOf s1 = pollOf s).
    { unfold s1. destruct (Js.or _ _); try done. apply parseCueText_pollOf. }
    clearbody s1. change (pollOf (set_cuesChanged true ?x)) with (pollOf x).
    destruct (currentPollRequest s1) as [[l t] |]; [| by left].
    destruct (_ && _); [by right | by left].
  - left. apply fireTimer_pollOf.
  - left. apply requestAllCues_pollOf.
  - left. apply upsert_pollOf.
  - left. apply upsert_pollOf.
  - left. apply upsert_pollOf.
  - by left.
Qed.

Lemma discoverList_frame a p :
  core (discoverList a p) = core p ∧
  currentPollObject (discoverList a p) = currentPollObject p ∧
  pollTimeouts (discoverList a p) = pollTimeouts p.
Proof. unfold discoverList. by repeat case_match. Qed.

Lemma processNextPollRequest_guarded now p :
  pollGuarded p → pollGuarded (processNextPollRequest now p).1.
Proof.
  intros Hg. unfold processNextPollRequest.
  destruct (activePollingInProgress (core p) || negb (isConnected p) ||
            bulkRefreshInProgress (refresh (core p))); [done |].
  destruct (match activePollingQueue p with [] => _ | _ => _ end) as [queue created'].
  destruct queue as [| request rest]; cbn [fst].
  - exact Hg.
  - intros _. exists (pr_object request).
    cbn [core currentPollObject pollTimeouts currentPollRequest set_poll].
    split; [done |]. split; [by eexists |].
    rewrite fmap_app. apply elem_of_app. right. cbn. apply list_elem_of_here.
Qed.

Lemma pollerStep_guarded now e p : pollGuarded p → pollGuarded (pollerStep now e p).
Proof.
  intros Hg. destruct e as [ev | | i |]; cbn [pollerStep].
  - set (p1 := match ev with EvGet a _ => discoverList a p | _ => p end).
    assert (core p1 = core p ∧ currentPollObject p1 = currentPollObject p ∧
            pollTimeouts p1 = pollTimeouts p) as (Hc & Ho & Ht).
    { unfold p1. destruct ev; try done. apply discoverList_frame. }
    unfold pollGuarded. cbn [core set_core currentPollObject pollTimeouts].
    rewrite Ho, Ht. intros Hin.
    destruct (step_pollOf now ev (core p)) as [Heq | Heq];
      unfold pollOf in Heq; injection Heq as Hcur Hact.
    + rewrite Hcur. apply Hg. congruence.
    + congruence.
  - unfold pollTick. destruct (negb (activeCuePoller p)); [done |].
    destruct (_ || _ || _); [done |]. by apply processNextPollRequest_guarded.
  - unfold pollTimeout. destruct (pollTimeouts p !! i) as [[due request] |] eqn:Hi; [| done].
    destruct (_ && _ && _) eqn:Hc.
    + intros Hin. discriminate Hin.
    + intros Hin. cbn [core] in Hin. destruct (Hg Hin) as (cur & Hcur & Hsome & Hpend).
      exists cur. cbn [core currentPollObject pollTimeouts].
      split; [done |]. split; [done |].
      rewrite Hin in Hc. rewrite (bool_decide_eq_true_2 _ Hsome) in Hc. cbn in Hc.
      apply bool_decide_eq_false in Hc.
      apply list_elem_of_fmap in Hpend as ([due' cur'] & -> & Hpend).
      apply list_elem_of_lookup in Hpend as [j Hj].
      assert (j ≠ i) as Hji.
      { intros ->. rewrite Hi in Hj. injection Hj as -> ->. cbn in Hc. by rewrite Hcur in Hc. }
      apply list_elem_of_fmap. exists (due', cur'). split; [done |].
      apply list_elem_of_lookup.
      destruct (decide (j < i)%nat).
      * exists j. by rewrite list_lookup_delete_lt.
      * exists (pred j). rewrite list_lookup_delete_ge by lia.
        replace (S (pred j)) with j by lia. done.
  - intros Hin. discriminate Hin.
Qed.

(** X19: the poller cannot get stuck.
    After any sequence of console messages, interval ticks, time-outs and
    disconnect requests, a poll that is in progress has a current request
    whose own time-out callback is still pending, and when that callback
    fires the slot is free again. *)
Theorem outstanding_poll_has_its_timeout (evs : list (Z * poller_event)) (p : poller) :
  pollGuarded p →
  pollGuarded (pollerRun evs p) ∧
  (activePollingInProgress (core (pollerRun evs p)) = true →
   ∃ i, activePollingInProgress (core (pollTimeout i (pollerRun evs p))) = false).
Proof.
  intros Hg.
  assert (pollGuarded (pollerRun evs p)) as Hrun.
  { revert p Hg. induction evs as [| [now e] evs IH]; intros p Hg; [done |].
    cbn [pollerRun foldl]. apply IH. by apply pollerStep_guarded. }
  split; [done |]. intros Hin.
  destruct (Hrun Hin) as (cur & Hcur & Hsome & Hpend).
  apply list_elem_of_fmap in Hpend as ([due cur'] & -> & Hpend).
  apply list_elem_of_lookup in Hpend as [i Hi].
  exists i. unfold pollTimeout. rewrite Hi, Hin.
  rewrite (bool_decide_eq_true_2 _ Hsome), (bool_decide_eq_true_2 _ Hcur). done.
Qed.

Lemma outstanding_poll_has_its_timeout_witness :
  currentPollRequest (core (pollerRun pollingEvents initialPoller)) = Some ("1", Pending) ∧
  ∃ i, activePollingInProgress
         (core (pollTimeout i (pollerRun pollingEvents initialPoller))) = false.
Proof.
  split; [vm_compute; reflexivity |].
  apply (outstanding_poll_has_its_timeout pollingEvents initialPoller).
  - intros H. discriminate H.
  - vm_compute. reflexivity.
Defined.

Section CueText.
Local Open Scope list_scope.
Import Js.

(** ** Reading a cue text back *)

(** [span] stops at the first character that fails the test. *)
Lemma span_app (p : ascii → bool) a b :
  forallb p a = true → (∀ c, head b = Some c → p c = false) →
  span p (a ++ b) = (a, b).
Proof.
  intros Ha Hb. induction a as [| x a IH]; cbn [app].
  - destruct b as [| c b]; [done |]. cbn [span]. by rewrite (Hb c eq_refl).
  - cbn [forallb] in Ha. apply andb_true_iff in Ha as [Hx Ha].
    cbn [span]. by rewrite Hx, (IH Ha).
Qed.

Lemma span_spec (p : ascii → bool) l a b :
  span p l = (a, b) →
  l = a ++ b ∧ forallb p a = true ∧ ∀ c, head b = Some c → p c = false.
Proof.
  revert a b. induction l as [| x l IH]; intros a b H; cbn [span] in H.
  - by injection H as <- <-.
  - destruct (p x) eqn:Hx.
    + destruct (span p l) as [a' b'] eqn:Hs. injection H as <- <-.
      destruct (IH a' b' eq_refl) as (-> & Ha & Hb). cbn. by rewrite Hx.
    + injection H as <- <-. split; [done |]. split; [done |].
      intros c [= <-]. done.
Qed.

(** Two ways of cutting a list into a run that passes the test and a rest
    that does not start with one are the same. *)
Lemma run_unique (p : ascii → bool) a b a' b' :
  a ++ b = a' ++ b' →
  forallb p a = true → (∀ c, head b = Some c → p c = false) →
  forallb p a' = true → (∀ c, head b' = Some c → p c = false) →
  a = a' ∧ b = b'.
Proof.
  intros Heq Ha Hb Ha' Hb'.
  pose proof (span_app p a b Ha Hb) as H1.
  pose proof (span_app p a' b' Ha' Hb') as H2.
  rewrite Heq, H2 in H1. by injection H1 as -> ->.
Qed.


Lemma head_rev (y : list ascii) : head (rev y) = last y.
Proof.
  induction y as [| a y IH]; [done |].
  cbn [rev]. rewrite head_app, IH, last_cons. by destruct (last y).
Qed.

Lemma forallb_rev (p : ascii → bool) y : forallb p (rev y) = forallb p y.
Proof.
  induction y as [| a y IH]; [done |].
  cbn [rev forallb]. rewrite forallb_app, IH. cbn. by rewrite andb_true_r, andb_comm.
Qed.

(** The same from the right: a run at the end of a list is determined by
    the list when the character before it fails the test. *)
Lemma run_unique_r (p : ascii → bool) x a x' a' :
  x ++ a = x' ++ a' →
  forallb p a = true → (∀ c, last x = Some c → p c = false) →
  forallb p a' = true → (∀ c, last x' = Some c → p c = false) →
  x = x' ∧ a = a'.
Proof.
  intros Heq Ha Hx Ha' Hx'.
  assert (rev a ++ rev x = rev a' ++ rev x') as Hrev.
  { rewrite <- !rev_app_distr. by rewrite Heq. }
  apply run_unique with (p := p) in Hrev as [H1 H2].
  - apply (f_equal (@rev ascii)) in H1, H2. rewrite !rev_involutive in H1, H2. done.
  - by rewrite forallb_rev.
  - intros c Hc. apply Hx. by rewrite <- head_rev.
  - by rewrite forallb_rev.
  - intros c Hc. apply Hx'. by rewrite <- head_rev.
Qed.


(** *** Character classes *)

Local Ltac by_char c :=
  destruct c as [[|] [|] [|] [|] [|] [|] [|] [|]]; vm_compute; intros; congruence.

Lemma digit_not_ws c : is_digit c = true → is_ws c = false.
Proof. by_char c. Qed.
Lemma digit_fade c : is_digit c = true → Re.is_fade c = true.
Proof. by_char c. Qed.
Lemma digit_not_dot c : is_digit c = true → Ascii.eqb c "."%char = false.
Proof. by_char c. Qed.
Lemma digit_not_lt c : is_digit c = true → is_line_terminator c = false.
Proof. by_char c. Qed.
Lemma fade_not_ws c : Re.is_fade c = true → is_ws c = false.
Proof. by_char c. Qed.
Lemma fade_not_lt c : Re.is_fade c = true → is_line_terminator c = false.
Proof. by_char c. Qed.
Lemma ws_not_digit c : is_ws c = true → is_digit c = false.
Proof. by_char c. Qed.
Lemma ws_not_fade c : is_ws c = true → Re.is_fade c = false.
Proof. by_char c. Qed.
Lemma ws_not_dot c : is_ws c = true → Ascii.eqb c "."%char = false.
Proof. by_char c. Qed.
Lemma blank_ws c : is_blank c = true → is_ws c = true.
Proof. by_char c. Qed.
Lemma blank_not_lt c : is_blank c = true → is_line_terminator c = false.
Proof. by_char c. Qed.

Lemma forallb_class (p q : ascii → bool) x :
  (∀ c, p c = true → q c = true) → forallb p x = true → forallb q x = true.
Proof.
  intros Hpq. rewrite !forallb_forall. auto.
Qed.

Lemma forallb_none (p q : ascii → bool) x :
  (∀ c, p c = true → q c = false) → forallb p x = true → existsb q x = false.
Proof.
  intros Hpq Hx. induction x as [| c x IH]; [done |].
  cbn in Hx |- *. apply andb_true_iff in Hx as [Hc Hx].
  by rewrite (Hpq c Hc), (IH Hx).
Qed.

(** The first character of a non-empty run passes the test of the run. *)
Lemma someOf_head (p : ascii → bool) x y c :
  someOf p x → head (x ++ y) = Some c → p c = true.
Proof.
  intros [Hne Hx] Hc. destruct x as [| a x]; [done |].
  cbn in Hc, Hx. injection Hc as <-. by apply andb_true_iff in Hx as [? _].
Qed.

Lemma someOf_last (p : ascii → bool) x c :
  someOf p x → last x = Some c → p c = true.
Proof.
  intros [_ Hx] Hc. apply last_Some in Hc as [x' ->].
  rewrite forallb_app in Hx. cbn in Hx.
  apply andb_true_iff in Hx as [_ Hx]. by rewrite andb_true_r in Hx.
Qed.

Lemma someOf_last_app (p : ascii → bool) x y c :
  someOf p y → last (x ++ y) = Some c → p c = true.
Proof.
  intros Hy Hc. apply (someOf_last p y c Hy).
  rewrite last_app in Hc. destruct (last y) eqn:E; [done |].
  destruct Hy as [Hne _]. destruct y as [| a y]; [done |].
  rewrite last_cons in E. by destruct (last y).
Qed.

Lemma trimStart_id x :
  (∀ c, head x = Some c → is_ws c = false) → trimStart x = x.
Proof.
  intros Hx. unfold trimStart.
  pose proof (span_app is_ws [] x eq_refl Hx) as H. cbn [app] in H. by rewrite H.
Qed.

Lemma trimEnd_id x :
  (∀ c, last x = Some c → is_ws c = false) → trimEnd x = x.
Proof.
  intros Hx. unfold trimEnd. rewrite trimStart_id, rev_involutive; [done |].
  intros c Hc. apply Hx. by rewrite <- head_rev.
Qed.


(** *** The patterns on a well-formed text *)

Lemma cueNumber_ok n r :
  cueNumberText n →
  (∀ c, head r = Some c → is_ws c = true) →
  Re.cueNumber (n ++ r) = Some (n, r).
Proof.
  intros Hn Hr. unfold Re.cueNumber.
  assert (∀ c, head r = Some c → is_digit c = false) as Hd.
  { intros c Hc. by apply ws_not_digit, Hr. }
  destruct Hn as [[Hne Hn] | (a & b & -> & Ha & Hb & Hda & Hdb)].
  - rewrite (span_app is_digit n r Hn Hd).
    destruct n as [| x n]; [done |]. destruct r as [| c r]; [done |].
    by rewrite (ws_not_dot c (Hr c eq_refl)).
  - rewrite <- app_assoc. cbn [app].
    rewrite (span_app is_digit a ("."%char :: b ++ r) Hda) by (by intros c [= <-]).
    destruct a as [| x a]; [done |]. cbn [Ascii.eqb Bool.eqb].
    rewrite (span_app is_digit b r Hdb Hd).
    by destruct b as [| y b].
Qed.

Lemma optTail_ok w body :
  someOf is_ws w →
  (∀ c, head body = Some c → is_ws c = false) →
  existsb is_line_terminator body = false →
  Re.optTail (w ++ body) = Some (Some body).
Proof.
  intros [Hne Hw] Hb Hlt. unfold Re.optTail.
  assert (trimStart (w ++ body) = body) as ->.
  { unfold trimStart. by rewrite (span_app is_ws w body Hw Hb). }
  destruct w as [| c w]; [done |]. cbn in Hw |- *.
  apply andb_true_iff in Hw as [-> _]. by rewrite Hlt.
Qed.

Lemma fadePct_ok f w d t :
  someOf Re.is_fade f → someOf is_ws w → someOf is_digit d →
  forallb is_ws t = true →
  Re.fadePct (f ++ w ++ d ++ "%"%char :: t) = Some (f, d).
Proof.
  intros Hf Hw Hd Ht. unfold Re.fadePct.
  rewrite (span_app Re.is_fade f _ (proj2 Hf)); cycle 1.
  { intros c Hc. apply ws_not_fade. by apply (someOf_head is_ws w _ c Hw Hc). }
  rewrite (span_app is_ws w _ (proj2 Hw)); cycle 1.
  { intros c Hc. apply digit_not_ws. by apply (someOf_head is_digit d _ c Hd Hc). }
  rewrite (span_app is_digit d _ (proj2 Hd)) by (by intros c [= <-]).
  destruct Hf as [Hf _], Hw as [Hw _], Hd as [Hd _].
  destruct f; [done |]. destruct w; [done |]. destruct d; [done |].
  cbn [Ascii.eqb Bool.eqb andb]. by rewrite Ht.
Qed.

Lemma fadePct_sound r f0 d0 :
  Re.fadePct r = Some (f0, d0) →
  ∃ w t, r = f0 ++ w ++ d0 ++ "%"%char :: t ∧
         someOf Re.is_fade f0 ∧ someOf is_ws w ∧ someOf is_digit d0 ∧
         forallb is_ws t = true.
Proof.
  unfold Re.fadePct. intros H.
  destruct (span Re.is_fade r) as [f r1] eqn:E1.
  destruct (span is_ws r1) as [w r2] eqn:E2.
  destruct (span is_digit r2) as [d r3] eqn:E3.
  apply span_spec in E1 as (-> & Hf & _).
  apply span_spec in E2 as (-> & Hw & _).
  apply span_spec in E3 as (-> & Hd & _).
  destruct f as [| xf f]; [done |]. destruct w as [| xw w]; [done |].
  destruct d as [| xd d]; [done |]. destruct r3 as [| c t]; [done |].
  destruct (Ascii.eqb c "%"%char) eqn:Ec; [| done].
  destruct (forallb is_ws t) eqn:Et; [| done].
  apply Ascii.eqb_eq in Ec as ->. cbn [andb] in H. injection H as <- <-.
  exists (xw :: w), t. by repeat split.
Qed.

Lemma afterWs_sound {A} (k : list ascii → option A) r x :
  Re.afterWs k r = Some x →
  ∃ w r', r = w ++ r' ∧ someOf is_ws w ∧ k r' = Some x.
Proof.
  unfold Re.afterWs. intros H.
  destruct (span is_ws r) as [w r'] eqn:E.
  apply span_spec in E as (-> & Hw & _).
  destruct w as [| c w]; [done |].
  exists (c :: w), r'. by repeat split.
Qed.

(** A text that ends in fade time, white space, digits, [%] and white
    space ends so in one way only. *)
Lemma tail_unique x f w d x' f' w' d' t :
  x ++ f ++ w ++ d ++ ["%"%char] = x' ++ f' ++ w' ++ d' ++ "%"%char :: t →
  someOf Re.is_fade f → someOf is_ws w → someOf is_digit d →
  someOf Re.is_fade f' → someOf is_ws w' → someOf is_digit d' →
  forallb is_ws t = true →
  (∀ c, last x = Some c → Re.is_fade c = false) →
  (∀ c, last x' = Some c → Re.is_fade c = false) →
  x = x' ∧ f = f' ∧ d = d'.
Proof.
  intros Heq Hf Hw Hd Hf' Hw' Hd' Ht Hx Hx'.
  assert ((x ++ f ++ w ++ d ++ ["%"%char]) ++ [] =
          (x' ++ f' ++ w' ++ d' ++ ["%"%char]) ++ t) as H1.
  { rewrite app_nil_r, Heq, <- !app_assoc. done. }
  apply run_unique_r with (p := is_ws) in H1 as [H1 _]; [| done | | done |]; cycle 1.
  { intros c. rewrite !app_assoc, last_snoc. by intros [= <-]. }
  { intros c. rewrite !app_assoc, last_snoc. by intros [= <-]. }
  rewrite !app_assoc in H1. apply app_inj_tail in H1 as [H1 _].
  apply run_unique_r with (p := is_digit) in H1 as [H1 ->];
    [| apply Hd | | apply Hd' |]; cycle 1.
  { intros c Hc. apply ws_not_digit. by apply (someOf_last_app is_ws _ w c Hw Hc). }
  { intros c Hc. apply ws_not_digit. by apply (someOf_last_app is_ws _ w' c Hw' Hc). }
  apply run_unique_r with (p := is_ws) in H1 as [H1 _];
    [| apply Hw | | apply Hw' |]; cycle 1.
  { intros c Hc. apply fade_not_ws. by apply (someOf_last_app Re.is_fade _ f c Hf Hc). }
  { intros c Hc. apply fade_not_ws. by apply (someOf_last_app Re.is_fade _ f' c Hf' Hc). }
  apply run_unique_r with (p := Re.is_fade) in H1 as [-> ->];
    [done | apply Hf | done | apply Hf' | done].
Qed.

(** [lazyLabel] stops at the first place where the rest matches. *)
Lemma lazyLabel_first {A} (k : list ascii → option A) pre rest tail x :
  rest ≠ [] →
  existsb is_line_terminator rest = false →
  k tail = Some x →
  (∀ p q, rest = p ++ q → p ≠ [] → q ≠ [] → k (q ++ tail) = None) →
  Re.lazyLabel k pre (rest ++ tail) = Some (rev pre ++ rest, x).
Proof.
  revert pre. induction rest as [| c rest IH]; intros pre Hne Hlt Hk Hnone; [done |].
  cbn in Hlt. apply orb_false_iff in Hlt as [Hc Hlt].
  cbn [app Re.lazyLabel]. rewrite Hc.
  destruct rest as [| c' rest].
  - cbn [app]. by rewrite Hk.
  - rewrite (Hnone [c] (c' :: rest)) by done.
    rewrite IH; [| done | done | done |].
    + cbn [rev]. by rewrite <- app_assoc.
    + intros p q Hpq Hp Hq. apply (Hnone (c :: p) q); [| done | done].
      by rewrite Hpq.
Qed.


(** Step 2 of [parseCueText] on [<label> <fade> <completion>%]. *)
Lemma remainderParts_label lab w1 f w2 d :
  labelText lab → someOf is_ws w1 → someOf Re.is_fade f →
  someOf is_ws w2 → someOf is_digit d →
  Re.remainderParts (lab ++ w1 ++ f ++ w2 ++ d ++ ["%"%char]) =
  (str f, str d +:+ "%", str lab).
Proof.
  intros (Hne & Hlt & Hhead & Hlast) Hw1 Hf Hw2 Hd. unfold Re.remainderParts.
  assert (∀ c, last (lab ++ w1) = Some c → Re.is_fade c = false) as Hlw.
  { intros c Hc. apply ws_not_fade. by apply (someOf_last_app is_ws _ w1 c Hw1 Hc). }
  destruct (Re.fadePct _) as [[f0 d0] |] eqn:E1.
  { apply fadePct_sound in E1 as (w & t & Heq & Hf0 & Hw & Hd0 & Ht).
    rewrite app_assoc in Heq.
    apply (tail_unique (lab ++ w1) f w2 d [] f0 w d0 t) in Heq as (Hnil & _); try done.
    by destruct lab. }
  rewrite (lazyLabel_first (Re.afterWs Re.fadePct) [] lab _ (f, d)).
  - cbn [rev app]. by rewrite (trimStart_id lab Hhead), (trimEnd_id lab Hlast).
  - done.
  - clear -Hlt. induction lab as [| c lab IH]; [done |].
    cbn in Hlt |- *. apply andb_true_iff in Hlt as [Hc Hlt].
    apply negb_true_iff in Hc. by rewrite Hc, (IH Hlt).
  - unfold Re.afterWs. rewrite (span_app is_ws w1 _ (proj2 Hw1)); cycle 1.
    { intros c Hc. apply fade_not_ws. by apply (someOf_head Re.is_fade f _ c Hf Hc). }
    destruct w1 as [| x w1]; [by destruct Hw1 |].
    by apply (fadePct_ok f w2 d [] Hf Hw2 Hd).
  - intros p q -> Hp Hq.
    destruct (Re.afterWs Re.fadePct _) as [[f0 d0] |] eqn:E2; [| done].
    apply afterWs_sound in E2 as (w' & r' & Heq & Hw' & E2).
    apply fadePct_sound in E2 as (w & t & -> & Hf0 & Hw & Hd0 & Ht).
    rewrite app_assoc in Heq.
    apply (tail_unique (q ++ w1) f w2 d w' f0 w d0 t) in Heq as (Hqw & _); try done.
    + destruct Hw' as [_ Hw']. rewrite <- Hqw, forallb_app in Hw'.
      apply andb_true_iff in Hw' as [Hws _].
      destruct (last q) as [c |] eqn:Ec.
      * pose proof (someOf_last is_ws q c (conj Hq Hws) Ec) as Hc.
        rewrite (Hlast c) in Hc; [done |]. by rewrite last_app, Ec.
      * destruct q as [| y q]; [done |]. rewrite last_cons in Ec. by destruct (last q).
    + intros c Hc. apply ws_not_fade. by apply (someOf_last_app is_ws _ w1 c Hw1 Hc).
    + intros c Hc. apply ws_not_fade. by apply (someOf_last is_ws w' c Hw' Hc).
Qed.


Lemma someOf_impl (p q : ascii → bool) x :
  (∀ c, p c = true → q c = true) → someOf p x → someOf q x.
Proof.
  intros Hpq [Hne Hx]. split; [done |]. by apply (forallb_class p q).
Qed.

(** A text whose second character is not a dot and that does not start
    with [0/0] is no reset text. *)
Lemma isResetText_second c0 c1 s :
  Ascii.eqb c1 "."%char = false →
  startsWith "0/0" (String c0 (String c1 s)) = false →
  isResetText (String c0 (String c1 s)) = false.
Proof.
  intros Hc1 H0. unfold isResetText. rewrite H0.
  unfold startsWith. cbn [truthy String.eqb estr negb orb String.prefix].
  rewrite Hc1. destruct (c0 =? "0")%char.
  all: destruct (ascii_dec "0" c0); [| done].
  all: destruct (ascii_dec "." c1) as [<- |]; [| done].
  all: by vm_compute in Hc1.
Qed.


(** After [updateOrCreateCue] some cue of the store carries every property
    of [updates] that has data. *)
Lemma upsert_fields n u s :
  NoDup (map fst u) →
  ∃ c, c ∈ cues (updateOrCreateCue n u s) ∧
       ∀ k, k ∈ map fst u → hasData (upd_get u k) = true → fld c k = upd_get u k.
Proof.
  intros Hnd. rewrite upsert_cues.
  destruct (findIndex _ _) as [[i e] |] eqn:Hf.
  - destruct (findIndex_Some _ _ _ _ Hf) as (Hi & _).
    exists (applyUpdates e u). split.
    + apply (list_elem_of_lookup_2 _ i). apply list_lookup_insert_eq.
      by apply lookup_lt_Some in Hi.
    + intros k Hk Hd. by rewrite applyUpdates_fld_in, Hd, orb_true_r.
  - exists (newCue n (Js.or (upd_get u "cue_list") (VStr "1")) u). split.
    + rewrite sortCues_perm. apply elem_of_app. right. by apply list_elem_of_singleton.
    + intros k Hk _. by apply newCue_fld_in.
Qed.

Lemma hasData_str x : x ≠ [] → hasData (VStr (str x)) = true.
Proof. by destruct x. Qed.

(** X20: [parseCueText] reads the text
    [<list>/<cue> <label> <fade> <completion>%] back into exactly these
    fields, whatever the context list is, and afterwards a cue of the store
    carries the list, the label, the completion (with its percent sign) and
    the type as [last_seen]. The list and the cue are digits (the cue may
    have a decimal part), the label is on one line, is not empty and has no
    white space at either end (it may have some inside), the fade time is
    made of digits, dots and colons, the fields are separated by white
    space (without line break after the label), and the text does not
    start with [0/0].  White space is that of [Js.is_ws]: tab, line feed,
    vertical tab, form feed, carriage return, space and no-break space. *)
Theorem active_cue_text_parses_back (l n w0 lab w1 f w2 d : list ascii)
    (now : Z) (type : seen) (contextList : option string) (s : state) :
  someOf is_digit l → cueNumberText n → someOf is_ws w0 →
  labelText lab → someOf is_blank w1 → someOf Re.is_fade f →
  someOf is_blank w2 → someOf is_digit d →
  startsWith "0/0" (activeText l n w0 lab w1 f w2 d) = false →
  cueTextFields (activeText l n w0 lab w1 f w2 d) contextList =
    Some (str l, str n, (str f, str d +:+ "%", str lab)) ∧
  ∃ c, c ∈ cues (parseCueText now (activeText l n w0 lab w1 f w2 d) type contextList s) ∧
       fld c "cue_list" = VStr (str l) ∧ fld c "label" = VStr (str lab) ∧
       fld c "completion" = VStr (str d +:+ "%") ∧
       fld c "last_seen" = VStr (seen_str type).
Proof.
  intros Hl Hn Hw0 Hlab Hb1 Hf Hb2 Hd H0.
  pose proof (someOf_impl _ _ w1 blank_ws Hb1) as Hw1.
  pose proof (someOf_impl _ _ w2 blank_ws Hb2) as Hw2.
  unfold cueTextFields, parseCueText, activeText in *.
  set (body := lab ++ w1 ++ f ++ w2 ++ d ++ ["%"%char]) in *.
  set (text := l ++ slash :: n ++ w0 ++ body) in *.
  assert (∀ c, head body = Some c → is_ws c = false) as Hbh.
  { intros c Hc. apply (proj1 (proj2 (proj2 Hlab)) c).
    destruct Hlab as [Hne _]. by destruct lab. }
  assert (∀ c, last body = Some c → is_ws c = false) as Hbl.
  { intros c. unfold body. rewrite !app_assoc, last_snoc. by intros [= <-]. }
  assert (∀ c, head text = Some c → is_ws c = false) as Hth.
  { intros c Hc. apply digit_not_ws. by apply (someOf_head is_digit l _ c Hl Hc). }
  assert (∀ c, last text = Some c → is_ws c = false) as Htl.
  { intros c. unfold text. rewrite last_app_cons.
    change (slash :: n ++ w0 ++ body) with ([slash] ++ n ++ w0 ++ body).
    unfold body. rewrite !app_assoc, last_snoc. by intros [= <-]. }
  assert (trim (str text) = str text) as ->.
  { unfold trim, chars. rewrite list_ascii_of_string_of_list_ascii.
    by rewrite (trimStart_id text Hth), (trimEnd_id text Htl). }
  assert (isResetText (str text) = false) as ->.
  { destruct Hl as [Hne Hl]. unfold text in *. clearbody body.
    destruct l as [| c0 [| c1 l]]; [done | |].
    - apply isResetText_second; [done | apply H0].
    - cbn in Hl. apply andb_true_iff in Hl as [_ Hl].
      apply andb_true_iff in Hl as [Hc1 _].
      apply isResetText_second; [by apply digit_not_dot | apply H0]. }
  assert (Re.listCue text = Some (str l, str n, body)) as Hlc.
  { unfold Re.listCue, text.
    rewrite (span_app is_digit l _ (proj2 Hl)) by (by intros c [= <-]).
    destruct Hl as [Hne _]. destruct l as [| c0 l]; [done |].
    rewrite Ascii.eqb_refl, (cueNumber_ok n (w0 ++ body) Hn); cycle 1.
    { intros c Hc. by apply (someOf_head is_ws w0 _ c Hw0 Hc). }
    rewrite (optTail_ok w0 body Hw0 Hbh).
    - cbn [Re.trimmedGroup]. by rewrite (trimStart_id body Hbh), (trimEnd_id body Hbl).
    - unfold body. rewrite !existsb_app.
      rewrite (forallb_none (fun c => negb (is_line_terminator c)) _ lab);
        [| intros c; apply negb_true_iff | apply Hlab].
      rewrite (forallb_none _ _ w1 blank_not_lt (proj2 Hb1)).
      rewrite (forallb_none _ _ f fade_not_lt (proj2 Hf)).
      rewrite (forallb_none _ _ w2 blank_not_lt (proj2 Hb2)).
      by rewrite (forallb_none _ _ d digit_not_lt (proj2 Hd)). }
  pose proof (remainderParts_label lab w1 f w2 d Hlab Hw1 Hf Hw2 Hd) as Hrp.
  fold body in Hrp.
  unfold cueTextTarget, chars. rewrite list_ascii_of_string_of_list_ascii, Hlc, Hrp.
  split; [done |].
  match goal with
  | |- context [updateOrCreateCue ?a ?u ?s3] =>
      destruct (upsert_fields a u s3) as (c & Hc & Hfld)
  end.
  - unfold textUpdates. rewrite Hrp. case_match; by apply (bool_decide_unpack _).
  - exists c. split; [done |].
    assert (hasData (VStr (str l)) = true) as Hdl by apply hasData_str, Hl.
    assert (hasData (VStr (str lab)) = true) as Hdlab by apply hasData_str, Hlab.
    assert (hasData (VStr (str d +:+ "%")) = true) as Hdd.
    { destruct Hd as [Hne _]. by destruct d. }
    assert (hasData (VStr (seen_str type)) = true) as Hdt by (by destruct type).
    unfold textUpdates in Hfld. rewrite Hrp in Hfld.
    repeat split.
    + rewrite (Hfld "cue_list"); [done | | done].
      apply list_elem_of_fmap. exists ("cue_list", VStr (str l)). split; [done |].
      apply elem_of_app. left. apply list_elem_of_here.
    + rewrite (Hfld "label"); [done | | done].
      apply list_elem_of_fmap. exists ("label", VStr (str lab)). split; [done |].
      apply elem_of_app. left. do 1 apply list_elem_of_further. apply list_elem_of_here.
    + rewrite (Hfld "completion"); [done | | done].
      apply list_elem_of_fmap. exists ("completion", VStr (str d +:+ "%")). split; [done |].
      apply elem_of_app. left. do 3 apply list_elem_of_further. apply list_elem_of_here.
    + rewrite (Hfld "last_seen"); [done | | done].
      apply list_elem_of_fmap. exists ("last_seen", VStr (seen_str type)). split; [done |].
      apply elem_of_app. left. do 2 apply list_elem_of_further. apply list_elem_of_here.
Qed.

Lemma active_cue_text_parses_back_witness :
  cueTextFields "1/5.5 House open 3.5 42%" None =
    Some ("1", "5.5", ("3.5", "42%", "House open")) ∧
  ∃ c, c ∈ cues (parseCueText 0 "1/5.5 House open 3.5 42%" Active None initialState) ∧
       fld c "cue_list" = VStr "1" ∧ fld c "label" = VStr "House open" ∧
       fld c "completion" = VStr "42%" ∧ fld c "last_seen" = VStr "active".
Proof.
  apply (active_cue_text_parses_back
           (chars "1") (chars "5.5") (chars " ") (chars "House open")
           (chars " ") (chars "3.5") (chars " ") (chars "42")
           0 Active None initialState).
  all: try (split; [done | reflexivity]).
  - right. exists (chars "5"), (chars "5"). by repeat split.
  - split; [done |]. split; [reflexivity |]. by split; intros c [= <-].
  - reflexivity.
Defined.

(** No-break spaces separate the fields like spaces do, and one at the end
    of what would be the label is trimmed away. *)
Example no_break_space_is_white_space :
  cueTextFields (str (chars "1/5" ++ [nbsp] ++ chars "Go" ++ [nbsp] ++ chars "3.0 100%"))
    None = Some ("1", "5", ("3.0", "100%", "Go")) ∧
  cueTextFields (str (chars "1/5 Go" ++ [nbsp] ++ chars " 3.0 100%")) None =
    Some ("1", "5", ("3.0", "100%", "Go")).
Proof. by vm_compute. Qed.

End CueText.

Section ShowEndpoints.
Local Open Scope list_scope.

(** ** The folder of the current show *)

Lemma writeFileSync_exists p file q d :
  existsSync q d = true → existsSync q (writeFileSync p file d) = true.
Proof.
  destruct p; [done | | done]. destruct q; cbn; [done.. |].
  intros H. apply andb_true_iff in H as [-> H]. cbn.
  apply bool_decide_eq_true in H. apply bool_decide_eq_true.
  destruct (decide (units file = name)) as [<- |].
  - by rewrite lookup_insert_eq.
  - by rewrite lookup_insert_ne.
Qed.

Lemma writeShowFiles_exists p q d :
  existsSync q d = true → existsSync q (writeShowFiles p d) = true.
Proof.
  intros H. unfold writeShowFiles. by do 3 apply writeFileSync_exists.
Qed.

Lemma mkdirSync_exists p q d :
  existsSync q d = true → existsSync q (mkdirSync p d) = true.
Proof.
  destruct p, q; cbn; try done.
  - intros H. by apply andb_true_iff in H as [_ ->].
  - intros H. apply andb_true_iff in H as [_ H].
    apply bool_decide_eq_true in H. apply bool_decide_eq_true.
    destruct (decide (name = name0)) as [<- |].
    + by rewrite lookup_insert_eq.
    + by rewrite lookup_insert_ne.
Qed.

Lemma mkdirSync_self p d : existsSync p (mkdirSync p d) = true.
Proof.
  destruct p; cbn; [done.. |]. apply bool_decide_eq_true.
  by rewrite lookup_insert_eq.
Qed.

(** [createShow] removes nothing, and the folder is there afterwards. *)
Lemma createShow_keeps n d b d' q :
  createShow n d = Some (b, d') → existsSync q d = true → existsSync q d' = true.
Proof.
  unfold createShow. destruct (getShowDir n) as [p |]; [| done].
  destruct (existsSync p d); cbn [negb]; intros [= <- <-]; [done |].
  intros H. by apply writeShowFiles_exists, mkdirSync_exists.
Qed.

Lemma createShow_makes n d b d' p :
  createShow n d = Some (b, d') → getShowDir n = Some p → existsSync p d' = true.
Proof.
  unfold createShow. intros H Hp. rewrite Hp in H.
  destruct (existsSync p d) eqn:E; cbn [negb] in H; injection H as <- <-; [done |].
  apply writeShowFiles_exists, mkdirSync_self.
Qed.

Lemma showHome_disk d s :
  showHome s →
  (∀ q, existsSync q (showDisk s) = true → existsSync q d = true) →
  showHome (set_showDisk d s).
Proof.
  intros (Hs & Hc & He) Hd. repeat split; [done.. |]. cbn.
  unfold showExists in *. destruct (getShowDir (currentShowName s)) as [p |]; [| done].
  injection He as He. by rewrite (Hd p He).
Qed.

(** [switchShow] ends, by return or by exception, with the current show in
    its folder; when it returns the current show is the one asked for. *)
Lemma switchShow_home n s :
  isString n = true → showHome s →
  showHome (stateOf (switchShow n s)) ∧
  ∀ s1, switchShow n s = Returned s1 → currentShowName s1 = n.
Proof.
  intros Hn Hs. unfold switchShow.
  destruct (getShowDir n) as [p |] eqn:Hp; [| done].
  set (created := if negb _ then _ else _).
  assert (created = None ∨
          ∃ b d, created = Some (b, d) ∧ existsSync p d = true) as [-> | (b & d & -> & Hd)].
  { unfold created. destruct (existsSync p (showDisk s)) eqn:E; cbn [negb].
    - right. by exists false, (showDisk s).
    - destruct (createShow n (showDisk s)) as [[b d] |] eqn:Hc; [| by left].
      right. exists b, d. split; [done |]. by apply (createShow_makes n _ b d p Hc). }
  { done. }
  set (s1 := ShowState d n n _ _).
  assert (showHome s1) as Hs1.
  { destruct Hs as (_ & Hc & _). repeat split; [done.. |].
    cbn. unfold showExists. by rewrite Hp, Hd. }
  unfold saveGlobalSettings. destruct (existsSync DATA_DIR (showDisk s1)); [| done].
  unfold loadShowData. cbn [currentShowName showDisk s1]. rewrite Hp, Hd. cbn [negb].
  split; [done |]. by intros s2 [= <-].
Qed.

Lemma showHome_names s : showHome s → isString (currentShowName s) = true.
Proof. by intros (? & _). Qed.

(** The folder of a name that is not blank, [.] or [..] is not the folder
    of any other show. *)
Lemma plain_folder_apart n m e p :
  isString n = true → blank n = false → n ≠ units "." → n ≠ units ".." →
  isString m = true → effectiveName m ≠ n →
  getShowDir n = Some (InShows e) → getShowDir m = Some p → p ≠ InShows e.
Proof.
  intros Hn Hb Hd1 Hd2 Hm Hne Hgn Hgm ->.
  rewrite getShowDir_unfold in Hgn, Hgm.
  assert (effectiveName n = n) as Hen by (unfold effectiveName; by rewrite Hb).
  rewrite Hen in Hgn.
  destruct (encodeShowName n) as [en |] eqn:Een; [| done].
  destruct (encodeShowName (effectiveName m)) as [em |] eqn:Eem; [| done].
  cbn in Hgn, Hgm. injection Hgn as Hgn. injection Hgm as Hgm.
  apply joinShows_InShows_inv in Hgn, Hgm. subst en em.
  apply Hne. apply (encodeShowName_inj _ _ e); [| | done | done].
  - apply (encodeShowName_wellFormed _ e); [| done]. by apply blank_isString_effective.
  - by apply (encodeShowName_wellFormed _ e).
Qed.

Lemma deleteShow_home n s :
  isString n = true → blank n = false → n ≠ units "." → n ≠ units ".." →
  showHome s → effectiveName (currentShowName s) ≠ n →
  ∀ b d, deleteShow n (showDisk s) = Some (b, d) → showHome (set_showDisk d s).
Proof.
  intros Hn Hb Hd1 Hd2 (Hc & Hk & He) Hne b d. unfold deleteShow.
  destruct (decide (n = units "Default")); [intros [= <- <-]; by repeat split |].
  destruct (getShowDir n) as [p |] eqn:Hp; [| done].
  assert (∃ e, p = InShows e) as [e ->].
  { rewrite getShowDir_unfold in Hp. unfold effectiveName in Hp. rewrite Hb in Hp.
    destruct (encodeShowName n) as [e |] eqn:Ee; [| done].
    injection Hp as <-. exists e.
    apply (joinShows_plain n); [| done..]. by apply (encodeShowName_wellFormed _ e). }
  destruct (existsSync (InShows e) (showDisk s)); intros [= <- <-]; [| by repeat split].
  repeat split; [done.. |]. cbn [set_showDisk showDisk currentShowName].
  unfold showExists in *.
  destruct (getShowDir (currentShowName s)) as [q |] eqn:Hq; [| done].
  injection He as He. rewrite <- (rmSync_other e q (showDisk s)) in He.
  - exact (f_equal Some He).
  - by apply (plain_folder_apart n (currentShowName s) e q).
Qed.

Lemma showStep_home ev s :
  plainRequest ev → showHome s → showHome (showStep ev s).
Proof.
  intros Hev Hs. destruct ev as [n | n | | n | n]; cbn [showStep plainRequest] in *.
  - unfold apiShowsSwitch. destruct n as [[| c r] |]; [done | | done].
    pose proof (switchShow_home (c :: r) s (Hev _ eq_refl) Hs) as [H _].
    by destruct (switchShow (c :: r) s).
  - unfold apiShowsCreate. destruct n as [[| c r] |]; [done | | done].
    destruct (blank (c :: r)); [done |].
    destruct (createShow _ _) as [[b d] |] eqn:Hc; [| done].
    apply showHome_disk; [done |]. intros q. by apply (createShow_keeps _ _ b d q Hc).
  - unfold apiShowsLoadFromEos.
    destruct (negb (showConnected s) || missing (connectedEOSShowName s)) eqn:Hg; [done |].
    destruct (connectedEOSShowName s) as [x |] eqn:Hx;
      [| cbn [missing] in Hg; by rewrite orb_true_r in Hg].
    cbn [default from_option id]. assert (isString x = true) as Hsx.
    { destruct Hs as (_ & Hk & _). by apply Hk. }
    destruct (showExists x (showDisk s)) as [found |]; [| done].
    set (created := if negb found then _ else _).
    assert (created = None ∨ ∃ b d, created = Some (b, d) ∧
              ∀ q, existsSync q (showDisk s) = true → existsSync q d = true)
      as [-> | (b & d & -> & Hd)]; [| done |].
    { unfold created. destruct found; cbn [negb].
      - right. by exists false, (showDisk s).
      - destruct (createShow x (showDisk s)) as [[b d] |] eqn:Hc; [| by left].
        right. exists b, d. split; [done |]. intros q. by apply (createShow_keeps _ _ b d q Hc). }
    pose proof (switchShow_home x (set_showDisk d s) Hsx (showHome_disk d s Hs Hd)) as [H _].
    by destruct (switchShow x (set_showDisk d s)).
  - destruct Hev as (Hn & Hb & Hd1 & Hd2). unfold apiShowsDelete.
    destruct (decide (n = units "Default")) as [| Hdef]; [done |].
    set (switched := if decide _ then _ else _).
    assert (showHome (stateOf switched) ∧
            ∀ s1, switched = Returned s1 → effectiveName (currentShowName s1) ≠ n)
      as [Hs1 Hcur].
    { unfold switched. destruct (decide (n = currentShowName s)) as [Heq | Hne].
      - destruct (switchShow_home (units "Default") s eq_refl Hs) as [H1 H2].
        split; [done |]. intros s1 Hr. rewrite (H2 s1 Hr). by intros <-.
      - split; [done |]. intros s1 [= <-]. unfold effectiveName.
        destruct (blank (currentShowName s)); congruence. }
    destruct switched as [s1 | s1]; [| done]. cbn [stateOf] in Hs1.
    destruct (deleteShow n (showDisk s1)) as [[b d] |] eqn:Hdel; [| done].
    pose proof (deleteShow_home n s1 Hn Hb Hd1 Hd2 Hs1 (Hcur s1 eq_refl) b d Hdel) as H.
    destruct b; [done |]. unfold deleteShow in Hdel.
    by repeat case_match.
  - unfold onShowName.
    set (s1 := ShowState _ _ _ n _).
    assert (showHome s1) as Hs1 by (destruct Hs as (? & _ & ?); by repeat split).
    destruct n as [[| c r] |]; [done | | done].
    destruct (negb _); [| done].
    by destruct (switchShow_home (c :: r) s1 (Hev _ eq_refl) Hs1) as [H _].
Qed.

(** X21: whatever sequence of requests to
    switch, create, load from the console and delete shows and of show
    names sent by the console is handled, the folder of the current show
    exists afterwards, as long as no delete request names a blank show,
    [.] or [..]: deleting the current show switches to [Default] first, and
    no other name shares its folder. *)
Theorem current_show_keeps_its_folder (evs : list show_event) (s : show_state) :
  showHome s → Forall plainRequest evs →
  showHome (showRun evs s) ∧
  showExists (currentShowName (showRun evs s)) (showDisk (showRun evs s)) = Some true.
Proof.
  intros Hs Hevs.
  assert (showHome (showRun evs s)) as H; [| split; [done | apply H]].
  revert s Hs. induction Hevs as [| ev evs Hev _ IH]; intros s Hs; [done |].
  cbn [showRun foldl]. apply IH. by apply showStep_home.
Qed.

Lemma current_show_keeps_its_folder_witness :
  showHome (showRun [ShSwitch (Some sampleShow); ShDelete sampleShow;
                     ShDelete (units "Hamlet (1)")] sampleShows) ∧
  showExists
    (currentShowName (showRun [ShSwitch (Some sampleShow); ShDelete sampleShow;
                               ShDelete (units "Hamlet (1)")] sampleShows))
    (showDisk (showRun [ShSwitch (Some sampleShow); ShDelete sampleShow;
                        ShDelete (units "Hamlet (1)")] sampleShows)) = Some true.
Proof.
  apply (current_show_keeps_its_folder
           [ShSwitch (Some sampleShow); ShDelete sampleShow;
            ShDelete (units "Hamlet (1)")] sampleShows).
  - by repeat split.
  - repeat constructor; try done. by intros x [= <-].
Defined.

(** A delete request with a blank name is not refused and removes the
    folder of [Default] while it is the current show. *)
Example blank_delete_removes_current_folder :
  (apiShowsDelete (units " ") sampleShows).1 = 200%Z ∧
  currentShowName (showStep (ShDelete (units " ")) sampleShows) = units "Default" ∧
  showExists (units "Default")
    (showDisk (showStep (ShDelete (units " ")) sampleShows)) = Some false.
Proof. by vm_compute. Qed.

End ShowEndpoints.

Section StoreOrder.
Local Open Scope list_scope.

(** ** The store after a creation *)

Lemma sub_negative p q :
  Js.num_ltb (Js.num_sub (Num p) (Num q)) (numZ 0) = true ↔ (p < q)%Q.
Proof.
  unfold Js.num_ltb, Js.num_sub, Js.qred, numZ.
  destruct (Qcompare_spec (Qred (p - q)) (inject_Z 0)) as [H | H | H];
    rewrite Qred_correct in H; unfold inject_Z in H; split; intros; try done; lra.
Qed.

(** On cues without [NaN] the comparator is negative exactly when the
    first cue comes before the second. *)
Lemma sortCompare_negative x y kx ky :
  sortKey x = Some kx → sortKey y = Some ky →
  Js.num_ltb (sortCompare x y) (numZ 0) = true ↔ keyLt kx ky.
Proof.
  unfold sortKey, sortCompare. intros Hx Hy.
  destruct (Js.parseInt (listOf x)) as [| a]; [done |].
  destruct (Js.parseFloat (fld x "cue_number")) as [| b]; [done |].
  destruct (Js.toNumber (partOf x)) as [| p]; [done |].
  destruct (Js.parseInt (listOf y)) as [| a']; [done |].
  destruct (Js.parseFloat (fld y "cue_number")) as [| b']; [done |].
  destruct (Js.toNumber (partOf y)) as [| p']; [done |].
  injection Hx as <-. injection Hy as <-. cbn [keyLt Js.num_eqb].
  destruct (Qeq_bool a a') eqn:Ea; cbn [negb].
  - apply Qeq_bool_iff in Ea.
    destruct (Qeq_bool b b') eqn:Eb; cbn [negb]; rewrite sub_negative.
    + apply Qeq_bool_iff in Eb. split; [intros; right; by auto | intros; lra].
    + apply Qeq_bool_neq in Eb. split; [intros; right; by auto | intros; lra].
  - apply Qeq_bool_neq in Ea. rewrite sub_negative. split; [by left | intros; lra].
Qed.

Lemma keyLt_le k k' : keyLt k k' → keyLe k k'.
Proof. destruct k as [[a b] p], k' as [[a' b'] p']. cbn. intros; lra. Qed.

Lemma keyLe_total k k' : ¬ keyLt k k' → keyLe k' k.
Proof. destruct k as [[a b] p], k' as [[a' b'] p']. cbn. intros; lra. Qed.

Lemma keyLe_trans k1 k2 k3 : keyLe k1 k2 → keyLe k2 k3 → keyLe k1 k3.
Proof.
  destruct k1 as [[a1 b1] p1], k2 as [[a2 b2] p2], k3 as [[a3 b3] p3].
  cbn. intros; lra.
Qed.

Lemma digit_plain c :
  Js.is_digit c = true →
  Js.is_ws c = false ∧ Ascii.eqb c "-"%char = false ∧ Ascii.eqb c "+"%char = false.
Proof. destruct c as [[|] [|] [|] [|] [|] [|] [|] [|]]; vm_compute; intros; by repeat split. Qed.

Lemma span_head (p : ascii → bool) l a ip rest :
  Js.span p l = (a :: ip, rest) → ∃ l', l = a :: l' ∧ p a = true.
Proof.
  destruct l as [| c l]; [done |]. cbn [Js.span].
  destruct (p c) eqn:Hc; [| done].
  destruct (Js.span p l) as [x y]. intros [= <- _ _]. by exists l.
Qed.

(** A numeral that starts with a digit is read without trimming and
    without sign. *)
Lemma read_prefix c l :
  Js.is_digit c = true →
  Js.read_sign (Js.trimStart (c :: l)) = (false, c :: l).
Proof.
  intros Hc. destruct (digit_plain c Hc) as (Hw & Hm & Hp).
  unfold Js.trimStart. cbn [Js.span]. rewrite Hw. cbn [snd Js.read_sign].
  by rewrite Hm, Hp.
Qed.

Lemma parseInt_digits l : digitString l = true → ∃ q, Js.parseInt_str l = Num q.
Proof.
  unfold digitString, Js.parseInt_str. destruct (Js.chars l) as [| c r]; [done |].
  intros H. apply andb_prop in H as [H _]. cbn [forallb] in H.
  apply andb_prop in H as [Hc _]. rewrite (read_prefix c r Hc).
  cbn [Js.span]. rewrite Hc. destruct (Js.span Js.is_digit r) as [a b].
  by eexists.
Qed.

Lemma parseFloat_decimal n : decimalString n = true → ∃ q, Js.parseFloat_str n = Num q.
Proof.
  unfold decimalString, Js.parseFloat_str.
  destruct (Js.span Js.is_digit (Js.chars n)) as [[| a ip] rest] eqn:Hs; [done |].
  intros _. destruct (span_head _ _ _ _ _ Hs) as (l' & Hl & Ha).
  rewrite Hl in Hs |- *. rewrite (read_prefix a l' Ha).
  unfold Js.read_decimal. rewrite Hs.
  destruct rest as [| c rest]; [by eexists |].
  destruct (Ascii.eqb c "."%char); [| by eexists].
  destruct (Js.span Js.is_digit rest) as [fp rest'']. by eexists.
Qed.

(** A cue with plain numbers has no [NaN] among the three. *)
Lemma plainCue_numeric c : plainCue c = true → numericCue c = true.
Proof.
  unfold plainCue, numericCue, sortKey, Js.parseInt, Js.parseFloat.
  destruct (listOf c) as [| | | | l |]; try done.
  destruct (fld c "cue_number") as [| | | | n |]; try done.
  destruct (partOf c) as [| | | [| p] | |]; try done.
  intros H. apply andb_prop in H as [H _]. apply andb_prop in H as [H _].
  apply andb_prop in H as [Hl Hn].
  destruct (parseInt_digits l Hl) as [q Hq]. destruct (parseFloat_decimal n Hn) as [q' Hq'].
  change (Js.toStr (VStr l)) with l. change (Js.toStr (VStr n)) with n.
  by rewrite Hq, Hq'.
Qed.

Lemma numericCue_key c : numericCue c = true → ∃ k, sortKey c = Some k.
Proof. unfold numericCue. destruct (sortKey c) as [k |]; [by exists k | done]. Qed.

Lemma inOrder_trans x y z : inOrder x y → inOrder y z → inOrder x z.
Proof.
  unfold inOrder. destruct (sortKey x), (sortKey y), (sortKey z); try done.
  apply keyLe_trans.
Qed.

(** [sortInsert] puts a cue into a store in order at its place. *)
Lemma sortInsert_sorted x l :
  numericCue x = true → forallb numericCue l = true →
  StronglySorted inOrder l → StronglySorted inOrder (sortInsert x l).
Proof.
  intros Hx Hl Hs. destruct (numericCue_key x Hx) as [kx Hkx].
  induction Hs as [| y l Hs IH Hy]; cbn [sortInsert].
  - by repeat constructor.
  - cbn [forallb] in Hl. apply andb_true_iff in Hl as [Hny Hl].
    destruct (numericCue_key y Hny) as [ky Hky].
    pose proof (sortCompare_negative x y kx ky Hkx Hky) as Hcmp.
    destruct (Js.num_ltb (sortCompare x y) (numZ 0)).
    + assert (inOrder x y) as Hxy.
      { unfold inOrder. rewrite Hkx, Hky. by apply keyLt_le, Hcmp. }
      constructor; [by constructor |]. constructor; [done |].
      eapply Forall_impl; [exact Hy |]. intros z Hz. by apply (inOrder_trans x y z).
    + assert (inOrder y x) as Hyx.
      { unfold inOrder. rewrite Hkx, Hky. apply keyLe_total. intros H.
        by apply Hcmp in H. }
      constructor; [by apply IH |].
      rewrite sortInsert_perm. by constructor.
Qed.

Lemma sortLoop_sorted l acc :
  forallb numericCue l = true → forallb numericCue acc = true →
  StronglySorted inOrder acc →
  StronglySorted inOrder (foldl (fun acc x => sortInsert x acc) acc l).
Proof.
  revert acc. induction l as [| x l IH]; intros acc Hl Hacc Hs; [done |].
  cbn [forallb] in Hl. apply andb_true_iff in Hl as [Hx Hl]. cbn [foldl].
  apply IH; [done | | by apply sortInsert_sorted].
  apply forallb_forall. intros c Hc. apply list_elem_of_In in Hc.
  rewrite sortInsert_perm in Hc. apply elem_of_cons in Hc as [-> | Hc]; [done |].
  rewrite forallb_forall in Hacc. by apply Hacc, list_elem_of_In.
Qed.

(** X22: when [updateOrCreateCue] finds no
    cue under the key and creates one, the store it leaves is in ascending
    order of list, then cue number, then part, whatever the order was
    before, provided every cue of it, the new one included, has plain
    numbers: a list of digits, a cue number of digits with an optional
    fraction (no sign, exponent or other character; at most 15 digits) and
    an integer part.  On such cues the comparator of [cues.sort] has the
    sign of the comparison of the three numbers. *)
Theorem created_cue_leaves_store_in_order (n : string) (u : updates) (s : state) :
  lookupKey (cueKeyOf n u) (cues s) = None →
  forallb plainCue (cues (updateOrCreateCue n u s)) = true →
  StronglySorted inOrder (cues (updateOrCreateCue n u s)).
Proof.
  intros Hnew Hplain.
  assert (forallb numericCue (cues (updateOrCreateCue n u s)) = true) as Hnum.
  { apply forallb_forall. intros c Hc. apply plainCue_numeric.
    rewrite forallb_forall in Hplain. by apply Hplain. }
  clear Hplain. rewrite upsert_cues in Hnum |- *.
  unfold lookupKey in Hnew.
  destruct (findIndex _ (cues s)) as [[i e] |]; [done |].
  unfold sortCues in *. apply sortLoop_sorted; [| done | constructor].
  apply forallb_forall. intros c Hc. rewrite forallb_forall in Hnum. apply Hnum.
  apply list_elem_of_In. rewrite foldl_sortInsert_perm. by apply list_elem_of_In.
Qed.

Lemma created_cue_leaves_store_in_order_witness :
  StronglySorted inOrder
    (cues (updateOrCreateCue "1.5" [("cue_list", VStr "1")] orderedStore)).
Proof.
  apply (created_cue_leaves_store_in_order "1.5" [("cue_list", VStr "1")] orderedStore).
  - by vm_compute.
  - by vm_compute.
Defined.

(** The cue numbers of the sample store after the creation, in the order
    of the store. *)
Example created_cue_order_sample :
  map (fun c => (fld c "cue_list", fld c "cue_number", fld c "part_number"))
      (cues (updateOrCreateCue "1.5" [("cue_list", VStr "1")] orderedStore)) =
  [(VStr "1", VStr "1", VInt 0); (VStr "1", VStr "1.5", VInt 0);
   (VStr "1", VStr "2", VInt 0); (VStr "1", VStr "2", VInt 1);
   (VStr "1", VStr "10", VInt 0); (VStr "2", VStr "1", VInt 0)].
Proof. by vm_compute. Qed.

End StoreOrder.

Section PollRound.
Local Open Scope list_scope.

(** ** One round of polls *)

Lemma pollerSent_app evs evs' p :
  pollerSent (evs ++ evs') p = pollerSent evs p ++ pollerSent evs' (pollerRun evs p).
Proof.
  revert p. induction evs as [| [now e] evs IH]; intros p; [done |].
  cbn [app pollerSent pollerRun foldl]. rewrite IH, <- app_assoc. done.
Qed.

Lemma pollerRun_app evs evs' p :
  pollerRun (evs ++ evs') p = pollerRun evs' (pollerRun evs p).
Proof. apply foldl_app. Qed.

(** The requests waiting: the queue, or what the next refill puts there. *)
Lemma refill_addresses lists from :
  map (fun r => "/eos/get/cue/" +:+ pr_list r +:+ "/" +:+ seen_str (pr_type r))
      (refill lists from) =
  flat_map (fun l => [pollAddress l Active; pollAddress l Pending]) lists.
Proof.
  revert from. induction lists as [| l lists IH]; intros from; [done |].
  cbn [refill map flat_map app pr_list pr_type]. by rewrite IH.
Qed.

Lemma refill_length lists from : length (refill lists from) = (2 * length lists)%nat.
Proof.
  revert from. induction lists as [| l lists IH]; intros from; [done |].
  cbn [refill length]. rewrite IH. lia.
Qed.

(** A silent second sends the first request waiting and leaves the rest. *)
Lemma silentSecond_sends t p r rest :
  pollReady p →
  match activePollingQueue p with
  | [] => refill (knownCueLists p) (created p)
  | q => q
  end = r :: rest →
  pollerSent (silentSecond t) p =
    ["/eos/get/cue/" +:+ pr_list r +:+ "/" +:+ seen_str (pr_type r)] ∧
  pollReady (pollerRun (silentSecond t) p) ∧
  activePollingQueue (pollerRun (silentSecond t) p) = rest ∧
  knownCueLists (pollerRun (silentSecond t) p) = knownCueLists p.
Proof.
  intros (Hi & Hc & Hb & Hf & Ht) Hq.
  unfold silentSecond. cbn [pollerSent pollerRun foldl pollerStep polled fst snd].
  assert (pollTick t p =
          (Poller (set_poll (Some (pr_list r, pr_type r)) true (core p))
             true (knownCueLists p) true rest (Some (pr_object r))
             (match activePollingQueue p with
              | [] => (created p + 2 * length (knownCueLists p))%nat
              | _ => created p
              end)
             [((t + 600)%Z, pr_object r)],
           Some ("/eos/get/cue/" +:+ pr_list r +:+ "/" +:+ seen_str (pr_type r)))) as ->.
  { unfold pollTick, processNextPollRequest. rewrite Hi, Hc, Hb, Hf, Ht. cbn [negb orb].
    destruct (activePollingQueue p) as [| r0 q0]; [by rewrite Hq | by injection Hq as -> ->]. }
  cbn [fst snd option_list app].
  set (p1 := Poller _ _ _ _ _ _ _ _).
  assert (pollTick (t + 500) p1 = (p1, None)) as ->.
  { unfold pollTick. cbn [activeCuePoller isConnected core p1 negb orb].
    cbn [set_poll refresh activePollingInProgress]. rewrite Hb. done. }
  cbn [fst snd option_list app]. split; [done |].
  unfold pollTimeout. cbn [pollTimeouts p1 lookup list_lookup].
  cbn [core p1 set_poll activePollingInProgress currentPollRequest currentPollObject andb].
  rewrite !bool_decide_eq_true_2 by done.
  cbn [andb]. by repeat split.
Qed.

Lemma silentSeconds_queue rest : ∀ r p t,
  pollReady p →
  match activePollingQueue p with
  | [] => refill (knownCueLists p) (created p)
  | q => q
  end = r :: rest →
  pollerSent (silentSeconds (S (length rest)) t) p =
    map (fun r => "/eos/get/cue/" +:+ pr_list r +:+ "/" +:+ seen_str (pr_type r))
        (r :: rest) ∧
  pollReady (pollerRun (silentSeconds (S (length rest)) t) p) ∧
  activePollingQueue (pollerRun (silentSeconds (S (length rest)) t) p) = [] ∧
  knownCueLists (pollerRun (silentSeconds (S (length rest)) t) p) = knownCueLists p.
Proof.
  induction rest as [| r' rest IH]; intros r p t Hp Hq.
  - cbn [length silentSeconds]. rewrite app_nil_r.
    by apply silentSecond_sends.
  - destruct (silentSecond_sends t p r (r' :: rest) Hp Hq) as (Hs & Hp1 & Hq1 & Hk1).
    change (silentSeconds (S (length (r' :: rest))) t)
      with (silentSecond t ++ silentSeconds (S (length rest)) (t + 1000)).
    rewrite pollerSent_app, pollerRun_app, Hs.
    destruct (IH r' (pollerRun (silentSecond t) p) (t + 1000)%Z Hp1) as (Hs2 & Hp2 & Hq2 & Hk2).
    { by rewrite Hq1. }
    split; [by rewrite Hs2 | split; [done | split; [done | by rewrite Hk2]]].
Qed.

(** X23: with a console that answers no
    poll, a poller that is running, connected and free with an empty queue
    asks for the active and then the pending cue of every known list, in
    the order the lists were discovered, one request per second (the tick
    500 ms after a request finds the poll still in progress and the
    time-out frees the slot 100 ms later); after two seconds per list the
    queue is empty again and the next tick starts the same round. *)
Theorem silent_console_polls_every_list (t : Z) (p : poller) :
  pollReady p → activePollingQueue p = [] →
  pollerSent (silentSeconds (2 * length (knownCueLists p)) t) p =
    flat_map (fun l => [pollAddress l Active; pollAddress l Pending])
      (knownCueLists p) ∧
  pollReady (pollerRun (silentSeconds (2 * length (knownCueLists p)) t) p) ∧
  activePollingQueue (pollerRun (silentSeconds (2 * length (knownCueLists p)) t) p) = [] ∧
  knownCueLists (pollerRun (silentSeconds (2 * length (knownCueLists p)) t) p) =
    knownCueLists p.
Proof.
  intros Hp Hq.
  rewrite <- (refill_addresses (knownCueLists p) (created p)).
  rewrite <- (refill_length (knownCueLists p) (created p)).
  destruct (refill (knownCueLists p) (created p)) as [| r rest] eqn:Hr.
  - cbn [length silentSeconds pollerSent pollerRun foldl map].
    split; [done | split; [exact Hp | split; [exact Hq | done]]].
  - apply silentSeconds_queue; [done |]. by rewrite Hq.
Qed.

Lemma silent_console_polls_every_list_witness :
  pollerSent (silentSeconds 6 0) threeLists =
    ["/eos/get/cue/1/active"; "/eos/get/cue/1/pending";
     "/eos/get/cue/2/active"; "/eos/get/cue/2/pending";
     "/eos/get/cue/5/active"; "/eos/get/cue/5/pending"] ∧
  pollReady (pollerRun (silentSeconds 6 0) threeLists) ∧
  activePollingQueue (pollerRun (silentSeconds 6 0) threeLists) = [] ∧
  knownCueLists (pollerRun (silentSeconds 6 0) threeLists) = [numZ 1; numZ 2; numZ 5].
Proof.
  apply (silent_console_polls_every_list 0 threeLists).
  - by repeat split.
  - done.
Defined.

End PollRound.
